(* ===== verification/_CoqProject ===== *)
-Q . S2P
Prelude.v
Helper.v
Bytes.v
CertPin.v
Protos.v
FilterSet.v
FilterSetConc.v
DelayLine.v
ProxyDelay.v
Rpc.v
Grpc.v
Forwarder.v
Challenges.v
Interceptor.v
AuthService.v
Mirror.v
KeyFiles.v
StakedNodes.v
Blockengine.v
BlockengineCalls.v
Startup.v
Wiring.v
TaskEnds.v
Shutdown.v
MirrorServe.v
Pipeline.v
