(* ===== verification/Prelude.v ===== *)
(** * Inertia relayer: verification library

    The program (src/, Rust) sits between the Solana network, a block engine and one
    validator.  Transactions arrive at its QUIC servers, are held back for 100 ms, mirrored
    to the Inertia server, filtered by the signatures that server names, and forwarded to the
    validator that is connected over gRPC; packets and bundles of the block engine take the
    same way.  This library models the program, from the command line to the last join of
    [main], and proves what its parts promise, alone and together.

    ** How the parts work together

<<
   QUIC/sigverify --> relayer delay thread --> forwarder --> validator (gRPC stream)
                          |  mirror, filter       ^
                          v                       | key from the interceptor
                     Inertia server          auth service (challenge, tokens)
                          ^ | filters, bundles
                          | v
   block engine --> pump --> delay_forward (packets, bundles) --> validator's streams
>>

    The delay tasks and the mirror share the filter set; the forwarder's handlers, its event
    loop and the mirror share the subscriptions; the calls of the auth service and its
    expiration task share the queue of challenges; the calls of the block-engine service share
    two pools of clients; and all of them share the exit flag.

    ** Files and what they model

    - Prelude.v: results and panics ([result], [outcome], with [let?] for the [?] operator and
      [let!] for [unwrap]), machine integers as [Z] with [wrap], times as nanoseconds, the
      [relayer] hint databases, shared tactics and list lemmas.
    - Helper.v: src/src/helper.rs: the loops that poll the exit flag, the signal task, the
      panic hook.
    - Bytes.v: bytes, slices, little-endian encodings, strings as bytes.
    - Protos.v: the messages of src/src/protos/protos/*.proto and src/src/protos/convert.rs.
    - FilterSet.v: [FilterSet] and the three filters of src/src/proxy/mod.rs, as sequential
      functions; FilterSetConc.v: the same operations step by step in any number of threads,
      with the mutex and the atomic length that is read without it.
    - DelayLine.v: the abstract delay line, and the class [DelayMachine] of the machines that
      refine it; ProxyDelay.v: the thread of [spawn_relayer_delay] ([rd_step]) and the task
      [delay_forward] ([df_step]) of src/src/proxy/mod.rs, as its two instances.
    - Rpc.v: the slot thread of src/src/rpc.rs ([sl_step]).
    - Grpc.v: statuses, the iteration order of hash maps, bounded channels.
    - Forwarder.v: src/src/relayer/forwarder.rs: subscriptions, batching, sending, heartbeats,
      and the event loop interleaved with subscribe calls ([fw_step]).
    - Challenges.v: src/src/relayer/auth/challenges.rs over the priority queue interface [Kpq].
    - Interceptor.v: src/src/relayer/auth/interceptor.rs: claims, header parsing, [str::split].
    - AuthService.v: src/src/relayer/auth/service.rs and auth/mod.rs: the handlers as programs
      over queue operations, clock and random generator ([prog]); [prog_run] runs one alone,
      [auth_step] interleaves any number of them with the expiration task.
    - CertPin.v and Mirror.v: src/src/proxy/mirror.rs: the certificate pin, datagram frames and
      counters, filter datagrams, bundle streams, the connection loop with its backoff;
      MirrorServe.v: its endpoint, and a connection served by four branches ([sv_step]).
    - KeyFiles.v: [load_or_generate_keys] of src/src/relayer/mod.rs and the keys
      [Relayer::new] makes of the files, over a tree of files and directories and with the
      panics the code can end in.
    - StakedNodes.v: src/src/relayer/staked_nodes_updater_service.rs.
    - Blockengine.v: src/src/blockengine/service.rs: client pool, handlers, and a subscription
      with its cancellation token ([ps_step]); BlockengineCalls.v: the calls of many
      validators interleaved at every wait, with the client pools they share ([bc_step]).
    - Startup.v: src/src/main.rs and the constructors it calls ([Rpc::new], [Relayer::new],
      [Tpu::new], [Forwarder::new], [Blockengine::new], [Proxy::new], [Mirror::new]) as
      programs in a monad that records the objects made and the tasks started; Wiring.v: the
      process they leave behind, and when they panic.
    - TaskEnds.v: why each of the long loops ends, as conditions proved of the machines
      [sl_step], [rd_step], [df_step], [fw_step] and [mr_step]; Shutdown.v: how the tasks of
      the process end with these conditions, as a transition system.
    - Pipeline.v: the delay thread and the event loop of the forwarder, composed with the
      bounded channel between them ([pl_step]).

    Definitions keep the names of the source; a method [m] of a type [T] is [T_m] where [m]
    alone would be ambiguous.  Threads and tasks are step functions from a state and an event
    (what the environment answers at an await, a receive, a clock reading) to a state and
    actions; their program counters name the points of the source they wait at.

    ** What the theorems show

    - Forwarding: both delay tasks refine the abstract delay line (first in, first out, at
      least 100 ms, nothing lost, everything mirrored once, filtered with the set at the
      moment it leaves the line), their inner loops end and leave nothing due, and the thread wakes
      up in time; batches for the validator hold exactly the packets that are convertible and
      not discarded, in order, cut at every 64th; a withheld transaction never gets into
      one; at most one validator is subscribed in every reachable state.  Composed
      ([pipeline_end_to_end]): what the validator is offered, under every scheduling, with the
      times and filter sets at which the run released each batch.
    - Filter set: exactly which packets and bundles are filtered, how long a signature stays,
      that the atomic length is right whenever the lock is free and that no filter overlooks
      a published signature, under every interleaving.
    - Authentication: tokens are issued only for a proof of possession of the key a pending
      challenge was made for, under every interleaving of calls; the number of pending
      challenges is bounded by the capacity and the number of calls in progress; the three
      calls on every branch; a challenge is redeemed once; claims survive a token up to the
      fraction of a second; exactly which requests the interceptor accepts; and the whole
      handshake from the first call to the forwarder's key.
    - Mirror: frames and bundle streams decode to what was sent, even when a stream breaks off
      inside a frame; every datagram is counted once; connections are used only while they
      are served; the backoff doubles from 250 ms to 5 s; the turns the four branches of a
      connection take do not matter; a server is accepted exactly when its certificate has
      the configured digest.
    - Block engine: the life of a subscription; validators never share a connection; and
      every call is answered once, with the reply its method promises.
    - Process: start-up succeeds exactly when its environment lets it, and connects the tasks
      so that nothing goes around the filter; its panics leave the stated remains and exit
      codes; the long loops end for their own reasons and no others, and can whenever they
      have one; a signal ends the process within a bounded number of steps, and nothing else
      does.
    - Around them: the key files on every outcome of a start, the stake map, the slot thread
      with its pause of a second between subscriptions, the polling of the exit flag.

    Some theorems state what the code does where that is probably not what was meant, among
    them [reconnect_before_cleanup_is_lost], [expired_token_accepted],
    [expired_challenge_redeemable], [relayer_keys_correct] (a stale verifying key, a signing
    key truncated by a failed write) and [only_a_signal_ends_process].

    ** Interfaces and assumptions

    Third-party code is behind classes whose laws state its documented behaviour, each with a
    concrete instance that satisfies them: [AddrText], [SolanaPacket], [PinCrypto],
    [HashIter], [Mpsc], [Kpq], [Chrono], [Jwt], [MetadataText], [Ed25519], [Datagrams],
    [BytesMut], [Prost], [RsaCrypto], [UpstreamClients].  The answers of the
    operating system and of third-party constructors at start-up are the records [Env],
    [FsEnv] and [QuicEnv].  Atomics are sequentially consistent: the sources use them with
    relaxed ordering only for flags, counters and the length of the filter set, and the
    model interleaves single accesses.  A pass of the forwarder over its subscribers is one
    step, in which the receiver neither takes messages nor goes away, and so is a run of the
    filter under the lock.  [Instant] clocks are monotone.
    Shutdown.v takes from tonic that a server that was told to stop ends when its streams
    have ended, and from the Solana crates that the QUIC servers end when their token is
    cancelled and the verification stage when its channel has no sender left.

    ** Fuel

    Every loop is structural, except three that carry fuel: [remove_expired_loop] starts with
    the length of the queue (each iteration removes an entry), [read_bundle_loop] with one
    more than the length of the input (each iteration reads four bytes), [poll_exit] with
    [poll_fuel], the number of intervals until the flag is set and two more; the theorems
    about them give the result, so the fuel suffices.

    ** Not modelled

    Logging, the texts of errors of third-party code (parameters or abstract), the
    command-line parser, the insides of tonic, quinn, rustls and the Solana crates (their
    configuration by this program is modelled), and src/src/protos/mod.rs, which includes
    generated code.  Paths are taken without symbolic links and without [..].  Start-up does not model the failure of a server to bind inside its
    task, nor Shutdown.v the panics of running tasks; the panic hook of Helper.v ends the
    process after either.

    Next in the plan: the block-engine path composed like the pipeline, from the pump through
    the broadcast channels and [delay_forward] to the validator's stream; the textual form
    of addresses, to discharge [AddrText]; and the liveness of the pipeline (a batch is
    taken within a bounded time when the event loop is scheduled). *)

From stdpp Require Export prelude gmap list strings sorting.

Local Open Scope Z_scope.

(** ** Results and panics

    [result] is Rust's [Result<T, E>]; [let?] is the [?] operator.  [outcome] is the
    result of code that may panic ([unwrap], [expect], [assert_eq!]). *)

Inductive result (A E : Type) : Type :=
| Ok (a : A)
| Err (e : E).

Arguments Ok {A E} a.
Arguments Err {A E} e.

Inductive outcome (A : Type) : Type :=
| Returns (a : A)
| Panics.

Arguments Returns {A} a.
Arguments Panics {A}.

Declare Scope rust_scope.
Delimit Scope rust_scope with rust.
Open Scope rust_scope.

Definition result_bind {A B E} (r : result A E) (k : A -> result B E) : result B E :=
  match r with Ok a => k a | Err e => Err e end.

Definition outcome_bind {A B} (o : outcome A) (k : A -> outcome B) : outcome B :=
  match o with Returns a => k a | Panics => Panics end.

Notation "'let?' x := r 'in' k" := (result_bind r (fun x => k))
  (at level 10, x binder, r at level 100, k at level 200) : rust_scope.
Notation "'let!' x := r 'in' k" := (outcome_bind r (fun x => k))
  (at level 10, x binder, r at level 100, k at level 200) : rust_scope.

(** [Option::ok_or] and [Result::map_err]. *)
Definition ok_or {A E} (o : option A) (e : E) : result A E :=
  match o with Some a => Ok a | None => Err e end.

Definition map_err {A E F} (f : E -> F) (r : result A E) : result A F :=
  match r with Ok a => Ok a | Err e => Err (f e) end.

(** [Option::unwrap]. *)
Definition unwrap {A} (o : option A) : outcome A :=
  match o with Some a => Returns a | None => Panics end.

(** ** Machine integers

    A [w]-bit unsigned integer is a [Z] in [[0, 2^w)]; the release profile of the crate
    has no overflow checks, so [+], [-] and [as] wrap. *)

Definition wrap (w : Z) (z : Z) : Z := z mod 2 ^ w.
Definition u16_sub (a b : Z) : Z := wrap 16 (a - b).
Definition u64_add (a b : Z) : Z := wrap 64 (a + b).

(** ** Time

    [Instant], [Duration] and [NaiveDateTime] are counts of nanoseconds. *)

Definition NANOS : Z := 1000000000.
Definition from_secs (s : Z) : Z := s * NANOS.
Definition from_millis (ms : Z) : Z := ms * 1000000.

(** [Instant::elapsed] and [Instant::saturating_duration_since] saturate at zero. *)
Definition saturating_duration_since (later earlier : Z) : Z := Z.max 0 (later - earlier).
Definition elapsed (now at_ : Z) : Z := saturating_duration_since now at_.

(** ** Automation

    [simp_result] takes apart every [result], [option] and boolean test a handler
    branches on; the [relayer] database holds the component lemmas. *)

Create HintDb relayer.
Create Rewrite HintDb relayer.

Ltac simp_result :=
  repeat match goal with
  | H : Ok _ = Err _ |- _ => discriminate H
  | H : Err _ = Ok _ |- _ => discriminate H
  | H : Ok ?a = Ok ?b |- _ => injection H as H; try subst
  | H : Err ?a = Err ?b |- _ => injection H as H; try subst
  | H : context [result_bind _ _] |- _ => unfold result_bind in H
  | H : context [ok_or _ _] |- _ => unfold ok_or in H
  | H : context [map_err _ _] |- _ => unfold map_err in H
  | |- context [result_bind _ _] => unfold result_bind
  | |- context [ok_or _ _] => unfold ok_or
  | |- context [map_err _ _] => unfold map_err
  end.

(** Case analysis on the innermost scrutinee of a match in a hypothesis or the goal. *)
Ltac break_match_in H :=
  match type of H with
  | context [match ?x with _ => _ end] =>
      lazymatch x with
      | context [match _ with _ => _ end] => fail
      | _ => destruct x eqn:?
      end
  end.

Ltac break_match :=
  match goal with
  | |- context [match ?x with _ => _ end] =>
      lazymatch x with
      | context [match _ with _ => _ end] => fail
      | _ => destruct x eqn:?
      end
  end.

(** ** Lemmas shared by the components *)

Lemma wrap_small w z : 0 <= w -> 0 <= z < 2 ^ w -> wrap w z = z.
Proof. intros _ H. apply Z.mod_small, H. Qed.

Lemma wrap_range w z : 0 <= w -> 0 <= wrap w z < 2 ^ w.
Proof. intros Hw. apply Z.mod_pos_bound, Z.pow_pos_nonneg; lia. Qed.

Lemma u64_add_range a b : 0 <= u64_add a b < 2 ^ 64.
Proof. apply wrap_range. lia. Qed.

Lemma u64_add_small a b : 0 <= a -> 0 <= b -> a + b < 2 ^ 64 -> u64_add a b = a + b.
Proof. intros. apply wrap_small; lia. Qed.

Section list_lemmas.
Context {A : Type}.
Implicit Types (f : A -> bool) (l : list A).

Lemma filter_bool_sublist f l : sublist (List.filter f l) l.
Proof.
  induction l as [|x l IH]; simpl; [constructor|].
  destruct (f x); [by apply sublist_skip | by apply sublist_cons].
Qed.

Lemma elem_of_filter_bool f l x : x ∈ List.filter f l <-> x ∈ l /\ f x = true.
Proof. rewrite !list_elem_of_In. apply filter_In. Qed.

Lemma filter_bool_all f l : (forall x, x ∈ l -> f x = true) -> List.filter f l = l.
Proof.
  induction l as [|x l IH]; intros H; [done|]. simpl.
  rewrite H by left. f_equal. apply IH. intros y Hy. apply H. by right.
Qed.

Lemma filter_bool_none f l : (forall x, x ∈ l -> f x = false) -> List.filter f l = [].
Proof.
  induction l as [|x l IH]; intros H; [done|]. simpl.
  rewrite H by left. apply IH. intros y Hy. apply H. by right.
Qed.

End list_lemmas.

#[export] Hint Resolve wrap_range u64_add_range filter_bool_sublist : relayer.
