(* ===== verification/Helper.v ===== *)
(** * Exit flag, signals and panics (src/src/helper.rs)

    Every part of the program stops when one shared flag becomes true.  The flag is set by the
    tasks that wait for an operating-system signal, by the panic hook and by the forwarder
    thread when it fails, and it is never reset.  The file models the loops that poll the
    flag ([wait_for_exit], the cancel watcher of the TPU), the signal tasks, and the hook
    [graceful_panic] installs. *)

From S2P Require Import Prelude.

Local Open Scope Z_scope.

Definition EXIT_POLL_INTERVAL : Z := from_millis 100.
Definition CANCEL_POLL_INTERVAL : Z := from_millis 500.

(** ** Polling *)

Section polling.

(** [flag t] is the value of the flag at time [t]; [wake d] is the time of the next look at it
    after a sleep until [d]. *)
Context (flag : Z -> bool) (wake : Z -> Z).

(** [while !exit.load() { sleep(interval) }] from time [now] on: the time it ends. *)
Fixpoint poll_exit (interval : Z) (fuel : nat) (now : Z) : option Z :=
  match fuel with
  | O => None
  | S fuel' =>
      if flag now then Some now else poll_exit interval fuel' (wake (now + interval))
  end.

Definition wait_for_exit : nat -> Z -> option Z := poll_exit EXIT_POLL_INTERVAL.

(** The thread [tpu-cancel-watcher]: the time it cancels the token. *)
Definition tpu_cancel_watcher : nat -> Z -> option Z := poll_exit CANCEL_POLL_INTERVAL.

(** Iterations that suffice for a flag set at [t_set]. *)
Definition poll_fuel (interval now t_set : Z) : nat :=
  S (Z.to_nat ((t_set - now) / interval + 1)).

End polling.

(** ** Signals *)

Inductive ss_pc := SsSelect | SsDone | SsPanicked.

(** One call of [shutdown_signal]: where it is, whether the handler of SIGTERM has been
    installed, and the exit flag. *)
Record ss_state := { ss_pc_ : ss_pc; ss_term_handler : bool; ss_exit : bool }.

(** What the two futures of the select do when they are polled: the one of [ctrl_c] resolves,
    the one of SIGTERM installs its handler and later resolves. *)
Inductive ss_event :=
| SsCtrlC (r : result unit string)
| SsInstallTerm (r : result unit string)
| SsTerm.

Definition ss_init (exit : bool) : ss_state :=
  {| ss_pc_ := SsSelect; ss_term_handler := false; ss_exit := exit |}.

(** [unix] is the configuration the crate is compiled for; elsewhere [terminate] is pending. *)
Definition ss_step (unix : bool) (st : ss_state) (ev : ss_event) : option ss_state :=
  match ss_pc_ st, ev with
  | SsSelect, SsCtrlC (Ok _) =>
      Some {| ss_pc_ := SsDone; ss_term_handler := ss_term_handler st; ss_exit := true |}
  | SsSelect, SsCtrlC (Err _) =>
      Some {| ss_pc_ := SsPanicked; ss_term_handler := ss_term_handler st; ss_exit := ss_exit st |}
  | SsSelect, SsInstallTerm r =>
      if unix && negb (ss_term_handler st) then
        match r with
        | Ok _ => Some {| ss_pc_ := SsSelect; ss_term_handler := true; ss_exit := ss_exit st |}
        | Err _ => Some {| ss_pc_ := SsPanicked; ss_term_handler := false; ss_exit := ss_exit st |}
        end
      else None
  | SsSelect, SsTerm =>
      if ss_term_handler st
      then Some {| ss_pc_ := SsDone; ss_term_handler := true; ss_exit := true |}
      else None
  | _, _ => None
  end.

Fixpoint ss_exec (unix : bool) (st : ss_state) (evs : list ss_event) : option ss_state :=
  match evs with
  | [] => Some st
  | ev :: evs' => st' ← ss_step unix st ev; ss_exec unix st' evs'
  end.

(** ** The panic hook *)

Inductive hook_effect :=
| HookLog
| HookCallback
| HookStoreExit
| HookSleep (d : Z)
| HookOld               (* the hook that was installed before *)
| HookProcessExit (code : Z).

(** The hook [graceful_panic] installs, in the order of its statements. *)
Definition panic_hook (callback : bool) : list hook_effect :=
  [HookLog] ++ (if callback then [HookCallback] else []) ++
  [HookStoreExit; HookSleep (from_secs 5); HookOld; HookProcessExit 1].

(** The exit flag [graceful_panic] returns. *)
Definition graceful_panic_exit : bool := false.

(** The hook with the times of its effects, when it starts at [t] and its other statements
    take no time. *)
Fixpoint hook_run (t : Z) (h : list hook_effect) : list (Z * hook_effect) :=
  match h with
  | [] => []
  | e :: h' => (t, e) :: hook_run (match e with HookSleep d => t + d | _ => t end) h'
  end.

(** ** Lemmas *)

Section polling_lemmas.
Context (flag : Z -> bool) (wake : Z -> Z).

(** The flag is set at [t_set] and stays set; sleeps end at most [late] after they should. *)
Context (t_set late : Z).
Hypothesis flag_spec : forall t, flag t = bool_decide (t_set <= t).
Hypothesis wake_spec : forall d, d <= wake d <= d + late.

Lemma poll_exit_bound interval fuel now r :
  0 < interval -> poll_exit flag wake interval fuel now = Some r ->
  Z.max now t_set <= r <= Z.max now (t_set + interval + late).
Proof.
  intros Hi. revert now; induction fuel as [|fuel IH]; intros now Hr; [done|]. simpl in Hr.
  rewrite flag_spec in Hr. case_bool_decide as Hf.
  - injection Hr as <-. pose proof (wake_spec 0). lia.
  - apply IH in Hr. pose proof (wake_spec (now + interval)). lia.
Qed.

Lemma poll_exit_returns interval fuel now :
  0 < interval -> t_set - now <= interval * Z.of_nat fuel ->
  exists r, poll_exit flag wake interval (S fuel) now = Some r.
Proof.
  intros Hi. revert now; induction fuel as [|fuel IH]; intros now Hn; cbn [poll_exit].
  - rewrite flag_spec, bool_decide_true by lia. by eexists.
  - rewrite flag_spec. case_bool_decide; [by eexists|]. apply IH.
    pose proof (wake_spec (now + interval)). nia.
Qed.

Lemma poll_fuel_enough interval now :
  0 < interval -> exists r, poll_exit flag wake interval (poll_fuel interval now t_set) now = Some r.
Proof.
  intros Hi. apply poll_exit_returns; [done|].
  pose proof (Z.mod_pos_bound (t_set - now) interval Hi).
  pose proof (Z.div_mod (t_set - now) interval ltac:(lia)).
  destruct (Z.le_gt_cases 0 ((t_set - now) / interval + 1)) as [Hp|Hp].
  - rewrite Z2Nat.id by done. lia.
  - rewrite Z2Nat.nonpos by lia. nia.
Qed.

End polling_lemmas.

Lemma ss_step_exit unix st st' ev :
  ss_step unix st ev = Some st' ->
  match ss_pc_ st' with
  | SsDone => ss_exit st' = true
  | _ => ss_exit st' = ss_exit st
  end /\ ss_pc_ st = SsSelect.
Proof. unfold ss_step. intros Hs. repeat case_match; by simplify_eq/=. Qed.

Lemma ss_exec_exit unix st st' evs :
  ss_exec unix st evs = Some st' -> ss_pc_ st = SsSelect ->
  match ss_pc_ st' with
  | SsDone => ss_exit st' = true
  | _ => ss_exit st' = ss_exit st
  end.
Proof.
  revert st; induction evs as [|ev evs IH]; intros st He Hp; simpl in He.
  { injection He as <-. by rewrite Hp. }
  destruct (ss_step unix st ev) as [st1|] eqn:Es; [|done]. simpl in He.
  apply ss_step_exit in Es as [Hx _]. destruct (ss_pc_ st1) eqn:E1.
  - apply IH in He; [|done]. destruct (ss_pc_ st'); congruence.
  - destruct evs as [|ev' evs']; [injection He as <-; by rewrite E1|].
    simpl in He. unfold ss_step in He. by rewrite E1 in He.
  - destruct evs as [|ev' evs']; [injection He as <-; by rewrite E1|].
    simpl in He. unfold ss_step in He. by rewrite E1 in He.
Qed.

(** ** Theorems *)

(** C31. The loops that poll the exit flag end, and soon: when the flag is set at [t_set] and
    sleeps end at most [late] after they should, [wait_for_exit] started at [now] returns
    after a number of iterations that can be computed beforehand, not before the flag is set,
    and at most 100 ms and [late] after that; the cancel watcher of the TPU cancels its token
    within 500 ms and [late]. *)
Theorem exit_polling_timely flag wake t_set late now :
  (forall t, flag t = bool_decide (t_set <= t)) -> (forall d, d <= wake d <= d + late) ->
  (exists r, wait_for_exit flag wake (poll_fuel EXIT_POLL_INTERVAL now t_set) now = Some r /\
     Z.max now t_set <= r <= Z.max now (t_set + from_millis 100 + late)) /\
  (exists r, tpu_cancel_watcher flag wake (poll_fuel CANCEL_POLL_INTERVAL now t_set) now = Some r /\
     Z.max now t_set <= r <= Z.max now (t_set + from_millis 500 + late)).
Proof.
  intros Hf Hw. split.
  - destruct (poll_fuel_enough flag wake t_set late Hf Hw EXIT_POLL_INTERVAL now) as [r Hr]; [done|].
    exists r. split; [done|]. by eapply poll_exit_bound.
  - destruct (poll_fuel_enough flag wake t_set late Hf Hw CANCEL_POLL_INTERVAL now) as [r Hr]; [done|].
    exists r. split; [done|]. by eapply poll_exit_bound.
Qed.

(** When a thread panics at [t], the hook stores the exit flag at once and ends the process
    with code 1 five seconds later, whether a callback was given or not; the loops that poll
    the flag are over by then, unless a sleep is 4.5 s late or more. *)
Theorem panic_grace_period callback flag wake late t now :
  (forall t', flag t' = bool_decide (t <= t')) -> (forall d, d <= wake d <= d + late) ->
  late < from_millis 4500 -> now <= t ->
  (t, HookStoreExit) ∈ hook_run t (panic_hook callback) /\
  last (hook_run t (panic_hook callback)) = Some (t + from_secs 5, HookProcessExit 1) /\
  (exists fuel r, wait_for_exit flag wake fuel now = Some r /\ r < t + from_secs 5) /\
  (exists fuel r, tpu_cancel_watcher flag wake fuel now = Some r /\ r < t + from_secs 5).
Proof.
  intros Hf Hw Hl Hn. split_and!.
  - destruct callback; simpl; set_solver.
  - by destruct callback.
  - destruct (poll_fuel_enough flag wake t late Hf Hw EXIT_POLL_INTERVAL now) as [r Hr]; [done|].
    exists (poll_fuel EXIT_POLL_INTERVAL now t), r. split; [done|].
    eapply poll_exit_bound in Hr; [|done..].
    unfold EXIT_POLL_INTERVAL, from_millis, from_secs, NANOS in *. lia.
  - destruct (poll_fuel_enough flag wake t late Hf Hw CANCEL_POLL_INTERVAL now) as [r Hr]; [done|].
    exists (poll_fuel CANCEL_POLL_INTERVAL now t), r. split; [done|].
    eapply poll_exit_bound in Hr; [|done..].
    unfold CANCEL_POLL_INTERVAL, from_millis, from_secs, NANOS in *. lia.
Qed.

(** [shutdown_signal] sets the flag exactly when it returns: while it waits, and when the
    installation of a handler makes it panic, the flag is as it was. *)
Theorem shutdown_signal_sets_exit unix exit st evs :
  ss_exec unix (ss_init exit) evs = Some st ->
  match ss_pc_ st with
  | SsDone => ss_exit st = true
  | _ => ss_exit st = exit
  end.
Proof. intros He. by apply ss_exec_exit in He. Qed.

(** ** Witnesses *)

Definition toy_flag (t : Z) : bool := bool_decide (from_millis 1234 <= t).

Lemma exit_polling_timely_witness :
  (exists r, wait_for_exit toy_flag id (poll_fuel EXIT_POLL_INTERVAL 0 (from_millis 1234)) 0 = Some r /\
     from_millis 1234 <= r <= from_millis 1334) /\
  (exists r, tpu_cancel_watcher toy_flag id (poll_fuel CANCEL_POLL_INTERVAL 0 (from_millis 1234)) 0 = Some r /\
     from_millis 1234 <= r <= from_millis 1734).
Proof.
  apply (exit_polling_timely toy_flag id (from_millis 1234) 0 0).
  - reflexivity.
  - intros d. simpl. lia.
Defined.

Example toy_wait : wait_for_exit toy_flag id 14 0 = Some (from_millis 1300).
Proof. reflexivity. Qed.

Example toy_signal : ss_exec true (ss_init false) [SsInstallTerm (Ok tt); SsTerm] =
  Some {| ss_pc_ := SsDone; ss_term_handler := true; ss_exit := true |}.
Proof. reflexivity. Qed.
