(* ===== verification/Bytes.v ===== *)
(** * Bytes, slices and little-endian integers

    [u8] is [Byte.byte]; [Vec<u8>], [&[u8]] and [[u8; n]] are lists of bytes.  The file
    gives the arithmetic view of a byte, [slice::get] with a range, the array conversion
    [<[u8; n]>::try_from], [to_le_bytes]/[from_le_bytes], and the [str] operations
    the sources use ([starts_with], [split], [as_bytes]). *)

From S2P Require Import Prelude.
From Stdlib Require Import Strings.Byte.

Local Open Scope Z_scope.

Abbreviation byte := Byte.byte.
Abbreviation bytes := (list Byte.byte).

#[export] Instance byte_eq_decision : EqDecision byte := Byte.byte_eq_dec.

#[export] Instance byte_inhabited : Inhabited byte := populate Byte.x00.

#[export] Program Instance byte_countable : Countable byte :=
  inj_countable Byte.to_N Byte.of_N _.
Next Obligation. intros b. apply Byte.of_to_N. Qed.

(** ** Bytes as numbers *)

Definition u8_val (b : byte) : Z := Z.of_N (Byte.to_N b).

(** [z as u8]: truncation to eight bits. *)
Definition u8_of (z : Z) : byte :=
  match Byte.of_N (Z.to_N (z mod 256)) with Some b => b | None => Byte.x00 end.

Lemma u8_val_range b : 0 <= u8_val b < 256.
Proof. unfold u8_val. pose proof (Byte.to_N_bounded b). lia. Qed.

Lemma u8_val_of z : u8_val (u8_of z) = z mod 256.
Proof.
  unfold u8_of, u8_val. pose proof (Z.mod_pos_bound z 256 ltac:(lia)).
  destruct (Byte.of_N _) as [b|] eqn:E.
  - apply Byte.to_of_N in E. rewrite E. lia.
  - apply Byte.of_N_None_iff in E. lia.
Qed.

Lemma u8_val_inj b1 b2 : u8_val b1 = u8_val b2 -> b1 = b2.
Proof.
  unfold u8_val. intros H. apply N2Z.inj in H.
  assert (Some b1 = Some b2) by (rewrite <- !Byte.of_to_N; congruence). congruence.
Qed.

Lemma u8_of_val b : u8_of (u8_val b) = b.
Proof.
  apply u8_val_inj. rewrite u8_val_of. apply Z.mod_small, u8_val_range.
Qed.

Lemma u8_of_mod z : u8_of (z mod 256) = u8_of z.
Proof. apply u8_val_inj. rewrite !u8_val_of. by rewrite Z.mod_mod by lia. Qed.

(** A property of all bytes that holds of every numeral below 256, by computation. *)
Lemma byte_forall (P : byte -> bool) :
  forallb (fun n => P (u8_of (Z.of_nat n))) (List.seq 0 256) = true -> forall b, P b = true.
Proof.
  intros H b. rewrite forallb_forall in H.
  pose proof (u8_val_range b). specialize (H (Z.to_nat (u8_val b))).
  rewrite Z2Nat.id, u8_of_val in H by lia. apply H. apply in_seq. lia.
Qed.

(** ** Slices and arrays *)

(** [data.get(a..b)]. *)
Definition slice_get {A} (a b : nat) (data : list A) : option (list A) :=
  if (Nat.leb a b && Nat.leb b (length data))%bool
  then Some (take (b - a) (drop a data)) else None.

(** [<[T; n]>::try_from(slice).ok()]. *)
Definition array_try_from {A} (n : nat) (s : list A) : option (list A) :=
  if Nat.eqb (length s) n then Some s else None.

Lemma slice_get_Some {A} a b (data s : list A) :
  slice_get a b data = Some s <->
  (a <= b)%nat /\ (b <= length data)%nat /\ s = take (b - a) (drop a data).
Proof.
  unfold slice_get. destruct (Nat.leb_spec a b), (Nat.leb_spec b (length data)); simpl;
    naive_solver lia.
Qed.

Lemma array_try_from_Some {A} n (s t : list A) :
  array_try_from n s = Some t <-> length s = n /\ t = s.
Proof. unfold array_try_from. destruct (Nat.eqb_spec (length s) n); naive_solver. Qed.

(** ** Little-endian integers *)

(** The [n] low bytes of [z], least significant first: [u32::to_le_bytes] at [n = 4],
    [BufMut::put_u64_le] at [n = 8]. *)
Fixpoint to_le_bytes (n : nat) (z : Z) : bytes :=
  match n with
  | O => []
  | S n' => u8_of z :: to_le_bytes n' (z / 256)
  end.

Fixpoint from_le_bytes (bs : bytes) : Z :=
  match bs with
  | [] => 0
  | b :: bs' => u8_val b + 256 * from_le_bytes bs'
  end.

Lemma length_to_le_bytes n z : length (to_le_bytes n z) = n.
Proof. revert z; induction n; intros; simpl; auto. Qed.

Lemma from_le_bytes_range bs : 0 <= from_le_bytes bs < 256 ^ Z.of_nat (length bs).
Proof.
  induction bs as [|b bs IH]; [simpl; lia|]. cbn [from_le_bytes length].
  rewrite Nat2Z.inj_succ, Z.pow_succ_r by lia. pose proof (u8_val_range b). lia.
Qed.

(** Reading back what was written gives the value truncated to the width. *)
Lemma from_to_le_bytes n z : from_le_bytes (to_le_bytes n z) = z mod 256 ^ Z.of_nat n.
Proof.
  revert z; induction n as [|n IH]; intros z.
  - simpl. by rewrite Z.mod_1_r.
  - cbn [to_le_bytes from_le_bytes]. rewrite IH, u8_val_of, Nat2Z.inj_succ, Z.pow_succ_r by lia.
    rewrite Z.rem_mul_r; lia.
Qed.

Lemma from_to_le_bytes_small n z :
  0 <= z < 256 ^ Z.of_nat n -> from_le_bytes (to_le_bytes n z) = z.
Proof. intros. rewrite from_to_le_bytes. by apply Z.mod_small. Qed.

(** ** Strings

    A [String]/[&str] is a [string] whose characters are its UTF-8 bytes. *)

Definition as_bytes (s : string) : bytes := String.list_byte_of_string s.
Definition of_bytes (bs : bytes) : string := String.string_of_list_byte bs.

Lemma of_as_bytes s : of_bytes (as_bytes s) = s.
Proof. apply String.string_of_list_byte_of_string. Qed.

Lemma as_of_bytes bs : as_bytes (of_bytes bs) = bs.
Proof. apply String.list_byte_of_string_of_list_byte. Qed.

(** [s.strip_prefix(pat)], over bytes; [starts_with] is its success. *)
Fixpoint strip_prefix (pat s : bytes) : option bytes :=
  match pat, s with
  | [], _ => Some s
  | p :: pat', c :: s' => if decide (p = c) then strip_prefix pat' s' else None
  | _ :: _, [] => None
  end.

Definition starts_with (pat s : bytes) : bool :=
  match strip_prefix pat s with Some _ => true | None => false end.

Lemma strip_prefix_Some pat s r : strip_prefix pat s = Some r <-> s = pat ++ r.
Proof.
  revert s; induction pat as [|p pat IH]; intros [|c s]; simpl; try naive_solver.
  case_decide as E; [subst; rewrite IH; naive_solver | naive_solver].
Qed.

Lemma starts_with_true pat s : starts_with pat s = true <-> exists r, s = pat ++ r.
Proof.
  unfold starts_with. destruct (strip_prefix pat s) as [r|] eqn:E.
  - apply strip_prefix_Some in E. naive_solver.
  - split; [done|]. intros [r Hr]. apply strip_prefix_Some in Hr. congruence.
Qed.

#[export] Hint Rewrite u8_val_of u8_of_val length_to_le_bytes : relayer.
#[export] Hint Resolve u8_val_range : relayer.
