(* ===== verification/CertPin.v ===== *)
(** * Certificate pinning (src/src/proxy/mirror.rs)

    The operator gives the SHA-256 fingerprint of the Inertia server's certificate as text
    ([--inertia-cert-sha256]); [parse_cert_pin] turns it into 32 bytes when the proxy
    starts and [PinnedServerCertVerifier] compares it with the certificate presented
    in the TLS handshake.  The file models the text format both ways ([hex_val],
    [parse_cert_pin], [hex_encode]) and the verifier's decision. *)

From S2P Require Import Prelude Bytes.

Local Open Scope Z_scope.

(** The two error texts of [parse_cert_pin] and [hex_val], with their arguments. *)
Inductive PinError :=
| ExpectedHexCharacters (got : nat)
| InvalidHexCharacter (c : byte).

(** [u8::is_ascii_whitespace]: space, tab, line feed, form feed, carriage return. *)
Definition is_ascii_whitespace (b : byte) : bool :=
  let c := u8_val b in
  ((c =? 32) || (c =? 9) || (c =? 10) || (c =? 12) || (c =? 13))%bool.

Definition COLON : Z := 58.

Definition in_range (lo hi c : Z) : bool := ((lo <=? c) && (c <=? hi))%bool.

Definition hex_val (b : byte) : result Z PinError :=
  let c := u8_val b in
  if in_range 48 57 c then Ok (c - 48)
  else if in_range 97 102 c then Ok (c - 97 + 10)
  else if in_range 65 70 c then Ok (c - 65 + 10)
  else Err (InvalidHexCharacter b).

(** The bytes that survive the filter of [parse_cert_pin]. *)
Definition cleaned (s : string) : bytes :=
  List.filter (fun b => negb (is_ascii_whitespace b) && negb (u8_val b =? COLON))%bool
    (as_bytes s).

(** The body of the loop over [out.iter_mut().enumerate()]. *)
Definition pin_byte (cl : bytes) (i : nat) : result byte PinError :=
  let? hi := hex_val (cl !!! (i * 2)%nat) in
  let? lo := hex_val (cl !!! (i * 2 + 1)%nat) in
  Ok (u8_of (Z.lor (Z.shiftl hi 4) lo)).

Fixpoint pin_bytes (cl : bytes) (idx : list nat) : result bytes PinError :=
  match idx with
  | [] => Ok []
  | i :: idx' =>
      let? b := pin_byte cl i in
      let? bs := pin_bytes cl idx' in
      Ok (b :: bs)
  end.

Definition parse_cert_pin (s : string) : result bytes PinError :=
  let cl := cleaned s in
  if negb (Nat.eqb (length cl) 64) then Err (ExpectedHexCharacters (length cl))
  else pin_bytes cl (seq 0 32).

(** [write!(s, "{b:02x}")]: two lower-case hexadecimal digits. *)
Definition hex_digit (n : Z) : byte :=
  u8_of (if n <? 10 then 48 + n else 87 + n).

Definition hex_encode (bs : bytes) : bytes :=
  b ← bs; [hex_digit (u8_val b / 16); hex_digit (u8_val b mod 16)].

(** ** The verifier *)

(** The primitives of the openssl crate: a 32-byte digest and a comparison of byte
    strings of equal length. *)
Class PinCrypto := {
  sha256 : bytes -> bytes;
  memcmp_eq : bytes -> bytes -> bool;
}.

Class PinCryptoLaws `{!PinCrypto} := {
  sha256_length c : length (sha256 c) = 32%nat;
  memcmp_eq_spec a b : length a = length b -> memcmp_eq a b = true <-> a = b;
}.

Record PinnedServerCertVerifier := { pinned_sha256 : bytes }.

Definition mismatch_message (expected got : bytes) : bytes :=
  as_bytes "server certificate fingerprint mismatch: expected " ++ hex_encode expected
  ++ as_bytes ", got " ++ hex_encode got.

Definition verify_server_cert `{!PinCrypto} (v : PinnedServerCertVerifier)
    (end_entity : bytes) : result unit bytes :=
  let presented := sha256 end_entity in
  if memcmp_eq presented (pinned_sha256 v) then Ok tt
  else Err (mismatch_message (pinned_sha256 v) presented).

(** ** The text format *)

(** Lower-casing of an ASCII letter, to state that the parser is case-insensitive. *)
Definition ascii_lower (b : byte) : byte :=
  if in_range 65 90 (u8_val b) then u8_of (u8_val b + 32) else b.

Definition hex_pair (hi lo : Z) : bytes := [hex_digit hi; hex_digit lo].

Lemma in_range_true lo hi c : in_range lo hi c = true <-> lo <= c <= hi.
Proof. unfold in_range. rewrite andb_true_iff, !Z.leb_le. done. Qed.

Lemma in_range_false lo hi c : in_range lo hi c = false <-> c < lo \/ hi < c.
Proof. unfold in_range. rewrite andb_false_iff, !Z.leb_gt. done. Qed.

Lemma hex_val_range b n : hex_val b = Ok n -> 0 <= n < 16.
Proof.
  unfold hex_val. intros H. repeat break_match_in H; simplify_eq;
    repeat match goal with E : in_range _ _ _ = true |- _ => apply in_range_true in E end; lia.
Qed.

Definition hex_val_Ok_test (b : byte) : bool :=
  forallb (fun n =>
    let n := Z.of_nat n in
    Bool.eqb (match hex_val b with Ok m => m =? n | Err _ => false end)
      (bool_decide (ascii_lower b = hex_digit n))) (List.seq 0 16).

Lemma hex_val_Ok_test_all b : hex_val_Ok_test b = true.
Proof. revert b. apply byte_forall. vm_compute. reflexivity. Qed.

(** A byte has hexadecimal value [n] exactly when its lower-case form is the digit [n]. *)
Lemma hex_val_Ok b n : 0 <= n < 16 -> hex_val b = Ok n <-> ascii_lower b = hex_digit n.
Proof.
  intros Hn. pose proof (hex_val_Ok_test_all b) as H. unfold hex_val_Ok_test in H.
  rewrite forallb_forall in H. specialize (H (Z.to_nat n)).
  rewrite Z2Nat.id in H by lia. specialize (H ltac:(apply in_seq; lia)).
  apply Bool.eqb_prop in H.
  destruct (hex_val b) as [m|e] eqn:E.
  - split; intros Heq.
    + simplify_eq. rewrite Z.eqb_refl in H. by apply (bool_decide_eq_true_1 _ (eq_sym H)).
    + rewrite bool_decide_eq_true_2 in H by done. apply Z.eqb_eq in H. by subst.
  - split; intros Heq; [done|]. by rewrite bool_decide_eq_true_2 in H.
Qed.

Definition nibbles_test : bool :=
  forallb (fun h => forallb (fun l =>
    let hi := Z.of_nat h in let lo := Z.of_nat l in
    u8_val (u8_of (Z.lor (Z.shiftl hi 4) lo)) =? 16 * hi + lo)
    (List.seq 0 16)) (List.seq 0 16).

Lemma nibbles_byte hi lo :
  0 <= hi < 16 -> 0 <= lo < 16 ->
  u8_val (u8_of (Z.lor (Z.shiftl hi 4) lo)) = 16 * hi + lo.
Proof.
  intros Hh Hl. assert (nibbles_test = true) as T by (vm_compute; reflexivity).
  unfold nibbles_test in T. rewrite forallb_forall in T.
  specialize (T (Z.to_nat hi) ltac:(apply in_seq; lia)). rewrite forallb_forall in T.
  specialize (T (Z.to_nat lo) ltac:(apply in_seq; lia)).
  rewrite !Z2Nat.id in T by lia. by apply Z.eqb_eq in T.
Qed.

(** One step of the loop: a byte is produced exactly when the two characters are the
    hexadecimal digits of its nibbles. *)
Lemma pin_byte_Ok cl i a b x :
  cl !! (i * 2)%nat = Some a -> cl !! (i * 2 + 1)%nat = Some b ->
  pin_byte cl i = Ok x <->
  ascii_lower a = hex_digit (u8_val x / 16) /\ ascii_lower b = hex_digit (u8_val x mod 16).
Proof.
  intros Ha Hb. unfold pin_byte.
  rewrite (list_lookup_total_correct _ _ _ Ha), (list_lookup_total_correct _ _ _ Hb).
  pose proof (u8_val_range x).
  assert (0 <= u8_val x / 16 < 16) as Hd by (split; [apply Z.div_pos | apply Z.div_lt_upper_bound]; lia).
  pose proof (Z.mod_pos_bound (u8_val x) 16 ltac:(lia)) as Hm.
  rewrite <- !hex_val_Ok by done. unfold result_bind. split.
  - intros E. destruct (hex_val a) as [hi|] eqn:Eh; [|done].
    destruct (hex_val b) as [lo|] eqn:El; [|done]. simplify_eq.
    apply hex_val_range in Eh, El. rewrite nibbles_byte by done.
    rewrite Z.mul_comm, Z.div_add_l, Z.div_small, Z.add_0_r by lia.
    rewrite Z.add_comm, Z.mod_add, Z.mod_small by lia. done.
  - intros [-> ->]. f_equal. apply u8_val_inj. rewrite nibbles_byte by done.
    symmetry. apply Z.div_mod. lia.
Qed.

Lemma drop_two cl k n :
  (length (drop (k * 2) cl) = S n * 2)%nat ->
  exists a b : byte, cl !! (k * 2)%nat = Some a /\ cl !! (k * 2 + 1)%nat = Some b /\
    drop (k * 2) cl = a :: b :: drop (S k * 2) cl /\ (length (drop (S k * 2) cl) = n * 2)%nat.
Proof.
  intros Hl. rewrite length_drop in Hl.
  destruct (lookup_lt_is_Some_2 cl (k * 2)) as [a Ha]; [lia|].
  destruct (lookup_lt_is_Some_2 cl (k * 2 + 1)) as [b Hb]; [lia|].
  exists a, b. split_and!; [done | done | | rewrite length_drop; lia].
  rewrite (drop_S _ _ _ Ha). f_equal.
  rewrite Nat.add_comm in Hb. simpl in Hb. by rewrite (drop_S _ _ _ Hb).
Qed.

Lemma pin_bytes_Ok cl k n pin :
  (length (drop (k * 2) cl) = n * 2)%nat ->
  pin_bytes cl (seq k n) = Ok pin <->
  length pin = n /\ ascii_lower <$> drop (k * 2) cl = hex_encode pin.
Proof.
  revert k pin; induction n as [|n IH]; intros k pin Hl.
  - apply nil_length_inv in Hl. rewrite Hl. simpl. split.
    + intros [= <-]. done.
    + intros [->%nil_length_inv _]. done.
  - destruct (drop_two cl k n Hl) as (a & b & Ha & Hb & -> & Hl').
    cbn [seq pin_bytes]. unfold result_bind at 1.
    split.
    + destruct (pin_byte cl k) as [x|] eqn:Ex; [|done].
      apply (pin_byte_Ok _ _ _ _ _ Ha Hb) in Ex as [Hx Hy].
      unfold result_bind. destruct (pin_bytes cl (seq (S k) n)) as [r|] eqn:Er; [|done].
      intros [= <-]. apply IH in Er as [<- Hr]; [|done].
      split; [done|]. rewrite !fmap_cons, Hx, Hy, Hr. done.
    + intros [Hlen Henc]. destruct pin as [|x pin]; [done|].
      rewrite !fmap_cons in Henc. injection Henc as Hx Hy Hr.
      assert (pin_byte cl k = Ok x) as -> by (by apply (pin_byte_Ok _ _ _ _ _ Ha Hb)).
      unfold result_bind. assert (pin_bytes cl (seq (S k) n) = Ok pin) as ->; [|done].
      apply IH; [done|]. split; [by simplify_eq/= | done].
Qed.

(** The fingerprint text denotes [pin]: after dropping white space and colons and
    lower-casing, it is the hexadecimal form of the 32 bytes. *)
Definition denotes_pin (s : string) (pin : bytes) : Prop :=
  length pin = 32%nat /\ ascii_lower <$> cleaned s = hex_encode pin.

Lemma length_hex_encode bs : length (hex_encode bs) = (length bs * 2)%nat.
Proof.
  induction bs as [|b bs IH]; [done|].
  change (length (hex_encode (b :: bs))) with (S (S (length (hex_encode bs)))). simpl. lia.
Qed.

Lemma parse_cert_pin_denotes s pin : parse_cert_pin s = Ok pin <-> denotes_pin s pin.
Proof.
  unfold parse_cert_pin, denotes_pin.
  destruct (Nat.eqb_spec (length (cleaned s)) 64) as [Hl|Hl]; simpl negb; cbv iota.
  - apply (pin_bytes_Ok (cleaned s) 0 32). simpl. by rewrite drop_0.
  - split; [done|]. intros [Hp Henc]. exfalso. apply Hl.
    rewrite <- (length_fmap ascii_lower), Henc, length_hex_encode, Hp. done.
Qed.

Definition hex_digit_test (b : byte) : bool :=
  let ok n := (negb (is_ascii_whitespace (hex_digit n)) && negb (u8_val (hex_digit n) =? COLON)
               && bool_decide (ascii_lower (hex_digit n) = hex_digit n))%bool in
  (ok (u8_val b / 16) && ok (u8_val b mod 16))%bool.

Lemma hex_digit_test_all b : hex_digit_test b = true.
Proof. revert b. apply byte_forall. vm_compute. reflexivity. Qed.

(** Printed fingerprints contain only lower-case digits, which the filter keeps. *)
Lemma hex_encode_clean bs :
  List.filter (fun b => negb (is_ascii_whitespace b) && negb (u8_val b =? COLON))%bool
    (hex_encode bs) = hex_encode bs
  /\ ascii_lower <$> hex_encode bs = hex_encode bs.
Proof.
  induction bs as [|b bs [IH1 IH2]]; [done|].
  pose proof (hex_digit_test_all b) as H. unfold hex_digit_test in H.
  rewrite !andb_true_iff in H. destruct H as [[[H1 H2] H3] [[H4 H5] H6]].
  apply bool_decide_eq_true in H3, H6.
  change (hex_encode (b :: bs)) with
    (hex_digit (u8_val b / 16) :: hex_digit (u8_val b mod 16) :: hex_encode bs).
  cbn [List.filter]. rewrite H1, H2, H4, H5, IH1. cbn [andb].
  rewrite !fmap_cons, H3, H6, IH2. done.
Qed.

Lemma denotes_hex_encode pin : length pin = 32%nat -> denotes_pin (of_bytes (hex_encode pin)) pin.
Proof.
  intros Hl. split; [done|]. unfold cleaned. rewrite as_of_bytes.
  destruct (hex_encode_clean pin) as [-> ->]. done.
Qed.

Lemma denotes_pin_unique s p q : denotes_pin s p -> denotes_pin s q -> p = q.
Proof. rewrite <- !parse_cert_pin_denotes. congruence. Qed.

Lemma hex_encode_inj p q :
  length p = 32%nat -> length q = 32%nat -> hex_encode p = hex_encode q -> p = q.
Proof.
  intros Hp Hq E. apply (denotes_pin_unique (of_bytes (hex_encode p)));
    [|rewrite E]; by apply denotes_hex_encode.
Qed.

(** ** Properties *)

(** C37. The fingerprint parser accepts exactly the texts that, with ASCII white space and
    colons dropped and letters lower-cased, are the 64 hexadecimal digits of a 32-byte
    digest, and it returns that digest. *)
Theorem parse_cert_pin_correct s pin :
  parse_cert_pin s = Ok pin <->
  length pin = 32%nat /\ ascii_lower <$> cleaned s = hex_encode pin.
Proof. apply parse_cert_pin_denotes. Qed.

(** Round trip: parsing the printed form of any 32-byte digest gives the digest back. *)
Theorem parse_hex_encode pin :
  length pin = 32%nat -> parse_cert_pin (of_bytes (hex_encode pin)) = Ok pin.
Proof.
  intros Hl. by apply parse_cert_pin_denotes, denotes_hex_encode.
Qed.

Lemma parse_hex_encode_witness :
  length (replicate 32 Byte.xa7) = 32%nat /\
  parse_cert_pin (of_bytes (hex_encode (replicate 32 Byte.xa7))) = Ok (replicate 32 Byte.xa7).
Proof. split; [reflexivity | apply parse_hex_encode; reflexivity]. Defined.

(** The verifier compares digests; with the text the pin was parsed from. *)
Lemma verify_pin_iff `{PinCryptoLaws} s pin cert :
  length pin = 32%nat -> hex_encode pin = ascii_lower <$> cleaned s ->
  verify_server_cert {| pinned_sha256 := pin |} cert = Ok tt <->
  hex_encode (sha256 cert) = ascii_lower <$> cleaned s.
Proof.
  intros Hl Hd. unfold verify_server_cert. cbn [pinned_sha256].
  pose proof (memcmp_eq_spec (sha256 cert) pin ltac:(by rewrite sha256_length)) as Hm.
  destruct (memcmp_eq (sha256 cert) pin).
  - assert (sha256 cert = pin) as -> by (by apply Hm). by rewrite Hd.
  - split; [done|]. rewrite <- Hd. intros E. destruct Hm as [_ Hm].
    discriminate Hm. apply hex_encode_inj; [apply sha256_length | done | done].
Qed.

(** The handshake is accepted exactly for certificates whose SHA-256 digest is the one
    the operator configured: for any accepted fingerprint text, the verifier says [Ok] iff
    the hexadecimal digest of the presented certificate is that text (cleaned and
    lower-cased), and otherwise it fails with the mismatch message. *)
Theorem verify_server_cert_pinned `{PinCryptoLaws} s pin cert :
  parse_cert_pin s = Ok pin ->
  let v := {| pinned_sha256 := pin |} in
  (verify_server_cert v cert = Ok tt <-> hex_encode (sha256 cert) = ascii_lower <$> cleaned s)
  /\ (verify_server_cert v cert <> Ok tt ->
      verify_server_cert v cert = Err (mismatch_message pin (sha256 cert))).
Proof.
  intros Hp%parse_cert_pin_denotes. destruct Hp as [Hl Hd]. cbv zeta. split; [by apply verify_pin_iff|].
  unfold verify_server_cert. cbn [pinned_sha256]. by case_match.
Qed.

(** A digest for the witness: the first 32 bytes of the certificate, padded with zeros. *)
Definition toy_crypto : PinCrypto := {|
  sha256 c := take 32 (c ++ replicate 32 Byte.x00);
  memcmp_eq a b := bool_decide (a = b);
|}.

Lemma toy_crypto_laws : @PinCryptoLaws toy_crypto.
Proof.
  constructor.
  - intros c. cbn -[replicate take app]. rewrite length_take, length_app, length_replicate. lia.
  - intros a b _. apply bool_decide_eq_true.
Qed.

Definition toy_pin_text : string :=
  "AB:00:00:00:00:00:00:00:00:00:00:00:00:00:00:00 00:00:00:00:00:00:00:00:00:00:00:00:00:00:00:ff".

Lemma verify_server_cert_pinned_witness :
  parse_cert_pin toy_pin_text = Ok (Byte.xab :: replicate 30 Byte.x00 ++ [Byte.xff]) /\
  @verify_server_cert toy_crypto {| pinned_sha256 := Byte.xab :: replicate 30 Byte.x00 ++ [Byte.xff] |}
    (Byte.xab :: replicate 30 Byte.x00 ++ [Byte.xff]) = Ok tt.
Proof.
  assert (parse_cert_pin toy_pin_text = Ok (Byte.xab :: replicate 30 Byte.x00 ++ [Byte.xff])) as Hp
    by (vm_compute; reflexivity).
  split; [exact Hp|].
  apply (proj1 (@verify_server_cert_pinned toy_crypto toy_crypto_laws _ _
    (Byte.xab :: replicate 30 Byte.x00 ++ [Byte.xff]) Hp)).
  vm_compute. reflexivity.
Defined.
