(* ===== verification/Protos.v ===== *)
(** * Messages and packets (src/src/protos)

    The gRPC messages of the .proto files as records, in the shape prost gives them (a
    message field is optional, a repeated field is a list, a oneof is an inductive type),
    the packets of the solana_perf crate behind an interface, and the conversion
    [packet_to_proto_packet] of src/src/protos/convert.rs. *)

From S2P Require Import Prelude Bytes.

Local Open Scope Z_scope.

(** ** Addresses *)

(** [std::net::IpAddr]: four octets or eight 16-bit segments. *)
Inductive IpAddr :=
| V4 (octets : bytes)
| V6 (segments : list Z).

#[export] Instance IpAddr_eq_dec : EqDecision IpAddr.
Proof. solve_decision. Defined.

#[export] Program Instance IpAddr_countable : Countable IpAddr :=
  inj_countable' (fun ip => match ip with V4 o => inl o | V6 s => inr s end)
                 (fun s => match s with inl o => V4 o | inr s => V6 s end) _.
Next Obligation. by intros []. Qed.

(** A [Pubkey] is 32 bytes. *)
Abbreviation Pubkey := bytes.

(** The textual forms of addresses and keys: [Display] and [FromStr]. *)
Class AddrText := {
  ip_to_string : IpAddr -> string;
  ip_from_str : string -> option IpAddr;
  pubkey_to_string : Pubkey -> string;
  pubkey_from_str : string -> option Pubkey;
}.

(** What the sources rely on: parsing undoes printing. *)
Class AddrTextLaws `{!AddrText} := {
  ip_from_to ip : ip_from_str (ip_to_string ip) = Some ip;
  pubkey_from_to k : length k = 32%nat -> pubkey_from_str (pubkey_to_string k) = Some k;
}.

(** ** shared.proto *)

Record Timestamp := { ts_seconds : Z; ts_nanos : Z }.
Record Header := { header_ts : option Timestamp }.
Record Heartbeat := { heartbeat_count : Z }.
Record Socket := { socket_ip : string; socket_port : Z }.

(** ** packet.proto *)

Record ProtoPacketFlags := {
  pf_discard : bool;
  pf_forwarded : bool;
  pf_repair : bool;
  pf_simple_vote_tx : bool;
  pf_tracer_packet : bool;
  pf_from_staked_node : bool;
}.

Record ProtoMeta := {
  pm_size : Z;
  pm_addr : string;
  pm_port : Z;
  pm_flags : option ProtoPacketFlags;
  pm_sender_stake : Z;
}.

Record ProtoPacket := { pp_data : bytes; pp_meta : option ProtoMeta }.
Record ProtoPacketBatch := { pb_packets : list ProtoPacket }.

(** ** bundle.proto *)

Record Bundle := { bundle_header : option Header; bundle_packets : list ProtoPacket }.
Record BundleUuid := { bu_bundle : option Bundle; bu_uuid : string }.

(** ** block_engine.proto *)

(** [block_engine::SubscribePacketsResponse]. *)
Record BePacketsResponse := {
  be_header : option Header;
  be_batch : option ProtoPacketBatch;
}.

Record SubscribeBundlesResponse := { sb_bundles : list BundleUuid }.

(** ** relayer.proto *)

Inductive RelayerMsg :=
| MsgHeartbeat (h : Heartbeat)
| MsgBatch (b : ProtoPacketBatch).

(** [relayer::SubscribePacketsResponse]. *)
Record RelayerPacketsResponse := {
  rp_header : option Header;
  rp_msg : option RelayerMsg;
}.

Record GetTpuConfigsResponse := {
  tpu : option Socket;
  tpu_forward : option Socket;
}.

(** ** Packets of solana_perf

    A packet of a [BankingPacketBatch] is a buffer with metadata; the sources read it
    through these accessors and write only its discard flag.  A [BankingPacketBatch] is
    an [Arc<Vec<PacketBatch>>]; [Arc::make_mut] gives a value of its own to write to, so
    it is a plain list here. *)

Class SolanaPacket (P : Type) := {
  pkt_data : P -> option bytes;
  pkt_size : P -> Z;
  pkt_addr : P -> IpAddr;
  pkt_port : P -> Z;
  pkt_discard : P -> bool;
  pkt_forwarded : P -> bool;
  pkt_repair : P -> bool;
  pkt_is_simple_vote_tx : P -> bool;
  pkt_is_perf_track_packet : P -> bool;
  pkt_is_from_staked_node : P -> bool;
  pkt_set_discard : bool -> P -> P;
}.

(** Writing the discard flag changes what [discard()] reads, and nothing else of the
    metadata; the widths are those of the crate's fields. *)
Class SolanaPacketLaws (P : Type) `{!SolanaPacket P} := {
  discard_set_discard b p : pkt_discard (pkt_set_discard b p) = b;
  size_set_discard b p : pkt_size (pkt_set_discard b p) = pkt_size p;
  addr_set_discard b p : pkt_addr (pkt_set_discard b p) = pkt_addr p;
  port_set_discard b p : pkt_port (pkt_set_discard b p) = pkt_port p;
  pkt_size_range p : 0 <= pkt_size p < 2 ^ 64;
  pkt_port_range p : 0 <= pkt_port p < 2 ^ 16;
}.

Abbreviation PacketBatch P := (list P).
Abbreviation BankingPacketBatch P := (list (list P)).

(** ** Conversion (convert.rs) *)

Section convert.
Context `{!AddrText} {P : Type} `{!SolanaPacket P}.

Definition packet_to_proto_packet (p : P) : option ProtoPacket :=
  match pkt_data p with
  | None => None
  | Some data =>
      Some {|
        pp_data := data;
        pp_meta := Some {|
          pm_size := wrap 64 (pkt_size p);
          pm_addr := ip_to_string (pkt_addr p);
          pm_port := wrap 32 (pkt_port p);
          pm_flags := Some {|
            pf_discard := pkt_discard p;
            pf_forwarded := pkt_forwarded p;
            pf_repair := pkt_repair p;
            pf_simple_vote_tx := pkt_is_simple_vote_tx p;
            pf_tracer_packet := pkt_is_perf_track_packet p;
            pf_from_staked_node := pkt_is_from_staked_node p;
          |};
          pm_sender_stake := 0;
        |};
      |}
  end.

Lemma packet_to_proto_packet_Some p pp :
  packet_to_proto_packet p = Some pp -> pkt_data p = Some (pp_data pp).
Proof. unfold packet_to_proto_packet. destruct (pkt_data p); naive_solver. Qed.

Lemma packet_to_proto_packet_is_Some p :
  is_Some (packet_to_proto_packet p) <-> is_Some (pkt_data p).
Proof.
  unfold packet_to_proto_packet. destruct (pkt_data p); split; intros [? ?]; eauto; done.
Qed.

End convert.

(** ** A concrete packet, for witnesses *)

Record SimplePacket := {
  sp_bytes : bytes;
  sp_addr : IpAddr;
  sp_port : Z;
  sp_discard : bool;
}.

#[export] Instance SimplePacket_packet : SolanaPacket SimplePacket := {|
  pkt_data p := if sp_discard p then None else Some (sp_bytes p);
  pkt_size p := wrap 64 (Z.of_nat (length (sp_bytes p)));
  pkt_addr := sp_addr;
  pkt_port p := wrap 16 (sp_port p);
  pkt_discard := sp_discard;
  pkt_forwarded _ := false;
  pkt_repair _ := false;
  pkt_is_simple_vote_tx _ := false;
  pkt_is_perf_track_packet _ := false;
  pkt_is_from_staked_node _ := false;
  pkt_set_discard b p :=
    {| sp_bytes := sp_bytes p; sp_addr := sp_addr p; sp_port := sp_port p; sp_discard := b |};
|}.

#[export] Instance SimplePacket_laws : SolanaPacketLaws SimplePacket.
Proof. constructor; try done; intros p; apply wrap_range; lia. Qed.

(** Printing an address as the bits of its code: an instance of [AddrText] with its laws. *)
Fixpoint pos_bits (p : positive) : bytes :=
  match p with
  | xH => []
  | xO p => Byte.x30 :: pos_bits p
  | xI p => Byte.x31 :: pos_bits p
  end.

Fixpoint bits_pos (bs : bytes) : positive :=
  match bs with
  | [] => xH
  | b :: bs => if decide (b = Byte.x30) then xO (bits_pos bs) else xI (bits_pos bs)
  end.

Lemma bits_pos_bits p : bits_pos (pos_bits p) = p.
Proof. by induction p as [p IH|p IH|]; simpl; rewrite ?IH. Qed.

Definition toy_addr_text : AddrText := {|
  ip_to_string ip := of_bytes (pos_bits (encode ip));
  ip_from_str s := decode (bits_pos (as_bytes s));
  pubkey_to_string := of_bytes;
  pubkey_from_str s := array_try_from 32 (as_bytes s);
|}.

Lemma toy_addr_text_laws : @AddrTextLaws toy_addr_text.
Proof.
  constructor; simpl.
  - intros ip. by rewrite as_of_bytes, bits_pos_bits, decode_encode.
  - intros k Hk. rewrite as_of_bytes. by apply array_try_from_Some.
Qed.

(** ** Properties *)

(** Converting a packet for the validator loses nothing of what it carries: exactly the
    packets whose payload is readable are converted; the payload, size, address text, port
    and all six flags are copied unchanged (neither the size nor the port is truncated by
    the casts), and the sender's stake is reported as 0. *)
Theorem packet_to_proto_packet_faithful `{!AddrText} {P} `{SolanaPacketLaws P} (p : P) :
  packet_to_proto_packet p =
  data ← pkt_data p;
  Some {| pp_data := data;
          pp_meta := Some {|
            pm_size := pkt_size p; pm_addr := ip_to_string (pkt_addr p); pm_port := pkt_port p;
            pm_flags := Some (Build_ProtoPacketFlags (pkt_discard p) (pkt_forwarded p)
              (pkt_repair p) (pkt_is_simple_vote_tx p) (pkt_is_perf_track_packet p)
              (pkt_is_from_staked_node p));
            pm_sender_stake := 0 |} |}.
Proof.
  unfold packet_to_proto_packet. destruct (pkt_data p) as [data|]; [|done]. simpl.
  pose proof (pkt_size_range p). pose proof (pkt_port_range p).
  by rewrite !wrap_small by lia.
Qed.

Definition small_packet : SimplePacket :=
  {| sp_bytes := [Byte.x01; Byte.x02]; sp_addr := V4 []; sp_port := 8001; sp_discard := false |}.

Lemma packet_to_proto_packet_faithful_witness :
  (pp ← @packet_to_proto_packet toy_addr_text _ _ small_packet; m ← pp_meta pp;
   Some (pp_data pp, pm_size m, pm_port m)) = Some ([Byte.x01; Byte.x02], 2, 8001).
Proof.
  rewrite (@packet_to_proto_packet_faithful toy_addr_text _ _ SimplePacket_laws small_packet).
  vm_compute. reflexivity.
Defined.
