(* ===== verification/FilterSet.v ===== *)
(** * The filter set and the three filters (src/src/proxy/mod.rs)

    The Inertia server names transactions to withhold by their first signature.  The
    [FilterSet] keeps each signature with the time it arrived, forgets it after [TTL], and
    keeps the size of its map in an atomic so that the filters can skip the lock when there
    is nothing to filter.  The filters mark packets as discarded ([discard_filtered]), drop
    block-engine packets ([filter_be_packets]) and drop whole bundles ([filter_be_bundles]).

    The operations here are the sequential ones, each run while it holds the lock;
    FilterSetConc.v runs them step by step in several threads. *)

From S2P Require Import Prelude Bytes Protos.

Local Open Scope Z_scope.

(** ** FilterSet *)

Record FilterSet := {
  fs_map : gmap bytes Z;
  fs_len : nat;
}.

Definition FilterSet_default : FilterSet := {| fs_map := ∅; fs_len := 0 |}.

Definition FilterSet_TTL : Z := from_secs 2.

(** [insert]; [now] is what [Instant::now()] reads. *)
Definition FilterSet_insert (signature : bytes) (now : Z) (fs : FilterSet) : FilterSet :=
  let map := <[signature := now]> (fs_map fs) in
  {| fs_map := map; fs_len := size map |}.

Definition FilterSet_is_empty (fs : FilterSet) : bool := Nat.eqb (fs_len fs) 0.

(** [locked]: the guard derefs to the map. *)
Definition FilterSet_locked (fs : FilterSet) : gmap bytes Z := fs_map fs.

(** The closure of [retain], called once per entry; [clk sig] is the time [elapsed] reads
    when it is called on the entry of [sig]. *)
Definition sweep_keeps (clk : bytes -> Z) (entry : bytes * Z) : Prop :=
  elapsed (clk entry.1) entry.2 < FilterSet_TTL.

#[export] Instance sweep_keeps_dec clk e : Decision (sweep_keeps clk e).
Proof. unfold sweep_keeps. apply _. Defined.

Definition FilterSet_sweep (clk : bytes -> Z) (fs : FilterSet) : FilterSet :=
  if FilterSet_is_empty fs then fs
  else
    let map := filter (sweep_keeps clk) (fs_map fs) in
    {| fs_map := map; fs_len := size map |}.

(** [first_signature]: bytes 1 to 64 of a wire transaction. *)
Definition first_signature (data : bytes) : option bytes :=
  s ← slice_get 1 65 data; array_try_from 64 s.

Definition contains_key {V} (m : gmap bytes V) (k : bytes) : bool :=
  match m !! k with Some _ => true | None => false end.

(** ** The filters *)

Section filters.
Context {P : Type} `{!SolanaPacket P}.

(** [first_signature(..).is_some_and(|sig| blocked.contains_key(&sig))]. *)
Definition blocked_data (blocked : gmap bytes Z) (data : bytes) : bool :=
  match first_signature data with
  | Some sig => contains_key blocked sig
  | None => false
  end.

(** The body of the two loops of [discard_filtered]. *)
Definition discard_packet (blocked : gmap bytes Z) (packet : P) : P :=
  if pkt_discard packet then packet
  else
    match pkt_data packet with
    | Some data =>
        if blocked_data blocked data then pkt_set_discard true packet else packet
    | None => packet
    end.

Definition discard_filtered (fs : FilterSet) (batch : BankingPacketBatch P)
    : BankingPacketBatch P :=
  if FilterSet_is_empty fs then batch
  else
    let blocked := FilterSet_locked fs in
    map (map (discard_packet blocked)) batch.

Definition filter_be_packets (fs : FilterSet) (resp : BePacketsResponse) : BePacketsResponse :=
  if FilterSet_is_empty fs then resp
  else
    {| be_header := be_header resp;
       be_batch :=
         match be_batch resp with
         | Some batch =>
             let blocked := FilterSet_locked fs in
             Some {| pb_packets :=
               List.filter (fun p => negb (blocked_data blocked (pp_data p))) (pb_packets batch) |}
         | None => None
         end |}.

(** The [hit] of [filter_be_bundles]. *)
Definition bundle_hit (blocked : gmap bytes Z) (bu : BundleUuid) : bool :=
  match bu_bundle bu with
  | Some b => existsb (fun p => blocked_data blocked (pp_data p)) (bundle_packets b)
  | None => false
  end.

Definition filter_be_bundles (fs : FilterSet) (resp : SubscribeBundlesResponse)
    : SubscribeBundlesResponse :=
  if FilterSet_is_empty fs then resp
  else
    let blocked := FilterSet_locked fs in
    {| sb_bundles := List.filter (fun bu => negb (bundle_hit blocked bu)) (sb_bundles resp) |}.

End filters.

(** ** Invariant: the atomic length is the size of the map *)

Definition FilterSet_wf (fs : FilterSet) : Prop := fs_len fs = size (fs_map fs).

Lemma FilterSet_default_wf : FilterSet_wf FilterSet_default.
Proof. done. Qed.

Lemma FilterSet_insert_wf sig now fs : FilterSet_wf (FilterSet_insert sig now fs).
Proof. done. Qed.

Lemma FilterSet_sweep_wf clk fs : FilterSet_wf fs -> FilterSet_wf (FilterSet_sweep clk fs).
Proof. unfold FilterSet_sweep. by destruct (FilterSet_is_empty fs). Qed.

#[export] Hint Resolve FilterSet_default_wf FilterSet_insert_wf FilterSet_sweep_wf : relayer.

Lemma FilterSet_is_empty_wf fs :
  FilterSet_wf fs -> FilterSet_is_empty fs = true <-> fs_map fs = ∅.
Proof.
  intros H. unfold FilterSet_is_empty. rewrite Nat.eqb_eq, H. apply map_size_empty_iff.
Qed.

(** ** Lemmas *)

(** The first signature is the 64 bytes behind the one-byte signature count. *)
Lemma first_signature_Some data sig :
  first_signature data = Some sig <->
  length sig = 64%nat /\ exists count rest, data = count :: sig ++ rest.
Proof.
  unfold first_signature. split.
  - intros (s & Hs & Ha)%bind_Some.
    apply slice_get_Some in Hs as (_ & Hl & ->). apply array_try_from_Some in Ha as [Hn ->].
    split; [done|]. destruct data as [|c data]; [simpl in Hl; lia|].
    exists c, (drop 64 data). simpl. by rewrite take_drop.
  - intros (Hl & c & rest & ->). apply bind_Some. exists sig. split.
    + apply slice_get_Some. split_and!; [lia | simpl; rewrite length_app; lia |].
      change (drop 1 (c :: sig ++ rest)) with (sig ++ rest). replace (65 - 1)%nat with (length sig) by lia. by rewrite take_app_length.
    + by apply array_try_from_Some.
Qed.

Lemma contains_key_true {V} (m : gmap bytes V) k : contains_key m k = true <-> is_Some (m !! k).
Proof. unfold contains_key. destruct (m !! k); [split; eauto|]. split; [done|by intros [? ?]]. Qed.

(** The payload is withheld: it is a transaction whose first signature is in the map. *)
Definition withheld (m : gmap bytes Z) (data : bytes) : Prop :=
  exists sig, first_signature data = Some sig /\ sig ∈ dom m.

Lemma blocked_data_spec m data : blocked_data m data = true <-> withheld m data.
Proof.
  unfold blocked_data, withheld. destruct (first_signature data) as [sig|]; [|naive_solver].
  rewrite contains_key_true. setoid_rewrite elem_of_dom. naive_solver.
Qed.

Lemma blocked_data_false m data : blocked_data m data = false <-> ~ withheld m data.
Proof. rewrite <- blocked_data_spec. destruct (blocked_data m data); naive_solver. Qed.

Lemma blocked_data_empty data : blocked_data ∅ data = false.
Proof. apply blocked_data_false. intros (sig & _ & H). set_solver. Qed.

#[export] Hint Rewrite blocked_data_empty : relayer.

(** [sweep] has the same effect with and without its early exit. *)
Lemma FilterSet_sweep_map clk fs :
  FilterSet_wf fs -> fs_map (FilterSet_sweep clk fs) = filter (sweep_keeps clk) (fs_map fs).
Proof.
  intros Hwf. unfold FilterSet_sweep. destruct (FilterSet_is_empty fs) eqn:E; [|done].
  apply FilterSet_is_empty_wf in E as ->; [|done]. by rewrite map_filter_empty.
Qed.

Lemma FilterSet_sweep_lookup clk fs sig t :
  FilterSet_wf fs ->
  fs_map (FilterSet_sweep clk fs) !! sig = Some t <->
  fs_map fs !! sig = Some t /\ elapsed (clk sig) t < FilterSet_TTL.
Proof.
  intros Hwf. rewrite FilterSet_sweep_map by done. by rewrite map_lookup_filter_Some.
Qed.

Section filter_lemmas.
Context {P : Type} `{!SolanaPacket P}.

Lemma discard_packet_empty (p : P) : discard_packet ∅ p = p.
Proof.
  unfold discard_packet. destruct (pkt_discard p); [done|].
  destruct (pkt_data p); [by rewrite blocked_data_empty | done].
Qed.

Lemma discard_filtered_map fs (batch : BankingPacketBatch P) :
  FilterSet_wf fs -> discard_filtered fs batch = map (map (discard_packet (fs_map fs))) batch.
Proof.
  intros Hwf. unfold discard_filtered. destruct (FilterSet_is_empty fs) eqn:E; [|done].
  apply FilterSet_is_empty_wf in E as ->; [|done].
  rewrite <- (map_id batch) at 1. apply map_ext. intros pb.
  rewrite <- (map_id pb) at 1. apply map_ext. intros p. by rewrite discard_packet_empty.
Qed.

Lemma discard_packet_cases m (p : P) :
  discard_packet m p = p \/
  (pkt_discard p = false /\ discard_packet m p = pkt_set_discard true p).
Proof.
  unfold discard_packet. destruct (pkt_discard p); [by left|].
  destruct (pkt_data p) as [d|]; [|by left]. destruct (blocked_data m d); auto.
Qed.

(** What the discard flag of a packet is after the filter. *)
Lemma discard_packet_discard `{!SolanaPacketLaws P} m (p : P) :
  pkt_discard (discard_packet m p) = true <->
  pkt_discard p = true \/ exists data, pkt_data p = Some data /\ withheld m data.
Proof.
  unfold discard_packet. destruct (pkt_discard p) eqn:Hd; [naive_solver|].
  destruct (pkt_data p) as [d|]; [|naive_solver].
  destruct (blocked_data m d) eqn:Eb.
  - rewrite discard_set_discard. apply blocked_data_spec in Eb. naive_solver.
  - rewrite Hd. apply blocked_data_false in Eb. naive_solver.
Qed.

(** A packet that the filter leaves visible is the packet it was given. *)
Lemma discard_packet_visible `{!SolanaPacketLaws P} m (p : P) :
  pkt_discard (discard_packet m p) = false -> discard_packet m p = p.
Proof.
  destruct (discard_packet_cases m p) as [?|[_ E]]; [done|].
  rewrite E, discard_set_discard. done.
Qed.

Lemma filter_be_packets_batch fs resp :
  FilterSet_wf fs ->
  filter_be_packets fs resp =
  {| be_header := be_header resp;
     be_batch := (fun b => {| pb_packets :=
       List.filter (fun p => negb (blocked_data (fs_map fs) (pp_data p))) (pb_packets b) |})
       <$> be_batch resp |}.
Proof.
  intros Hwf. unfold filter_be_packets. destruct (FilterSet_is_empty fs) eqn:E.
  - apply FilterSet_is_empty_wf in E as ->; [|done].
    destruct resp as [h [[ps]|]]; simpl; [|done]. do 3 f_equal. symmetry.
    apply filter_bool_all. intros p _. by rewrite blocked_data_empty.
  - by destruct (be_batch resp).
Qed.

Lemma bundle_hit_empty bu : bundle_hit ∅ bu = false.
Proof.
  unfold bundle_hit. destruct (bu_bundle bu) as [b|]; [|done].
  apply not_true_iff_false. rewrite existsb_exists. intros (p & _ & H).
  by rewrite blocked_data_empty in H.
Qed.

Lemma filter_be_bundles_bundles fs resp :
  FilterSet_wf fs ->
  sb_bundles (filter_be_bundles fs resp) =
  List.filter (fun bu => negb (bundle_hit (fs_map fs) bu)) (sb_bundles resp).
Proof.
  intros Hwf. unfold filter_be_bundles. destruct (FilterSet_is_empty fs) eqn:E; [|done].
  apply FilterSet_is_empty_wf in E as ->; [|done]. symmetry.
  apply filter_bool_all. intros bu _. by rewrite bundle_hit_empty.
Qed.

Lemma bundle_hit_spec m bu :
  bundle_hit m bu = true <->
  exists b p, bu_bundle bu = Some b /\ p ∈ bundle_packets b /\ withheld m (pp_data p).
Proof.
  unfold bundle_hit. destruct (bu_bundle bu) as [b|]; [|naive_solver].
  rewrite existsb_exists. setoid_rewrite blocked_data_spec.
  setoid_rewrite list_elem_of_In. naive_solver.
Qed.

End filter_lemmas.

(** ** Histories of the set *)

Inductive FilterOp :=
| OpInsert (signature : bytes) (now : Z)
| OpSweep (clk : bytes -> Z).

Definition FilterSet_apply (fs : FilterSet) (op : FilterOp) : FilterSet :=
  match op with
  | OpInsert sig now => FilterSet_insert sig now fs
  | OpSweep clk => FilterSet_sweep clk fs
  end.

Definition FilterSet_run (ops : list FilterOp) (fs : FilterSet) : FilterSet :=
  fold_left FilterSet_apply ops fs.

Lemma FilterSet_apply_wf fs op : FilterSet_wf fs -> FilterSet_wf (FilterSet_apply fs op).
Proof. destruct op; simpl; auto with relayer. Qed.

Lemma FilterSet_run_wf ops fs : FilterSet_wf fs -> FilterSet_wf (FilterSet_run ops fs).
Proof.
  revert fs; induction ops as [|op ops IH]; intros fs H; [done|]. apply IH, FilterSet_apply_wf, H.
Qed.

(** The operation does not insert [sig] again. *)
Definition not_inserting (sig : bytes) (op : FilterOp) : Prop :=
  match op with OpInsert s _ => s <> sig | OpSweep _ => True end.

(** The operation is not a sweep that sees the entry ([sig], [t]) as too old. *)
Definition sweep_spares (sig : bytes) (t : Z) (op : FilterOp) : Prop :=
  match op with OpInsert _ _ => True | OpSweep clk => elapsed (clk sig) t < FilterSet_TTL end.

Lemma FilterSet_run_None sig ops fs :
  FilterSet_wf fs -> Forall (not_inserting sig) ops -> fs_map fs !! sig = None ->
  fs_map (FilterSet_run ops fs) !! sig = None.
Proof.
  revert fs; induction ops as [|op ops IH]; intros fs Hwf Hni Hs; [done|].
  inversion_clear Hni as [|? ? Hn Hrest].
  apply (IH (FilterSet_apply fs op)); [by apply FilterSet_apply_wf | done |].
  destruct op as [s now|clk]; simpl in *.
  - by rewrite lookup_insert_ne.
  - apply eq_None_not_Some. intros [t Ht]. apply FilterSet_sweep_lookup in Ht as [Ht _]; naive_solver.
Qed.

Lemma FilterSet_run_Some sig t ops fs :
  FilterSet_wf fs -> Forall (not_inserting sig) ops -> fs_map fs !! sig = Some t ->
  fs_map (FilterSet_run ops fs) !! sig = Some t <-> Forall (sweep_spares sig t) ops.
Proof.
  revert fs; induction ops as [|op ops IH]; intros fs Hwf Hni Hs.
  { split; [constructor | done]. }
  inversion_clear Hni as [|? ? Hn Hrest]. rewrite Forall_cons.
  change (FilterSet_run (op :: ops) fs) with (FilterSet_run ops (FilterSet_apply fs op)).
  pose proof (FilterSet_apply_wf fs op Hwf) as Hwf'.
  destruct (fs_map (FilterSet_apply fs op) !! sig) as [t'|] eqn:E.
  - assert (t' = t /\ sweep_spares sig t op) as [-> Hsp].
    { destruct op as [s now|clk]; simpl in *.
      - rewrite lookup_insert_ne in E by done. naive_solver.
      - apply FilterSet_sweep_lookup in E as [??]; naive_solver. }
    rewrite IH by done. naive_solver.
  - rewrite FilterSet_run_None by done. split; [done|]. intros [Hsp _]. exfalso.
    destruct op as [s now|clk]; simpl in *; [by rewrite lookup_insert_ne in E; naive_solver|].
    assert (fs_map (FilterSet_sweep clk fs) !! sig = Some t); [|congruence].
    by apply FilterSet_sweep_lookup.
Qed.

(** ** Properties *)

(** A signature the server sends stays in the filter set exactly as long as no sweep
    finds it at least [TTL] (two seconds) old: after any sequence of insertions of other
    signatures and sweeps, it is still there, with its arrival time, iff every sweep of the
    sequence read a clock less than two seconds after the arrival. *)
Theorem filter_entry_lifetime fs sig t ops :
  FilterSet_wf fs -> Forall (not_inserting sig) ops ->
  fs_map (FilterSet_run ops (FilterSet_insert sig t fs)) !! sig = Some t <->
  Forall (sweep_spares sig t) ops.
Proof.
  intros Hwf Hni. apply FilterSet_run_Some; [apply FilterSet_insert_wf | done |].
  apply lookup_insert_eq.
Qed.

Lemma filter_entry_lifetime_witness :
  fs_map (FilterSet_run [OpSweep (fun _ => from_secs 6); OpInsert [Byte.x01] (from_secs 6)]
    (FilterSet_insert [Byte.x02] (from_secs 5) FilterSet_default)) !! [Byte.x02]
  = Some (from_secs 5).
Proof.
  apply filter_entry_lifetime.
  - reflexivity.
  - repeat constructor. discriminate.
  - repeat constructor.
Defined.

(** A sweep that runs between the instants [t0] and [t1] removes every signature that
    was two seconds old when it started, keeps every signature still younger than that when
    it ended, invents nothing, and leaves the atomic length equal to the size of the map,
    also when it returns early because the length is zero. *)
Theorem filter_sweep_window fs clk t0 t1 :
  FilterSet_wf fs -> (forall sig, t0 <= clk sig <= t1) ->
  let fs' := FilterSet_sweep clk fs in
  FilterSet_wf fs' /\
  forall sig,
    match fs_map fs !! sig with
    | None => fs_map fs' !! sig = None
    | Some t =>
        (FilterSet_TTL <= t0 - t -> fs_map fs' !! sig = None) /\
        (t1 - t < FilterSet_TTL -> fs_map fs' !! sig = Some t)
    end.
Proof.
  intros Hwf Hclk. cbv zeta. split; [by apply FilterSet_sweep_wf|]. intros sig.
  pose proof (FilterSet_sweep_lookup clk fs sig) as Hl. specialize (Hclk sig).
  unfold elapsed, saturating_duration_since, FilterSet_TTL, from_secs, NANOS in *.
  destruct (fs_map fs !! sig) as [t|] eqn:E.
  - split; intros Ht; [|apply Hl; [done|]; split; [done|lia]].
    apply eq_None_not_Some. intros [t' Ht']. apply Hl in Ht' as [[= <-] ?]; [lia|done].
  - apply eq_None_not_Some. intros [t' Ht']. by apply Hl in Ht' as [??].
Qed.

Lemma filter_sweep_window_witness :
  FilterSet_wf (FilterSet_sweep (fun _ => from_secs 9) (FilterSet_insert [Byte.x02] (from_secs 5) FilterSet_default)) /\
  fs_map (FilterSet_sweep (fun _ => from_secs 9) (FilterSet_insert [Byte.x02] (from_secs 5) FilterSet_default)) !! [Byte.x02] = None.
Proof.
  destruct (filter_sweep_window (FilterSet_insert [Byte.x02] (from_secs 5) FilterSet_default)
    (fun _ => from_secs 9) (from_secs 9) (from_secs 9)) as [Hwf Hl].
  - reflexivity.
  - intros sig. lia.
  - split; [exact Hwf|]. specialize (Hl [Byte.x02]). vm_compute in Hl.
    vm_compute. apply Hl. discriminate.
Defined.

(** C16. Filtering a TPU batch touches discard flags only: batch by batch and packet by packet
    the result is the input, except that a packet not yet discarded whose payload starts with
    a filtered signature is marked as discarded.  The early exit on an empty set is covered. *)
Theorem discard_filtered_correct {P} `{SolanaPacketLaws P} fs (batch : BankingPacketBatch P) :
  FilterSet_wf fs ->
  Forall2 (Forall2 (fun p p' =>
    (p' = p \/ p' = pkt_set_discard true p) /\
    (pkt_discard p' = true <->
      pkt_discard p = true \/
      exists data, pkt_data p = Some data /\ withheld (fs_map fs) data)))
    batch (discard_filtered fs batch).
Proof.
  intros Hwf. rewrite discard_filtered_map by done.
  apply Forall2_fmap_r, Forall_Forall2_diag, Forall_true. intros pb.
  apply Forall2_fmap_r, Forall_Forall2_diag, Forall_true. intros p.
  split; [destruct (discard_packet_cases (fs_map fs) p); naive_solver|].
  apply discard_packet_discard.
Qed.

Definition toy_packet (first : byte) : SimplePacket :=
  {| sp_bytes := Byte.x01 :: replicate 64 first ++ [Byte.xff]; sp_addr := V4 []; sp_port := 8001;
     sp_discard := false |}.

Definition toy_filter : FilterSet := FilterSet_insert (replicate 64 Byte.x07) 0 FilterSet_default.

Lemma discard_filtered_correct_witness :
  FilterSet_wf toy_filter /\
  map (map pkt_discard) (discard_filtered toy_filter [[toy_packet Byte.x07; toy_packet Byte.x08]])
    = [[true; false]] /\
  length (discard_filtered toy_filter [[toy_packet Byte.x07; toy_packet Byte.x08]]) = 1%nat.
Proof.
  split; [reflexivity|]. split; [vm_compute; reflexivity|].
  symmetry. apply (Forall2_length _ _ _
    (discard_filtered_correct toy_filter [[toy_packet Byte.x07; toy_packet Byte.x08]] eq_refl)).
Defined.

(** Filtering a block-engine packet response keeps the header and the order of the
    packets and removes exactly those whose first signature is filtered. *)
Theorem filter_be_packets_correct fs resp :
  FilterSet_wf fs ->
  be_header (filter_be_packets fs resp) = be_header resp /\
  (be_batch (filter_be_packets fs resp) = None <-> be_batch resp = None) /\
  forall b b', be_batch resp = Some b -> be_batch (filter_be_packets fs resp) = Some b' ->
    sublist (pb_packets b') (pb_packets b) /\
    forall p, p ∈ pb_packets b' <->
      p ∈ pb_packets b /\ ~ withheld (fs_map fs) (pp_data p).
Proof.
  intros Hwf. rewrite filter_be_packets_batch by done. cbn [be_header be_batch].
  split; [done|]. split; [by rewrite fmap_None|].
  intros b b' -> [= <-]. cbn [pb_packets]. split; [apply filter_bool_sublist|].
  intros p. rewrite elem_of_filter_bool, negb_true_iff, blocked_data_false. done.
Qed.

Definition toy_proto (first : byte) : ProtoPacket :=
  {| pp_data := Byte.x01 :: replicate 64 first; pp_meta := None |}.

Lemma filter_be_packets_correct_witness :
  FilterSet_wf toy_filter /\
  be_header (filter_be_packets toy_filter {| be_header := None; be_batch :=
    Some {| pb_packets := [toy_proto Byte.x07; toy_proto Byte.x08] |} |}) = None.
Proof.
  split; [reflexivity|].
  apply (filter_be_packets_correct toy_filter {| be_header := None; be_batch :=
    Some {| pb_packets := [toy_proto Byte.x07; toy_proto Byte.x08] |} |} eq_refl).
Defined.

(** Bundles are filtered whole: a bundle is kept, in its place, iff none of its packets
    has a filtered first signature; an entry without a bundle is kept. *)
Theorem filter_be_bundles_correct fs resp :
  FilterSet_wf fs ->
  sublist (sb_bundles (filter_be_bundles fs resp)) (sb_bundles resp) /\
  forall bu, bu ∈ sb_bundles (filter_be_bundles fs resp) <->
    bu ∈ sb_bundles resp /\
    forall b p, bu_bundle bu = Some b -> p ∈ bundle_packets b -> ~ withheld (fs_map fs) (pp_data p).
Proof.
  intros Hwf. rewrite filter_be_bundles_bundles by done. split; [apply filter_bool_sublist|].
  intros bu. rewrite elem_of_filter_bool, negb_true_iff, <- not_true_iff_false, bundle_hit_spec.
  naive_solver.
Qed.

Lemma filter_be_bundles_correct_witness :
  FilterSet_wf toy_filter /\
  sublist (sb_bundles (filter_be_bundles toy_filter {| sb_bundles :=
    [{| bu_bundle := Some {| bundle_header := None;
          bundle_packets := [toy_proto Byte.x08; toy_proto Byte.x07] |}; bu_uuid := "a" |};
     {| bu_bundle := None; bu_uuid := "b" |}] |}))
    [{| bu_bundle := Some {| bundle_header := None;
          bundle_packets := [toy_proto Byte.x08; toy_proto Byte.x07] |}; bu_uuid := "a" |};
     {| bu_bundle := None; bu_uuid := "b" |}].
Proof.
  split; [reflexivity|].
  apply (filter_be_bundles_correct toy_filter {| sb_bundles :=
    [{| bu_bundle := Some {| bundle_header := None;
          bundle_packets := [toy_proto Byte.x08; toy_proto Byte.x07] |}; bu_uuid := "a" |};
     {| bu_bundle := None; bu_uuid := "b" |}] |} eq_refl).
Defined.
