(* ===== verification/FilterSetConc.v ===== *)
(** * The filter set under concurrency (src/src/proxy/mod.rs)

    One [FilterSet] is shared by the mirror's datagram reader ([insert]), the relayer delay
    thread ([sweep], [discard_filtered]) and the two block-engine tasks ([filter_be_packets],
    [filter_be_bundles]).  The map is behind a mutex; the length is an atomic that the
    writers store before they release the mutex and that [sweep] and the filters read
    without it.  This file runs those operations as threads that interleave at every access
    to shared memory (the accesses take effect in one global order). *)

From S2P Require Import Prelude Bytes Protos FilterSet.

(** Where a thread is in its operation. *)
Inductive pc :=
| Idle
| InsLock (sig : bytes)      (* insert: about to lock the map *)
| InsInsert (sig : bytes)    (* holds the lock, about to write the map *)
| InsStore (sig : bytes)     (* about to store the length *)
| InsUnlock (sig : bytes)    (* about to drop the guard *)
| SwpCheck                   (* sweep: about to read the length *)
| SwpLock
| SwpRetain
| SwpStore
| SwpUnlock
| FltCheck                   (* a filter: about to read the length *)
| FltLock
| FltScan                    (* holds the lock, about to scan with the map *)
| FltUnlock.

(** The program counters at which a thread holds the mutex. *)
Definition holds_lock (p : pc) : bool :=
  match p with
  | InsInsert _ | InsStore _ | InsUnlock _ | SwpRetain | SwpStore | SwpUnlock
  | FltScan | FltUnlock => true
  | _ => false
  end.

(** Shared memory, the threads, and a ghost set: the signatures whose [insert] has returned
    and which no later sweep has removed. *)
Record cstate := {
  c_map : gmap bytes Z;
  c_len : nat;
  c_lock : option nat;
  c_pc : gmap nat pc;
  c_published : gset bytes;
}.

(** The map a filter used for its decisions. *)
Inductive clabel :=
| Tau
| Filtered (blocked : gmap bytes Z).

Definition goto (t : nat) (p : pc) (s : cstate) : cstate :=
  {| c_map := c_map s; c_len := c_len s; c_lock := c_lock s;
     c_pc := <[t := p]> (c_pc s); c_published := c_published s |}.

Definition set_lock (l : option nat) (s : cstate) : cstate :=
  {| c_map := c_map s; c_len := c_len s; c_lock := l; c_pc := c_pc s;
     c_published := c_published s |}.

Definition set_map (m : gmap bytes Z) (s : cstate) : cstate :=
  {| c_map := m; c_len := c_len s; c_lock := c_lock s; c_pc := c_pc s;
     c_published := c_published s |}.

Definition store_len (s : cstate) : cstate :=
  {| c_map := c_map s; c_len := size (c_map s); c_lock := c_lock s; c_pc := c_pc s;
     c_published := c_published s |}.

Definition publish (p : gset bytes) (s : cstate) : cstate :=
  {| c_map := c_map s; c_len := c_len s; c_lock := c_lock s; c_pc := c_pc s;
     c_published := p |}.

(** One access of thread [t].  Each rule is one line of [insert], [sweep] or a filter. *)
Inductive cstep (t : nat) (s : cstate) : clabel -> cstate -> Prop :=
| start_insert sig : c_pc s !! t = Some Idle -> cstep t s Tau (goto t (InsLock sig) s)
| ins_lock sig : c_pc s !! t = Some (InsLock sig) -> c_lock s = None ->
    cstep t s Tau (goto t (InsInsert sig) (set_lock (Some t) s))
| ins_insert sig now : c_pc s !! t = Some (InsInsert sig) ->
    cstep t s Tau (goto t (InsStore sig) (set_map (<[sig := now]> (c_map s)) s))
| ins_store sig : c_pc s !! t = Some (InsStore sig) ->
    cstep t s Tau (goto t (InsUnlock sig) (store_len s))
| ins_unlock sig : c_pc s !! t = Some (InsUnlock sig) ->
    cstep t s Tau (goto t Idle (set_lock None (publish ({[sig]} ∪ c_published s) s)))
| start_sweep : c_pc s !! t = Some Idle -> cstep t s Tau (goto t SwpCheck s)
| swp_empty : c_pc s !! t = Some SwpCheck -> c_len s = 0 -> cstep t s Tau (goto t Idle s)
| swp_nonempty : c_pc s !! t = Some SwpCheck -> c_len s <> 0 -> cstep t s Tau (goto t SwpLock s)
| swp_lock : c_pc s !! t = Some SwpLock -> c_lock s = None ->
    cstep t s Tau (goto t SwpRetain (set_lock (Some t) s))
| swp_retain clk : c_pc s !! t = Some SwpRetain ->
    let m := filter (sweep_keeps clk) (c_map s) in
    cstep t s Tau (goto t SwpStore (set_map m (publish (c_published s ∩ dom m) s)))
| swp_store : c_pc s !! t = Some SwpStore -> cstep t s Tau (goto t SwpUnlock (store_len s))
| swp_unlock : c_pc s !! t = Some SwpUnlock -> cstep t s Tau (goto t Idle (set_lock None s))
| start_filter : c_pc s !! t = Some Idle -> cstep t s Tau (goto t FltCheck s)
| flt_empty : c_pc s !! t = Some FltCheck -> c_len s = 0 ->
    cstep t s (Filtered ∅) (goto t Idle s)
| flt_nonempty : c_pc s !! t = Some FltCheck -> c_len s <> 0 -> cstep t s Tau (goto t FltLock s)
| flt_lock : c_pc s !! t = Some FltLock -> c_lock s = None ->
    cstep t s Tau (goto t FltScan (set_lock (Some t) s))
| flt_scan : c_pc s !! t = Some FltScan ->
    cstep t s (Filtered (c_map s)) (goto t FltUnlock s)
| flt_unlock : c_pc s !! t = Some FltUnlock -> cstep t s Tau (goto t Idle (set_lock None s)).

Inductive creachable (threads : gset nat) : cstate -> Prop :=
| creach_init : creachable threads
    {| c_map := ∅; c_len := 0; c_lock := None; c_pc := gset_to_gmap Idle threads;
       c_published := ∅ |}
| creach_step t s l s' : creachable threads s -> cstep t s l s' -> creachable threads s'.

(** ** Invariant *)

(** What the thread that holds the lock has established at its program counter. *)
Definition pc_ok (s : cstate) (p : pc) : Prop :=
  match p with
  | InsStore sig => sig ∈ dom (c_map s)
  | InsUnlock sig => sig ∈ dom (c_map s) /\ c_len s = size (c_map s)
  | SwpStore => True
  | _ => c_len s = size (c_map s)
  end.

Record cinv (s : cstate) : Prop := {
  inv_lock t : c_lock s = Some t -> exists p, c_pc s !! t = Some p /\ holds_lock p = true /\ pc_ok s p;
  inv_excl t p : c_pc s !! t = Some p -> holds_lock p = true -> c_lock s = Some t;
  inv_free : c_lock s = None -> c_len s = size (c_map s);
  inv_pub : c_published s ⊆ dom (c_map s);
  inv_len : c_len s = 0 -> c_published s = ∅;
}.

(** ** Preservation

    Four kinds of step: a thread that does not hold the lock moves on, a thread acquires the
    lock, the holder changes memory, the holder releases the lock. *)

Section preservation.
Implicit Types (s : cstate) (p : pc).

Lemma cinv_move s t p p' :
  cinv s -> c_pc s !! t = Some p -> holds_lock p = false -> holds_lock p' = false ->
  cinv (goto t p' s).
Proof.
  intros [Hl He Hf Hp Hn] Hpc Hh Hh'. constructor; cbn; try done.
  - intros u Hu. destruct (Hl u Hu) as (q & Hq & Hhq & Hok).
    exists q. rewrite lookup_insert_ne; [done|]. congruence.
  - intros u q Hq Hhq. destruct (decide (u = t)) as [->|Hne].
    + rewrite lookup_insert_eq in Hq. congruence.
    + rewrite lookup_insert_ne in Hq by done. eauto.
Qed.

Lemma cinv_acquire s t p p' :
  cinv s -> c_pc s !! t = Some p -> c_lock s = None -> holds_lock p' = true ->
  (c_len s = size (c_map s) -> pc_ok s p') -> cinv (goto t p' (set_lock (Some t) s)).
Proof.
  intros [Hl He Hf Hp Hn] Hpc Hlk Hh' Hok. constructor; cbn; try done.
  - intros u [= <-]. exists p'. rewrite lookup_insert_eq. split_and!; [done..|]. by apply Hok, Hf.
  - intros u q Hq Hhq. destruct (decide (u = t)) as [->|Hne]; [done|].
    rewrite lookup_insert_ne in Hq by done. specialize (He _ _ Hq Hhq). congruence.
Qed.

(** The holder writes: [s'] has the memory of the next state. *)
Lemma cinv_hold s s' t p p' :
  cinv s -> c_pc s !! t = Some p -> holds_lock p = true -> holds_lock p' = true ->
  c_lock s' = c_lock s -> c_pc s' = c_pc s ->
  pc_ok s' p' -> c_published s' ⊆ dom (c_map s') -> (c_len s' = 0 -> c_published s' = ∅) ->
  cinv (goto t p' s').
Proof.
  intros [Hl He Hf Hp Hn] Hpc Hh Hh' Hlk Hpcs Hok Hpub Hlen.
  specialize (He t p Hpc Hh) as Ht. constructor; cbn; try done.
  - rewrite Hlk, Hpcs, Ht. intros u [= <-]. exists p'. rewrite lookup_insert_eq. done.
  - rewrite Hlk, Hpcs, Ht. intros u q Hq Hhq. destruct (decide (u = t)) as [->|Hne]; [done|].
    rewrite lookup_insert_ne in Hq by done. rewrite <- Ht. eauto.
  - rewrite Hlk, Ht. done.
Qed.

Lemma cinv_release s s' t p :
  cinv s -> c_pc s !! t = Some p -> holds_lock p = true ->
  c_lock s' = None -> c_pc s' = c_pc s ->
  c_len s' = size (c_map s') -> c_published s' ⊆ dom (c_map s') ->
  (c_len s' = 0 -> c_published s' = ∅) -> cinv (goto t Idle s').
Proof.
  intros [Hl He Hf Hp Hn] Hpc Hh Hlk Hpcs Hsz Hpub Hlen.
  specialize (He t p Hpc Hh) as Ht. constructor; cbn; try done.
  - rewrite Hlk. done.
  - rewrite Hpcs. intros u q Hq Hhq. destruct (decide (u = t)) as [->|Hne].
    + rewrite lookup_insert_eq in Hq. by simplify_eq.
    + rewrite lookup_insert_ne in Hq by done. specialize (He u q Hq Hhq). congruence.
Qed.

(** What the holder knows at its program counter. *)
Lemma cinv_pc_ok s t p :
  cinv s -> c_pc s !! t = Some p -> holds_lock p = true -> pc_ok s p.
Proof.
  intros [Hl He _ _ _] Hpc Hh. destruct (Hl t (He t p Hpc Hh)) as (q & Hq & _ & Hok). congruence.
Qed.

Lemma published_empty_of_size s :
  cinv s -> size (c_map s) = 0 -> c_published s = ∅.
Proof. intros [_ _ _ Hp _] Hs%map_size_empty_iff. rewrite Hs in Hp. set_solver. Qed.

End preservation.

#[local] Hint Resolve inv_pub inv_len : relayer.

Lemma cinv_step t s l s' : cinv s -> cstep t s l s' -> cinv s'.
Proof.
  intros Hi Hs. pose proof (published_empty_of_size s Hi) as Hz.
  pose proof (inv_pub s Hi) as Hpub. pose proof (inv_len s Hi) as Hlen.
  destruct Hs;
    repeat match goal with
    | Hpc : c_pc s !! t = Some ?p |- _ =>
        lazymatch goal with _ : pc_ok s p |- _ => fail | _ =>
          pose proof (cinv_pc_ok s t p Hi Hpc eq_refl) as Hok end
    end; simpl in *;
    try (by eapply cinv_move; eauto);
    try (by eapply cinv_acquire; eauto).
  - eapply cinv_hold; eauto; cbn; set_solver.
  - eapply cinv_hold; eauto; cbn; set_solver.
  - destruct Hok as [Hin Hsz]. eapply cinv_release; eauto; cbn; [set_solver|].
    rewrite Hsz. intros Hs%map_size_empty_iff. exfalso. rewrite Hs in Hin. set_solver.
  - eapply cinv_hold; eauto; cbn; set_solver.
  - eapply cinv_hold; eauto; cbn; set_solver.
  - eapply cinv_release; eauto.
  - eapply cinv_hold; eauto.
  - eapply cinv_release; eauto.
Qed.

Lemma creachable_cinv threads s : creachable threads s -> cinv s.
Proof.
  induction 1 as [|t s l s' _ IH Hs]; [|by eapply cinv_step].
  constructor; cbn; try done.
  intros t p Hp Hh. apply lookup_gset_to_gmap_Some in Hp as [_ <-]. done.
Qed.

(** ** Properties *)

(** C29. Mutual exclusion and the meaning of the atomic: in every reachable state at most one
    thread is inside a critical section, and whenever no thread is, the length the filters
    read without the lock is the size of the map. *)
Theorem filterset_len_consistent threads s :
  creachable threads s ->
  (forall t t' p p', c_pc s !! t = Some p -> c_pc s !! t' = Some p' ->
     holds_lock p = true -> holds_lock p' = true -> t = t') /\
  ((forall t p, c_pc s !! t = Some p -> holds_lock p = false) -> c_len s = size (c_map s)).
Proof.
  intros Hr%creachable_cinv. destruct Hr as [Hl He Hf _ _]. split.
  - intros t t' p p' H1 H2 H3 H4. specialize (He t p H1 H3) as E1.
    specialize (He t' p' H2 H4) as E2. congruence.
  - intros Hno. destruct (c_lock s) as [t|] eqn:E; [|by apply Hf].
    destruct (Hl t eq_refl) as (p & Hp & Hh & _). specialize (Hno t p Hp). congruence.
Qed.

(** C9. No filter misses a signature: whenever a filter decides with some map (the empty one
    when it skips the lock because it read length zero), every signature whose insertion had
    returned before that, and which no sweep has removed since, is in that map; and the map
    contains nothing that is not in the set. *)
Theorem filter_sees_published threads s t blocked s' :
  creachable threads s -> cstep t s (Filtered blocked) s' ->
  c_published s ⊆ dom blocked /\ blocked ⊆ c_map s.
Proof.
  intros Hr%creachable_cinv Hs. inversion Hs; subst.
  - rewrite (inv_len s Hr) by done. split; [set_solver | apply map_empty_subseteq].
  - split; [by apply inv_pub | done].
Qed.

(** No deadlock: as long as some thread is in the middle of an operation, some thread can
    take a step (a thread waiting for the mutex waits for one that can go on). *)
Theorem filterset_progress threads s t p :
  creachable threads s -> c_pc s !! t = Some p -> p <> Idle ->
  exists u l s', cstep u s l s'.
Proof.
  intros Hr%creachable_cinv Hpc Hne.
  destruct (c_lock s) as [u|] eqn:El.
  - destruct (inv_lock s Hr u El) as (q & Hq & Hh & _). exists u.
    destruct q; try discriminate Hh; eexists _, _;
      first [by (eapply (ins_insert _ _ _ 0%Z); eassumption) | by (eapply (swp_retain _ _ (fun _ => 0%Z)); eassumption)
            | by econstructor].
  - exists t. destruct p; try done; destruct (decide (c_len s = 0)); eexists _, _;
      first [by (eapply (ins_insert _ _ _ 0%Z); eassumption) | by (eapply (swp_retain _ _ (fun _ => 0%Z)); eassumption)
            | by econstructor].
Qed.

(** ** Witnesses: thread 1 inserts, then thread 2 filters *)

Definition toy_init : cstate :=
  {| c_map := ∅; c_len := 0; c_lock := None; c_pc := {[1 := Idle; 2 := Idle]};
     c_published := ∅ |}.

Definition toy_scan : cstate :=
  {| c_map := {[ [Byte.x07] := 5%Z ]}; c_len := 1; c_lock := Some 2;
     c_pc := {[1 := Idle; 2 := FltScan]}; c_published := {[ [Byte.x07] ]} |}.

Lemma toy_init_reachable : creachable {[1; 2]} toy_init.
Proof.
  replace toy_init with {| c_map := ∅; c_len := 0; c_lock := None;
    c_pc := gset_to_gmap Idle {[1; 2]}; c_published := ∅ |} by (vm_compute; reflexivity).
  constructor.
Qed.

Lemma toy_scan_reachable : creachable {[1; 2]} toy_scan.
Proof.
  pose proof toy_init_reachable as R.
  eapply creach_step in R; [|apply (start_insert 1 _ [Byte.x07]); reflexivity].
  eapply creach_step in R; [|apply (ins_lock 1 _ [Byte.x07]); reflexivity].
  eapply creach_step in R; [|apply (ins_insert 1 _ [Byte.x07] 5%Z); reflexivity].
  eapply creach_step in R; [|apply (ins_store 1 _ [Byte.x07]); reflexivity].
  eapply creach_step in R; [|apply (ins_unlock 1 _ [Byte.x07]); reflexivity].
  eapply creach_step in R; [|apply (start_filter 2); reflexivity].
  eapply creach_step in R; [|apply (flt_nonempty 2); [reflexivity | vm_compute; discriminate]].
  eapply creach_step in R; [|apply (flt_lock 2); reflexivity].
  match type of R with creachable _ ?s =>
    replace toy_scan with s by (vm_compute; reflexivity) end.
  exact R.
Qed.

(** The state after an insert and a filter that saw it. *)
Definition toy_inserted : cstate :=
  {| c_map := {[ [Byte.x07] := 5%Z ]}; c_len := 1; c_lock := None;
     c_pc := {[1 := Idle; 2 := Idle]}; c_published := {[ [Byte.x07] ]} |}.

Lemma toy_inserted_reachable : creachable {[1; 2]} toy_inserted.
Proof.
  pose proof toy_scan_reachable as R.
  eapply creach_step in R; [|apply (flt_scan 2); reflexivity].
  eapply creach_step in R; [|apply (flt_unlock 2); reflexivity].
  match type of R with creachable _ ?s =>
    replace toy_inserted with s by (vm_compute; reflexivity) end.
  exact R.
Qed.

Lemma filterset_len_consistent_witness :
  creachable {[1; 2]} toy_inserted /\ c_len toy_inserted = size (c_map toy_inserted) /\
  c_len toy_inserted = 1.
Proof.
  pose proof toy_inserted_reachable as Hr.
  split; [exact Hr|]. split; [|reflexivity]. apply (filterset_len_consistent _ _ Hr).
  intros t p Hp. cbn in Hp. apply lookup_insert_Some in Hp as [[_ <-]|[_ Hp]]; [done|].
  apply lookup_singleton_Some in Hp as [_ <-]. done.
Defined.

Lemma filter_sees_published_witness :
  {[ [Byte.x07] ]} ⊆ dom (c_map toy_scan) /\ c_map toy_scan ⊆ c_map toy_scan.
Proof.
  apply (filter_sees_published _ toy_scan 2 (c_map toy_scan) (goto 2 FltUnlock toy_scan)
    toy_scan_reachable).
  apply flt_scan. reflexivity.
Defined.

Lemma filterset_progress_witness : exists u l s', cstep u toy_scan l s'.
Proof.
  apply (filterset_progress _ toy_scan 2 FltScan toy_scan_reachable); [reflexivity | discriminate].
Defined.
