(* ===== verification/DelayLine.v ===== *)
(** * Delay lines

    The proxy holds every batch back for a fixed delay, in two places with different code:
    the thread of [spawn_relayer_delay] and the task [delay_forward].  Both promise the same
    thing, a first-in-first-out line with a fixed delay.  This file states that promise as an
    interface, the class [DelayMachine], specifies it by the abstract transition system
    [dl_step], and proves once what follows for every machine that refines it: nothing lost,
    duplicated or reordered, nothing released early, nothing due left behind. *)

From S2P Require Import Prelude.

Local Open Scope Z_scope.

(** ** The specification *)

Section spec.
Context {A : Type} (delay : Z).

(** The entries in line, each with the instant it may leave, and the latest clock reading. *)
Record dl_state := { dl_queue : list (Z * A); dl_clock : Z }.

Inductive dl_label :=
| Skip
| Accept (t : Z) (a : A)
| Release (t : Z) (r : Z) (a : A).

Inductive dl_step : dl_state -> dl_label -> dl_state -> Prop :=
| dl_skip q c c' : c <= c' ->
    dl_step {| dl_queue := q; dl_clock := c |} Skip {| dl_queue := q; dl_clock := c' |}
| dl_accept q c t a : c <= t ->
    dl_step {| dl_queue := q; dl_clock := c |} (Accept t a)
            {| dl_queue := q ++ [(t + delay, a)]; dl_clock := t |}
| dl_release q c t r a : t <= c -> r <= t ->
    dl_step {| dl_queue := (r, a) :: q; dl_clock := c |} (Release t r a)
            {| dl_queue := q; dl_clock := c |}.

Inductive dl_run : dl_state -> list dl_label -> dl_state -> Prop :=
| dl_run_nil s : dl_run s [] s
| dl_run_cons s l s' ls s'' : dl_step s l s' -> dl_run s' ls s'' -> dl_run s (l :: ls) s''.

Definition stamp (e : Z * A) : Z * A := (e.1 + delay, e.2).

Definition accepted (ls : list dl_label) : list (Z * A) :=
  l ← ls; match l with Accept t a => [(t, a)] | _ => [] end.

Definition released (ls : list dl_label) : list (Z * (Z * A)) :=
  l ← ls; match l with Release t r a => [(t, (r, a))] | _ => [] end.

(** Nothing is lost, duplicated or reordered. *)
Lemma dl_run_conserves s ls s' :
  dl_run s ls s' ->
  dl_queue s ++ (stamp <$> accepted ls) = (snd <$> released ls) ++ dl_queue s'.
Proof.
  induction 1 as [s|s l s1 ls s2 Hstep _ IH]; [by rewrite app_nil_r|].
  destruct Hstep; simpl in *; [done| |by rewrite IH].
  rewrite <- IH, <- app_assoc. done.
Qed.

(** Nothing is released before its time. *)
Lemma dl_run_due s ls s' :
  dl_run s ls s' -> Forall (fun e => e.2.1 <= e.1) (released ls).
Proof.
  induction 1 as [s|s l s1 ls s2 Hstep _ IH]; [constructor|].
  destruct Hstep; simpl; [done | done | by constructor].
Qed.

(** The line is sorted by release time, and no entry waits longer than the delay. *)
Definition dl_ok (s : dl_state) : Prop :=
  StronglySorted (fun x y => x.1 <= y.1) (dl_queue s) /\
  Forall (fun e => e.1 <= dl_clock s + delay) (dl_queue s).

Lemma dl_step_ok s l s' : dl_ok s -> dl_step s l s' -> dl_ok s'.
Proof.
  unfold dl_ok. intros [Hs Hb] Hstep. destruct Hstep; simpl in *.
  - split; [done|]. eapply Forall_impl; [exact Hb|]. simpl. lia.
  - assert (Forall (fun e : Z * A => e.1 <= t + delay) q) as Hb'.
    { eapply Forall_impl; [exact Hb|]. simpl. lia. }
    rewrite Forall_app, Forall_singleton. split; [|done].
    apply StronglySorted_app_2; [|done | repeat constructor].
    rewrite Forall_forall in Hb'. intros x y Hx ->%list_elem_of_singleton. by apply Hb'.
  - inversion_clear Hs. inversion_clear Hb. done.
Qed.

Lemma dl_run_ok s ls s' : dl_ok s -> dl_run s ls s' -> dl_ok s'.
Proof. intros Hs Hr. induction Hr; eauto using dl_step_ok. Qed.

Lemma dl_run_app s ls s' ls' s'' : dl_run s ls s' -> dl_run s' ls' s'' -> dl_run s (ls ++ ls') s''.
Proof. induction 1; simpl; eauto using dl_run. Qed.

(** In a sorted line, when the first entry is not due, none is. *)
Lemma sorted_not_due (q : list (Z * A)) t :
  StronglySorted (fun x y => x.1 <= y.1) q ->
  (match q with [] => True | e :: _ => t < e.1 end) -> Forall (fun e => t < e.1) q.
Proof.
  intros Hs Hh. destruct Hs as [|e q _ Hle]; constructor; [done|].
  eapply Forall_impl; [exact Hle|]. simpl. lia.
Qed.

Lemma sorted_drop (q : list (Z * A)) n :
  StronglySorted (fun x y => x.1 <= y.1) q -> StronglySorted (fun x y => x.1 <= y.1) (drop n q).
Proof. rewrite <- (take_drop n q) at 1. apply StronglySorted_app_1_r. Qed.

End spec.

Arguments dl_state A : clear implicits.
Arguments dl_label A : clear implicits.

(** ** The interface

    [C] are the machine's states, [E] its events (what the environment answers at each step),
    [A] what it takes in and [B] what it sends.  [dm_label] is the abstract step an event
    amounts to, [dm_sent] what it sends and when. *)

Class DelayMachine (C E A B : Type) := {
  dm_delay : Z;
  dm_step : C -> E -> C -> Prop;
  dm_queue : C -> list (Z * A);
  dm_clock : C -> Z;
  dm_inv : C -> Prop;
  dm_label : C -> E -> dl_label A;
  dm_sent : C -> E -> list (Z * B);
  dm_sends : A -> B -> Prop;
  dm_refines c e c' : dm_inv c -> dm_step c e c' ->
    dm_inv c' /\
    dl_step dm_delay {| dl_queue := dm_queue c; dl_clock := dm_clock c |} (dm_label c e)
                     {| dl_queue := dm_queue c'; dl_clock := dm_clock c' |};
  dm_sends_released c e c' : dm_inv c -> dm_step c e c' ->
    match dm_label c e with
    | Release t r a => exists b, dm_sent c e = [(t, b)] /\ dm_sends a b
    | _ => dm_sent c e = []
    end;
}.

Section machine.
Context {C E A B : Type} `{M : !DelayMachine C E A B}.

Definition dm_abs (c : C) : dl_state A := {| dl_queue := dm_queue c; dl_clock := dm_clock c |}.

(** Runs: the events, what was received and what was sent, in order. *)
Inductive dm_run : C -> list E -> list (Z * A) -> list (Z * B) -> C -> Prop :=
| dm_run_nil c : dm_run c [] [] [] c
| dm_run_cons c e c' es rs ss c'' : dm_step c e c' -> dm_run c' es rs ss c'' ->
    dm_run c (e :: es) (accepted [dm_label c e] ++ rs) (dm_sent c e ++ ss) c''.

(** A released entry and what was sent for it. *)
Definition sent_for (rel : Z * (Z * A)) (s : Z * B) : Prop :=
  s.1 = rel.1 /\ dm_sends rel.2.2 s.2.

(** Every run of the machine is a run of the specification. *)
Lemma dm_run_refines c es rs ss c' :
  dm_inv c -> dm_run c es rs ss c' ->
  dm_inv c' /\ exists ls, dl_run dm_delay (dm_abs c) ls (dm_abs c') /\
    accepted ls = rs /\ Forall2 sent_for (released ls) ss.
Proof.
  intros Hi Hr. induction Hr as [c|c e c1 es rs ss c2 Hs _ IH].
  { split; [done|]. exists []. split_and!; constructor. }
  destruct (dm_refines _ _ _ Hi Hs) as [Hi1 Hstep].
  pose proof (dm_sends_released _ _ _ Hi Hs) as Hsent.
  destruct (IH Hi1) as [Hi2 (ls & Hrun & Hacc & Hrel)]. split; [done|].
  exists (dm_label c e :: ls). split; [by econstructor|].
  split; [simpl; by rewrite app_nil_r, Hacc|].
  destruct (dm_label c e) as [|t a|t r a]; simpl in *.
  - by rewrite Hsent.
  - by rewrite Hsent.
  - destruct Hsent as (b & -> & Hb). by constructor.
Qed.

(** What a client of a delay machine may rely on: after any run from an empty line, the
    [i]-th thing sent is for the [i]-th thing received, at least the delay after it was
    received; what was received and not sent is in line, in order. *)
Definition delayed_fifo (received : list (Z * A)) (sent : list (Z * B)) (queue : list (Z * A))
    : Prop :=
  exists out, received = out ++ ((fun e => (e.1 - dm_delay, e.2)) <$> queue) /\
    Forall2 (fun r s => r.1 + dm_delay <= s.1 /\ dm_sends r.2 s.2) out sent.

Lemma unstamp_stamp (l : list (Z * A)) :
  (fun e : Z * A => (e.1 - dm_delay, e.2)) <$> (stamp dm_delay <$> l) = l.
Proof.
  rewrite <- list_fmap_compose. rewrite <- (list_fmap_id l) at 2. apply list_fmap_ext.
  intros i [t a] _. unfold stamp. simpl. f_equal. lia.
Qed.

Lemma sent_for_delayed rel ss :
  Forall2 sent_for rel ss -> Forall (fun e : Z * (Z * A) => e.2.1 <= e.1) rel ->
  Forall2 (fun r s => r.1 + dm_delay <= s.1 /\ dm_sends r.2 s.2)
    ((fun e => (e.1 - dm_delay, e.2)) <$> (snd <$> rel)) ss.
Proof.
  intros H2 Hf. induction H2 as [|[t [r a]] [t' b] rel ss [Ht Hb] _ IH]; [constructor|].
  inversion_clear Hf as [|? ? Hle Hrest]. simpl in *. subst.
  constructor; [|by apply IH]. simpl. split; [lia | done].
Qed.

Lemma dm_run_fifo c es rs ss c' :
  dm_inv c -> dm_queue c = [] -> dm_run c es rs ss c' -> delayed_fifo rs ss (dm_queue c').
Proof.
  intros Hi Hq Hr. destruct (dm_run_refines _ _ _ _ _ Hi Hr) as [_ (ls & Hl & Hacc & Hrel)].
  pose proof (dl_run_conserves _ _ _ _ Hl) as Hc. simpl in Hc. rewrite Hq in Hc. simpl in Hc.
  exists ((fun e => (e.1 - dm_delay, e.2)) <$> (snd <$> released ls)). split.
  - rewrite <- fmap_app, <- Hc, unstamp_stamp. done.
  - eapply sent_for_delayed; [done|]. by eapply dl_run_due.
Qed.

(** Along a run from an empty line the queue stays sorted, and no entry waits longer than the
    delay after the latest clock reading. *)
Lemma dm_run_ok c es rs ss c' :
  dm_inv c -> dm_queue c = [] -> dm_run c es rs ss c' ->
  dm_inv c' /\ dl_ok dm_delay (dm_abs c').
Proof.
  intros Hi Hq Hr. destruct (dm_run_refines _ _ _ _ _ Hi Hr) as [Hi' (ls & Hl & _)].
  split; [done|]. eapply dl_run_ok; [|done].
  unfold dl_ok. simpl. rewrite Hq. split; constructor.
Qed.

End machine.
