(* ===== verification/ProxyDelay.v ===== *)
(** * The two delay loops of the proxy (src/src/proxy/mod.rs)

    [spawn_relayer_delay] is the thread that holds TPU batches back, and [delay_forward] the
    task that holds block-engine packets and bundles back.  Each is a state machine whose
    events are the answers of its environment, in the order the code asks for them: the exit
    flag, clock readings, what a channel returns, whether a send succeeded.  The filter set
    is shared with other threads, so every machine also has an event for a change made by
    them, possible between any two steps.  Both machines are instances of [DelayMachine]. *)

From S2P Require Import Prelude Bytes Protos FilterSet DelayLine.

Local Open Scope Z_scope.

Definition IDLE_TICK : Z := from_millis 100.
Definition SOURCE_RELAYER : Z := 0.
Definition SOURCE_BLOCKENGINE : Z := 1.
Definition SOURCE_CONTROL : Z := 2.
Definition PACKET_DELAY : Z := from_millis 100.

(** A call of [Mirror::send]: the source tag and the payload. *)
Definition mirror_call : Type := Z * bytes.

(** ** The relayer delay thread *)

Section relayer_delay.
Context {P : Type} `{!SolanaPacket P}.

Abbreviation batch := (BankingPacketBatch P).

Definition mirror_banking_batch (b : batch) : list mirror_call :=
  packet_batch ← b; packet ← packet_batch;
  if pkt_discard packet then []
  else match pkt_data packet with
       | Some data => [(SOURCE_RELAYER, data)]
       | None => []
       end.

Inductive RecvTimeoutError := Timeout | Disconnected.

Inductive rd_pc :=
| RdHead                     (* at the loop condition *)
| RdRecv (timeout : Z)       (* in recv_timeout *)
| RdSweep                    (* about to sweep *)
| RdNow                      (* about to read the clock *)
| RdDrain (now : Z)          (* at the condition of the inner loop *)
| RdSend (now : Z) (b : batch)   (* in tx.send, with the filtered batch *)
| RdStopped.

Record rd_state := {
  rd_pc_ : rd_pc;
  rd_queue : list (Z * batch);
  rd_filter_set : FilterSet;
  rd_clock : Z;              (* the latest Instant::now() of the thread *)
}.

Inductive rd_event :=
| EvExit (exit : bool) (now : Z)
| EvRecv (r : result batch RecvTimeoutError) (now : Z)
| EvSweep (clk : bytes -> Z)
| EvNow (now : Z)
| EvFilter                   (* the first batch is popped and filtered *)
| EvSend (ok : bool)         (* tx.send returns *)
| EvDrained
| EvInsert (signature : bytes) (now : Z).   (* another thread inserts a signature *)

Inductive rd_action :=
| MirrorSend (c : mirror_call)
| TxSend (now : Z) (b : batch) (ok : bool).

Definition rd_init (fs : FilterSet) (t0 : Z) : rd_state :=
  {| rd_pc_ := RdHead; rd_queue := []; rd_filter_set := fs; rd_clock := t0 |}.

Definition rd_timeout (q : list (Z * batch)) (now : Z) : Z :=
  match q with
  | (release_at, _) :: _ => saturating_duration_since release_at now
  | [] => IDLE_TICK
  end.

(** One step of the thread; [None] when the event is not what the thread waits for. *)
Definition rd_step (delay : Z) (st : rd_state) (ev : rd_event)
    : option (rd_state * list rd_action) :=
  match ev, rd_pc_ st with
  | EvExit exit now, RdHead =>
      if exit then
        Some ({| rd_pc_ := RdStopped; rd_queue := rd_queue st;
                 rd_filter_set := rd_filter_set st; rd_clock := now |}, [])
      else
        Some ({| rd_pc_ := RdRecv (rd_timeout (rd_queue st) now); rd_queue := rd_queue st;
                 rd_filter_set := rd_filter_set st; rd_clock := now |}, [])
  | EvRecv (Ok b) now, RdRecv _ =>
      Some ({| rd_pc_ := RdSweep; rd_queue := rd_queue st ++ [(now + delay, b)];
               rd_filter_set := rd_filter_set st; rd_clock := now |},
            MirrorSend <$> mirror_banking_batch b)
  | EvRecv (Err Timeout) now, RdRecv _ =>
      Some ({| rd_pc_ := RdSweep; rd_queue := rd_queue st;
               rd_filter_set := rd_filter_set st; rd_clock := now |}, [])
  | EvRecv (Err Disconnected) now, RdRecv _ =>
      Some ({| rd_pc_ := RdStopped; rd_queue := rd_queue st;
               rd_filter_set := rd_filter_set st; rd_clock := now |}, [])
  | EvSweep clk, RdSweep =>
      Some ({| rd_pc_ := RdNow; rd_queue := rd_queue st;
               rd_filter_set := FilterSet_sweep clk (rd_filter_set st);
               rd_clock := rd_clock st |}, [])
  | EvNow now, RdNow =>
      Some ({| rd_pc_ := RdDrain now; rd_queue := rd_queue st;
               rd_filter_set := rd_filter_set st; rd_clock := now |}, [])
  | EvFilter, RdDrain now =>
      match rd_queue st with
      | (release_at, b) :: q =>
          if release_at <=? now then
            Some ({| rd_pc_ := RdSend now (discard_filtered (rd_filter_set st) b); rd_queue := q;
                     rd_filter_set := rd_filter_set st; rd_clock := rd_clock st |}, [])
          else None
      | [] => None
      end
  | EvSend ok, RdSend now b =>
      Some ({| rd_pc_ := if ok then RdDrain now else RdStopped; rd_queue := rd_queue st;
               rd_filter_set := rd_filter_set st; rd_clock := rd_clock st |}, [TxSend now b ok])
  | EvDrained, RdDrain now =>
      match rd_queue st with
      | (release_at, _) :: _ =>
          if release_at <=? now then None
          else Some ({| rd_pc_ := RdHead; rd_queue := rd_queue st;
                        rd_filter_set := rd_filter_set st; rd_clock := rd_clock st |}, [])
      | [] => Some ({| rd_pc_ := RdHead; rd_queue := rd_queue st;
                       rd_filter_set := rd_filter_set st; rd_clock := rd_clock st |}, [])
      end
  | EvInsert sig now, _ =>
      Some ({| rd_pc_ := rd_pc_ st; rd_queue := rd_queue st;
               rd_filter_set := FilterSet_insert sig now (rd_filter_set st);
               rd_clock := rd_clock st |}, [])
  | _, _ => None
  end.

(** The clock reading an event carries. *)
Definition rd_reading (ev : rd_event) : option Z :=
  match ev with
  | EvExit _ now | EvRecv _ now | EvNow now => Some now
  | _ => None
  end.

(** [Instant::now()] is monotone: no reading is before the latest one. *)
Definition rd_clock_ok (st : rd_state) (ev : rd_event) : Prop :=
  match rd_reading ev with Some now => rd_clock st <= now | None => True end.

Definition rd_trans (delay : Z) (st : rd_state) (ev : rd_event) (st' : rd_state) : Prop :=
  rd_clock_ok st ev /\ exists acts, rd_step delay st ev = Some (st', acts).

Definition rd_inv (st : rd_state) : Prop :=
  FilterSet_wf (rd_filter_set st) /\
  match rd_pc_ st with
  | RdDrain now | RdSend now _ => now = rd_clock st
  | RdRecv timeout => timeout = rd_timeout (rd_queue st) (rd_clock st)
  | _ => True
  end.

Definition rd_label (st : rd_state) (ev : rd_event) : dl_label batch :=
  match ev, rd_pc_ st, rd_queue st with
  | EvRecv (Ok b) now, RdRecv _, _ => Accept now b
  | EvFilter, RdDrain now, (r, b) :: _ => Release now r b
  | _, _, _ => Skip
  end.

(** The loop over a sequence of events, with everything it does. *)
Fixpoint rd_exec (delay : Z) (st : rd_state) (evs : list rd_event)
    : option (rd_state * list rd_action) :=
  match evs with
  | [] => Some (st, [])
  | ev :: evs' =>
      match rd_step delay st ev with
      | None => None
      | Some (st', acts) =>
          match rd_exec delay st' evs' with
          | None => None
          | Some (st'', acts') => Some (st'', acts ++ acts')
          end
      end
  end.

Fixpoint rd_clock_mono (t : Z) (evs : list rd_event) : Prop :=
  match evs with
  | [] => True
  | ev :: evs' =>
      match rd_reading ev with
      | Some now => t <= now /\ rd_clock_mono now evs'
      | None => rd_clock_mono t evs'
      end
  end.

(** The batches received, with their times; the batches sent, with the time of the inner
    loop that sent them and the outcome; the payloads mirrored. *)
Definition rd_received (evs : list rd_event) : list (Z * batch) :=
  ev ← evs; match ev with EvRecv (Ok b) now => [(now, b)] | _ => [] end.

Definition rd_sends_of (acts : list rd_action) : list (Z * (batch * bool)) :=
  a ← acts; match a with TxSend now b ok => [(now, (b, ok))] | _ => [] end.

Definition rd_mirrored (acts : list rd_action) : list mirror_call :=
  a ← acts; match a with MirrorSend c => [c] | _ => [] end.

(** What a step releases: the time the inner loop goes by, the filter set of the moment, and
    the filtered batch. *)
Definition rd_released (delay : Z) (st : rd_state) (ev : rd_event)
    : list (Z * (FilterSet * batch)) :=
  match rd_step delay st ev with
  | Some (st', _) =>
      match ev, rd_pc_ st' with
      | EvFilter, RdSend now b => [(now, (rd_filter_set st, b))]
      | _, _ => []
      end
  | None => []
  end.

(** What an execution releases, with the filter sets at those moments. *)
Fixpoint rd_released_run (delay : Z) (st : rd_state) (evs : list rd_event)
    : list (Z * (FilterSet * batch)) :=
  match evs with
  | [] => []
  | ev :: evs' =>
      rd_released delay st ev ++
      match rd_step delay st ev with
      | Some (st', _) => rd_released_run delay st' evs'
      | None => []
      end
  end.

(** The batch that [tx.send] has not returned for. *)
Definition rd_in_flight (st : rd_state) : list (Z * batch) :=
  match rd_pc_ st with RdSend now b => [(now, b)] | _ => [] end.

(** What is released for a batch is that batch filtered with the filter set of the moment. *)
Definition rd_releases (b : batch) (s : FilterSet * batch) : Prop :=
  s.2 = discard_filtered s.1 b.

End relayer_delay.

Arguments rd_state P : clear implicits.
Arguments rd_event P : clear implicits.

Section relayer_delay_refines.
Context {P : Type} `{!SolanaPacket P} (delay : Z).

Lemma mirror_actions_send_nothing (cs : list mirror_call) :
  rd_sends_of ((MirrorSend <$> cs) : list (rd_action (P:=P))) = [].
Proof. by induction cs. Qed.

Ltac rd_cases :=
  repeat match goal with
  | H : match ?x with _ => _ end = Some _ |- _ => destruct x eqn:?; try discriminate H
  | H : Some _ = Some _ |- _ => injection H as <- <-
  end.

Lemma rd_trans_inv (st st' : rd_state P) ev :
  rd_inv st -> rd_trans delay st ev st' -> rd_inv st'.
Proof.
  intros [Hwf Hpc] [Hc [acts Hs]]. unfold rd_inv. unfold rd_step in Hs.
  rd_cases; simpl in *; split; auto with relayer. by destruct ok.
Qed.

Lemma rd_trans_refines (st st' : rd_state P) ev :
  rd_inv st -> rd_trans delay st ev st' ->
  dl_step delay {| dl_queue := rd_queue st; dl_clock := rd_clock st |} (rd_label st ev)
                {| dl_queue := rd_queue st'; dl_clock := rd_clock st' |}.
Proof.
  intros [Hwf Hpc] [Hc [acts Hs]]. unfold rd_step in Hs. unfold rd_label.
  unfold rd_clock_ok in Hc. rd_cases; simpl in *; constructor; lia.
Qed.

Lemma rd_trans_sends (st st' : rd_state P) ev :
  rd_inv st -> rd_trans delay st ev st' ->
  match rd_label st ev with
  | Release t r a => exists s, rd_released delay st ev = [(t, s)] /\ rd_releases a s
  | _ => rd_released delay st ev = []
  end.
Proof.
  intros [Hwf Hpc] [Hc [acts Hs]]. unfold rd_released. rewrite Hs. unfold rd_step in Hs. unfold rd_label.
  rd_cases; simpl in *; try done. all: by eexists.
Qed.

#[export] Instance relayer_delay_machine :
    DelayMachine (rd_state P) (rd_event P) (BankingPacketBatch P)
      (FilterSet * BankingPacketBatch P) := {|
  dm_delay := delay;
  dm_step := rd_trans delay;
  dm_queue := rd_queue;
  dm_clock := rd_clock;
  dm_inv := rd_inv;
  dm_label := rd_label;
  dm_sent := rd_released delay;
  dm_sends := rd_releases;
  dm_refines st ev st' Hi Hs := conj (rd_trans_inv st st' ev Hi Hs) (rd_trans_refines st st' ev Hi Hs);
  dm_sends_released := fun st ev st' => rd_trans_sends st st' ev;
|}.

(** An execution with a monotone clock is a run of the machine. *)
Lemma rd_exec_run (st st' : rd_state P) evs acts :
  rd_clock_mono (rd_clock st) evs -> rd_exec delay st evs = Some (st', acts) ->
  dm_run st evs (rd_received evs) (rd_released_run delay st evs) st'.
Proof.
  revert st acts; induction evs as [|ev evs IH]; intros st acts Hm He; simpl in He.
  { injection He as <- <-. constructor. }
  destruct (rd_step delay st ev) as [[st1 a1]|] eqn:Es; [|done].
  destruct (rd_exec delay st1 evs) as [[st2 a2]|] eqn:Ee; [|done]. injection He as <- <-.
  assert (rd_clock_ok st ev /\ rd_clock_mono (rd_clock st1) evs) as [Hc Hm'].
  { unfold rd_clock_ok. simpl in Hm. unfold rd_step in Es. rd_cases; simpl in *; naive_solver. }
  assert (accepted [rd_label st ev] = rd_received [ev]) as Hacc.
  { unfold rd_step in Es. unfold rd_label. rd_cases; simpl in *; try done. }
  replace (rd_received (ev :: evs)) with (accepted [dm_label st ev] ++ rd_received evs)
    by (simpl in *; rewrite Hacc; by rewrite app_nil_r).
  cbn [rd_released_run]. rewrite Es.
  change (rd_released delay st ev) with (dm_sent st ev). econstructor; [|by eapply IH].
  split; [done | by eexists].
Qed.

(** What was released has been sent, in order, except for the batch in flight. *)
Lemma rd_step_released (st st1 : rd_state P) ev acts :
  rd_step delay st ev = Some (st1, acts) ->
  rd_in_flight st ++ ((fun s => (s.1, s.2.2)) <$> rd_released delay st ev) =
  ((fun s => (s.1, s.2.1)) <$> rd_sends_of acts) ++ rd_in_flight st1.
Proof.
  intros Es. unfold rd_released. rewrite Es. unfold rd_step in Es. unfold rd_in_flight.
  rd_cases; simpl; rewrite ?mirror_actions_send_nothing; try done.
  all: try (match goal with H : rd_pc_ ?st = _ |- _ => rewrite H end; done).
  - by destruct ok.
  - apply app_nil_r.
Qed.

Lemma rd_released_run_sends (st st' : rd_state P) evs acts :
  rd_exec delay st evs = Some (st', acts) ->
  rd_in_flight st ++ ((fun s => (s.1, s.2.2)) <$> rd_released_run delay st evs) =
  ((fun s => (s.1, s.2.1)) <$> rd_sends_of acts) ++ rd_in_flight st'.
Proof.
  revert st acts; induction evs as [|ev evs IH]; intros st acts He; simpl in He.
  { injection He as <- <-. by rewrite app_nil_r. }
  destruct (rd_step delay st ev) as [[st1 a1]|] eqn:Es; [|done].
  destruct (rd_exec delay st1 evs) as [[st2 a2]|] eqn:Ee; [|done]. injection He as <- <-.
  cbn [rd_released_run]. rewrite Es, fmap_app, app_assoc, (rd_step_released _ _ _ _ Es).
  rewrite <- app_assoc, (IH _ _ Ee). unfold rd_sends_of. by rewrite bind_app, fmap_app, app_assoc.
Qed.

Lemma rd_mirrored_sends (cs : list mirror_call) :
  rd_mirrored ((MirrorSend <$> cs) : list (rd_action (P:=P))) = cs.
Proof. induction cs as [|c cs IH]; [done|]. unfold rd_mirrored in *. simpl. by f_equal. Qed.

Lemma rd_exec_mirrored (st st' : rd_state P) evs acts :
  rd_exec delay st evs = Some (st', acts) ->
  rd_mirrored acts = (r ← rd_received evs; mirror_banking_batch r.2).
Proof.
  revert st acts; induction evs as [|ev evs IH]; intros st acts He; simpl in He.
  { injection He as <- <-. done. }
  destruct (rd_step delay st ev) as [[st1 a1]|] eqn:Es; [|done].
  destruct (rd_exec delay st1 evs) as [[st2 a2]|] eqn:Ee; [|done]. injection He as <- <-.
  unfold rd_mirrored, rd_received. rewrite bind_app, bind_cons, bind_app.
  fold (rd_mirrored a2). rewrite (IH _ _ Ee). f_equal.
  unfold rd_step in Es. rd_cases; simpl; rewrite ?app_nil_r; try done.
  apply rd_mirrored_sends.
Qed.

End relayer_delay_refines.

(** ** The block-engine delay task *)

Section delay_forward.
Context {T : Type}.
Context (on_receive : T -> list mirror_call) (on_release : FilterSet -> T -> T) (delay : Z).

(** What [broadcast::Receiver::recv] returns. *)
Inductive broadcast_recv :=
| Received (resp : T)
| Lagged (n : Z)
| Closed.

Inductive df_pc :=
| DfSelect                   (* in tokio::select! *)
| DfDrain (now : Z)          (* in the inner loop *)
| DfStopped.

Record df_state := {
  df_pc_ : df_pc;
  df_queue : list (Z * T);
  df_filter_set : FilterSet;
  df_clock : Z;
}.

(** [DfPoll] is one pass over the branches of the biased select: whether [shutdown.changed()]
    is ready, the time read after [release_due] if its sleep is over, and what [rx.recv()]
    yields if it is ready, with the time read then. *)
Inductive df_event :=
| DfPoll (shutdown : bool) (due : option Z) (received : option (broadcast_recv * Z))
| DfSend
| DfDrained
| DfFilter (fs : FilterSet).    (* other threads change the filter set *)

Inductive df_action :=
| DfMirror (c : mirror_call)
| DfTx (now : Z) (resp : T).

Definition df_init (fs : FilterSet) (t0 : Z) : df_state :=
  {| df_pc_ := DfSelect; df_queue := []; df_filter_set := fs; df_clock := t0 |}.

(** The sleep of [release_due]: pending on an empty queue, over from [release_at] on. *)
Definition release_due (q : list (Z * T)) (now : Z) : bool :=
  match q with
  | (release_at, _) :: _ => release_at <=? now
  | [] => false
  end.

Definition df_goto (p : df_pc) (q : list (Z * T)) (clock : Z) (st : df_state) : df_state :=
  {| df_pc_ := p; df_queue := q; df_filter_set := df_filter_set st; df_clock := clock |}.

Definition df_step (st : df_state) (ev : df_event) : option (df_state * list df_action) :=
  match ev, df_pc_ st with
  | DfPoll true _ _, DfSelect => Some (df_goto DfStopped (df_queue st) (df_clock st) st, [])
  | DfPoll false (Some now) _, DfSelect =>
      if release_due (df_queue st) now
      then Some (df_goto (DfDrain now) (df_queue st) now st, []) else None
  | DfPoll false None (Some (Received resp, now)), DfSelect =>
      Some (df_goto DfSelect (df_queue st ++ [(now + delay, resp)]) now st,
            DfMirror <$> on_receive resp)
  | DfPoll false None (Some (Lagged _, _)), DfSelect =>
      Some (df_goto DfSelect (df_queue st) (df_clock st) st, [])
  | DfPoll false None (Some (Closed, _)), DfSelect =>
      Some (df_goto DfStopped (df_queue st) (df_clock st) st, [])
  | DfSend, DfDrain now =>
      match df_queue st with
      | (release_at, resp) :: q =>
          if release_at <=? now
          then Some (df_goto (DfDrain now) q (df_clock st) st,
                     [DfTx now (on_release (df_filter_set st) resp)])
          else None
      | [] => None
      end
  | DfDrained, DfDrain now =>
      if release_due (df_queue st) now then None
      else Some (df_goto DfSelect (df_queue st) (df_clock st) st, [])
  | DfFilter fs, _ =>
      Some ({| df_pc_ := df_pc_ st; df_queue := df_queue st; df_filter_set := fs;
               df_clock := df_clock st |}, [])
  | _, _ => None
  end.

Definition df_reading (ev : df_event) : option Z :=
  match ev with
  | DfPoll false (Some now) _ => Some now
  | DfPoll false None (Some (Received _, now)) => Some now
  | _ => None
  end.

(** The clock is monotone and other threads keep the filter set well formed. *)
Definition df_env_ok (st : df_state) (ev : df_event) : Prop :=
  match df_reading ev with Some now => df_clock st <= now | None => True end /\
  match ev with DfFilter fs => FilterSet_wf fs | _ => True end.

Definition df_trans (st : df_state) (ev : df_event) (st' : df_state) : Prop :=
  df_env_ok st ev /\ exists acts, df_step st ev = Some (st', acts).

Definition df_inv (st : df_state) : Prop :=
  FilterSet_wf (df_filter_set st) /\
  match df_pc_ st with DfDrain now => now = df_clock st | _ => True end.

Definition df_label (st : df_state) (ev : df_event) : dl_label T :=
  match ev, df_pc_ st, df_queue st with
  | DfPoll false None (Some (Received resp, now)), DfSelect, _ => Accept now resp
  | DfSend, DfDrain now, (r, resp) :: _ => Release now r resp
  | _, _, _ => Skip
  end.

Fixpoint df_exec (st : df_state) (evs : list df_event) : option (df_state * list df_action) :=
  match evs with
  | [] => Some (st, [])
  | ev :: evs' =>
      match df_step st ev with
      | None => None
      | Some (st', acts) =>
          match df_exec st' evs' with
          | None => None
          | Some (st'', acts') => Some (st'', acts ++ acts')
          end
      end
  end.

Fixpoint df_env_mono (t : Z) (evs : list df_event) : Prop :=
  match evs with
  | [] => True
  | ev :: evs' =>
      match ev with DfFilter fs => FilterSet_wf fs | _ => True end /\
      match df_reading ev with
      | Some now => t <= now /\ df_env_mono now evs'
      | None => df_env_mono t evs'
      end
  end.

Definition df_received (evs : list df_event) : list (Z * T) :=
  ev ← evs;
  match ev with DfPoll false None (Some (Received resp, now)) => [(now, resp)] | _ => [] end.

Definition df_sends_of (acts : list df_action) : list (Z * T) :=
  a ← acts; match a with DfTx now resp => [(now, resp)] | _ => [] end.

Definition df_mirrored (acts : list df_action) : list mirror_call :=
  a ← acts; match a with DfMirror c => [c] | _ => [] end.

Definition df_sent (st : df_state) (ev : df_event) : list (Z * (FilterSet * T)) :=
  match df_step st ev with
  | Some (_, acts) => (fun s => (s.1, (df_filter_set st, s.2))) <$> df_sends_of acts
  | None => []
  end.

Fixpoint df_sent_run (st : df_state) (evs : list df_event) : list (Z * (FilterSet * T)) :=
  match evs with
  | [] => []
  | ev :: evs' =>
      df_sent st ev ++
      match df_step st ev with
      | Some (st', _) => df_sent_run st' evs'
      | None => []
      end
  end.

Definition df_sends (resp : T) (s : FilterSet * T) : Prop := s.2 = on_release s.1 resp.

Ltac df_cases :=
  repeat match goal with
  | H : match ?x with _ => _ end = Some _ |- _ => destruct x eqn:?; try discriminate H
  | H : Some _ = Some _ |- _ => injection H as <- <-
  end.

Lemma df_actions_send_nothing (cs : list mirror_call) :
  df_sends_of (DfMirror <$> cs) = [].
Proof. by induction cs. Qed.

Lemma df_trans_inv (st st' : df_state) ev : df_inv st -> df_trans st ev st' -> df_inv st'.
Proof.
  intros [Hwf Hpc] [[_ Hc] [acts Hs]]. unfold df_inv. unfold df_step in Hs.
  df_cases; simpl in *; split; auto.
Qed.

Lemma df_trans_refines (st st' : df_state) ev :
  df_inv st -> df_trans st ev st' ->
  dl_step delay {| dl_queue := df_queue st; dl_clock := df_clock st |} (df_label st ev)
                {| dl_queue := df_queue st'; dl_clock := df_clock st' |}.
Proof.
  intros [Hwf Hpc] [Hc [acts Hs]]. unfold df_step in Hs. unfold df_label.
  unfold df_env_ok in Hc. df_cases; simpl in *; constructor; lia.
Qed.

Lemma df_trans_sends (st st' : df_state) ev :
  df_inv st -> df_trans st ev st' ->
  match df_label st ev with
  | Release t r a => exists s, df_sent st ev = [(t, s)] /\ df_sends a s
  | _ => df_sent st ev = []
  end.
Proof.
  intros [Hwf Hpc] [Hc [acts Hs]]. unfold df_sent. rewrite Hs. unfold df_step in Hs. unfold df_label.
  df_cases; simpl in *; try done; try by rewrite df_actions_send_nothing.
  by eexists.
Qed.

#[export] Instance delay_forward_machine : DelayMachine df_state df_event T (FilterSet * T) := {|
  dm_delay := delay;
  dm_step := df_trans;
  dm_queue := df_queue;
  dm_clock := df_clock;
  dm_inv := df_inv;
  dm_label := df_label;
  dm_sent := df_sent;
  dm_sends := df_sends;
  dm_refines st ev st' Hi Hs := conj (df_trans_inv st st' ev Hi Hs) (df_trans_refines st st' ev Hi Hs);
  dm_sends_released := fun st ev st' => df_trans_sends st st' ev;
|}.

Lemma df_exec_run (st st' : df_state) evs acts :
  df_env_mono (df_clock st) evs -> df_exec st evs = Some (st', acts) ->
  dm_run st evs (df_received evs) (df_sent_run st evs) st'.
Proof.
  revert st acts; induction evs as [|ev evs IH]; intros st acts Hm He; simpl in He.
  { injection He as <- <-. constructor. }
  destruct (df_step st ev) as [[st1 a1]|] eqn:Es; [|done].
  destruct (df_exec st1 evs) as [[st2 a2]|] eqn:Ee; [|done]. injection He as <- <-.
  assert (df_env_ok st ev /\ df_env_mono (df_clock st1) evs) as [Hc Hm'].
  { unfold df_env_ok. simpl in Hm. unfold df_step in Es. df_cases; simpl in *; naive_solver. }
  assert (accepted [df_label st ev] = df_received [ev]) as Hacc.
  { unfold df_step in Es. unfold df_label. df_cases; simpl in *; try done. }
  replace (df_received (ev :: evs)) with (accepted [dm_label st ev] ++ df_received evs)
    by (simpl in *; rewrite Hacc; by rewrite app_nil_r).
  cbn [df_sent_run]. rewrite Es.
  change (df_sent st ev) with (dm_sent st ev). econstructor; [|by eapply IH].
  split; [done | by eexists].
Qed.

Lemma df_sent_run_sends (st st' : df_state) evs acts :
  df_exec st evs = Some (st', acts) ->
  (fun s => (s.1, s.2.2)) <$> df_sent_run st evs = df_sends_of acts.
Proof.
  revert st acts; induction evs as [|ev evs IH]; intros st acts He; simpl in He.
  { by injection He as <- <-. }
  destruct (df_step st ev) as [[st1 a1]|] eqn:Es; [|done].
  destruct (df_exec st1 evs) as [[st2 a2]|] eqn:Ee; [|done]. injection He as <- <-.
  cbn [df_sent_run]. unfold df_sent. rewrite Es, fmap_app, (IH _ _ Ee).
  rewrite <- list_fmap_compose. unfold df_sends_of. rewrite bind_app. f_equal.
  rewrite <- list_fmap_id. by apply list_fmap_ext; intros ? [] _.
Qed.

Lemma df_mirrored_sends (cs : list mirror_call) : df_mirrored (DfMirror <$> cs) = cs.
Proof. induction cs as [|c cs IH]; [done|]. unfold df_mirrored in *. simpl. by f_equal. Qed.

Lemma df_exec_mirrored (st st' : df_state) evs acts :
  df_exec st evs = Some (st', acts) ->
  df_mirrored acts = (r ← df_received evs; on_receive r.2).
Proof.
  revert st acts; induction evs as [|ev evs IH]; intros st acts He; simpl in He.
  { injection He as <- <-. done. }
  destruct (df_step st ev) as [[st1 a1]|] eqn:Es; [|done].
  destruct (df_exec st1 evs) as [[st2 a2]|] eqn:Ee; [|done]. injection He as <- <-.
  unfold df_mirrored, df_received. rewrite bind_app, bind_cons, bind_app.
  fold (df_mirrored a2). rewrite (IH _ _ Ee). f_equal.
  unfold df_step in Es. df_cases; simpl; rewrite ?app_nil_r; try done.
  apply df_mirrored_sends.
Qed.

End delay_forward.

Arguments df_state T : clear implicits.
Arguments df_event T : clear implicits.

(** The two instances [Proxy::new] starts. *)
Definition mirror_be_packets (resp : BePacketsResponse) : list mirror_call :=
  match be_batch resp with
  | Some batch => (fun packet => (SOURCE_BLOCKENGINE, pp_data packet)) <$> pb_packets batch
  | None => []
  end.

Definition mirror_no_bundles (_ : SubscribeBundlesResponse) : list mirror_call := [].

(** ** The inner loops terminate *)

Section drains.
Context {P : Type} `{!SolanaPacket P} (delay : Z).

(** [n] rounds of the inner loop whose sends succeed, and its end. *)
Fixpoint rd_drain_events (n : nat) : list (rd_event P) :=
  match n with
  | O => [EvDrained]
  | S n' => EvFilter :: EvSend true :: rd_drain_events n'
  end.

Lemma rd_drain_exec (st : rd_state P) now :
  rd_pc_ st = RdDrain now ->
  exists n st' acts, rd_exec delay st (rd_drain_events n) = Some (st', acts) /\
    (n <= length (rd_queue st))%nat /\ rd_pc_ st' = RdHead /\
    rd_queue st' = drop n (rd_queue st) /\
    match rd_queue st' with [] => True | e :: _ => now < e.1 end.
Proof.
  destruct st as [p q fs c]. simpl. intros ->.
  induction q as [|[r b] q IH].
  { by exists 0%nat, {| rd_pc_ := RdHead; rd_queue := []; rd_filter_set := fs; rd_clock := c |}, []. }
  destruct (Z.leb_spec r now) as [Hle|Hgt].
  - destruct IH as (n & st' & acts & He & Hn & Hpc & Hq & Hh).
    exists (S n), st', (TxSend now (discard_filtered fs b) true :: acts).
    split_and!; [|simpl; lia | done | done | done].
    simpl. rewrite (proj2 (Z.leb_le r now) Hle). simpl. rewrite He. done.
  - exists 0%nat, {| rd_pc_ := RdHead; rd_queue := (r, b) :: q; rd_filter_set := fs; rd_clock := c |}, [].
    split_and!; [|simpl; lia | done | done | done].
    simpl. by rewrite (proj2 (Z.leb_gt r now) Hgt).
Qed.

End drains.

Lemma df_drain_exec {T} on_receive on_release delay (st : df_state T) now :
  df_pc_ st = DfDrain now ->
  exists n st' acts,
    df_exec on_receive on_release delay st (replicate n DfSend ++ [DfDrained]) = Some (st', acts) /\
    (n <= length (df_queue st))%nat /\ df_pc_ st' = DfSelect /\
    df_queue st' = drop n (df_queue st) /\
    match df_queue st' with [] => True | e :: _ => now < e.1 end.
Proof.
  destruct st as [p q fs c]. simpl. intros ->.
  induction q as [|[r b] q IH].
  { by exists 0%nat, {| df_pc_ := DfSelect; df_queue := []; df_filter_set := fs; df_clock := c |}, []. }
  destruct (Z.leb_spec r now) as [Hle|Hgt].
  - destruct IH as (n & st' & acts & He & Hn & Hpc & Hq & Hh).
    exists (S n), st', (DfTx now (on_release fs b) :: acts).
    split_and!; [|simpl; lia | done | done | done].
    simpl. rewrite (proj2 (Z.leb_le r now) Hle). unfold df_goto. simpl. rewrite He. done.
  - exists 0%nat, {| df_pc_ := DfSelect; df_queue := (r, b) :: q; df_filter_set := fs; df_clock := c |}, [].
    split_and!; [|simpl; lia | done | done | done].
    simpl. by rewrite (proj2 (Z.leb_gt r now) Hgt).
Qed.

(** ** Properties *)

(** C4. The relayer delay thread is a first-in-first-out line with a delay of 100 ms: in every
    execution (any interleaving with insertions into the filter set) the batches handed on
    are the first ones received, in the order of arrival, each filtered, with the filter set
    of that moment, when it leaves the line, never less than 100 ms after its arrival, and
    sent before the next one leaves (at most one is still in [tx.send]); all other batches
    received are still in line, in order; and each batch received was mirrored to the
    Inertia server exactly once, packet by packet. *)
Theorem relayer_delay_fifo {P} `{!SolanaPacket P} fs t0 evs (st : rd_state P) acts :
  FilterSet_wf fs -> rd_clock_mono t0 evs ->
  rd_exec PACKET_DELAY (rd_init fs t0) evs = Some (st, acts) ->
  let released := rd_released_run PACKET_DELAY (rd_init fs t0) evs in
  ((fun s => (s.1, s.2.2)) <$> released) =
    ((fun s => (s.1, s.2.1)) <$> rd_sends_of acts) ++ rd_in_flight st /\
  (exists out,
    rd_received evs = out ++ ((fun e => (e.1 - PACKET_DELAY, e.2)) <$> rd_queue st) /\
    Forall2 (fun r s => r.1 + PACKET_DELAY <= s.1 /\ s.2.2 = discard_filtered s.2.1 r.2) out released) /\
  rd_mirrored acts = (r ← rd_received evs; mirror_banking_batch r.2).
Proof.
  intros Hwf Hm He released. split; [exact (rd_released_run_sends _ _ _ _ _ He)|].
  split; [|by eapply rd_exec_mirrored].
  apply (dm_run_fifo (M := relayer_delay_machine PACKET_DELAY) (rd_init fs t0) evs);
    [split; done | done | by eapply rd_exec_run].
Qed.

(** The inner loop of the relayer delay thread terminates and leaves nothing behind: after at
    most as many sends as there are batches in line it is back at the loop head, and no batch
    still in line was due at the clock reading the loop used. *)
Theorem relayer_delay_drains {P} `{!SolanaPacket P} fs t0 evs (st : rd_state P) acts now :
  FilterSet_wf fs -> rd_clock_mono t0 evs ->
  rd_exec PACKET_DELAY (rd_init fs t0) evs = Some (st, acts) -> rd_pc_ st = RdDrain now ->
  exists n st' acts',
    rd_exec PACKET_DELAY st (rd_drain_events n) = Some (st', acts') /\
    (n <= length (rd_queue st))%nat /\ rd_pc_ st' = RdHead /\
    Forall (fun e => now < e.1) (rd_queue st').
Proof.
  intros Hwf Hm He Hpc.
  destruct (rd_drain_exec PACKET_DELAY st now Hpc) as (n & st' & acts' & Hx & Hn & Hh & Hq & Hd).
  exists n, st', acts'. split_and!; [done | done | done |].
  destruct (dm_run_ok (M := relayer_delay_machine PACKET_DELAY) (rd_init fs t0) evs
    (rd_received evs) (rd_released_run PACKET_DELAY (rd_init fs t0) evs) st) as [_ Hok];
    [split; done | done | by eapply rd_exec_run |].
  destruct Hok as [Hs _]. apply sorted_not_due; [|done]. rewrite Hq. by apply sorted_drop.
Qed.

(** C35. The thread always wakes up in time: while it waits for a batch, its timeout is between 0
    and 100 ms, so the exit flag and the filter set are looked at at least that often; and
    with batches in line it ends exactly when the first one becomes due (at once if it is
    due already). *)
Theorem relayer_delay_wakes {P} `{!SolanaPacket P} fs t0 evs (st : rd_state P) acts timeout :
  FilterSet_wf fs -> rd_clock_mono t0 evs ->
  rd_exec PACKET_DELAY (rd_init fs t0) evs = Some (st, acts) -> rd_pc_ st = RdRecv timeout ->
  0 <= timeout <= from_millis 100 /\
  match rd_queue st with
  | [] => timeout = IDLE_TICK
  | (release_at, _) :: _ => rd_clock st + timeout = Z.max (rd_clock st) release_at
  end.
Proof.
  intros Hwf Hm He Hpc.
  destruct (dm_run_ok (M := relayer_delay_machine PACKET_DELAY) (rd_init fs t0) evs
    (rd_received evs) (rd_released_run PACKET_DELAY (rd_init fs t0) evs) st) as [[_ Hi] [_ Hb]];
    [split; done | done | by eapply rd_exec_run |].
  rewrite Hpc in Hi. simpl in Hb. subst timeout.
  unfold rd_timeout, saturating_duration_since, IDLE_TICK.
  destruct (rd_queue st) as [|[r b] q]; [unfold from_millis; lia|].
  apply Forall_cons_1 in Hb as [Hr _]. cbn in Hr. unfold PACKET_DELAY, from_millis in *. lia.
Qed.

(** C10. The same for the block-engine task, whatever it carries ([on_receive] mirrors, [on_release]
    filters with the set at the moment of the send): first in, first out, nothing sent
    earlier than the delay after its arrival, nothing lost until the task stops, everything received mirrored exactly once; a lagging
    receiver skips messages without disturbing the line. *)
Theorem delay_forward_fifo {T} on_receive on_release delay fs t0 evs (st : df_state T) acts :
  FilterSet_wf fs -> df_env_mono t0 evs ->
  df_exec on_receive on_release delay (df_init fs t0) evs = Some (st, acts) ->
  let sent := df_sent_run on_receive on_release delay (df_init fs t0) evs in
  df_sends_of acts = ((fun s => (s.1, s.2.2)) <$> sent) /\
  (exists out,
    df_received evs = out ++ ((fun e => (e.1 - delay, e.2)) <$> df_queue st) /\
    Forall2 (fun r s => r.1 + delay <= s.1 /\ s.2.2 = on_release s.2.1 r.2) out sent) /\
  df_mirrored acts = (r ← df_received evs; on_receive r.2).
Proof.
  intros Hwf Hm He sent. split; [by erewrite <- df_sent_run_sends|].
  split; [|by eapply df_exec_mirrored].
  apply (dm_run_fifo (M := delay_forward_machine on_receive on_release delay) (df_init fs t0) evs);
    [split; done | done | by eapply df_exec_run].
Qed.

(** The inner loop of the block-engine task terminates within the length of the line, returns
    to the select, and leaves nothing that was due. *)
Theorem delay_forward_drains {T} on_receive on_release delay fs t0 evs (st : df_state T) acts now :
  FilterSet_wf fs -> df_env_mono t0 evs ->
  df_exec on_receive on_release delay (df_init fs t0) evs = Some (st, acts) ->
  df_pc_ st = DfDrain now ->
  exists n st' acts',
    df_exec on_receive on_release delay st (replicate n DfSend ++ [DfDrained]) = Some (st', acts') /\
    (n <= length (df_queue st))%nat /\ df_pc_ st' = DfSelect /\
    Forall (fun e => now < e.1) (df_queue st').
Proof.
  intros Hwf Hm He Hpc.
  destruct (df_drain_exec on_receive on_release delay st now Hpc)
    as (n & st' & acts' & Hx & Hn & Hh & Hq & Hd).
  exists n, st', acts'. split_and!; [done | done | done |].
  destruct (dm_run_ok (M := delay_forward_machine on_receive on_release delay) (df_init fs t0) evs
    (df_received evs) (df_sent_run on_receive on_release delay (df_init fs t0) evs) st) as [_ [Hs _]];
    [split; done | done | by eapply df_exec_run |].
  apply sorted_not_due; [|done]. rewrite Hq. by apply sorted_drop.
Qed.

(** ** Witnesses *)

Definition ms (n : Z) : Z := from_millis n.

(** A batch arrives at 10 ms and another at 60 ms; a signature is filtered in between; the
    loop drains at 120 ms. *)
Definition toy_events : list (rd_event SimplePacket) :=
  [EvExit false (ms 5); EvRecv (Ok [[toy_packet Byte.x07]]) (ms 10); EvSweep (fun _ => ms 10);
   EvNow (ms 11); EvDrained; EvInsert (replicate 64 Byte.x07) (ms 12);
   EvExit false (ms 12); EvRecv (Ok [[toy_packet Byte.x08]]) (ms 60); EvSweep (fun _ => ms 60);
   EvNow (ms 60); EvDrained; EvExit false (ms 61); EvRecv (Err Timeout) (ms 111);
   EvSweep (fun _ => ms 119); EvNow (ms 120)].

Lemma toy_events_mono : rd_clock_mono 0 toy_events.
Proof. repeat split; vm_compute; discriminate. Qed.

Definition toy_draining : rd_state SimplePacket :=
  {| rd_pc_ := RdDrain (ms 120);
     rd_queue := [(ms 110, [[toy_packet Byte.x07]]); (ms 160, [[toy_packet Byte.x08]])];
     rd_filter_set := FilterSet_insert (replicate 64 Byte.x07) (ms 12) FilterSet_default;
     rd_clock := ms 120 |}.

Definition toy_sent : rd_state SimplePacket :=
  {| rd_pc_ := RdDrain (ms 120); rd_queue := [(ms 160, [[toy_packet Byte.x08]])];
     rd_filter_set := rd_filter_set toy_draining; rd_clock := ms 120 |}.

Definition toy_actions : list (rd_action (P := SimplePacket)) :=
  [MirrorSend (SOURCE_RELAYER, sp_bytes (toy_packet Byte.x07));
   MirrorSend (SOURCE_RELAYER, sp_bytes (toy_packet Byte.x08));
   TxSend (ms 120) [[pkt_set_discard true (toy_packet Byte.x07)]] true].

Lemma relayer_delay_fifo_witness :
  rd_mirrored toy_actions = (r ← rd_received (toy_events ++ [EvFilter; EvSend true]); mirror_banking_batch r.2).
Proof.
  apply (relayer_delay_fifo FilterSet_default 0 (toy_events ++ [EvFilter; EvSend true]) toy_sent).
  - reflexivity.
  - repeat split; vm_compute; discriminate.
  - vm_compute. reflexivity.
Defined.

Lemma relayer_delay_drains_witness :
  exists n st' acts',
    rd_exec PACKET_DELAY toy_draining (rd_drain_events n) = Some (st', acts') /\
    (n <= 2)%nat /\ rd_pc_ st' = RdHead /\ Forall (fun e => ms 120 < e.1) (rd_queue st').
Proof.
  apply (relayer_delay_drains FilterSet_default 0 toy_events toy_draining
    (MirrorSend <$> [(SOURCE_RELAYER, sp_bytes (toy_packet Byte.x07));
                     (SOURCE_RELAYER, sp_bytes (toy_packet Byte.x08))])).
  - reflexivity.
  - exact toy_events_mono.
  - vm_compute. reflexivity.
  - reflexivity.
Defined.

Definition toy_waiting : rd_state SimplePacket :=
  {| rd_pc_ := RdRecv (ms 98); rd_queue := [(ms 110, [[toy_packet Byte.x07]])];
     rd_filter_set := FilterSet_insert (replicate 64 Byte.x07) (ms 12) FilterSet_default;
     rd_clock := ms 12 |}.

Lemma relayer_delay_wakes_witness :
  0 <= ms 98 <= from_millis 100 /\ ms 12 + ms 98 = Z.max (ms 12) (ms 110).
Proof.
  apply (relayer_delay_wakes FilterSet_default 0 (take 7 toy_events) toy_waiting
    (MirrorSend <$> [(SOURCE_RELAYER, sp_bytes (toy_packet Byte.x07))])).
  - reflexivity.
  - repeat split; vm_compute; discriminate.
  - vm_compute. reflexivity.
  - reflexivity.
Defined.

Definition toy_resp (first : byte) : BePacketsResponse :=
  {| be_header := None; be_batch := Some {| pb_packets := [toy_proto first] |} |}.

Definition toy_polls : list (df_event BePacketsResponse) :=
  [DfPoll false None (Some (Received (toy_resp Byte.x07), ms 10)); DfFilter toy_filter;
   DfPoll false None (Some (Lagged 3, ms 20));
   DfPoll false None (Some (Received (toy_resp Byte.x08), ms 30));
   DfPoll false (Some (ms 110)) None].

Lemma toy_polls_mono : df_env_mono 0 toy_polls.
Proof. repeat split; vm_compute; discriminate. Qed.

Definition toy_polled : df_state BePacketsResponse :=
  {| df_pc_ := DfDrain (ms 110);
     df_queue := [(ms 110, toy_resp Byte.x07); (ms 130, toy_resp Byte.x08)];
     df_filter_set := toy_filter; df_clock := ms 110 |}.

Lemma delay_forward_fifo_witness :
  df_mirrored (DfMirror (T := BePacketsResponse) <$> [(SOURCE_BLOCKENGINE, pp_data (toy_proto Byte.x07));
                             (SOURCE_BLOCKENGINE, pp_data (toy_proto Byte.x08))])
  = (r ← df_received toy_polls; mirror_be_packets r.2).
Proof.
  apply (delay_forward_fifo mirror_be_packets filter_be_packets PACKET_DELAY FilterSet_default 0
    toy_polls toy_polled).
  - reflexivity.
  - exact toy_polls_mono.
  - vm_compute. reflexivity.
Defined.

Lemma delay_forward_drains_witness :
  exists n st' acts',
    df_exec mirror_be_packets filter_be_packets PACKET_DELAY toy_polled
      (replicate n DfSend ++ [DfDrained]) = Some (st', acts') /\
    (n <= 2)%nat /\ df_pc_ st' = DfSelect /\ Forall (fun e => ms 110 < e.1) (df_queue st').
Proof.
  apply (delay_forward_drains mirror_be_packets filter_be_packets PACKET_DELAY FilterSet_default 0
    toy_polls toy_polled (DfMirror <$> [(SOURCE_BLOCKENGINE, pp_data (toy_proto Byte.x07));
                             (SOURCE_BLOCKENGINE, pp_data (toy_proto Byte.x08))])).
  - reflexivity.
  - exact toy_polls_mono.
  - vm_compute. reflexivity.
  - reflexivity.
Defined.
