(* ===== verification/Rpc.v ===== *)
(** * Slot updates (src/src/rpc.rs)

    A thread keeps a subscription to the slots of the cluster open and publishes every slot on
    a broadcast channel.  It subscribes again, a second later, when the subscription fails,
    ends, or is silent for a second.  The pub-sub client is the environment of the machine. *)

From S2P Require Import Prelude Bytes Protos FilterSet DelayLine ProxyDelay.

Local Open Scope Z_scope.

Definition SLOT_CHANNEL_CAPACITY : Z := 128.
Definition SLOT_RECV_TIMEOUT : Z := from_millis 1000.

Inductive sl_pc :=
| SlHead                (* at the condition of the outer loop *)
| SlSubscribe           (* in slot_subscribe *)
| SlInnerHead           (* at the condition of the inner loop *)
| SlRecv (timeout : Z)  (* in recv_timeout *)
| SlCheck               (* at the test before the sleep *)
| SlSleep (d : Z)
| SlDone.

Inductive sl_event :=
| SlExit (exit : bool)
| SlSubscribed (r : result unit string)
| SlReceived (r : result Z RecvTimeoutError)
| SlWoke.

(** The calls the thread makes: [slot_subscribe], [slot_sender.send(slot)] (its result is
    ignored), [sleep]. *)
Inductive sl_action :=
| SlotSubscribe
| SlotSend (slot : Z)
| SlotSleep (d : Z).

(** One step of the closure of [start_slot_sender]. *)
Definition sl_step (pc : sl_pc) (ev : sl_event) : option (sl_pc * list sl_action) :=
  match pc, ev with
  | SlHead, SlExit exit => Some (if exit then (SlDone, []) else (SlSubscribe, [SlotSubscribe]))
  | SlSubscribe, SlSubscribed (Ok _) => Some (SlInnerHead, [])
  | SlSubscribe, SlSubscribed (Err _) => Some (SlCheck, [])
  | SlInnerHead, SlExit exit => Some (if exit then SlCheck else SlRecv SLOT_RECV_TIMEOUT, [])
  | SlRecv _, SlReceived (Ok slot) => Some (SlInnerHead, [SlotSend slot])
  | SlRecv _, SlReceived (Err Timeout) => Some (SlCheck, [])
  | SlRecv _, SlReceived (Err Disconnected) => Some (SlCheck, [])
  | SlCheck, SlExit exit =>
      Some (if exit then (SlHead, []) else let d := from_secs 1 in (SlSleep d, [SlotSleep d]))
  | SlSleep _, SlWoke => Some (SlHead, [])
  | _, _ => None
  end.

Fixpoint sl_exec (pc : sl_pc) (evs : list sl_event) : option (sl_pc * list sl_action) :=
  match evs with
  | [] => Some (pc, [])
  | ev :: evs' =>
      '(pc1, acts1) ← sl_step pc ev;
      '(pc2, acts2) ← sl_exec pc1 evs';
      Some (pc2, acts1 ++ acts2)
  end.

(** ** What a run did *)

Definition slots_received (evs : list sl_event) : list Z :=
  omap (fun ev => match ev with SlReceived (Ok slot) => Some slot | _ => None end) evs.

Definition slots_sent (acts : list sl_action) : list Z :=
  omap (fun a => match a with SlotSend slot => Some slot | _ => None end) acts.

(** The time the thread asked to sleep. *)
Fixpoint slept (acts : list sl_action) : Z :=
  match acts with
  | [] => 0
  | SlotSleep d :: acts' => d + slept acts'
  | _ :: acts' => slept acts'
  end.

(** Whether the sleep before the next subscription lies already behind, or is under way. *)
Definition sl_rested (pc : sl_pc) : bool :=
  match pc with SlHead | SlSleep _ => true | _ => false end.

(** Steps a thread can take at most once it reads the flag as true. *)
Definition sl_remaining (pc : sl_pc) : nat :=
  match pc with
  | SlDone => 0
  | SlHead => 1
  | SlCheck | SlSleep _ => 2
  | SlInnerHead => 3
  | SlRecv _ | SlSubscribe => 4
  end.

Definition exit_seen (ev : sl_event) : Prop :=
  match ev with SlExit exit => exit = true | _ => True end.

(** The times the thread is blocked at a program point, apart from subscribing. *)
Definition sl_waits (pc : sl_pc) : list Z :=
  match pc with SlRecv d | SlSleep d => [d] | _ => [] end.

(** ** Lemmas *)

(** Case analysis on a step of a machine given by a match. *)
Ltac sl_cases H :=
  unfold sl_step in H; repeat case_match; simplify_eq/=.

Lemma sl_step_facts pc ev pc' acts :
  sl_step pc ev = Some (pc', acts) ->
  slots_sent acts = slots_received [ev] /\
  (exit_seen ev -> (sl_remaining pc' < sl_remaining pc)%nat) /\
  (pc' = SlDone -> ev = SlExit true) /\
  (forall d, d ∈ sl_waits pc' -> d = from_secs 1).
Proof.
  intros Hs. sl_cases Hs; split_and!; try done; simpl; try lia; intros ? ?; set_solver.
Qed.

Lemma sl_exec_inv pc ev evs pc' acts :
  sl_exec pc (ev :: evs) = Some (pc', acts) ->
  exists pc1 acts1 acts2, sl_step pc ev = Some (pc1, acts1) /\
    sl_exec pc1 evs = Some (pc', acts2) /\ acts = acts1 ++ acts2.
Proof.
  simpl. intros He. destruct (sl_step pc ev) as [[pc1 a1]|]; [|done]. simpl in He.
  destruct (sl_exec pc1 evs) as [[pc2 a2]|] eqn:E; [|done]. simpl in He. simplify_eq.
  by exists pc1, a1, a2.
Qed.

Lemma slots_received_cons ev evs : slots_received (ev :: evs) = slots_received [ev] ++ slots_received evs.
Proof. apply (omap_app _ [ev] evs). Qed.

Lemma sl_exec_slots pc evs pc' acts :
  sl_exec pc evs = Some (pc', acts) -> slots_sent acts = slots_received evs.
Proof.
  revert pc acts; induction evs as [|ev evs IH]; intros pc acts He; [by simplify_eq/=|].
  apply sl_exec_inv in He as (pc1 & a1 & a2 & Hs & He & ->).
  apply sl_step_facts in Hs as [Hs _]. unfold slots_sent in *.
  by rewrite omap_app, Hs, (IH _ _ He), <- slots_received_cons.
Qed.

(** While the flag is not set, what is slept until a subscription makes up for a thread that
    has not rested. *)
Lemma sl_step_rest pc ev pc' acts :
  sl_step pc ev = Some (pc', acts) -> ev <> SlExit true ->
  (SlotSubscribe ∉ acts /\
   (if sl_rested pc then 0 else from_secs 1) = slept acts + (if sl_rested pc' then 0 else from_secs 1)) \/
  (acts = [SlotSubscribe] /\ sl_rested pc = true).
Proof.
  intros Hs Hx. sl_cases Hs; try (left; split; [set_solver | reflexivity]).
  all: try by right. all: by destruct exit.
Qed.

Lemma slept_app a1 a2 : slept (a1 ++ a2) = slept a1 + slept a2.
Proof. induction a1 as [|[] a1 IH]; simpl; lia. Qed.

Lemma sl_exec_rest pc evs pc' acts mid post :
  sl_exec pc evs = Some (pc', acts) -> Forall (fun ev => ev <> SlExit true) evs ->
  acts = mid ++ SlotSubscribe :: post -> SlotSubscribe ∉ mid ->
  slept mid = if sl_rested pc then 0 else from_secs 1.
Proof.
  revert pc acts mid; induction evs as [|ev evs IH]; intros pc acts mid He Hx Ha Hn.
  { simplify_eq/=. by destruct mid. }
  apply sl_exec_inv in He as (pc1 & a1 & a2 & Hs & He & ->).
  apply Forall_cons in Hx as [Hx1 Hx].
  destruct (sl_step_rest _ _ _ _ Hs Hx1) as [[Hn1 Hr]|[-> Hr]].
  - apply app_eq_app in Ha as (l & [[-> Hl]|[-> Hl]]).
    + destruct l as [|x l]; simplify_eq/=; [|set_solver].
      rewrite app_nil_r in *. specialize (IH _ _ [] He Hx eq_refl ltac:(set_solver)). simpl in IH. lia.
    + specialize (IH _ _ l He Hx Hl ltac:(set_solver)). rewrite slept_app. lia.
  - destruct mid as [|x mid]; simplify_eq/=; [by rewrite Hr|]. set_solver.
Qed.

(** Between a subscription and the next the thread sleeps for a second. *)
Lemma sl_exec_pause pc evs pc' acts pre mid post :
  sl_exec pc evs = Some (pc', acts) -> Forall (fun ev => ev <> SlExit true) evs ->
  acts = pre ++ SlotSubscribe :: mid ++ SlotSubscribe :: post -> SlotSubscribe ∉ mid ->
  slept mid = from_secs 1.
Proof.
  revert pc acts pre; induction evs as [|ev evs IH]; intros pc acts pre He Hx Ha Hn.
  { simplify_eq/=. by destruct pre. }
  apply sl_exec_inv in He as (pc1 & a1 & a2 & Hs & He & ->).
  apply Forall_cons in Hx as [Hx1 Hx].
  apply app_eq_app in Ha as (l & [[-> Hl]|[-> Hl]]); [|by eapply (IH _ _ l)].
  destruct l as [|x l]; simplify_eq/=; [by eapply (IH _ _ [])|].
  assert (pc1 = SlSubscribe /\ l = [] /\ pre = []) as (-> & -> & ->).
  { sl_cases Hs; repeat (destruct pre as [|? pre]; simplify_eq/=; try done). }
  by apply (sl_exec_rest _ _ _ _ mid post He Hx).
Qed.

Lemma sl_exec_remaining pc evs pc' acts :
  sl_exec pc evs = Some (pc', acts) -> Forall exit_seen evs ->
  (length evs + sl_remaining pc' <= sl_remaining pc)%nat.
Proof.
  revert pc acts; induction evs as [|ev evs IH]; intros pc acts He Hx; [by simplify_eq/=|].
  apply sl_exec_inv in He as (pc1 & a1 & a2 & Hs & He & ->).
  apply Forall_cons in Hx as [Hx1 Hx]. apply sl_step_facts in Hs as (_ & Hr & _).
  apply IH in He; [|done]. specialize (Hr Hx1). simpl. lia.
Qed.

(** A thread that is not done waits for something that can happen while the flag is set. *)
Lemma sl_progress pc : pc <> SlDone -> exists ev pc' acts, exit_seen ev /\ sl_step pc ev = Some (pc', acts).
Proof.
  destruct pc; intros Hd; try done;
    [exists (SlExit true) | exists (SlSubscribed (Ok tt)) | exists (SlExit true) |
     exists (SlReceived (Err Timeout)) | exists (SlExit true) | exists SlWoke]; by do 2 eexists.
Qed.

Lemma sl_waiting_bounded pc evs pc' acts :
  sl_exec pc evs = Some (pc', acts) ->
  (forall d, d ∈ sl_waits pc -> d = from_secs 1) -> forall d, d ∈ sl_waits pc' -> d = from_secs 1.
Proof.
  revert pc acts; induction evs as [|ev evs IH]; intros pc acts He Hb; [by simplify_eq/=|].
  apply sl_exec_inv in He as (pc1 & a1 & a2 & Hs & He & ->).
  apply sl_step_facts in Hs as (_ & _ & _ & Hb1). by eapply IH.
Qed.

(** Once the flag is read as true, only a slot that is being waited for is published. *)
Definition sl_last_sends (pc : sl_pc) : nat := match pc with SlRecv _ => 1 | _ => 0 end.

Lemma sl_step_stop_sends pc ev pc' acts :
  sl_step pc ev = Some (pc', acts) -> exit_seen ev ->
  (length acts + sl_last_sends pc' <= sl_last_sends pc)%nat.
Proof. intros Hs Hx. sl_cases Hs; lia. Qed.

Lemma sl_stop_sends pc evs pc' acts :
  Forall exit_seen evs -> sl_exec pc evs = Some (pc', acts) ->
  (length acts + sl_last_sends pc' <= sl_last_sends pc)%nat.
Proof.
  revert pc acts; induction evs as [|ev evs IH]; intros pc acts Hx He; [by simplify_eq/=|].
  apply sl_exec_inv in He as (pc1 & a1 & a2 & Hs & He & ->).
  apply Forall_cons in Hx as [Hx1 Hx]. apply sl_step_stop_sends in Hs; [|done].
  specialize (IH _ _ Hx He). rewrite length_app. lia.
Qed.

(** ** Theorems *)

(** C32. The slot thread: every slot received is published once, in order, across any number
    of subscriptions; as long as the exit flag is not set, the thread sleeps for exactly one
    second in all between a call of [slot_subscribe] and the next, whatever ended the first
    subscription; outside that call it waits for a second at a time, for a
    slot or asleep; and from whatever point it sees the flag
    set, it publishes at most one more slot and ends within four steps, each of which can be
    taken. *)
Theorem slot_sender_correct evs pc acts :
  sl_exec SlHead evs = Some (pc, acts) ->
  slots_sent acts = slots_received evs /\
  (Forall (fun ev => ev <> SlExit true) evs ->
     forall pre mid post, acts = pre ++ SlotSubscribe :: mid ++ SlotSubscribe :: post ->
       SlotSubscribe ∉ mid -> slept mid = from_secs 1) /\
  (forall d, d ∈ sl_waits pc -> d = from_secs 1) /\
  (forall evs' pc' acts', Forall exit_seen evs' -> sl_exec pc evs' = Some (pc', acts') ->
     (length evs' <= 4)%nat /\ (length acts' <= 1)%nat /\
     (pc' = SlDone \/
      exists ev pc'' acts'', exit_seen ev /\ sl_step pc' ev = Some (pc'', acts''))).
Proof.
  intros He. split_and!.
  - by eapply sl_exec_slots.
  - intros Hx pre mid post Ha Hn. by eapply sl_exec_pause.
  - eapply sl_waiting_bounded; [done | intros d Hd; by apply elem_of_nil in Hd].
  - intros evs' pc' acts' Hx He'. split_and!.
    + apply sl_exec_remaining in He'; [|done]. destruct pc; simpl in He'; lia.
    + apply sl_stop_sends in He'; [|done]. destruct pc; simpl in He'; lia.
    + destruct (decide (sl_remaining pc' = 0)%nat) as [E|E].
      * left. by destruct pc'.
      * right. apply sl_progress. by intros ->.
Qed.

(** ** Witness *)

(** Two subscriptions: the first is refused, the second delivers two slots and falls silent. *)
Definition toy_slots : list sl_event :=
  [SlExit false; SlSubscribed (Err "refused"); SlExit false; SlWoke;
   SlExit false; SlSubscribed (Ok tt); SlExit false; SlReceived (Ok 7); SlExit false;
   SlReceived (Ok 8); SlExit false; SlReceived (Err Timeout); SlExit false].

Definition toy_slot_calls : list sl_action :=
  [SlotSubscribe; SlotSleep (from_secs 1); SlotSubscribe; SlotSend 7; SlotSend 8; SlotSleep (from_secs 1)].

Lemma slot_sender_correct_witness :
  sl_exec SlHead toy_slots = Some (SlSleep (from_secs 1), toy_slot_calls) /\
  slept [SlotSleep (from_secs 1)] = from_secs 1.
Proof.
  split; [reflexivity|].
  destruct (slot_sender_correct toy_slots (SlSleep (from_secs 1)) toy_slot_calls)
    as (_ & Hs & _); [reflexivity|].
  apply (Hs ltac:(unfold toy_slots; repeat constructor; discriminate) []
    [SlotSleep (from_secs 1)] [SlotSend 7; SlotSend 8; SlotSleep (from_secs 1)]); [reflexivity|].
  intros Hin. by apply list_elem_of_singleton in Hin.
Defined.
