(* ===== verification/Grpc.v ===== *)
(** * gRPC statuses, hash maps and channels

    What the services use of their surroundings: the status codes of tonic with the
    constructors the sources call, the iteration order of [std::collections::HashMap], and the
    bounded channel of [tokio::sync::mpsc] behind an interface. *)

From S2P Require Import Prelude Bytes Protos.

(** ** Statuses *)

Inductive Code :=
| CodeOk | Cancelled | Unknown | InvalidArgument | DeadlineExceeded | NotFound | AlreadyExists
| PermissionDenied | ResourceExhausted | FailedPrecondition | Aborted | OutOfRange
| Unimplemented | Internal | Unavailable | DataLoss | Unauthenticated.

#[export] Instance Code_eq_dec : EqDecision Code.
Proof. solve_decision. Defined.

Record Status := { status_code : Code; status_message : string }.

#[export] Instance Status_eq_dec : EqDecision Status.
Proof. solve_decision. Defined.

Definition permission_denied (m : string) : Status :=
  {| status_code := PermissionDenied; status_message := m |}.
Definition invalid_argument (m : string) : Status :=
  {| status_code := InvalidArgument; status_message := m |}.
Definition internal (m : string) : Status :=
  {| status_code := Internal; status_message := m |}.
Definition resource_exhausted (m : string) : Status :=
  {| status_code := ResourceExhausted; status_message := m |}.
Definition unavailable (m : string) : Status :=
  {| status_code := Unavailable; status_message := m |}.

(** [format!("{:?}", v)] of a [Vec<String>] whose strings need no escapes. *)
Definition QUOTE : string := String (Ascii.ascii_of_nat 34) EmptyString.

Fixpoint join (sep : string) (l : list string) : string :=
  match l with
  | [] => EmptyString
  | [s] => s
  | s :: l' => s +:+ sep +:+ join sep l'
  end.

Definition debug_strings (l : list string) : string :=
  "[" +:+ join ", " ((fun s => QUOTE +:+ s +:+ QUOTE) <$> l) +:+ "]".

(** ** Hash maps

    A [HashMap] is a [gmap]; iterating over it visits every entry once, in an order that is
    not specified. *)

Class HashIter := hash_iter : forall {K : Type} `{Countable K} {V : Type}, gmap K V -> list (K * V).

Class HashIterLaws `{!HashIter} :=
  hash_iter_perm : forall {K : Type} `{Countable K} {V : Type} (m : gmap K V),
    hash_iter m ≡ₚ map_to_list m.

#[export] Instance sorted_hash_iter : HashIter := fun _ _ _ _ m => map_to_list m.

#[export] Instance sorted_hash_iter_laws : HashIterLaws.
Proof. intros K ? ? V m. reflexivity. Qed.

(** ** Bounded channels

    [W] is the state of all channels, [S] a sender (clones of a sender are equal), [M] the
    messages.  [mpsc_accepted w s] are the messages the channel has taken so far, in order,
    [mpsc_room] is its free capacity, [mpsc_closed] tells that the receiver is gone. *)

Inductive TrySendError := Full | ClosedByReceiver.

Class Mpsc (W S M : Type) := {
  mpsc_channel : nat -> W -> S * W;
  mpsc_try_send : S -> M -> W -> result unit TrySendError * W;
  mpsc_drop_sender : S -> W -> W;
  mpsc_accepted : W -> S -> list M;
  mpsc_room : W -> S -> nat;
  mpsc_closed : W -> S -> bool;
}.

Class MpscLaws (W S M : Type) `{!Mpsc W S M} := {
  try_send_closed w s m : mpsc_closed w s = true ->
    mpsc_try_send s m w = (Err ClosedByReceiver, w);
  try_send_full w s m : mpsc_closed w s = false -> mpsc_room w s = 0 ->
    mpsc_try_send s m w = (Err Full, w);
  try_send_room w s m n : mpsc_closed w s = false -> mpsc_room w s = Datatypes.S n ->
    exists w', mpsc_try_send s m w = (Ok tt, w') /\
      mpsc_accepted w' s = mpsc_accepted w s ++ [m] /\ mpsc_room w' s = n /\
      mpsc_closed w' s = false;
  channel_fresh cap w : let '(s, w') := mpsc_channel cap w in
    mpsc_accepted w' s = [] /\ mpsc_room w' s = cap /\ mpsc_closed w' s = false;
}.

(** ** A concrete channel store, for witnesses *)

Record Chan (M : Type) := { ch_msgs : list M; ch_room : nat; ch_closed : bool }.
Arguments ch_msgs {M}. Arguments ch_room {M}. Arguments ch_closed {M}.
Arguments Build_Chan {M}.

Definition no_chan {M} : Chan M := {| ch_msgs := []; ch_room := 0; ch_closed := true |}.

(** Channels are numbered in order of creation. *)
Definition chan_get {M} (w : list (Chan M)) (s : nat) : Chan M := default no_chan (w !! s).

#[export] Instance list_mpsc M : Mpsc (list (Chan M)) nat M := {|
  mpsc_channel cap w :=
    (length w, w ++ [{| ch_msgs := []; ch_room := cap; ch_closed := false |}]);
  mpsc_try_send s m w :=
    let c := chan_get w s in
    if ch_closed c then (Err ClosedByReceiver, w)
    else match ch_room c with
         | 0 => (Err Full, w)
         | Datatypes.S n =>
             (Ok tt, <[s := {| ch_msgs := ch_msgs c ++ [m]; ch_room := n; ch_closed := false |}]> w)
         end;
  mpsc_drop_sender _ w := w;
  mpsc_accepted w s := ch_msgs (chan_get w s);
  mpsc_room w s := ch_room (chan_get w s);
  mpsc_closed w s := ch_closed (chan_get w s);
|}.

Lemma chan_get_lt {M} (w : list (Chan M)) s : ch_closed (chan_get w s) = false -> s < length w.
Proof.
  unfold chan_get. destruct (w !! s) as [c|] eqn:E; [|done]. intros _. by eapply lookup_lt_Some.
Qed.

Lemma chan_get_insert {M} (w : list (Chan M)) s c : s < length w -> chan_get (<[s := c]> w) s = c.
Proof. intros H. unfold chan_get. by rewrite list_lookup_insert_eq. Qed.

#[export] Instance list_mpsc_laws M : MpscLaws (list (Chan M)) nat M.
Proof.
  constructor; simpl.
  - intros w s m ->. done.
  - intros w s m -> ->. done.
  - intros w s m n Hc Hr. rewrite Hc, Hr. eexists. split; [reflexivity|].
    rewrite chan_get_insert by (by apply chan_get_lt). done.
  - intros cap w. unfold chan_get. by rewrite list_lookup_middle.
Qed.
