(* ===== verification/Forwarder.v ===== *)
(** * The forwarder (src/src/relayer/forwarder.rs)

    The forwarder streams TPU packets to the connected validator.  Its state is the map of
    packet subscriptions (one sender per validator key, at most one entry), shared by the
    gRPC handlers, the event loop thread and the mirror's control task.  The file models the
    subscription handlers, the batching and sending of packets, the heartbeats, the event
    loop with the handlers interleaved, and the TPU configuration the validator asks for. *)

From S2P Require Import Prelude Bytes Protos Grpc FilterSet.

Local Open Scope Z_scope.

Definition VALIDATOR_PACKET_BATCH_SIZE : nat := 64.
Definition SUBSCRIBER_QUEUE_CAPACITY : nat := Z.to_nat 50000.

(** ** The service *)

(** The immutable part of [ForwarderService]. *)
Record ForwarderService := {
  public_ip : IpAddr;
  tpu_quic_port : Z;
  tpu_fwd_quic_port : Z;
}.

(** [get_tpu_configs]; the ports are [u16], so the subtraction wraps. *)
Definition get_tpu_configs `{!AddrText} (svc : ForwarderService) : GetTpuConfigsResponse := {|
  tpu := Some {| socket_ip := ip_to_string (public_ip svc);
                 socket_port := u16_sub (tpu_quic_port svc) 6 |};
  tpu_forward := Some {| socket_ip := ip_to_string (public_ip svc);
                         socket_port := u16_sub (tpu_fwd_quic_port svc) 6 |};
|}.

Section forwarder.
Context `{!AddrText} `{!HashIter}.
Context {W S : Type} `{!Mpsc W S (result RelayerPacketsResponse Status)}.
Context {P : Type} `{!SolanaPacket P}.
Context (recv_error_text : string).   (* Display of crossbeam_channel::RecvError *)

Abbreviation subscriptions := (gmap Pubkey S).

(** [ConnectedValidator::get]. *)
Definition ConnectedValidator_get (subs : subscriptions) : option Pubkey :=
  match size subs with
  | 1%nat => fst <$> head (hash_iter subs)
  | _ => None
  end.

(** ** Subscribing *)

Definition too_many_subscriptions (subs : subscriptions) : string :=
  "Too many subscriptions, max is 1, currently connected: "
  +:+ debug_strings ((fun e => pubkey_to_string e.1) <$> hash_iter subs).

(** [add_subscription]: a key that is already connected replaces its sender, whose old
    connection is dropped; a new key is refused while another one is connected. *)
Definition add_subscription (identity : Pubkey) (sender : S) (subs : subscriptions) (w : W)
    : result unit string * subscriptions * W :=
  let len := size subs in
  match subs !! identity with
  | None =>
      if Nat.leb 1 len
      then (Err (too_many_subscriptions subs), subs, mpsc_drop_sender sender w)
      else (Ok tt, <[identity := sender]> subs, w)
  | Some old => (Ok tt, <[identity := sender]> subs, mpsc_drop_sender old w)
  end.

(** [subscribe_packets]: [ext] is the key the interceptor put into the request's extensions;
    the stream returned is the receiving end of the new channel. *)
Definition subscribe_packets (ext : option Pubkey) (subs : subscriptions) (w : W)
    : result S Status * subscriptions * W :=
  match ext with
  | None => (Err (internal "internal error fetching public key"), subs, w)
  | Some pubkey =>
      let '(sender, w1) := mpsc_channel SUBSCRIBER_QUEUE_CAPACITY w in
      let '(r, subs', w2) := add_subscription pubkey sender subs w1 in
      match r with
      | Err err => (Err (internal err), subs', w2)
      | Ok _ => (Ok sender, subs', w2)
      end
  end.

(** ** Forwarding *)

(** The packets of [flat_map(..filter(!discard).filter_map(packet_to_proto_packet))]. *)
Definition proto_packets (batches : BankingPacketBatch P) : list ProtoPacket :=
  batch ← batches;
  omap packet_to_proto_packet (List.filter (fun p => negb (pkt_discard p)) batch).

(** The loop that fills [current] and moves it to [proto_packet_batches] at 64 packets. *)
Fixpoint fill_batches (ps current : list ProtoPacket) (acc : list ProtoPacketBatch)
    : list ProtoPacketBatch :=
  match ps with
  | [] => match current with [] => acc | _ => acc ++ [{| pb_packets := current |}] end
  | p :: ps' =>
      let current := current ++ [p] in
      if Nat.eqb (length current) VALIDATOR_PACKET_BATCH_SIZE
      then fill_batches ps' [] (acc ++ [{| pb_packets := current |}])
      else fill_batches ps' current acc
  end.

(** What the sends of one call have produced so far. *)
Record sends := { failed_forwards : list Pubkey; dropped : Z; world : W }.

Definition try_forward (sender : S) (pubkey : Pubkey) (response : RelayerPacketsResponse)
    (st : sends) : sends :=
  match mpsc_try_send sender (Ok response) (world st) with
  | (Ok _, w) => {| failed_forwards := failed_forwards st; dropped := dropped st; world := w |}
  | (Err Full, w) =>
      {| failed_forwards := failed_forwards st; dropped := u64_add (dropped st) 1; world := w |}
  | (Err ClosedByReceiver, w) =>
      {| failed_forwards := failed_forwards st ++ [pubkey]; dropped := dropped st; world := w |}
  end.

Definition batch_response (ts : Timestamp) (batch : ProtoPacketBatch) : RelayerPacketsResponse :=
  {| rp_header := Some {| header_ts := Some ts |}; rp_msg := Some (MsgBatch batch) |}.

(** The body of the loop over [proto_packet_batches]: all subscribers but the last get a
    clone, the last one the batch itself. *)
Definition forward_batch (ts : Timestamp) (subscribers : list (Pubkey * S)) (st : sends)
    (batch : ProtoPacketBatch) : sends :=
  match pb_packets batch with
  | [] => st
  | _ =>
      let last := (length subscribers - 1)%nat in
      let st := fold_left (fun st '(pubkey, sender) =>
        try_forward sender pubkey (batch_response ts batch) st) (take last subscribers) st in
      match subscribers !! last with
      | Some (pubkey, sender) => try_forward sender pubkey (batch_response ts batch) st
      | None => st
      end
  end.

(** [forward_packets]; [ts] is the system time read. *)
Definition forward_packets (maybe_packet_batches : option (BankingPacketBatch P)) (ts : Timestamp)
    (subs : subscriptions) (w : W) : result (list Pubkey * Z) string * W :=
  match maybe_packet_batches with
  | None => (Err recv_error_text, w)
  | Some packet_batches =>
      let proto_packet_batches := fill_batches (proto_packets packet_batches) [] [] in
      let subscribers := hash_iter subs in
      match subscribers with
      | [] => (Ok ([], 0), w)
      | _ =>
          let st := fold_left (forward_batch ts subscribers) proto_packet_batches
            {| failed_forwards := []; dropped := 0; world := w |} in
          (Ok (failed_forwards st, dropped st), world st)
      end
  end.

(** [drop_connections]. *)
Definition drop_connections (failed : list Pubkey) (subs : subscriptions) (w : W)
    : subscriptions * W :=
  fold_left (fun '(subs, w) disconnected =>
    match subs !! disconnected with
    | Some sender => (delete disconnected subs, mpsc_drop_sender sender w)
    | None => (subs, w)
    end) failed (subs, w).

Definition heartbeat_response (count : Z) : RelayerPacketsResponse :=
  {| rp_header := None; rp_msg := Some (MsgHeartbeat {| heartbeat_count := count |}) |}.

(** [handle_heartbeat]: the failed keys, the drops and the next count. *)
Definition handle_heartbeat (count : Z) (subs : subscriptions) (w : W)
    : (list Pubkey * Z) * Z * W :=
  let st := fold_left (fun st '(pubkey, sender) =>
      try_forward sender pubkey (heartbeat_response count) st) (hash_iter subs)
    {| failed_forwards := []; dropped := 0; world := w |} in
  ((failed_forwards st, dropped st), u64_add count 1, world st).

(** ** The event loop

    The loop and the gRPC handlers take turns: a handler runs under the write lock of the
    subscriptions, which the loop holds neither while it sends nor between the sends and
    [drop_connections]. *)

Inductive fw_pc :=
| FwHead
| FwSelect
| FwDrop (failed : list Pubkey)        (* about to call drop_connections *)
| FwReturned (r : result unit string).

Record fw_state := {
  fw_pc_ : fw_pc;
  fw_subs : subscriptions;
  fw_world : W;
  fw_heartbeat : Z;
  fw_dropped : Z;
}.

Inductive fw_event :=
| FwExit (exit : bool)
| FwPackets (maybe : option (BankingPacketBatch P)) (ts : Timestamp)
| FwHeartbeatTick
| FwDropLogTick
| FwDropConnections
| FwSubscribe (ext : option Pubkey)    (* a handler runs *)
| FwChannels (w : W).                  (* receivers take messages or go away *)

Definition fw_init (w : W) : fw_state :=
  {| fw_pc_ := FwHead; fw_subs := ∅; fw_world := w; fw_heartbeat := 0; fw_dropped := 0 |}.

Definition fw_step (st : fw_state) (ev : fw_event) : option fw_state :=
  match ev, fw_pc_ st with
  | FwExit exit, FwHead =>
      Some {| fw_pc_ := if exit then FwReturned (Ok tt) else FwSelect;
              fw_subs := fw_subs st; fw_world := fw_world st;
              fw_heartbeat := fw_heartbeat st; fw_dropped := fw_dropped st |}
  | FwPackets maybe ts, FwSelect =>
      match forward_packets maybe ts (fw_subs st) (fw_world st) with
      | (Err e, w) =>
          Some {| fw_pc_ := FwReturned (Err e); fw_subs := fw_subs st; fw_world := w;
                  fw_heartbeat := fw_heartbeat st; fw_dropped := fw_dropped st |}
      | (Ok (failed, d), w) =>
          Some {| fw_pc_ := FwDrop failed; fw_subs := fw_subs st; fw_world := w;
                  fw_heartbeat := fw_heartbeat st; fw_dropped := u64_add (fw_dropped st) d |}
      end
  | FwHeartbeatTick, FwSelect =>
      let '((failed, d), count, w) := handle_heartbeat (fw_heartbeat st) (fw_subs st) (fw_world st) in
      Some {| fw_pc_ := FwDrop failed; fw_subs := fw_subs st; fw_world := w;
              fw_heartbeat := count; fw_dropped := u64_add (fw_dropped st) d |}
  | FwDropLogTick, FwSelect =>
      Some {| fw_pc_ := FwHead; fw_subs := fw_subs st; fw_world := fw_world st;
              fw_heartbeat := fw_heartbeat st;
              fw_dropped := if 0 <? fw_dropped st then 0 else fw_dropped st |}
  | FwDropConnections, FwDrop failed =>
      let '(subs, w) := drop_connections failed (fw_subs st) (fw_world st) in
      Some {| fw_pc_ := FwHead; fw_subs := subs; fw_world := w;
              fw_heartbeat := fw_heartbeat st; fw_dropped := fw_dropped st |}
  | FwSubscribe ext, _ =>
      let '(_, subs, w) := subscribe_packets ext (fw_subs st) (fw_world st) in
      Some {| fw_pc_ := fw_pc_ st; fw_subs := subs; fw_world := w;
              fw_heartbeat := fw_heartbeat st; fw_dropped := fw_dropped st |}
  | FwChannels w, _ =>
      Some {| fw_pc_ := fw_pc_ st; fw_subs := fw_subs st; fw_world := w;
              fw_heartbeat := fw_heartbeat st; fw_dropped := fw_dropped st |}
  | _, _ => None
  end.

Definition fw_exec (st : fw_state) (evs : list fw_event) : option fw_state :=
  fold_left (fun o ev => st ← o; fw_step st ev) evs (Some st).

(** The thread around the loop: an error sets the exit flag of the process. *)
Definition forwarder_thread_exit (r : result unit string) (exit : bool) : bool :=
  match r with
  | Err _ => if negb exit then true else exit
  | Ok _ => exit
  end.

End forwarder.

Arguments fw_state W S : clear implicits.
Arguments fw_event W P : clear implicits.
Arguments sends W : clear implicits.

(** ** Batching *)

(** Full batches of 64, then at most one smaller batch that is not empty. *)
Inductive batched : list ProtoPacketBatch -> Prop :=
| batched_nil : batched []
| batched_last b : (1 <= length (pb_packets b) < VALIDATOR_PACKET_BATCH_SIZE)%nat -> batched [b]
| batched_full b bs : length (pb_packets b) = VALIDATOR_PACKET_BATCH_SIZE -> batched bs ->
    batched (b :: bs).

Lemma fill_batches_spec ps cur acc :
  (length cur < VALIDATOR_PACKET_BATCH_SIZE)%nat ->
  exists new, fill_batches ps cur acc = acc ++ new /\
    concat (pb_packets <$> new) = cur ++ ps /\ batched new.
Proof.
  revert cur acc; induction ps as [|p ps IH]; intros cur acc Hc; cbn [fill_batches].
  - destruct cur as [|c cur].
    + exists []. split_and!; [by rewrite app_nil_r | done | constructor].
    + exists [{| pb_packets := c :: cur |}]. split_and!; [done | done |].
      constructor. simpl in *. lia.
  - destruct (Nat.eqb_spec (length (cur ++ [p])) VALIDATOR_PACKET_BATCH_SIZE) as [E|E].
    + destruct (IH [] (acc ++ [{| pb_packets := cur ++ [p] |}])) as (new & -> & Hcat & Hb).
      { unfold VALIDATOR_PACKET_BATCH_SIZE. simpl. lia. }
      exists ({| pb_packets := cur ++ [p] |} :: new). split_and!.
      * by rewrite <- app_assoc.
      * cbn. rewrite Hcat. by rewrite <- app_assoc.
      * by constructor.
    + destruct (IH (cur ++ [p]) acc) as (new & -> & Hcat & Hb).
      { rewrite length_app in *. simpl in *. lia. }
      exists new. split_and!; [done | by rewrite Hcat, <- app_assoc | done].
Qed.

Lemma batched_nonempty bs : batched bs -> Forall (fun b => pb_packets b <> []) bs.
Proof.
  assert (forall b : ProtoPacketBatch, (1 <= length (pb_packets b))%nat -> pb_packets b <> []) as Hne.
  { intros b Hl E. rewrite E in Hl. simpl in Hl. lia. }
  induction 1; constructor; auto; apply Hne; unfold VALIDATOR_PACKET_BATCH_SIZE in *; lia.
Qed.

(** ** Sending *)

Section sending.
Context `{!AddrText} `{!HashIter}.
Context {W S : Type} `{!Mpsc W S (result RelayerPacketsResponse Status)}.
Context `{!MpscLaws W S (result RelayerPacketsResponse Status)}.

(** Sending a list of responses one after the other to one subscriber. *)
Definition forward_all (sender : S) (k : Pubkey) (rs : list RelayerPacketsResponse) (st : sends W)
    : sends W :=
  fold_left (fun st r => try_forward sender k r st) rs st.

Lemma forward_all_cons sender k r rs st :
  forward_all sender k (r :: rs) st = forward_all sender k rs (try_forward sender k r st).
Proof. done. Qed.

Lemma forward_all_closed sender k rs st :
  mpsc_closed (world st) sender = true ->
  forward_all sender k rs st =
  {| failed_forwards := failed_forwards st ++ replicate (length rs) k;
     dropped := dropped st; world := world st |}.
Proof.
  revert st; induction rs as [|r rs IH]; intros st Hc.
  - simpl. rewrite app_nil_r. by destruct st.
  - rewrite forward_all_cons. unfold try_forward. rewrite try_send_closed, IH by done. simpl.
    by rewrite <- app_assoc.
Qed.

Lemma forward_all_full sender k rs st :
  mpsc_closed (world st) sender = false -> mpsc_room (world st) sender = 0%nat ->
  0 <= dropped st -> dropped st + Z.of_nat (length rs) < 2 ^ 64 ->
  forward_all sender k rs st =
  {| failed_forwards := failed_forwards st;
     dropped := dropped st + Z.of_nat (length rs); world := world st |}.
Proof.
  revert st; induction rs as [|r rs IH]; intros st Hc Hr Hd0 Hb; simpl in Hb.
  - simpl. rewrite Z.add_0_r. by destruct st.
  - rewrite forward_all_cons. unfold try_forward. rewrite try_send_full by done.
    rewrite u64_add_small by lia. rewrite IH; simpl; [f_equal; lia | done | done | lia | lia].
Qed.

(** One open subscriber: the responses that fit are queued in order, the rest is counted. *)
Lemma forward_all_open sender k rs st :
  mpsc_closed (world st) sender = false ->
  0 <= dropped st -> dropped st + Z.of_nat (length rs) < 2 ^ 64 ->
  let st' := forward_all sender k rs st in
  let room := mpsc_room (world st) sender in
  failed_forwards st' = failed_forwards st /\
  dropped st' = dropped st + Z.of_nat (length rs - room) /\
  mpsc_accepted (world st') sender = mpsc_accepted (world st) sender ++ (Ok <$> take room rs) /\
  mpsc_closed (world st') sender = false.
Proof.
  revert st; induction rs as [|r rs IH]; intros st Hc Hd0 Hb; cbv zeta.
  - simpl. rewrite take_nil, app_nil_r. split_and!; [done | lia | done | done].
  - destruct (mpsc_room (world st) sender) as [|n] eqn:Er.
    + rewrite forward_all_full by done. simpl. rewrite app_nil_r. split_and!; auto.
    + destruct (try_send_room (world st) sender (Ok r) n Hc Er) as (w' & Ht & Ha & Hr & Hc').
      rewrite forward_all_cons. unfold try_forward. rewrite Ht.
      destruct (IH {| failed_forwards := failed_forwards st; dropped := dropped st; world := w' |})
        as (Hf & Hd & Hacc & Hcl); simpl in *; [done | done | lia |].
      rewrite Hr in *. rewrite Hf, Hd, Hacc, Ha. simpl. rewrite <- app_assoc.
      split_and!; [done | done | done | done].
Qed.

(** With one subscriber the loop over the batches is [forward_all]. *)
Lemma forward_batches_single ts k sender bs st :
  Forall (fun b => pb_packets b <> []) bs ->
  fold_left (forward_batch ts [(k, sender)]) bs st =
  forward_all sender k (batch_response ts <$> bs) st.
Proof.
  revert st; induction bs as [|b bs IH]; intros st Hne; [done|].
  inversion_clear Hne as [|? ? Hb Hbs]. simpl. rewrite IH by done.
  unfold forward_all. simpl. f_equal. unfold forward_batch. by destruct (pb_packets b).
Qed.

End sending.

(** ** The subscriptions *)

Section subscribing.
Context `{!AddrText} `{!HashIter} `{!HashIterLaws}.
Context {W S : Type} `{!Mpsc W S (result RelayerPacketsResponse Status)}.
Implicit Types (subs : gmap Pubkey S).

Lemma hash_iter_singleton k (s : S) : hash_iter ({[k := s]} : gmap Pubkey S) = [(k, s)].
Proof.
  pose proof (hash_iter_perm ({[k := s]} : gmap Pubkey S)) as Hp.
  rewrite map_to_list_singleton in Hp. by apply Permutation_singleton_r in Hp.
Qed.

Lemma size_1_singleton subs :
  size subs = 1%nat -> exists k s, subs = {[k := s]}.
Proof.
  intros Hs. destruct (map_choose subs) as (k & s & Hk).
  { intros ->. by rewrite map_size_empty in Hs. }
  exists k, s. apply map_eq. intros i. destruct (decide (i = k)) as [->|Hne].
  - by rewrite lookup_singleton_eq.
  - rewrite lookup_singleton_ne by done.
    assert (delete k subs = ∅) as Hd.
    { apply map_size_empty_inv. rewrite map_size_delete_Some by eauto. lia. }
    apply (f_equal (lookup i)) in Hd. by rewrite lookup_delete_ne, lookup_empty in Hd.
Qed.

Lemma size_le_1_cases subs :
  (size subs <= 1)%nat -> subs = ∅ \/ exists k s, subs = {[k := s]}.
Proof.
  intros Hle. destruct (size subs) as [|[|n]] eqn:E; [|right; by apply size_1_singleton|lia].
  left. by apply map_size_empty_inv.
Qed.

Lemma add_subscription_size identity sender subs w r subs' w' :
  (size subs <= 1)%nat -> add_subscription identity sender subs w = (r, subs', w') ->
  (size subs' <= 1)%nat.
Proof.
  unfold add_subscription. intros Hs Hr.
  destruct (subs !! identity) as [old|] eqn:El.
  - simplify_eq. rewrite map_size_insert_Some by eauto. done.
  - destruct (Nat.leb_spec 1 (size subs)); simplify_eq; [done|].
    rewrite map_size_insert_None by done. lia.
Qed.

Lemma subscribe_packets_size ext subs w r subs' w' :
  (size subs <= 1)%nat -> subscribe_packets ext subs w = (r, subs', w') -> (size subs' <= 1)%nat.
Proof.
  unfold subscribe_packets. intros Hs Hr. destruct ext as [k|]; [|by simplify_eq].
  destruct (mpsc_channel _ w) as [sender w1].
  destruct (add_subscription k sender subs w1) as [[r' subs1] w2] eqn:Ea.
  apply add_subscription_size in Ea; [|done]. by destruct r'; simplify_eq.
Qed.

Lemma drop_connections_subs failed subs w k :
  fst (drop_connections failed subs w) !! k =
  if decide (k ∈ failed) then None else subs !! k.
Proof.
  unfold drop_connections. revert subs w; induction failed as [|f failed IH]; intros subs w; [done|].
  simpl. set (step := match subs !! f with Some _ => _ | None => _ end).
  assert (fst step = delete f subs) as Hf.
  { subst step. destruct (subs !! f) eqn:E; [done|]. simpl. by rewrite delete_id. }
  destruct step as [subs1 w1]. simpl in Hf. subst subs1. rewrite IH.
  rewrite lookup_delete. repeat case_decide; set_solver.
Qed.

Lemma drop_connections_size failed subs w :
  (size (fst (drop_connections failed subs w)) <= size subs)%nat.
Proof.
  apply map_subseteq_size.
  apply map_subseteq_spec. intros k s. rewrite drop_connections_subs. by case_decide.
Qed.

End subscribing.

(** ** Filtering before forwarding *)

Section filtered.
Context `{!AddrText} {P : Type} `{!SolanaPacket P} `{!SolanaPacketLaws P}.

(** What the forwarder makes of one packet. *)
Definition visible (p : P) : option ProtoPacket :=
  if pkt_discard p then None else packet_to_proto_packet p.

Lemma omap_visible (batch : list P) :
  omap packet_to_proto_packet (List.filter (fun p => negb (pkt_discard p)) batch) =
  omap visible batch.
Proof.
  induction batch as [|p batch IH]; [done|]. csimpl. unfold visible at 1.
  destruct (pkt_discard p); csimpl; by rewrite IH.
Qed.

Lemma visible_discard m (p : P) :
  visible (discard_packet m p) =
  (pp ← visible p; if blocked_data m (pp_data pp) then None else Some pp).
Proof.
  unfold visible at 2. destruct (pkt_discard p) eqn:Hd.
  { unfold visible, discard_packet. by rewrite Hd, Hd. }
  assert (forall pp, packet_to_proto_packet p = Some pp -> pkt_data p = Some (pp_data pp)) as Hdata
    by apply packet_to_proto_packet_Some.
  pose proof (packet_to_proto_packet_is_Some p) as Hsome.
  unfold visible, discard_packet. rewrite Hd.
  destruct (packet_to_proto_packet p) as [pp|] eqn:Hpp; simpl.
  - rewrite (Hdata pp) by done. destruct (blocked_data m (pp_data pp)).
    + by rewrite discard_set_discard.
    + by rewrite Hd, Hpp.
  - destruct (pkt_data p); [|by rewrite Hd, Hpp].
    destruct Hsome as [_ [? ?]]; [eauto | done].
Qed.

Lemma proto_packets_discard_batch m (batch : list P) :
  omap visible (map (discard_packet m) batch) =
  List.filter (fun pp => negb (blocked_data m (pp_data pp))) (omap visible batch).
Proof.
  induction batch as [|p batch IH]; [done|]. csimpl. rewrite visible_discard.
  destruct (visible p) as [pp|]; csimpl; [|done].
  destruct (blocked_data m (pp_data pp)); csimpl; by rewrite IH.
Qed.

Lemma proto_packets_discard m (b : BankingPacketBatch P) :
  proto_packets (map (map (discard_packet m)) b) =
  List.filter (fun pp => negb (blocked_data m (pp_data pp))) (proto_packets b).
Proof.
  unfold proto_packets. induction b as [|batch b IH]; [done|].
  csimpl. rewrite List.filter_app, <- IH, !omap_visible, proto_packets_discard_batch. done.
Qed.

End filtered.

(** The batches by index, as a reference: the packets 64 i to 64 i + 63 of the list. *)
Definition chunk (ps : list ProtoPacket) (i : nat) : ProtoPacketBatch :=
  {| pb_packets := take VALIDATOR_PACKET_BATCH_SIZE (drop (VALIDATOR_PACKET_BATCH_SIZE * i) ps) |}.

Definition chunks (ps : list ProtoPacket) : list ProtoPacketBatch :=
  chunk ps <$> seq 0 ((length ps + (VALIDATOR_PACKET_BATCH_SIZE - 1)) / VALIDATOR_PACKET_BATCH_SIZE)%nat.

Lemma batched_chunks bs : batched bs -> bs = chunks (concat (pb_packets <$> bs)).
Proof.
  induction 1 as [|[b] Hb|[b] bs Hb Hbs IH]; [done | |];
    unfold chunks; rewrite fmap_cons; cbn [pb_packets concat] in *.
  - cbn [fmap list_fmap concat]. unfold VALIDATOR_PACKET_BATCH_SIZE in *. rewrite app_nil_r.
    assert (((length b + (64 - 1)) / 64)%nat = 1%nat) as ->.
    { symmetry. apply Nat.div_unique with (length b - 1)%nat; lia. }
    cbn [seq fmap list_fmap]. unfold chunk, VALIDATOR_PACKET_BATCH_SIZE.
    by rewrite Nat.mul_0_r, drop_0, take_ge by lia.
  - set (rest := concat (pb_packets <$> bs)) in *. rewrite length_app, Hb.
    set (n := length rest) in *.
    assert (((VALIDATOR_PACKET_BATCH_SIZE + n + (VALIDATOR_PACKET_BATCH_SIZE - 1)) /
             VALIDATOR_PACKET_BATCH_SIZE)%nat =
      Datatypes.S ((n + (VALIDATOR_PACKET_BATCH_SIZE - 1)) / VALIDATOR_PACKET_BATCH_SIZE)) as ->.
    { rewrite <- Nat.add_assoc, (Nat.add_comm VALIDATOR_PACKET_BATCH_SIZE).
      rewrite <- (Nat.mul_1_l VALIDATOR_PACKET_BATCH_SIZE) at 2. rewrite Nat.div_add by done. lia. }
    cbn [seq]. rewrite fmap_cons. f_equal.
    + unfold chunk. rewrite Nat.mul_0_r, drop_0, <- Hb. by rewrite take_app_length.
    + rewrite IH at 1. unfold chunks. fold n. rewrite <- fmap_S_seq, <- list_fmap_compose.
      apply list_fmap_ext. intros _ i _. unfold chunk, compose. f_equal. f_equal.
      rewrite Nat.mul_succ_r, Nat.add_comm, <- drop_drop, <- Hb. by rewrite drop_app_length.
Qed.

(** ** Invariant of the event loop and the handlers *)

Section loop.
Context `{!AddrText} `{!HashIter} `{!HashIterLaws}.
Context {W S : Type} `{!Mpsc W S (result RelayerPacketsResponse Status)}.
Context {P : Type} `{!SolanaPacket P} (recv_error_text : string).

Lemma fw_exec_app (st : fw_state W S) evs evs' :
  fw_exec recv_error_text st (evs ++ evs') =
  (st' ← fw_exec recv_error_text st evs; fw_exec recv_error_text st' (evs' : list (fw_event W P))).
Proof.
  unfold fw_exec. rewrite fold_left_app.
  destruct (fold_left _ evs _) as [st'|]; [done|]. simpl. by induction evs'.
Qed.

Lemma fw_step_size (st st' : fw_state W S) (ev : fw_event W P) :
  (size (fw_subs st) <= 1)%nat -> fw_step recv_error_text st ev = Some st' ->
  (size (fw_subs st') <= 1)%nat.
Proof.
  intros Hs Hstep. unfold fw_step in Hstep. destruct ev, (fw_pc_ st); cbn in Hstep;
    repeat match type of Hstep with
    | context [forward_packets ?t ?m ?ts ?s ?w] =>
        destruct (forward_packets t m ts s w) as [[[? ?]|?] ?]
    | context [handle_heartbeat ?c ?s ?w] => destruct (handle_heartbeat c s w) as [[[? ?] ?] ?]
    | context [subscribe_packets ?e ?s ?w] =>
        destruct (subscribe_packets e s w) as [[? ?] ?] eqn:Esub; apply subscribe_packets_size in Esub; [|done]
    | context [drop_connections ?f ?s ?w] =>
        pose proof (drop_connections_size f s w); destruct (drop_connections f s w) as [? ?]
    end; simplify_eq/=; try done; cbn in *; lia.
Qed.

Lemma fw_exec_size evs : forall (st st' : fw_state W S),
  (size (fw_subs st) <= 1)%nat -> fw_exec recv_error_text st (evs : list (fw_event W P)) = Some st' ->
  (size (fw_subs st') <= 1)%nat.
Proof.
  induction evs as [|ev evs IH] using rev_ind; intros st st' Hs He.
  { unfold fw_exec in He. simpl in He. by simplify_eq. }
  rewrite fw_exec_app in He. apply bind_Some in He as (st1 & He1 & He2).
  eapply fw_step_size; [by eapply IH | exact He2].
Qed.

End loop.

(** ** Properties *)

(** C25. The loop that fills batches is cutting by index: for the convertible, not discarded packets of a
    TPU batch it builds exactly the slices 0..63, 64..127, ... up to the end, one batch for each
    64 packets begun, so that nothing is lost, repeated or reordered; every batch holds 64
    packets except possibly the last, which is smaller but not empty. *)
Theorem forward_batches_exact `{!AddrText} {P} `{!SolanaPacket P} (b : BankingPacketBatch P) :
  let bs := fill_batches (proto_packets b) [] [] in
  bs = chunks (proto_packets b) /\ concat (pb_packets <$> bs) = proto_packets b /\ batched bs.
Proof.
  cbv zeta. destruct (fill_batches_spec (proto_packets b) [] []) as (new & -> & Hc & Hb).
  - unfold VALIDATOR_PACKET_BATCH_SIZE. simpl. lia.
  - rewrite app_nil_l. split_and!; [|done|done]. rewrite (batched_chunks new Hb), Hc at 1. done.
Qed.

(** C8. What the connected validator gets: if its stream is open, the batches that fit into the free
    capacity of its queue are enqueued in order with the time stamp, the others are counted as
    dropped, and nobody is reported as failed; if its stream is closed, its key is reported
    once per batch and nothing is enqueued; without a subscriber nothing happens; and a
    disconnected input channel is an error. *)
Theorem forward_packets_delivery `{!AddrText} `{!HashIter} `{!HashIterLaws} {W S}
    `{!Mpsc W S (result RelayerPacketsResponse Status)}
    `{!MpscLaws W S (result RelayerPacketsResponse Status)}
    {P} `{!SolanaPacket P} err (b : BankingPacketBatch P) ts k s w :
  let bs := fill_batches (proto_packets b) [] [] in
  Z.of_nat (length bs) < 2 ^ 64 ->
  (mpsc_closed w s = false ->
    exists w', forward_packets err (Some b) ts {[k := s]} w =
      (Ok ([], Z.of_nat (length bs - mpsc_room w s)), w') /\
      mpsc_accepted w' s =
        mpsc_accepted w s ++ (Ok <$> (batch_response ts <$> take (mpsc_room w s) bs))) /\
  (mpsc_closed w s = true ->
    forward_packets err (Some b) ts {[k := s]} w = (Ok (replicate (length bs) k, 0), w)) /\
  forward_packets err (Some b) ts ∅ w = (Ok ([], 0), w) /\
  forward_packets err (None : option (BankingPacketBatch P)) ts {[k := s]} w = (Err err, w).
Proof.
  cbv zeta. intros Hlen.
  assert (Forall (fun b => pb_packets b <> []) (fill_batches (proto_packets b) [] [])) as Hne.
  { destruct (fill_batches_spec (proto_packets b) [] []) as (new & E & _ & Hb);
      [unfold VALIDATOR_PACKET_BATCH_SIZE; simpl; lia|].
    rewrite E. by apply batched_nonempty. }
  set (bs := fill_batches (proto_packets b) [] []) in *.
  unfold forward_packets. fold bs. rewrite hash_iter_singleton, forward_batches_single by done.
  split_and!.
  - intros Hc. destruct (forward_all_open s k (batch_response ts <$> bs)
      {| failed_forwards := []; dropped := 0; world := w |} Hc) as (Hf & Hd & Ha & _);
      simpl; [lia | rewrite length_fmap; lia |].
    eexists. rewrite Hf, Hd, Ha. simpl. rewrite length_fmap. split; [done|]. by rewrite (fmap_take (batch_response ts)).
  - intros Hc. rewrite forward_all_closed by done. simpl. by rewrite length_fmap.
  - assert (hash_iter (∅ : gmap Pubkey S) = []) as ->; [|done].
    apply Permutation_nil_r. rewrite hash_iter_perm. by rewrite map_to_list_empty.
  - done.
Qed.

(** C6. A withheld transaction never reaches the validator: what the forwarder sends for a batch that
    went through the filter is exactly what it would have sent without the filter, minus the
    packets whose first signature is in the filter set, in the same order. *)
Theorem withheld_never_forwarded `{!AddrText} {P} `{SolanaPacketLaws P} fs (b : BankingPacketBatch P) :
  FilterSet_wf fs ->
  let before := proto_packets b in
  let after := concat (pb_packets <$> fill_batches (proto_packets (discard_filtered fs b)) [] []) in
  sublist after before /\
  forall pp, pp ∈ after <-> pp ∈ before /\ ~ withheld (fs_map fs) (pp_data pp).
Proof.
  intros Hwf. cbv zeta.
  destruct (fill_batches_spec (proto_packets (discard_filtered fs b)) [] [])
    as (new & -> & Hc & _); [unfold VALIDATOR_PACKET_BATCH_SIZE; simpl; lia|].
  rewrite app_nil_l, Hc, app_nil_l, discard_filtered_map, proto_packets_discard by done.
  split; [apply filter_bool_sublist|].
  intros pp. by rewrite elem_of_filter_bool, negb_true_iff, blocked_data_false.
Qed.

(** Subscribing: a request without an authenticated key is an internal error; while another key
    is connected a new key is refused and nothing changes; otherwise the caller gets the
    receiving end of a fresh queue of 50,000 messages, which from then on is the one entry
    of the subscriptions and is what the mirror's control task reports. *)
Theorem subscribe_packets_correct `{!AddrText} `{!HashIter} `{!HashIterLaws} {W S}
    `{!Mpsc W S (result RelayerPacketsResponse Status)}
    `{!MpscLaws W S (result RelayerPacketsResponse Status)}
    (ext : option Pubkey) (subs : gmap Pubkey S) (w : W) r subs' w' :
  (size subs <= 1)%nat -> subscribe_packets ext subs w = (r, subs', w') ->
  match ext with
  | None => r = Err (internal "internal error fetching public key") /\ subs' = subs /\ w' = w
  | Some k =>
      if decide (subs = ∅ \/ k ∈ dom subs)
      then exists s, r = Ok s /\ subs' = {[k := s]} /\ ConnectedValidator_get subs' = Some k /\
        s = fst (mpsc_channel SUBSCRIBER_QUEUE_CAPACITY w)
      else r = Err (internal (too_many_subscriptions subs)) /\ subs' = subs
  end.
Proof.
  intros Hs Hr. destruct ext as [k|]; simpl in Hr; [|by simplify_eq].
  destruct (mpsc_channel SUBSCRIBER_QUEUE_CAPACITY w) as [s w1]. unfold add_subscription in Hr.
  assert (forall s, ConnectedValidator_get ({[k := s]} : gmap Pubkey S) = Some k) as Hget.
  { intros s'. unfold ConnectedValidator_get. by rewrite map_size_singleton, hash_iter_singleton. }
  destruct (size_le_1_cases subs Hs) as [->|(k' & s' & ->)].
  - rewrite lookup_empty, map_size_empty in Hr. simpl in Hr. simplify_eq.
    rewrite decide_True by (by left). exists s. rewrite insert_empty. auto.
  - destruct (decide (k = k')) as [->|Hne].
    + rewrite lookup_singleton_eq in Hr. simplify_eq. rewrite decide_True by set_solver.
      exists s. rewrite insert_singleton_eq. auto.
    + rewrite lookup_singleton_ne, map_size_singleton in Hr by done. simpl in Hr. simplify_eq.
      rewrite decide_False; [done|]. intros [E|E]; [|set_solver].
      apply (f_equal (lookup k')) in E. by rewrite lookup_singleton_eq in E.
Qed.

(** C19. At most one validator is connected, in every state the event loop, the gRPC handlers and the
    receivers can reach in any order, and the mirror's control task reports exactly that one. *)
Theorem at_most_one_validator `{!AddrText} `{!HashIter} `{!HashIterLaws} {W S}
    `{!Mpsc W S (result RelayerPacketsResponse Status)} {P} `{!SolanaPacket P}
    err w (evs : list (fw_event W P)) (st : fw_state W S) :
  fw_exec err (fw_init w) evs = Some st ->
  (size (fw_subs st) <= 1)%nat /\
  forall k, ConnectedValidator_get (fw_subs st) = Some k <-> exists s, fw_subs st = {[k := s]}.
Proof.
  intros He. assert (size (fw_subs st) <= 1)%nat as Hs.
  { eapply fw_exec_size; [|exact He]. simpl. rewrite map_size_empty. lia. }
  split; [done|]. intros k.
  destruct (size_le_1_cases _ Hs) as [->|(k' & s' & ->)]; unfold ConnectedValidator_get.
  - rewrite map_size_empty. split; [done|]. intros [s E].
    apply (f_equal (lookup k)) in E. by rewrite lookup_singleton_eq in E.
  - rewrite map_size_singleton, hash_iter_singleton. simpl. split.
    + intros [= ->]. eauto.
    + intros [s E]. apply (f_equal (lookup k')) in E. rewrite lookup_singleton_eq in E.
      symmetry in E. apply lookup_singleton_Some in E as [-> _]. done.
Qed.

(** C40. A validator that reconnects at the wrong moment loses its new stream: if a send to key [k]
    failed and [k] subscribes again (successfully) before the loop gets to
    [drop_connections], the clean-up removes the new subscription, not the failed one. *)
Theorem reconnect_before_cleanup_is_lost `{!AddrText} `{!HashIter} `{!HashIterLaws} {W S}
    `{!Mpsc W S (result RelayerPacketsResponse Status)} {P} `{!SolanaPacket P}
    err (st : fw_state W S) failed k old :
  fw_pc_ st = FwDrop failed -> k ∈ failed -> fw_subs st = {[k := old]} ->
  exists st1 st2, fw_step err st (FwSubscribe (Some k) : fw_event W P) = Some st1 /\
    is_Some (fw_subs st1 !! k) /\
    fw_step err st1 (FwDropConnections : fw_event W P) = Some st2 /\ fw_subs st2 = ∅.
Proof.
  intros Hpc Hk Hs. cbn [fw_step].
  unfold subscribe_packets. destruct (mpsc_channel _ _) as [s w1]. unfold add_subscription.
  rewrite Hs, lookup_singleton_eq.
  pose proof (drop_connections_subs failed {[k := s]} (mpsc_drop_sender old w1)) as Hd.
  destruct (drop_connections failed {[k := s]} (mpsc_drop_sender old w1)) as [subs w2] eqn:Ed.
  eexists _, _. split; [reflexivity|]. cbn [fw_subs fw_pc_ fw_world].
  rewrite Hpc, insert_singleton_eq. split; [rewrite lookup_singleton_eq; eauto|].
  rewrite Ed. split; [reflexivity|].
  cbn in *. apply map_eq. intros i. rewrite Hd, lookup_empty. case_decide; [done|].
  apply lookup_singleton_ne. intros ->. done.
Qed.

(** The ports told to the validator are the relayer's QUIC ports minus 6 for every port from 6
    on; below, the subtraction wraps around to a port of 65530 or more. *)
Theorem get_tpu_configs_ports `{!AddrText} svc :
  0 <= tpu_quic_port svc < 2 ^ 16 -> 0 <= tpu_fwd_quic_port svc < 2 ^ 16 ->
  let advertised p := if p <? 6 then p + 65530 else p - 6 in
  let sock p := {| socket_ip := ip_to_string (public_ip svc); socket_port := advertised p |} in
  get_tpu_configs svc =
    {| tpu := Some (sock (tpu_quic_port svc)); tpu_forward := Some (sock (tpu_fwd_quic_port svc)) |}.
Proof.
  intros H1 H2. cbv zeta. unfold get_tpu_configs.
  assert (forall p, 0 <= p < 2 ^ 16 -> u16_sub p 6 = if p <? 6 then p + 65530 else p - 6) as Hp.
  { intros p Hp. unfold u16_sub, wrap. destruct (Z.ltb_spec p 6).
    - symmetry. apply Z.mod_unique_pos with (-1); lia.
    - apply Z.mod_small. lia. }
  by rewrite !Hp by done.
Qed.

(** ** Witnesses: channels of [list_mpsc], packets of [SimplePacket] *)

Abbreviation toy_chan := (Chan (result RelayerPacketsResponse Status)).

#[local] Existing Instance toy_addr_text.

Definition toy_batch : BankingPacketBatch SimplePacket := [[toy_packet Byte.x07; toy_packet Byte.x08]].
Definition toy_ts : Timestamp := {| ts_seconds := 7; ts_nanos := 0 |}.
Definition toy_key : Pubkey := replicate 32 Byte.x11.
Definition open_chan : toy_chan := {| ch_msgs := []; ch_room := 3; ch_closed := false |}.
Definition closed_chan : toy_chan := {| ch_msgs := []; ch_room := 3; ch_closed := true |}.

Lemma forward_packets_delivery_witness :
  forward_packets "gone" (Some toy_batch) toy_ts {[toy_key := 0%nat]} [closed_chan]
  = (Ok ([toy_key], 0), [closed_chan]).
Proof.
  destruct (forward_packets_delivery "gone" toy_batch toy_ts toy_key 0%nat [closed_chan])
    as (_ & Hclosed & _); [vm_compute; reflexivity|].
  etransitivity; [exact (Hclosed eq_refl)|]. vm_compute. reflexivity.
Defined.

Lemma withheld_never_forwarded_witness :
  FilterSet_wf toy_filter /\
  sublist (concat (pb_packets <$> fill_batches (proto_packets (discard_filtered toy_filter toy_batch)) [] []))
    (proto_packets toy_batch) /\
  length (proto_packets (discard_filtered toy_filter toy_batch)) = 1%nat.
Proof.
  split; [reflexivity|]. split; [|vm_compute; reflexivity].
  apply (withheld_never_forwarded toy_filter toy_batch). reflexivity.
Defined.

Lemma subscribe_packets_correct_witness :
  snd (fst (subscribe_packets (Some toy_key) ({[[Byte.x01] := 0%nat]}) [open_chan]))
  = {[[Byte.x01] := 0%nat]}.
Proof.
  destruct (subscribe_packets (Some toy_key) ({[[Byte.x01] := 0%nat]}) [open_chan]) as [[r subs'] w'] eqn:E.
  pose proof (subscribe_packets_correct (Some toy_key) ({[[Byte.x01] := 0%nat]}) [open_chan] r subs' w'
    (le_n 1) E) as Hc.
  cbn -[decide] in Hc. rewrite decide_False in Hc; [apply Hc|].
  intros [H|H]; [apply (f_equal size) in H; discriminate H|].
  rewrite dom_singleton_L in H. apply elem_of_singleton in H. discriminate H.
Defined.

(** Two validators subscribe one after the other, with a heartbeat in between: the second is
    refused, and the first is the one the mirror reports. *)
Definition toy_two_validators : list (fw_event (list toy_chan) SimplePacket) :=
  [FwSubscribe (Some toy_key); FwChannels [open_chan]; FwExit false; FwHeartbeatTick;
   FwSubscribe (Some (replicate 32 Byte.x22)); FwChannels [open_chan]].

Definition toy_first_stays : fw_state (list toy_chan) nat :=
  {| fw_pc_ := FwDrop []; fw_subs := {[toy_key := 0%nat]};
     fw_world := [open_chan]; fw_heartbeat := 1; fw_dropped := 0 |}.

Lemma at_most_one_validator_witness :
  fw_exec "gone" (fw_init []) toy_two_validators = Some toy_first_stays /\
  (size (fw_subs toy_first_stays) <= 1)%nat /\ ConnectedValidator_get (fw_subs toy_first_stays) = Some toy_key.
Proof.
  assert (fw_exec "gone" (fw_init []) toy_two_validators = Some toy_first_stays) as E
    by (vm_compute; reflexivity).
  destruct (at_most_one_validator (P := SimplePacket) "gone" [] toy_two_validators toy_first_stays E) as [Hs Hk].
  split; [exact E|]. split; [exact Hs|]. apply Hk. exists 0%nat. reflexivity.
Defined.

(** The situation of the lost stream arises: the validator subscribed, its stream was closed, and
    a send failed. *)
Definition toy_failed : fw_state (list toy_chan) nat :=
  {| fw_pc_ := FwDrop [toy_key]; fw_subs := {[toy_key := 0%nat]}; fw_world := [closed_chan];
     fw_heartbeat := 0; fw_dropped := 0 |}.

Definition toy_failed_events : list (fw_event (list toy_chan) SimplePacket) :=
  [FwSubscribe (Some toy_key); FwChannels [closed_chan]; FwExit false;
   FwPackets (Some toy_batch) toy_ts].

Lemma reconnect_before_cleanup_is_lost_witness :
  fw_exec "gone" (fw_init []) toy_failed_events = Some toy_failed /\
  exists st1 st2,
    fw_step "gone" toy_failed (FwSubscribe (Some toy_key) : fw_event _ SimplePacket) = Some st1 /\
    is_Some (fw_subs st1 !! toy_key) /\
    fw_step "gone" st1 (FwDropConnections : fw_event _ SimplePacket) = Some st2 /\ fw_subs st2 = ∅.
Proof.
  split; [vm_compute; reflexivity|].
  apply (reconnect_before_cleanup_is_lost (P := SimplePacket) "gone" toy_failed [toy_key] toy_key 0%nat).
  - reflexivity.
  - left.
  - reflexivity.
Defined.

Definition default_service : ForwarderService :=
  {| public_ip := V4 [Byte.x7f; Byte.x00; Byte.x00; Byte.x01]; tpu_quic_port := 11228;
     tpu_fwd_quic_port := 11229 |}.

Lemma get_tpu_configs_ports_witness :
  (s ← tpu (get_tpu_configs default_service); Some (socket_port s)) = Some 11222.
Proof.
  rewrite (get_tpu_configs_ports default_service) by (simpl; lia). vm_compute. reflexivity.
Defined.
