(* ===== verification/Challenges.v ===== *)
(** * Pending authentication challenges (src/src/relayer/auth/challenges.rs)

    The relayer keeps one pending challenge per client address in a keyed priority queue,
    oldest first ([Reverse] of an order on expiration times), and a background task removes
    the expired ones from the front.  The queue is the crate keyed_priority_queue, behind the
    interface [Kpq]; the file models the challenge type with its orderings and the five
    operations of [AuthChallenges]. *)

From S2P Require Import Prelude Bytes Protos.

Local Open Scope Z_scope.

(** ** Claims and challenges *)

Record Claims := {
  client_ip : IpAddr;
  client_pubkey : Pubkey;
  claims_expires_at_utc : Z;
}.

Definition Claims_is_expired (c : Claims) (now : Z) : bool := claims_expires_at_utc c <=? now.

Record AuthChallenge := {
  challenge : string;
  access_claims : Claims;
  refresh_claims : Claims;
  expires_at_utc : Z;
}.

(** [is_expired]; [now] is what [Utc::now()] reads. *)
Definition is_expired (c : AuthChallenge) (now : Z) : bool := expires_at_utc c <=? now.

(** [PartialEq], [PartialOrd] and [Ord]: challenges compare by expiration time. *)
Definition AuthChallenge_eq (a b : AuthChallenge) : bool := expires_at_utc a =? expires_at_utc b.
Definition AuthChallenge_cmp (a b : AuthChallenge) : comparison :=
  Z.compare (expires_at_utc a) (expires_at_utc b).
Definition AuthChallenge_partial_cmp (a b : AuthChallenge) : option comparison :=
  Some (Z.compare (expires_at_utc a) (expires_at_utc b)).

(** The [Ord] of [std::cmp::Reverse]. *)
Definition Reverse_cmp (a b : AuthChallenge) : comparison := AuthChallenge_cmp b a.

(** ** The queue

    [kpq_contents] is the map from keys to priorities a queue stands for. *)

Class Kpq (Q : Type) := {
  kpq_default : Q;
  kpq_push : IpAddr -> AuthChallenge -> Q -> Q;
  kpq_peek : Q -> option (IpAddr * AuthChallenge);
  kpq_pop : Q -> Q;
  kpq_remove : IpAddr -> Q -> Q;
  kpq_get_priority : IpAddr -> Q -> option AuthChallenge;
  kpq_len : Q -> nat;
  kpq_contents : Q -> gmap IpAddr AuthChallenge;
}.

(** Pushing a key that is present replaces its priority; [peek] shows an entry of maximal
    priority in the order of [Reverse], and [pop] removes the entry [peek] shows. *)
Class KpqLaws (Q : Type) `{!Kpq Q} := {
  contents_default : kpq_contents kpq_default = ∅;
  contents_push k c q : kpq_contents (kpq_push k c q) = <[k := c]> (kpq_contents q);
  contents_remove k q : kpq_contents (kpq_remove k q) = delete k (kpq_contents q);
  get_priority_lookup k q : kpq_get_priority k q = kpq_contents q !! k;
  len_size q : kpq_len q = size (kpq_contents q);
  peek_None q : kpq_peek q = None -> kpq_contents q = ∅;
  peek_Some q k c : kpq_peek q = Some (k, c) ->
    kpq_contents q !! k = Some c /\
    forall k' c', kpq_contents q !! k' = Some c' -> Reverse_cmp c' c <> Gt;
  contents_pop q k c : kpq_peek q = Some (k, c) -> kpq_contents (kpq_pop q) = delete k (kpq_contents q);
}.

(** ** AuthChallenges *)

Section auth_challenges.
Context {Q : Type} `{!Kpq Q}.

(** The loop of [remove_all_expired]; the [i]-th call of [is_expired] reads the clock
    [clk i].  Every iteration that goes on removes an entry, so as many iterations as there
    are entries are enough. *)
Fixpoint remove_expired_loop (fuel : nat) (clk : nat -> Z) (i : nat) (q : Q) : Q :=
  match fuel with
  | O => q
  | S fuel' =>
      match kpq_peek q with
      | Some (_ip_addr, auth_challenge) =>
          if is_expired auth_challenge (clk i)
          then remove_expired_loop fuel' clk (S i) (kpq_pop q)
          else q
      | None => q
      end
  end.

Definition remove_all_expired (clk : nat -> Z) (q : Q) : Q :=
  remove_expired_loop (kpq_len q) clk 0 q.

Definition AuthChallenges_push (ip : IpAddr) (c : AuthChallenge) (q : Q) : Q := kpq_push ip c q.
Definition AuthChallenges_len (q : Q) : nat := kpq_len q.
Definition AuthChallenges_get_priority (ip : IpAddr) (q : Q) : option AuthChallenge :=
  kpq_get_priority ip q.
Definition AuthChallenges_remove (ip : IpAddr) (q : Q) : Q := kpq_remove ip q.

End auth_challenges.

(** ** Lemmas *)

Section lemmas.
Context {Q : Type} `{!Kpq Q} `{!KpqLaws Q}.

Definition alive_at (t : Z) (e : IpAddr * AuthChallenge) : Prop := t < expires_at_utc e.2.

#[export] Instance alive_at_dec t e : Decision (alive_at t e).
Proof. unfold alive_at. apply _. Defined.

Lemma remove_expired_loop_contents fuel clk i q :
  (forall j k, (j <= k)%nat -> clk j <= clk k) -> (size (kpq_contents q) <= fuel)%nat ->
  exists n, (i <= n <= i + fuel)%nat /\
    kpq_contents (remove_expired_loop fuel clk i q) = filter (alive_at (clk n)) (kpq_contents q).
Proof.
  intros Hclk. revert i q; induction fuel as [|fuel IH]; intros i q Hsz; simpl.
  { exists i. split; [lia|].
    assert (kpq_contents q = ∅) as -> by (apply map_size_empty_inv; lia).
    by rewrite map_filter_empty. }
  destruct (kpq_peek q) as [[ip c]|] eqn:Ep.
  - destruct (peek_Some q ip c Ep) as [Hc Hmax]. unfold is_expired.
    destruct (Z.leb_spec (expires_at_utc c) (clk i)) as [Hle|Hgt].
    + destruct (IH (S i) (kpq_pop q)) as (n & Hn & ->).
      { rewrite (contents_pop q ip c Ep), map_size_delete_Some by eauto. lia. }
      exists n. split; [lia|]. rewrite (contents_pop q ip c Ep).
      rewrite map_filter_delete. apply delete_id. apply map_lookup_filter_None. right.
      intros c' Hc' Ha. unfold alive_at in Ha. simpl in Ha.
      specialize (Hclk i n ltac:(lia)). assert (c' = c) by congruence. subst. lia.
    + exists i. split; [lia|]. symmetry. apply map_filter_id. intros k c' Hk.
      unfold alive_at. simpl. specialize (Hmax k c' Hk).
      unfold Reverse_cmp, AuthChallenge_cmp in Hmax. apply Z.compare_ngt_iff in Hmax. lia.
  - exists i. split; [lia|]. rewrite (peek_None q Ep). by rewrite map_filter_empty.
Qed.

End lemmas.

(** ** Properties *)

(** C27. The expiration task stops by itself (the loop ends within the length of the queue) and
    removes exactly the expired challenges: with a monotone clock, what remains are the
    challenges that expire after the instant [clk n] of the last look at the clock, whatever
    the order of insertion and however many addresses there are. *)
Theorem remove_all_expired_exact {Q} `{KpqLaws Q} clk (q : Q) :
  (forall j k, (j <= k)%nat -> clk j <= clk k) ->
  exists n, (n <= kpq_len q)%nat /\
    kpq_contents (remove_all_expired clk q) = filter (alive_at (clk n)) (kpq_contents q).
Proof.
  intros Hclk. destruct (remove_expired_loop_contents (kpq_len q) clk 0 q Hclk)
    as (n & Hn & Hc); [rewrite len_size; lia|].
  exists n. split; [lia | exact Hc].
Qed.

(** ** A queue with the interface

    A finite map that looks for an oldest entry whenever it is asked for one. *)

Fixpoint oldest (l : list (IpAddr * AuthChallenge)) : option (IpAddr * AuthChallenge) :=
  match l with
  | [] => None
  | e :: l' =>
      match oldest l' with
      | Some e' => if expires_at_utc e.2 <=? expires_at_utc e'.2 then Some e else Some e'
      | None => Some e
      end
  end.

#[export] Instance map_kpq : Kpq (gmap IpAddr AuthChallenge) := {|
  kpq_default := ∅;
  kpq_push k c q := <[k := c]> q;
  kpq_peek q := oldest (map_to_list q);
  kpq_pop q := match oldest (map_to_list q) with Some (k, _) => delete k q | None => q end;
  kpq_remove k q := delete k q;
  kpq_get_priority k q := q !! k;
  kpq_len q := size q;
  kpq_contents q := q;
|}.

Lemma oldest_None l : oldest l = None -> l = [].
Proof. destruct l; simpl; [done|]. by repeat case_match. Qed.

Lemma oldest_Some l e : oldest l = Some e ->
  e ∈ l /\ forall e', e' ∈ l -> expires_at_utc e.2 <= expires_at_utc e'.2.
Proof.
  revert e; induction l as [|x l IH]; intros e; simpl; [done|].
  destruct (oldest l) as [y|] eqn:El.
  - destruct (IH y eq_refl) as [Hin Hmin].
    destruct (Z.leb_spec (expires_at_utc x.2) (expires_at_utc y.2)); intros [= <-].
    + split; [left|]. intros e' [->|He']%elem_of_cons; [done|]. specialize (Hmin e' He'). lia.
    + split; [by right|]. intros e' [->|He']%elem_of_cons; [lia | by apply Hmin].
  - intros [= <-]. apply oldest_None in El as ->. split; [left|].
    intros e' ->%list_elem_of_singleton. done.
Qed.

#[export] Instance map_kpq_laws : KpqLaws (gmap IpAddr AuthChallenge).
Proof.
  constructor; try done.
  - intros q Hq%oldest_None. by apply map_to_list_empty_iff.
  - intros q k c [Hin Hmin]%oldest_Some. split; [by apply elem_of_map_to_list|].
    intros k' c' Hk'. specialize (Hmin (k', c')). unfold Reverse_cmp, AuthChallenge_cmp.
    apply elem_of_map_to_list, Hmin in Hk'. simpl in Hk'. by apply Z.compare_ngt_iff, Z.le_ngt.
  - intros q k c Hp. simpl in *. by rewrite Hp.
Qed.

Definition toy_claims : Claims :=
  {| client_ip := V4 []; client_pubkey := []; claims_expires_at_utc := 100 |}.

Definition toy_challenge (at_ : Z) : AuthChallenge :=
  {| challenge := "c"; access_claims := toy_claims; refresh_claims := toy_claims;
     expires_at_utc := at_ |}.

Definition toy_queue : gmap IpAddr AuthChallenge :=
  kpq_push (V6 [1]) (toy_challenge 5)
    (kpq_push (V6 [2]) (toy_challenge 9) (kpq_push (V6 [3]) (toy_challenge 3) kpq_default)).

(** Of three challenges, the two that expire at 3 and at 5 are gone at time 6. *)
Lemma remove_all_expired_exact_witness :
  (exists n, (n <= kpq_len toy_queue)%nat /\
    kpq_contents (remove_all_expired (fun _ => 6) toy_queue) =
    filter (alive_at ((fun _ : nat => 6) n)) (kpq_contents toy_queue)) /\
  map_to_list (remove_all_expired (fun _ => 6) toy_queue) = [(V6 [2], toy_challenge 9)].
Proof.
  split; [|vm_compute; reflexivity].
  apply (remove_all_expired_exact (fun _ => 6) toy_queue). done.
Defined.
