(* ===== verification/Interceptor.v ===== *)
(** * Tokens and the request interceptor (src/src/relayer/auth/interceptor.rs)

    Claims travel in a JWT as text and whole seconds; every call of the packet service passes
    through an interceptor that takes the token from the authorization header, verifies it,
    and leaves the public key it names in the request's extensions.  The crates jwt, chrono
    and the header values of tonic are behind the interfaces [Jwt], [Chrono] and
    [MetadataText]. *)

From S2P Require Import Prelude Bytes Protos Grpc Challenges.

Local Open Scope Z_scope.

(** ** chrono

    A [NaiveDateTime] is its distance from the epoch in nanoseconds.  [chrono_add] is
    [DateTime + Duration], which panics out of range. *)

Class Chrono := {
  chrono_timestamp : Z -> Z;
  chrono_from_timestamp : Z -> option Z;
  chrono_add : Z -> Z -> outcome Z;
}.

(** The end of the year 9999, well within the range of the crate. *)
Definition CHRONO_MAX_SECS : Z := 253402300799.

Class ChronoLaws `{!Chrono} := {
  timestamp_floor t : chrono_timestamp t = t / NANOS;
  from_timestamp_range s : 0 <= s <= CHRONO_MAX_SECS ->
    chrono_from_timestamp s = Some (s * NANOS);
  chrono_add_range t d : 0 <= t -> 0 <= d -> t + d <= CHRONO_MAX_SECS * NANOS ->
    chrono_add t d = Returns (t + d);
}.

Definition in_chrono_range (t : Z) : Prop := 0 <= t <= CHRONO_MAX_SECS * NANOS.

(** ** Claims on the wire *)

Record DeSerClaims := {
  de_client_ip : string;
  de_client_pubkey : string;
  expires_at_unix_ts : Z;
}.

Section claims.
Context `{!AddrText} `{!Chrono}.

(** [impl From<Claims> for DeSerClaims]. *)
Definition DeSerClaims_from (claims : Claims) : DeSerClaims := {|
  de_client_ip := ip_to_string (client_ip claims);
  de_client_pubkey := pubkey_to_string (client_pubkey claims);
  expires_at_unix_ts := chrono_timestamp (claims_expires_at_utc claims);
|}.

(** [impl From<&DeSerClaims> for Claims]: each field is unwrapped. *)
Definition Claims_from (d : DeSerClaims) : outcome Claims :=
  let! ip := unwrap (ip_from_str (de_client_ip d)) in
  let! pubkey := unwrap (pubkey_from_str (de_client_pubkey d)) in
  let! expires := unwrap (chrono_from_timestamp (expires_at_unix_ts d)) in
  Returns {| client_ip := ip; client_pubkey := pubkey; claims_expires_at_utc := expires |}.

End claims.

(** ** JWT *)

Inductive AlgorithmType :=
| Hs256 | Hs384 | Hs512 | Rs256 | Rs384 | Rs512 | Es256 | Es384 | Es512 | Ps256 | Ps384 | Ps512
| AlgNone.

#[export] Instance AlgorithmType_eq_dec : EqDecision AlgorithmType.
Proof. solve_decision. Defined.

(** [jwt_sign] is [Token::new(header, claims).sign_with_key(key)], [None] when it fails;
    [jwt_verify] is [verify_with_key], with the algorithm of the token's header. *)
Class Jwt (SK VK : Type) := {
  jwt_pair : SK -> VK -> Prop;
  jwt_key_alg : VK -> AlgorithmType;
  jwt_sign : SK -> AlgorithmType -> DeSerClaims -> option string;
  jwt_verify : VK -> string -> option (AlgorithmType * DeSerClaims);
}.

Definition visible_ascii (b : byte) : bool := (33 <=? u8_val b) && (u8_val b <=? 126).

(** Verification accepts what the matching key signed and gives the claims back, it accepts
    only the algorithm of its key, and a token is made of visible characters (base64url and
    dots). *)
Class JwtLaws (SK VK : Type) `{!Jwt SK VK} := {
  verify_sign sk vk alg c s : jwt_pair sk vk -> jwt_sign sk alg c = Some s ->
    jwt_verify vk s = Some (alg, c);
  verify_alg vk s alg c : jwt_verify vk s = Some (alg, c) -> alg = jwt_key_alg vk;
  sign_visible sk alg c s : jwt_sign sk alg c = Some s -> forallb visible_ascii (as_bytes s) = true;
}.

(** ** Requests

    A request as the handlers see it: metadata, remote address, the key in the extensions,
    and the message. *)

Record Request (T : Type) := {
  metadata : gmap string bytes;
  remote_ip : option IpAddr;
  ext_pubkey : option Pubkey;
  inner : T;
}.
Arguments metadata {T}. Arguments remote_ip {T}. Arguments ext_pubkey {T}. Arguments inner {T}.
Arguments Build_Request {T}.

(** [MetadataValue::to_str]: header values of visible characters, spaces and tabs. *)
Class MetadataText := metadata_to_str : bytes -> option string.

Class MetadataTextLaws `{!MetadataText} := {
  to_str_text v s : metadata_to_str v = Some s -> as_bytes s = v;
  to_str_visible v : forallb (fun b => visible_ascii b || (u8_val b =? 32)) v = true ->
    metadata_to_str v = Some (of_bytes v);
}.

(** ** [str::split] with a string pattern

    Matches are taken from the left and do not overlap: [skip] counts the rest of the match
    that is being passed over, [cur] is the piece read so far, reversed. *)

Fixpoint split_go (pat s : bytes) (skip : nat) (cur : bytes) : list bytes :=
  match s with
  | [] => [rev cur]
  | c :: s' =>
      match skip with
      | S k => split_go pat s' k cur
      | O => if starts_with pat s then rev cur :: split_go pat s' (length pat - 1) []
             else split_go pat s' 0 (c :: cur)
      end
  end.

Definition str_split (pat s : bytes) : list bytes := split_go pat s 0 [].

(** ** AuthInterceptor *)

Definition AUTHORIZATION_HEADER : string := "authorization".
Definition BEARER : bytes := as_bytes "Bearer ".

Record AuthInterceptor (VK : Type) := {
  verifying_key : VK;
  expected_signing_algo : AlgorithmType;
}.
Arguments verifying_key {VK}. Arguments expected_signing_algo {VK}.

Section interceptor.
Context `{!AddrText} `{!Chrono} `{!MetadataText} {SK VK : Type} `{!Jwt SK VK}.

Definition jwt_from_header (self : AuthInterceptor VK) (meta : gmap string bytes)
    : outcome (result DeSerClaims Status) :=
  match meta !! AUTHORIZATION_HEADER with
  | Some v =>
      match metadata_to_str v with
      | None => Returns (Err (invalid_argument "Failed to parse authorization header."))
      | Some auth_header =>
          if negb (starts_with BEARER (as_bytes auth_header)) then
            Returns (Err (permission_denied
              "Invalid authorization header format. Must conform to `Authorization: Bearer ${token}`."))
          else
            match str_split BEARER (as_bytes auth_header) with
            | [_; token] =>
                match jwt_verify (verifying_key self) (of_bytes token) with
                | None => Returns (Err (permission_denied "Token failed verification."))
                | Some (algorithm, claims) =>
                    if decide (algorithm = expected_signing_algo self)
                    then Returns (Ok claims) else Panics
                end
            | _ => Returns (Err (permission_denied "Missing jwt token."))
            end
      end
  | None => Returns (Err (permission_denied "The authorization header is missing."))
  end.

Definition interceptor_call {T} (self : AuthInterceptor VK) (req : Request T)
    : outcome (result (Request T) Status) :=
  let! jwt_token := jwt_from_header self (metadata req) in
  match jwt_token with
  | Err e => Returns (Err e)
  | Ok c =>
      let! claims := Claims_from c in
      Returns (Ok {| metadata := metadata req; remote_ip := remote_ip req;
                     ext_pubkey := Some (client_pubkey claims); inner := inner req |})
  end.

End interceptor.

(** ** Lemmas *)

(** [pat] occurs nowhere in [s]. *)
Definition occurs (pat s : bytes) : Prop := exists l r, s = l ++ pat ++ r.

Lemma split_go_skip pat t s cur : split_go pat (t ++ s) (length t) cur = split_go pat s 0 cur.
Proof. by induction t. Qed.

Lemma split_go_match p pat s cur :
  split_go (p :: pat) ((p :: pat) ++ s) 0 cur = rev cur :: split_go (p :: pat) s 0 [].
Proof.
  change ((p :: pat) ++ s) with (p :: (pat ++ s)). simpl split_go.
  assert (starts_with (p :: pat) (p :: pat ++ s) = true) as ->
    by (apply starts_with_true; by exists s).
  by rewrite Nat.sub_0_r, split_go_skip.
Qed.

Lemma split_go_not_nil pat s k cur : split_go pat s k cur <> [].
Proof. revert k cur; induction s as [|c s IH]; intros [|k] cur; simpl; try done. by case_match. Qed.

Lemma split_go_single pat s cur x : split_go pat s 0 cur = [x] -> x = rev cur ++ s /\
  ~ (exists l r, s = l ++ pat ++ r /\ pat <> []).
Proof.
  revert cur; induction s as [|c s IH]; intros cur; simpl.
  { intros [= <-]. split; [by rewrite app_nil_r|].
    intros (l & r & Heq & Hp). destruct l, pat; done. }
  destruct (starts_with pat (c :: s)) eqn:Es.
  { intros [= _ Hn]. by apply split_go_not_nil in Hn. }
  intros Hs. destruct (IH _ Hs) as [-> Hno]. split; [simpl; by rewrite <- app_assoc|].
  intros (l & r & Heq & Hp). destruct l as [|c' l].
  - assert (starts_with pat (c :: s) = true) by (apply starts_with_true; by exists r). congruence.
  - injection Heq as -> ->. apply Hno. eauto.
Qed.

Lemma split_go_none pat s cur : pat <> [] -> ~ occurs pat s -> split_go pat s 0 cur = [rev cur ++ s].
Proof.
  intros Hp. revert cur; induction s as [|c s IH]; intros cur Hno; simpl.
  { by rewrite app_nil_r. }
  destruct (starts_with pat (c :: s)) eqn:Es.
  { apply starts_with_true in Es as [r Hr]. destruct Hno. by exists [], r. }
  rewrite IH; [simpl; by rewrite <- app_assoc|].
  intros (l & r & ->). apply Hno. by exists (c :: l), r.
Qed.

(** Splitting a text that starts with the pattern has two pieces exactly when the pattern
    does not occur again, and the second piece is then the rest of the text. *)
Lemma str_split_bearer tok :
  (~ occurs BEARER tok -> str_split BEARER (BEARER ++ tok) = [[]; tok]) /\
  (forall x y, str_split BEARER (BEARER ++ tok) = [x; y] -> x = [] /\ y = tok /\ ~ occurs BEARER tok).
Proof.
  assert (Hb : BEARER <> []) by done. unfold str_split.
  assert (exists p pat, BEARER = p :: pat) as (p & pat & E) by (vm_compute; eauto).
  rewrite E in *. rewrite split_go_match. split.
  - intros Hno. by rewrite split_go_none.
  - intros x y [= <- Hy]. apply split_go_single in Hy as [-> Hno]. simpl. split_and!; try done.
    intros (l & r & ->). apply Hno. by exists l, r.
Qed.

Lemma visible_no_bearer tok : forallb visible_ascii tok = true -> ~ occurs BEARER tok.
Proof.
  intros Hv (l & r & ->). rewrite !forallb_app in Hv. apply andb_prop in Hv as [_ Hv].
  apply andb_prop in Hv as [Hv _]. vm_compute in Hv. done.
Qed.

Section lemmas.
Context `{!AddrText} `{!AddrTextLaws} `{!Chrono} `{!ChronoLaws}.

(** A claim that went through a token: the same but for the fraction of a second. *)
Definition floor_secs (t : Z) : Z := t / NANOS * NANOS.

Definition floor_claims (c : Claims) : Claims := {|
  client_ip := client_ip c;
  client_pubkey := client_pubkey c;
  claims_expires_at_utc := floor_secs (claims_expires_at_utc c);
|}.

Definition Claims_wf (c : Claims) : Prop :=
  length (client_pubkey c) = 32%nat /\ in_chrono_range (claims_expires_at_utc c).

Lemma Claims_from_to c : Claims_wf c -> Claims_from (DeSerClaims_from c) = Returns (floor_claims c).
Proof.
  intros [Hk [Ht0 Ht1]]. unfold Claims_from, DeSerClaims_from. cbn [de_client_ip de_client_pubkey
    expires_at_unix_ts].
  rewrite ip_from_to, pubkey_from_to, timestamp_floor by done. cbn.
  assert (HN : 0 < NANOS) by (unfold NANOS; lia).
  rewrite from_timestamp_range; [done|]. split; [apply Z.div_pos; lia|].
  apply Z.div_le_upper_bound; lia.
Qed.

Lemma floor_secs_spec t : 0 <= t -> floor_secs t <= t < floor_secs t + NANOS.
Proof.
  intros _. unfold floor_secs. assert (HN : 0 < NANOS) by (unfold NANOS; lia).
  pose proof (Z.mod_pos_bound t NANOS HN). pose proof (Z.div_mod t NANOS). lia.
Qed.

Context `{!MetadataText} `{!MetadataTextLaws} {SK VK : Type} `{!Jwt SK VK} `{!JwtLaws SK VK}.

(** The authorization header a client sends with a token. *)
Definition bearer_header (tok : string) : gmap string bytes :=
  {[ AUTHORIZATION_HEADER := BEARER ++ as_bytes tok ]}.

Lemma bearer_to_str tok : forallb visible_ascii (as_bytes tok) = true ->
  metadata_to_str (BEARER ++ as_bytes tok) = Some (of_bytes (BEARER ++ as_bytes tok)).
Proof.
  intros Hv. apply to_str_visible. rewrite forallb_app. apply andb_true_iff.
  split; [vm_compute; done|]. rewrite forallb_forall in *. intros b Hb. by rewrite Hv.
Qed.

(** A token signed by the matching key gets through. *)
Lemma jwt_from_header_signed self sk meta alg c tok :
  jwt_pair sk (verifying_key self) -> expected_signing_algo self = alg ->
  jwt_sign sk alg c = Some tok -> meta !! AUTHORIZATION_HEADER = Some (BEARER ++ as_bytes tok) ->
  jwt_from_header self meta = Returns (Ok c).
Proof.
  intros Hp Ha Hs Hm. pose proof (sign_visible _ _ _ _ Hs) as Hv.
  unfold jwt_from_header. rewrite Hm, bearer_to_str by done. rewrite as_of_bytes.
  assert (starts_with BEARER (BEARER ++ as_bytes tok) = true) as ->
    by (apply starts_with_true; eauto).
  destruct (str_split_bearer (as_bytes tok)) as [Hsp _].
  rewrite Hsp by (by apply visible_no_bearer). simpl negb. cbv iota.
  rewrite of_as_bytes, (verify_sign _ _ _ _ _ Hp Hs). by rewrite decide_True.
Qed.

(** What a header must look like for its token to be taken. *)
Lemma jwt_from_header_inv self meta r :
  jwt_from_header self meta = Returns (Ok r) <->
  exists tok, meta !! AUTHORIZATION_HEADER = Some (BEARER ++ tok) /\
    metadata_to_str (BEARER ++ tok) = Some (of_bytes (BEARER ++ tok)) /\
    ~ occurs BEARER tok /\
    jwt_verify (verifying_key self) (of_bytes tok) = Some (expected_signing_algo self, r).
Proof.
  unfold jwt_from_header. split.
  - destruct (meta !! AUTHORIZATION_HEADER) as [v|]; [|done].
    destruct (metadata_to_str v) as [s|] eqn:Ev; [|done].
    pose proof (to_str_text _ _ Ev) as Hv.
    destruct (starts_with BEARER (as_bytes s)) eqn:Es; [|done]. simpl negb. cbv iota.
    apply starts_with_true in Es as [tok Htok]. rewrite Htok.
    destruct (str_split_bearer tok) as [_ Hsp].
    destruct (str_split BEARER (BEARER ++ tok)) as [|x [|y [|z l]]]; try done.
    destruct (Hsp x y eq_refl) as (-> & -> & Hno).
    destruct (jwt_verify _ _) as [[alg c]|] eqn:Ej; [|done].
    case_decide as Ea; [|done]. intros [= ->]. subst alg v.
    exists tok. rewrite <- Htok. split_and!; try done.
    by rewrite of_as_bytes.
  - intros (tok & -> & -> & Hno & Hj). rewrite as_of_bytes.
    assert (starts_with BEARER (BEARER ++ tok) = true) as -> by (apply starts_with_true; eauto).
    destruct (str_split_bearer tok) as [Hsp _]. rewrite Hsp by done. simpl negb. cbv iota.
    rewrite Hj. by rewrite decide_True.
Qed.

End lemmas.

(** ** Instances of the interfaces, for witnesses *)

Definition toy_chrono : Chrono := {|
  chrono_timestamp t := t / NANOS;
  chrono_from_timestamp s := Some (s * NANOS);
  chrono_add t d := Returns (t + d);
|}.

Lemma toy_chrono_laws : @ChronoLaws toy_chrono.
Proof. by constructor. Qed.

Definition toy_metadata : MetadataText := fun v =>
  if forallb (fun b => visible_ascii b || (u8_val b =? 32)) v then Some (of_bytes v) else None.

Lemma toy_metadata_laws : @MetadataTextLaws toy_metadata.
Proof.
  constructor; unfold metadata_to_str, toy_metadata.
  - intros v s. case_match; [|done]. intros [= <-]. apply as_of_bytes.
  - by intros v ->.
Qed.

(** A token is the key and the claims, written out in binary digits. *)
Definition toy_token (k : positive) (c : DeSerClaims) : string :=
  of_bytes (pos_bits (encode (k, (de_client_ip c, de_client_pubkey c, expires_at_unix_ts c)))).

#[export] Instance toy_jwt : Jwt positive positive := {|
  jwt_pair sk vk := sk = vk;
  jwt_key_alg _ := Rs256;
  jwt_sign sk alg c := if decide (alg = Rs256) then Some (toy_token sk c) else None;
  jwt_verify vk s :=
    '(k, (ip, pk, ts)) ← (decode (bits_pos (as_bytes s)) : option (positive * (string * string * Z)));
    if decide (k = vk)
    then Some (Rs256, {| de_client_ip := ip; de_client_pubkey := pk; expires_at_unix_ts := ts |})
    else None;
|}.

Lemma pos_bits_visible p : forallb visible_ascii (pos_bits p) = true.
Proof. by induction p. Qed.

#[export] Instance toy_jwt_laws : JwtLaws positive positive.
Proof.
  constructor; simpl.
  - intros sk vk alg c s <-. case_decide; [|done]. subst. intros [= <-].
    unfold toy_token. rewrite as_of_bytes, bits_pos_bits, decode_encode. simpl.
    rewrite decide_True by done. by destruct c.
  - intros vk s alg c. destruct (decode _) as [[k [[ip pk] ts]]|]; [|done]. simpl.
    case_decide; [|done]. by intros [= <- _].
  - intros sk alg c s. case_decide; [|done]. intros [= <-]. unfold toy_token.
    rewrite as_of_bytes. apply pos_bits_visible.
Qed.

Definition toy_key : Pubkey := replicate 32 Byte.x07.

(** Claims that expire one and a half seconds after the epoch. *)
Definition toy_short_claims : Claims :=
  {| client_ip := V4 [Byte.x01]; client_pubkey := toy_key; claims_expires_at_utc := 1500000000 |}.

Lemma toy_short_claims_wf : Claims_wf toy_short_claims.
Proof. split; [done|]. unfold in_chrono_range. vm_compute. split; discriminate. Qed.

Definition toy_interceptor : AuthInterceptor positive :=
  {| verifying_key := 5%positive; expected_signing_algo := Rs256 |}.

Definition toy_request : Request unit := {|
  metadata := bearer_header
    (toy_token 5 (@DeSerClaims_from toy_addr_text toy_chrono toy_short_claims));
  remote_ip := None; ext_pubkey := None; inner := tt |}.

(** ** Properties *)

Section properties.
Context `{!AddrText} `{!Chrono} `{!MetadataText} {SK VK : Type} `{!Jwt SK VK}.

(** [tok] is the token of an authorization header the interceptor can read. *)
Definition carries_token (meta : gmap string bytes) (tok : bytes) : Prop :=
  meta !! AUTHORIZATION_HEADER = Some (BEARER ++ tok) /\
  metadata_to_str (BEARER ++ tok) = Some (of_bytes (BEARER ++ tok)) /\
  ~ occurs BEARER tok.

(** C14. The interceptor lets a request through exactly when its authorization header is
    readable text, namely "Bearer " followed by a token in which "Bearer " does not occur
    again, the token verifies under the relayer's key with the expected algorithm, and its
    claims parse; the request then carries the public key of those claims, and nothing else
    of it has changed. *)
Theorem interceptor_accepts_iff `{!MetadataTextLaws} {T} (self : AuthInterceptor VK)
    (req req' : Request T) :
  interceptor_call self req = Returns (Ok req') <->
  exists tok c claims, carries_token (metadata req) tok /\
    jwt_verify (verifying_key self) (of_bytes tok) = Some (expected_signing_algo self, c) /\
    Claims_from c = Returns claims /\
    req' = {| metadata := metadata req; remote_ip := remote_ip req;
              ext_pubkey := Some (client_pubkey claims); inner := inner req |}.
Proof.
  unfold interceptor_call, carries_token. split.
  - destruct (jwt_from_header self (metadata req)) as [[c|e]|] eqn:Ej; try done. simpl.
    apply jwt_from_header_inv in Ej as (tok & Hm & Ht & Hno & Hv).
    destruct (Claims_from c) as [claims|] eqn:Ec; [|done]. simpl. intros [= <-].
    exists tok, c, claims. done.
  - intros (tok & c & claims & (Hm & Ht & Hno) & Hv & Hc & ->).
    assert (jwt_from_header self (metadata req) = Returns (Ok c)) as ->
      by (apply jwt_from_header_inv; eauto).
    simpl. by rewrite Hc.
Qed.

(** The interceptor never panics on its assertion about the algorithm: it panics only on a
    token that verifies under the relayer's own key and whose claims do not parse, and
    everything else it does not accept is answered with a permission or argument error. *)
Theorem interceptor_rejections `{!JwtLaws SK VK} {T} (self : AuthInterceptor VK)
    (req : Request T) :
  expected_signing_algo self = jwt_key_alg (verifying_key self) ->
  match interceptor_call self req with
  | Returns (Ok _) => True
  | Returns (Err e) => status_code e = PermissionDenied \/ status_code e = InvalidArgument
  | Panics => exists tok alg c, jwt_verify (verifying_key self) tok = Some (alg, c) /\
                Claims_from c = Panics
  end.
Proof.
  intros Ha. unfold interceptor_call, jwt_from_header.
  destruct (metadata req !! _) as [v|]; [|by left].
  destruct (metadata_to_str v) as [s|]; [|by right].
  destruct (starts_with _ _); [|by left]. simpl negb. cbv iota.
  destruct (str_split _ _) as [|x [|y [|z l]]]; try by left.
  destruct (jwt_verify _ (of_bytes y)) as [[alg c]|] eqn:Ej; [|by left].
  rewrite decide_True by (rewrite Ha; by eapply verify_alg). simpl.
  destruct (Claims_from c) eqn:Ec; [done|]. simpl. eauto.
Qed.

End properties.

Section token_properties.
Context `{!AddrText} `{!AddrTextLaws} `{!Chrono} `{!ChronoLaws}.

(** Claims survive the trip through a token: address and key come back unchanged, and the
    expiration time is rounded down to the second.  So a token is never valid longer than the
    claims it was made from, and loses less than a second. *)
Theorem claims_round_trip c :
  Claims_wf c ->
  exists c', Claims_from (DeSerClaims_from c) = Returns c' /\
    client_ip c' = client_ip c /\ client_pubkey c' = client_pubkey c /\
    claims_expires_at_utc c' <= claims_expires_at_utc c < claims_expires_at_utc c' + NANOS /\
    (forall now, Claims_is_expired c now = true -> Claims_is_expired c' now = true).
Proof.
  intros Hwf. exists (floor_claims c). pose proof Hwf as [_ [H0' _]].
  pose proof (floor_secs_spec _ H0') as Hf. split; [by apply Claims_from_to|].
  do 2 (split; [done|]). split; [exact Hf|].
  intros now. unfold Claims_is_expired. rewrite !Z.leb_le. cbn. lia.
Qed.

Context `{!MetadataText} `{!MetadataTextLaws} {SK VK : Type} `{!Jwt SK VK} `{!JwtLaws SK VK}.

(** Nobody checks the expiration of an access token: a request with a token signed by the
    relayer is accepted for the key it names whether its claims have expired or not. *)
Theorem expired_token_accepted {T} (self : AuthInterceptor VK) (req : Request T) sk c tok now :
  jwt_pair sk (verifying_key self) -> Claims_wf c ->
  jwt_sign sk (expected_signing_algo self) (DeSerClaims_from c) = Some tok ->
  metadata req !! AUTHORIZATION_HEADER = Some (BEARER ++ as_bytes tok) ->
  Claims_is_expired c now = true ->
  exists req', interceptor_call self req = Returns (Ok req') /\
    ext_pubkey req' = Some (client_pubkey c).
Proof.
  intros Hp Hwf Hs Hm _. unfold interceptor_call.
  rewrite (jwt_from_header_signed _ _ _ _ _ _ Hp eq_refl Hs Hm). simpl.
  rewrite Claims_from_to by done. simpl. by eexists.
Qed.

End token_properties.

(** A request with a token that verifies. *)
Lemma interceptor_accepts_iff_witness :
  exists tok c claims, @carries_token toy_metadata (metadata toy_request) tok /\
    jwt_verify 5%positive (of_bytes tok) = Some (Rs256, c) /\
    @Claims_from toy_addr_text toy_chrono c = Returns claims /\
    Build_Request (metadata toy_request) None (Some toy_key) tt =
    Build_Request (metadata toy_request) None (Some (client_pubkey claims)) tt.
Proof.
  apply (@interceptor_accepts_iff toy_addr_text toy_chrono toy_metadata _ _ toy_jwt
    toy_metadata_laws unit toy_interceptor toy_request
    (Build_Request (metadata toy_request) None (Some toy_key) tt)).
  vm_compute. reflexivity.
Defined.

Lemma interceptor_rejections_witness :
  exists e, @interceptor_call toy_addr_text toy_chrono toy_metadata _ _ toy_jwt unit
    toy_interceptor (Build_Request (bearer_header "x") None None tt) = Returns (Err e) /\
  (status_code e = PermissionDenied \/ status_code e = InvalidArgument).
Proof.
  pose proof (@interceptor_rejections toy_addr_text toy_chrono toy_metadata _ _ toy_jwt
    toy_jwt_laws unit toy_interceptor (Build_Request (bearer_header "x") None None tt) eq_refl)
    as Hr.
  eexists. split; [vm_compute; reflexivity | exact Hr].
Defined.

Lemma claims_round_trip_witness :
  exists c', @Claims_from toy_addr_text toy_chrono
      (@DeSerClaims_from toy_addr_text toy_chrono toy_short_claims) = Returns c' /\
    client_ip c' = V4 [Byte.x01] /\ client_pubkey c' = toy_key /\
    claims_expires_at_utc c' <= 1500000000 < claims_expires_at_utc c' + NANOS /\
    (forall now, Claims_is_expired toy_short_claims now = true -> Claims_is_expired c' now = true).
Proof.
  apply (@claims_round_trip toy_addr_text toy_addr_text_laws toy_chrono toy_chrono_laws
    toy_short_claims). exact toy_short_claims_wf.
Defined.

(** The claims expired 1.5 s after the epoch; the clock says one hour. *)
Lemma expired_token_accepted_witness :
  Claims_is_expired toy_short_claims (from_secs 3600) = true /\
  exists req', @interceptor_call toy_addr_text toy_chrono toy_metadata _ _ toy_jwt unit
    toy_interceptor toy_request = Returns (Ok req') /\ ext_pubkey req' = Some toy_key.
Proof.
  split; [reflexivity|].
  eapply (@expired_token_accepted toy_addr_text toy_addr_text_laws toy_chrono toy_chrono_laws
    toy_metadata toy_metadata_laws _ _ toy_jwt toy_jwt_laws unit toy_interceptor toy_request
    5%positive toy_short_claims _ (from_secs 3600)).
  - reflexivity.
  - exact toy_short_claims_wf.
  - reflexivity.
  - reflexivity.
  - reflexivity.
Defined.
