(* ===== verification/AuthService.v ===== *)
(** * The authentication service (src/src/relayer/auth/service.rs, src/src/relayer/auth/mod.rs)

    The three calls of the service are asynchronous and share the queue of pending challenges;
    each operation on the queue takes its lock, and between two operations other calls may
    run.  A handler is therefore a program over the queue's operations, the clock and the
    random generator ([prog]): [prog_run] runs it alone, [auth_step] interleaves any number of
    calls with the expiration task.  The crates ed25519_dalek, jwt, chrono and solana_sdk are
    behind interfaces. *)

From S2P Require Import Prelude Bytes Protos Grpc Challenges Interceptor.

Local Open Scope Z_scope.

(** ** Messages (auth.proto) *)

Inductive Role := RELAYER | SEARCHER | VALIDATOR | SHREDSTREAM_SUBSCRIBER.

Definition Role_as_i32 (r : Role) : Z :=
  match r with RELAYER => 0 | SEARCHER => 1 | VALIDATOR => 2 | SHREDSTREAM_SUBSCRIBER => 3 end.

Record GenerateAuthChallengeRequest := { gc_role : Z; gc_pubkey : bytes }.
Record GenerateAuthChallengeResponse := { gcr_challenge : string }.
Record GenerateAuthTokensRequest := {
  gt_challenge : string;
  gt_client_pubkey : bytes;
  gt_signed_challenge : bytes;
}.
Record PbToken := { token_value : string; token_expires_at_utc : option Timestamp }.
Record GenerateAuthTokensResponse := {
  gtr_access_token : option PbToken;
  gtr_refresh_token : option PbToken;
}.
Record RefreshAccessTokenRequest := { rt_refresh_token : string }.
Record RefreshAccessTokenResponse := { rtr_access_token : option PbToken }.

(** ** Keys and signatures *)

Class Ed25519 (PK SIG : Type) := {
  pk_from_bytes : bytes -> option PK;
  pk_to_bytes : PK -> bytes;
  sig_from_bytes : bytes -> option SIG;
  ed_verify : PK -> bytes -> SIG -> bool;
  pubkey_try_from : bytes -> option Pubkey;
}.

(** A public key is the 32 bytes it was read from. *)
Class Ed25519Laws (PK SIG : Type) `{!Ed25519 PK SIG} := {
  pk_to_from b k : pk_from_bytes b = Some k -> pk_to_bytes k = b;
  length_pk_to_bytes k : length (pk_to_bytes k) = 32%nat;
  pubkey_try_from_32 b : length b = 32%nat -> pubkey_try_from b = Some b;
}.

(** [trait ValidatorAuther] and the implementation the relayer uses (auth/mod.rs). *)
Class ValidatorAuther (V : Type) := is_authorized : V -> Pubkey -> bool.

Record ValidatorAutherImpl := {}.

#[export] Instance validator_auther_impl : ValidatorAuther ValidatorAutherImpl := fun _ _ => true.

(** ** Programs *)

Inductive prog (A : Type) : Type :=
| Ret (a : A)
| Panic
| UtcNow (k : Z -> prog A)
| SampleAlphanumeric (k : (nat -> byte) -> prog A)
| QueueLen (k : nat -> prog A)
| QueueGet (ip : IpAddr) (k : option AuthChallenge -> prog A)
| QueuePush (ip : IpAddr) (c : AuthChallenge) (k : prog A)
| QueueRemove (ip : IpAddr) (k : prog A).
Arguments Ret {A} a. Arguments Panic {A}. Arguments UtcNow {A} k.
Arguments SampleAlphanumeric {A} k. Arguments QueueLen {A} k. Arguments QueueGet {A} ip k.
Arguments QueuePush {A} ip c k. Arguments QueueRemove {A} ip k.

(** [?] and [unwrap] in a handler. *)
Definition try_ {A B} (r : result A Status) (k : A -> prog (result B Status))
    : prog (result B Status) :=
  match r with Ok a => k a | Err e => Ret (Err e) end.

Definition or_panic {A B} (o : outcome A) (k : A -> prog B) : prog B :=
  match o with Returns a => k a | Panics => Panic end.

Notation "'try!' x := r 'in' k" := (try_ r (fun x => k))
  (at level 10, x binder, r at level 100, k at level 200) : rust_scope.
Notation "'now!' x 'in' k" := (UtcNow (fun x => k))
  (at level 10, x binder, k at level 200) : rust_scope.
Notation "'panic!' x := o 'in' k" := (or_panic o (fun x => k))
  (at level 10, x binder, o at level 100, k at level 200) : rust_scope.

(** ** AuthServiceImpl *)

Definition AUTH_CHALLENGES_CAPACITY : nat := Z.to_nat 100000.
#[global] Opaque AUTH_CHALLENGES_CAPACITY.
Definition ACCESS_TOKEN_TTL : Z := from_secs 1800.
Definition REFRESH_TOKEN_TTL : Z := from_secs 180000.
Definition CHALLENGE_TTL : Z := from_secs 1800.

Record AuthServiceImpl (V SK VK : Type) := {
  validator_auther : V;
  signing_key : SK;
  service_verifying_key : VK;
  access_token_ttl : Z;
  refresh_token_ttl : Z;
  challenge_ttl : Z;
}.
Arguments validator_auther {V SK VK}. Arguments signing_key {V SK VK}.
Arguments service_verifying_key {V SK VK}. Arguments access_token_ttl {V SK VK}.
Arguments refresh_token_ttl {V SK VK}. Arguments challenge_ttl {V SK VK}.

Definition AuthServiceImpl_new {V SK VK} (v : V) (sk : SK) (vk : VK) : AuthServiceImpl V SK VK := {|
  validator_auther := v;
  signing_key := sk;
  service_verifying_key := vk;
  access_token_ttl := ACCESS_TOKEN_TTL;
  refresh_token_ttl := REFRESH_TOKEN_TTL;
  challenge_ttl := CHALLENGE_TTL;
|}.

Definition AuthService_client_ip {T} (req : Request T) : result IpAddr Status :=
  ok_or (remote_ip req) (internal "Request is missing IP address").

Definition generate_challenge_token (samples : nat -> byte) : string :=
  of_bytes (samples <$> seq 0 9).

Definition check_health : result unit Status := Ok tt.

Section handlers.
Context `{!AddrText} `{!Chrono} {SK VK : Type} `{!Jwt SK VK} {PK SIG : Type} `{!Ed25519 PK SIG}.
Context {V : Type} `{!ValidatorAuther V}.
Implicit Types self : AuthServiceImpl V SK VK.

(** The part of [generate_auth_challenge] after the pending challenge has been looked up. *)
Definition new_challenge self (client_ip : IpAddr) (inner_req : GenerateAuthChallengeRequest)
    : prog (result GenerateAuthChallengeResponse Status) :=
  if negb (gc_role inner_req =? Role_as_i32 VALIDATOR) then
    Ret (Err (invalid_argument "Role must be validator."))
  else if negb (length (gc_pubkey inner_req) =? 32)%nat then
    Ret (Err (invalid_argument "Pubkey must be 32 bytes in length"))
  else
  try! pubkey := ok_or (pubkey_try_from (gc_pubkey inner_req))
                       (invalid_argument "Invalid pubkey supplied.") in
  if negb (is_authorized (validator_auther self) pubkey) then
    Ret (Err (permission_denied "The supplied pubkey is not authorized to generate a challenge."))
  else
  SampleAlphanumeric (fun samples =>
  let token := generate_challenge_token samples in
  now! t1 in panic! access_expires := chrono_add t1 (access_token_ttl self) in
  now! t2 in panic! refresh_expires := chrono_add t2 (refresh_token_ttl self) in
  now! t3 in panic! expires := chrono_add t3 (challenge_ttl self) in
  QueuePush client_ip {|
    challenge := token;
    access_claims := {| client_ip := client_ip; client_pubkey := pubkey;
                        claims_expires_at_utc := access_expires |};
    refresh_claims := {| client_ip := client_ip; client_pubkey := pubkey;
                         claims_expires_at_utc := refresh_expires |};
    expires_at_utc := expires;
  |} (Ret (Ok {| gcr_challenge := token |}))).

Definition generate_auth_challenge self (req : Request GenerateAuthChallengeRequest)
    : prog (result GenerateAuthChallengeResponse Status) :=
  try! _ := check_health in
  QueueLen (fun len =>
  if (AUTH_CHALLENGES_CAPACITY <=? len)%nat then
    Ret (Err (resource_exhausted "System overloaded."))
  else
  try! client_ip := AuthService_client_ip req in
  QueueGet client_ip (fun pending =>
  match pending with
  | Some auth_challenge =>
      now! t in
      if negb (is_expired auth_challenge t)
      then Ret (Ok {| gcr_challenge := challenge auth_challenge |})
      else new_challenge self client_ip (inner req)
  | None => new_challenge self client_ip (inner req)
  end)).

(** [format!("{}-{}", solana_pubkey, challenge)]. *)
Definition expected_challenge (solana_pubkey : Pubkey) (c : AuthChallenge) : string :=
  pubkey_to_string solana_pubkey +:+ "-" +:+ challenge c.

Definition signed_token self (what : string) (c : Claims) : result string Status :=
  ok_or (jwt_sign (signing_key self) Rs256 (DeSerClaims_from c))
        (internal ("Error signing " +:+ what +:+ ".")).

Definition pb_token (value : string) (expiry : Z) : PbToken := {|
  token_value := value;
  token_expires_at_utc := Some {| ts_seconds := chrono_timestamp expiry; ts_nanos := 0 |};
|}.

Definition generate_auth_tokens self (req : Request GenerateAuthTokensRequest)
    : prog (result GenerateAuthTokensResponse Status) :=
  try! _ := check_health in
  try! client_ip := AuthService_client_ip req in
  let inner_req := inner req in
  try! client_pubkey := ok_or (pk_from_bytes (gt_client_pubkey inner_req))
                              (invalid_argument "Invalid pubkey supplied.") in
  try! solana_pubkey := ok_or (pubkey_try_from (pk_to_bytes client_pubkey))
                              (invalid_argument "Invalid pubkey supplied.") in
  QueueGet client_ip (fun pending =>
  try! auth_challenge := ok_or pending (permission_denied
    "Must invoke the GenerateAuthChallenge method before calling any method.") in
  if negb (bool_decide (Challenges.client_pubkey (access_claims auth_challenge) = solana_pubkey)) then
    Ret (Err (permission_denied
      "The pubkey provided does not match the pubkey that generated the challenge."))
  else
  let expected := expected_challenge solana_pubkey auth_challenge in
  if negb (bool_decide (expected = gt_challenge inner_req)) then
    Ret (Err (invalid_argument
      ("The provided challenge does not match the expected challenge: " +:+ expected)))
  else if negb (length (gt_signed_challenge inner_req) =? 64)%nat then
    Ret (Err (invalid_argument "Signature must be 64 bytes."))
  else
  try! sig_bytes := ok_or (array_try_from 64 (gt_signed_challenge inner_req))
                          (invalid_argument "Invalid signature.") in
  try! signed_challenge := ok_or (sig_from_bytes sig_bytes) (invalid_argument "Invalid signature.") in
  if negb (ed_verify client_pubkey (as_bytes (gt_challenge inner_req)) signed_challenge) then
    Ret (Err (invalid_argument
      "Failed challenge verification. Did you sign with the supplied pubkey's corresponding private key?"))
  else
  try! access_token := signed_token self "access_token" (access_claims auth_challenge) in
  try! refresh_token := signed_token self "refresh_token" (refresh_claims auth_challenge) in
  QueueRemove client_ip
  (Ret (Ok {|
    gtr_access_token :=
      Some (pb_token access_token (claims_expires_at_utc (access_claims auth_challenge)));
    gtr_refresh_token :=
      Some (pb_token refresh_token (claims_expires_at_utc (refresh_claims auth_challenge)));
  |}))).

Definition refresh_access_token self (req : Request RefreshAccessTokenRequest)
    : prog (result RefreshAccessTokenResponse Status) :=
  try! _ := check_health in
  let refresh_token := rt_refresh_token (inner req) in
  try! verified := ok_or (jwt_verify (service_verifying_key self) refresh_token)
                         (permission_denied "Invalid refresh_token supplied") in
  panic! refresh_claims := Claims_from verified.2 in
  now! t1 in
  if Claims_is_expired refresh_claims t1 then
    Ret (Err (permission_denied "Client refresh_token has expired, please generate a new auth challenge to obtain a set of new access tokens."))
  else
  now! t2 in panic! expires := chrono_add t2 (access_token_ttl self) in
  let access_claims := {| client_ip := client_ip refresh_claims;
                          client_pubkey := client_pubkey refresh_claims;
                          claims_expires_at_utc := expires |} in
  try! access_token := signed_token self "access_token" access_claims in
  Ret (Ok {| rtr_access_token := Some (pb_token access_token expires) |}).

End handlers.

(** ** Running a handler alone

    [clk i] is the [i]-th reading of the clock, [rng i] the samples of the [i]-th use of the
    random generator. *)

Fixpoint prog_run {Q A} `{!Kpq Q} (p : prog A) (clk : nat -> Z) (rng : nat -> nat -> byte) (q : Q)
    : outcome A * Q :=
  match p with
  | Ret a => (Returns a, q)
  | Panic => (Panics, q)
  | UtcNow k => prog_run (k (clk 0%nat)) (fun i => clk (S i)) rng q
  | SampleAlphanumeric k => prog_run (k (rng 0%nat)) clk (fun i => rng (S i)) q
  | QueueLen k => prog_run (k (AuthChallenges_len q)) clk rng q
  | QueueGet ip k => prog_run (k (AuthChallenges_get_priority ip q)) clk rng q
  | QueuePush ip c k => prog_run k clk rng (AuthChallenges_push ip c q)
  | QueueRemove ip k => prog_run k clk rng (AuthChallenges_remove ip q)
  end.

(** ** Calls in parallel *)

Inductive AuthCall :=
| CallChallenge (req : Request GenerateAuthChallengeRequest)
| CallTokens (req : Request GenerateAuthTokensRequest)
| CallRefresh (req : Request RefreshAccessTokenRequest).

Inductive AuthReply :=
| ReplyChallenge (r : result GenerateAuthChallengeResponse Status)
| ReplyTokens (r : result GenerateAuthTokensResponse Status)
| ReplyRefresh (r : result RefreshAccessTokenResponse Status).

Fixpoint prog_map {A B} (f : A -> B) (p : prog A) : prog B :=
  match p with
  | Ret a => Ret (f a)
  | Panic => Panic
  | UtcNow k => UtcNow (fun t => prog_map f (k t))
  | SampleAlphanumeric k => SampleAlphanumeric (fun s => prog_map f (k s))
  | QueueLen k => QueueLen (fun n => prog_map f (k n))
  | QueueGet ip k => QueueGet ip (fun o => prog_map f (k o))
  | QueuePush ip c k => QueuePush ip c (prog_map f k)
  | QueueRemove ip k => QueueRemove ip (prog_map f k)
  end.

Section serving.
Context `{!AddrText} `{!Chrono} {SK VK : Type} `{!Jwt SK VK} {PK SIG : Type} `{!Ed25519 PK SIG}.
Context {V : Type} `{!ValidatorAuther V} {Q : Type} `{!Kpq Q}.

Definition handle (self : AuthServiceImpl V SK VK) (c : AuthCall) : prog AuthReply :=
  match c with
  | CallChallenge req => prog_map ReplyChallenge (generate_auth_challenge self req)
  | CallTokens req => prog_map ReplyTokens (generate_auth_tokens self req)
  | CallRefresh req => prog_map ReplyRefresh (refresh_access_token self req)
  end.

Definition finished {A} (p : prog A) : bool :=
  match p with Ret _ | Panic => true | _ => false end.

(** One atomic operation of a handler, at time [now]. *)
Definition prog_step {A} (now : Z) (samples : nat -> byte) (p : prog A) (q : Q)
    : option (prog A * Q) :=
  match p with
  | Ret _ | Panic => None
  | UtcNow k => Some (k now, q)
  | SampleAlphanumeric k => Some (k samples, q)
  | QueueLen k => Some (k (AuthChallenges_len q), q)
  | QueueGet ip k => Some (k (AuthChallenges_get_priority ip q), q)
  | QueuePush ip c k => Some (k, AuthChallenges_push ip c q)
  | QueueRemove ip k => Some (k, AuthChallenges_remove ip q)
  end.

Record auth_state := {
  as_time : Z;
  as_queue : Q;
  as_tasks : list (AuthCall * prog AuthReply);
}.

Definition live (tasks : list (AuthCall * prog AuthReply)) : nat :=
  length (List.filter (fun t => negb (finished t.2)) tasks).

Definition alphanumeric (b : byte) : bool :=
  let v := u8_val b in
  ((48 <=? v) && (v <=? 57)) || ((65 <=? v) && (v <=? 90)) || ((97 <=? v) && (v <=? 122)).

(** The service with at most [limit] calls in progress at any time: a call arrives, a call
    does one operation, time passes, or the expiration task empties the front of the queue. *)
Inductive auth_step (self : AuthServiceImpl V SK VK) (limit : nat) : auth_state -> auth_state -> Prop :=
| AuthArrive t q ts c :
    (live ts < limit)%nat ->
    auth_step self limit (Build_auth_state t q ts) (Build_auth_state t q (ts ++ [(c, handle self c)]))
| AuthOperation t q ts i c p samples p' q' :
    ts !! i = Some (c, p) -> (forall n, alphanumeric (samples n) = true) ->
    prog_step t samples p q = Some (p', q') ->
    auth_step self limit (Build_auth_state t q ts) (Build_auth_state t q' (<[i := (c, p')]> ts))
| AuthTime t q ts t' :
    t <= t' ->
    auth_step self limit (Build_auth_state t q ts) (Build_auth_state t' q ts)
| AuthExpire t q ts clk t' :
    (forall j k, (j <= k)%nat -> clk j <= clk k) -> t <= clk 0%nat -> (forall n, clk n <= t') ->
    auth_step self limit (Build_auth_state t q ts) (Build_auth_state t' (remove_all_expired clk q) ts).

Definition auth_start (t : Z) : auth_state :=
  {| as_time := t; as_queue := kpq_default; as_tasks := [] |}.

Definition auth_reachable (self : AuthServiceImpl V SK VK) (limit : nat) (st : auth_state) : Prop :=
  exists t, rtc (auth_step self limit) (auth_start t) st.

End serving.

Arguments auth_state Q : clear implicits.

(** ** Reasoning about programs

    [prog_safe pending wf post p]: as long as what [p] reads from the queue is [pending], it
    pushes entries in [wf] only, whatever others do to the queue in between, and what it
    returns is in [post]. *)

Fixpoint prog_safe {A} (pending wf : IpAddr -> AuthChallenge -> Prop) (post : A -> Prop)
    (p : prog A) : Prop :=
  match p with
  | Ret a => post a
  | Panic => True
  | UtcNow k => forall t, prog_safe pending wf post (k t)
  | SampleAlphanumeric k =>
      forall s, (forall n, alphanumeric (s n) = true) -> prog_safe pending wf post (k s)
  | QueueLen k => forall n, prog_safe pending wf post (k n)
  | QueueGet ip k => forall o, (forall c, o = Some c -> pending ip c) -> prog_safe pending wf post (k o)
  | QueuePush ip c k => wf ip c /\ prog_safe pending wf post k
  | QueueRemove _ k => prog_safe pending wf post k
  end.

(** [push_ok armed p]: every push of [p] comes after a look at the length that found room, one
    push for one look; [armed] tells that such a look has been taken. *)
Fixpoint push_ok {A} (armed : bool) (p : prog A) : Prop :=
  match p with
  | Ret _ | Panic => True
  | UtcNow k => forall t, push_ok armed (k t)
  | SampleAlphanumeric k => forall s, push_ok armed (k s)
  | QueueLen k => forall n, push_ok (if (n <? AUTH_CHALLENGES_CAPACITY)%nat then true else armed) (k n)
  | QueueGet _ k => forall o, push_ok armed (k o)
  | QueuePush _ _ k => armed = true /\ push_ok false k
  | QueueRemove _ k => push_ok armed k
  end.

Lemma prog_safe_map {A B} pending wf (post : B -> Prop) (f : A -> B) p :
  prog_safe pending wf (fun a => post (f a)) p -> prog_safe pending wf post (prog_map f p).
Proof. induction p; simpl; naive_solver. Qed.

Lemma push_ok_map {A B} (f : A -> B) armed p : push_ok armed p -> push_ok armed (prog_map f p).
Proof. revert armed; induction p; simpl; naive_solver. Qed.

Section program_lemmas.
Context {Q : Type} `{!Kpq Q} `{!KpqLaws Q}.

Definition entries_in (I : IpAddr -> AuthChallenge -> Prop) (q : Q) : Prop :=
  forall ip c, kpq_contents q !! ip = Some c -> I ip c.

Lemma entries_in_push I ip c q : I ip c -> entries_in I q -> entries_in I (kpq_push ip c q).
Proof.
  intros Hc Hq ip' c'. rewrite contents_push, lookup_insert_Some.
  intros [[<- <-]|[_ Hl]]; [done | by apply Hq].
Qed.

Lemma entries_in_subseteq I q q' :
  kpq_contents q' ⊆ kpq_contents q -> entries_in I q -> entries_in I q'.
Proof. intros Hs Hq ip c Hl. apply Hq. by eapply lookup_weaken. Qed.

Lemma entries_in_remove I ip q : entries_in I q -> entries_in I (kpq_remove ip q).
Proof. apply entries_in_subseteq. rewrite contents_remove. apply delete_subseteq. Qed.

Lemma remove_all_expired_subseteq clk q :
  (forall j k, (j <= k)%nat -> clk j <= clk k) ->
  kpq_contents (remove_all_expired clk q) ⊆ kpq_contents q.
Proof.
  intros Hclk. destruct (remove_expired_loop_contents (kpq_len q) clk 0 q Hclk) as (n & _ & Hc).
  { rewrite len_size. lia. }
  unfold remove_all_expired. rewrite Hc. apply map_filter_subseteq.
Qed.

(** One operation preserves safety and the invariant of the queue. *)
Lemma prog_step_safe {A} pending wf (post : A -> Prop) now s p q p' q' :
  (forall n, alphanumeric (s n) = true) ->
  prog_step now s p q = Some (p', q') -> prog_safe pending wf post p ->
  entries_in pending q -> entries_in wf q ->
  prog_safe pending wf post p' /\ entries_in wf q'.
Proof.
  intros Hs Hstep Hp Hq Hw. destruct p; simpl in *; simplify_eq; auto.
  - split; [|done]. apply Hp. intros c Hc. apply Hq.
    unfold AuthChallenges_get_priority in Hc. by rewrite get_priority_lookup in Hc.
  - destruct Hp. split; [done|]. by apply entries_in_push.
  - split; [done|]. by apply entries_in_remove.
Qed.

(** How one operation changes the number of entries, and what it leaves of the permissions to
    push: a look that found room gives one, a push uses one. *)
Lemma prog_step_push {A} now s (p : prog A) (q : Q) p' q' armed :
  prog_step now s p q = Some (p', q') -> push_ok armed p ->
  (push_ok armed p' /\ size (kpq_contents q') <= size (kpq_contents q))%nat \/
  (push_ok true p' /\ q' = q /\ size (kpq_contents q) < AUTH_CHALLENGES_CAPACITY)%nat \/
  (armed = true /\ push_ok false p' /\
   size (kpq_contents q') <= S (size (kpq_contents q)))%nat.
Proof.
  intros Hstep Hp. destruct p; simpl in Hstep; simplify_eq; simpl in Hp; try by left; auto.
  - specialize (Hp (AuthChallenges_len q')). unfold AuthChallenges_len in *.
    rewrite len_size in *.
    destruct (Nat.ltb_spec (size (kpq_contents q')) AUTH_CHALLENGES_CAPACITY); [|by left].
    right; left. done.
  - right; right. destruct Hp as [-> Hp]. split_and!; try done.
    unfold AuthChallenges_push. rewrite contents_push, map_size_insert. case_match; unfold id; lia.
  - left. split; [done|]. unfold AuthChallenges_remove. rewrite contents_remove.
    apply map_subseteq_size, delete_subseteq.
Qed.

End program_lemmas.

(** ** The handlers are safe *)

Section handler_lemmas.
Context `{!AddrText} `{!Chrono} {SK VK : Type} `{!Jwt SK VK} {PK SIG : Type} `{!Ed25519 PK SIG}.
Context `{!Ed25519Laws PK SIG} {V : Type} `{!ValidatorAuther V}.
Implicit Types self : AuthServiceImpl V SK VK.

(** What the relayer keeps for an address: claims for that address and one authorized key of
    32 bytes, and a challenge of nine letters and digits. *)
Definition challenge_wf self (ip : IpAddr) (c : AuthChallenge) : Prop :=
  client_ip (access_claims c) = ip /\ client_ip (refresh_claims c) = ip /\
  client_pubkey (refresh_claims c) = client_pubkey (access_claims c) /\
  length (client_pubkey (access_claims c)) = 32%nat /\
  is_authorized (validator_auther self) (client_pubkey (access_claims c)) = true /\
  length (as_bytes (challenge c)) = 9%nat /\
  forallb alphanumeric (as_bytes (challenge c)) = true.

(** [resp] are the two tokens for the claims of [c]. *)
Definition tokens_for self (c : AuthChallenge) (resp : GenerateAuthTokensResponse) : Prop :=
  exists access refresh,
    jwt_sign (signing_key self) Rs256 (DeSerClaims_from (access_claims c)) = Some access /\
    jwt_sign (signing_key self) Rs256 (DeSerClaims_from (refresh_claims c)) = Some refresh /\
    resp = {| gtr_access_token := Some (pb_token access (claims_expires_at_utc (access_claims c)));
              gtr_refresh_token := Some (pb_token refresh (claims_expires_at_utc (refresh_claims c))) |}.

(** The caller of [req] has shown that it holds the private key of the challenge [c] pending
    for its address: the message it signed is the key's text, a dash and the challenge. *)
Definition proves_possession (req : Request GenerateAuthTokensRequest) (ip : IpAddr)
    (c : AuthChallenge) : Prop :=
  remote_ip req = Some ip /\
  client_pubkey (access_claims c) = gt_client_pubkey (inner req) /\
  gt_challenge (inner req) = expected_challenge (gt_client_pubkey (inner req)) c /\
  length (gt_signed_challenge (inner req)) = 64%nat /\
  exists pk sig, pk_from_bytes (gt_client_pubkey (inner req)) = Some pk /\
    sig_from_bytes (gt_signed_challenge (inner req)) = Some sig /\
    ed_verify pk (as_bytes (gt_challenge (inner req))) sig = true.

Definition reply_ok self (pending : IpAddr -> AuthChallenge -> Prop) (call : AuthCall)
    (r : AuthReply) : Prop :=
  match call, r with
  | CallTokens req, ReplyTokens (Ok resp) =>
      exists ip c, pending ip c /\ proves_possession req ip c /\ tokens_for self c resp
  | _, _ => True
  end.

Lemma generate_challenge_token_wf s : (forall n, alphanumeric (s n) = true) ->
  length (as_bytes (generate_challenge_token s)) = 9%nat /\
  forallb alphanumeric (as_bytes (generate_challenge_token s)) = true.
Proof.
  intros Hs. unfold generate_challenge_token. rewrite as_of_bytes. split; [done|].
  apply forallb_forall. intros b (n & -> & _)%list_elem_of_In%list_elem_of_fmap. apply Hs.
Qed.

Lemma new_challenge_safe self pending ip r post :
  (forall x, post x) -> prog_safe pending (challenge_wf self) post (new_challenge self ip r).
Proof.
  intros Hpost. unfold new_challenge.
  destruct (negb (gc_role r =? _)); [apply Hpost|].
  destruct (Nat.eqb_spec (length (gc_pubkey r)) 32) as [Hl|]; [|apply Hpost]. simpl negb. cbv iota.
  rewrite pubkey_try_from_32 by done. simpl.
  destruct (is_authorized _ _) eqn:Ea; [|apply Hpost]. simpl. intros s Hs t1.
  destruct (chrono_add t1 _); [|done]. simpl. intros t2.
  destruct (chrono_add t2 _); [|done]. simpl. intros t3.
  destruct (chrono_add t3 _); [|done]. simpl. split; [|done].
  destruct (generate_challenge_token_wf s Hs). by split_and!.
Qed.

Lemma generate_auth_challenge_safe self pending req post :
  (forall x, post x) -> prog_safe pending (challenge_wf self) post (generate_auth_challenge self req).
Proof.
  intros Hpost. simpl. intros n. case_match; [apply Hpost|].
  destruct (AuthService_client_ip req) as [ip|]; [|apply Hpost]. simpl. intros o _.
  destruct o as [c|]; [|by apply new_challenge_safe].
  intros t. destruct (is_expired c t); [by apply new_challenge_safe | apply Hpost].
Qed.

Lemma generate_auth_tokens_safe self pending req :
  prog_safe pending (challenge_wf self)
    (fun r => reply_ok self pending (CallTokens req) (ReplyTokens r)) (generate_auth_tokens self req).
Proof.
  unfold generate_auth_tokens, AuthService_client_ip. simpl.
  destruct (remote_ip req) as [ip|] eqn:Eip; [|done]. simpl.
  destruct (pk_from_bytes _) as [pk|] eqn:Epk; [|done]. simpl.
  pose proof (pk_to_from _ _ Epk) as Hpk. pose proof (length_pk_to_bytes pk) as H32.
  rewrite pubkey_try_from_32 by done. simpl. intros o Ho. rewrite Hpk.
  destruct o as [c|]; [|done]. specialize (Ho c eq_refl). simpl.
  case_bool_decide as Ek; [|done]. simpl.
  case_bool_decide as Ec; [|done]. simpl.
  destruct (Nat.eqb_spec (length (gt_signed_challenge (inner req))) 64) as [El|]; [|done]. simpl.
  assert (array_try_from 64 (gt_signed_challenge (inner req)) = Some (gt_signed_challenge (inner req)))
    as -> by (by apply array_try_from_Some).
  simpl. destruct (sig_from_bytes _) as [sig|] eqn:Es; [|done]. simpl.
  destruct (ed_verify _ _ _) eqn:Ev; [|done]. simpl. unfold signed_token.
  destruct (jwt_sign _ _ (DeSerClaims_from (access_claims c))) as [a|] eqn:Ea; [|done]. simpl.
  destruct (jwt_sign _ _ (DeSerClaims_from (refresh_claims c))) as [r|] eqn:Er; [|done]. simpl.
  exists ip, c. split; [done|]. split.
  - split_and!; try done. by exists pk, sig.
  - by exists a, r.
Qed.

Lemma refresh_access_token_safe self pending req post :
  (forall x, post x) -> prog_safe pending (challenge_wf self) post (refresh_access_token self req).
Proof.
  intros Hpost. unfold refresh_access_token. simpl.
  destruct (jwt_verify _ _) as [v|]; [|apply Hpost]. simpl.
  destruct (Claims_from v.2) as [c|]; [|done]. simpl. intros t1.
  destruct (Claims_is_expired c t1); [apply Hpost|]. intros t2.
  destruct (chrono_add t2 _) as [e|]; [|done]. simpl.
  destruct (signed_token _ _ _) as [a|]; apply Hpost.
Qed.

Lemma handle_safe self pending call :
  prog_safe pending (challenge_wf self) (reply_ok self pending call) (handle self call).
Proof.
  destruct call; apply prog_safe_map.
  - by apply generate_auth_challenge_safe.
  - apply generate_auth_tokens_safe.
  - by apply refresh_access_token_safe.
Qed.

Lemma handle_push_ok self call : push_ok false (handle self call).
Proof.
  assert (Hnew : forall ip r, push_ok true (new_challenge self ip r)).
  { intros ip r. unfold new_challenge. repeat (case_match; [done|]).
    destruct (ok_or _ _); [|done]. simpl. case_match; [done|]. simpl. intros s t1.
    destruct (chrono_add t1 _); [|done]. simpl. intros t2.
    destruct (chrono_add t2 _); [|done]. simpl. intros t3.
    by destruct (chrono_add t3 _). }
  destruct call as [req|req|req]; apply push_ok_map.
  - simpl. intros n. destruct (Nat.leb_spec AUTH_CHALLENGES_CAPACITY n) as [|Hlt]; [done|].
    apply Nat.ltb_lt in Hlt as ->. destruct (AuthService_client_ip req); [|done]. simpl.
    intros [c|]; [|done]. intros t. by case_match.
  - unfold generate_auth_tokens. simpl.
    repeat (match goal with |- context [try_ ?r _] => destruct r; [|done] end; simpl).
    intros o. destruct o; [|done]. simpl. repeat (case_match; [done|]).
    repeat (match goal with |- context [try_ ?r _] => destruct r; [|done] end; simpl).
    case_match; [done|].
    by repeat (match goal with |- context [try_ ?r _] => destruct r; [|done] end; simpl).
  - unfold refresh_access_token. simpl. destruct (ok_or _ _) as [v|]; [|done]. simpl.
    destruct (Claims_from v.2) as [c|]; [|done]. simpl. intros t1. case_match; [done|]. intros t2.
    destruct (chrono_add t2 _); [|done]. simpl. by destruct (signed_token _ _ _).
Qed.

End handler_lemmas.

(** ** Invariants of the service *)

Section service_lemmas.
Context `{!AddrText} `{!Chrono} {SK VK : Type} `{!Jwt SK VK} {PK SIG : Type} `{!Ed25519 PK SIG}.
Context `{!Ed25519Laws PK SIG} {V : Type} `{!ValidatorAuther V} {Q : Type} `{!Kpq Q} `{!KpqLaws Q}.
Implicit Types (self : AuthServiceImpl V SK VK) (st : auth_state Q).

(** In the run from [st0] to [st], [c] was pending for [ip] at some time. *)
Definition was_pending self limit st0 st (ip : IpAddr) (c : AuthChallenge) : Prop :=
  challenge_wf self ip c /\
  exists st1, rtc (auth_step self limit) st0 st1 /\ rtc (auth_step self limit) st1 st /\
    kpq_contents (as_queue st1) !! ip = Some c.

Definition tasks_safe self (pending : IpAddr -> AuthChallenge -> Prop)
    (ts : list (AuthCall * prog AuthReply)) : Prop :=
  forall i call p, ts !! i = Some (call, p) ->
    prog_safe pending (challenge_wf self) (reply_ok self pending call) p.

Lemma tasks_safe_insert self pending ts i call p :
  tasks_safe self pending ts ->
  prog_safe pending (challenge_wf self) (reply_ok self pending call) p ->
  tasks_safe self pending (<[i := (call, p)]> ts).
Proof.
  intros Hts Hp j call' p' [(-> & [= <- <-] & _)|[_ Hj]]%list_lookup_insert_Some; [done|].
  by eapply Hts.
Qed.

Lemma tasks_safe_app self pending ts call :
  tasks_safe self pending ts -> tasks_safe self pending (ts ++ [(call, handle self call)]).
Proof.
  intros Hts j call' p' [Hj|[_ Hj]]%lookup_app_Some; [by eapply Hts|].
  apply list_lookup_singleton_Some in Hj as [_ [= <- <-]]. apply handle_safe.
Qed.

Lemma reachable_safe self limit t stf st :
  rtc (auth_step self limit) (auth_start t) st -> rtc (auth_step self limit) st stf ->
  entries_in (challenge_wf self) (as_queue st) /\
  tasks_safe self (was_pending self limit (auth_start t) stf) (as_tasks st).
Proof.
  intros Hr. revert st Hr. refine (rtc_ind_r _ _ _ _); [|intros st st' Hr Hst IH]; intros Hf.
  { split; [|done]. intros ip c. simpl. by rewrite contents_default, lookup_empty. }
  destruct IH as [Hq Hts]; [by eapply rtc_l|].
  destruct Hst as [tm q ts c Hlt|tm q ts i c p s p' q' Hi Hs Hp|tm q ts t' Ht|tm q ts clk t' Hclk Ht Ht'];
    simpl in *.
  - split; [done|]. by apply tasks_safe_app.
  - assert (Hpend : entries_in (was_pending self limit (auth_start t) stf) q).
    { intros ip c' Hc'. split; [by apply Hq|]. eexists. split; [exact Hr|].
      split; [|exact Hc']. eapply rtc_l; [|exact Hf]. by econstructor. }
    destruct (prog_step_safe _ _ _ _ _ _ _ _ _ Hs Hp (Hts _ _ _ Hi) Hpend Hq) as [Hp' Hq'].
    split; [done|]. by apply tasks_safe_insert.
  - done.
  - split; [|done]. eapply entries_in_subseteq; [|exact Hq]. by apply remove_all_expired_subseteq.
Qed.

(** *** Counting permissions to push *)

(** [bs] are the permissions of the tasks: only a task that goes on has one. *)
Definition permissions (ts : list (AuthCall * prog AuthReply)) (bs : list bool) : Prop :=
  Forall2 (fun t (b : bool) => push_ok b t.2 /\ (finished t.2 = true -> b = false)) ts bs.

Definition granted (bs : list bool) : nat := length (List.filter id bs).

Lemma granted_live ts bs : permissions ts bs -> (granted bs <= live ts)%nat.
Proof.
  induction 1 as [|t b ts bs [_ Hb] _ IH]; [done|]. unfold granted, live in *. simpl.
  destruct b, (finished t.2); simpl; lia || naive_solver lia.
Qed.

Lemma granted_insert bs i b b' : bs !! i = Some b ->
  (granted (<[i := b']> bs) + Nat.b2n b = granted bs + Nat.b2n b')%nat.
Proof.
  revert i; induction bs as [|x bs IH]; intros [|i] Hi; simplify_eq/=.
  - unfold granted. simpl. destruct b, b'; simpl; lia.
  - specialize (IH i Hi). unfold granted in *. simpl. destruct x; simpl; lia.
Qed.

Lemma live_insert ts i t t' : ts !! i = Some t ->
  finished t.2 = false -> (live (<[i := t']> ts) <= live ts)%nat.
Proof.
  revert i; induction ts as [|x ts IH]; intros [|i] Hi Hf; simplify_eq/=; unfold live in *; simpl.
  - rewrite Hf. destruct (finished t'.2); simpl; lia.
  - specialize (IH i Hi Hf). destruct (finished x.2); simpl; lia.
Qed.

Lemma live_app ts t : (live (ts ++ [t]) <= S (live ts))%nat.
Proof. unfold live. rewrite List.filter_app, length_app. simpl. case_match; simpl; lia. Qed.

Definition cap_inv (limit : nat) st : Prop :=
  exists bs, permissions (as_tasks st) bs /\ (live (as_tasks st) <= limit)%nat /\
    (size (kpq_contents (as_queue st)) + granted bs <= AUTH_CHALLENGES_CAPACITY + limit - 1)%nat.

(** A task that moves takes its permission along, unless it has finished. *)
Lemma permissions_insert ts bs i call p (armed : bool) :
  permissions ts bs -> push_ok armed p ->
  exists b, (Nat.b2n b <= Nat.b2n armed)%nat /\
    permissions (<[i := (call, p)]> ts) (<[i := b]> bs).
Proof.
  intros Hp Hok. exists (if finished p then false else armed). split.
  { destruct (finished p), armed; simpl; lia. }
  apply Forall2_insert; [done|]. simpl. destruct p; simpl in *; try done; naive_solver.
Qed.

Lemma cap_inv_step self limit st st' :
  (1 <= limit)%nat -> auth_step self limit st st' -> cap_inv limit st -> cap_inv limit st'.
Proof.
  intros Hlim Hst (bs & Hbs & Hlive & Hsz). unfold cap_inv.
  destruct Hst as [tm q ts c Hlt|tm q ts i c p s p' q' Hi Hs Hp|tm q ts t' Ht|tm q ts clk t' Hclk Ht Ht'];
    simpl in *.
  - exists (bs ++ [false]). split_and!.
    + apply Forall2_app; [done|]. constructor; [|constructor]. split; [apply handle_push_ok | done].
    + pose proof (live_app ts (c, handle self c)). lia.
    + unfold granted in *. rewrite List.filter_app, app_nil_r. done.
  - destruct (Forall2_lookup_l _ _ _ _ _ Hbs Hi) as (b & Hb & Hok & _). simpl in Hok.
    assert (Hfin : finished p = false) by (by destruct p).
    pose proof (live_insert ts i _ (c, p') Hi Hfin) as Hl'.
    destruct (prog_step_push _ _ _ _ _ _ _ Hp Hok) as [[Hok' Hs']|[(Hok' & -> & Hs')|(-> & Hok' & Hs')]];
      destruct (permissions_insert _ _ i c _ _ Hbs Hok') as (b' & Hb' & Hbs');
      exists (<[i := b']> bs); (split; [exact Hbs'|]; split; [lia|]);
      pose proof (granted_insert _ _ _ b' Hb) as Hg';
      pose proof (granted_live _ _ Hbs') as Hgl; simpl in *; lia.
  - by exists bs.
  - exists bs. split_and!; try done.
    pose proof (map_subseteq_size _ _ (remove_all_expired_subseteq clk q Hclk)). lia.
Qed.

Lemma cap_inv_reachable self limit st :
  (1 <= limit)%nat -> auth_reachable self limit st -> cap_inv limit st.
Proof.
  intros Hlim [t Hr]. revert st Hr. refine (rtc_ind_r _ _ _ _); [|intros st st' _ Hst IH].
  - exists []. simpl. rewrite contents_default, map_size_empty. unfold granted, live. simpl.
    split_and!; [constructor | lia | lia].
  - by eapply cap_inv_step.
Qed.

End service_lemmas.

(** ** The handlers alone *)

Section run_lemmas.
Context `{!AddrText} `{!Chrono} {SK VK : Type} `{!Jwt SK VK} {PK SIG : Type} `{!Ed25519 PK SIG}.
Context `{!Ed25519Laws PK SIG} {V : Type} `{!ValidatorAuther V} {Q : Type} `{!Kpq Q} `{!KpqLaws Q}.
Implicit Types self : AuthServiceImpl V SK VK.

(** The caller of [req] may have the tokens [resp] for the challenge [c] pending in [q]. *)
Definition redeems self (q : Q) (req : Request GenerateAuthTokensRequest) (ip : IpAddr)
    (resp : GenerateAuthTokensResponse) : Prop :=
  exists c, kpq_contents q !! ip = Some c /\ proves_possession req ip c /\ tokens_for self c resp.

(** A branch that refuses: no challenge of the queue fits what the branch has found. *)
Ltac refused :=
  right; split; [by eexists|];
  let ip := fresh in let resp := fresh in let c := fresh in
  intros (ip & resp & (c & ? & (? & ? & ? & ? & ? & ? & ? & ? & ?) & (? & ? & ? & ? & ?)));
  congruence.

Lemma generate_auth_tokens_run self req clk rng q :
  (exists ip resp, redeems self q req ip resp /\
     prog_run (generate_auth_tokens self req) clk rng q = (Returns (Ok resp), kpq_remove ip q)) \/
  ((exists e, prog_run (generate_auth_tokens self req) clk rng q = (Returns (Err e), q)) /\
   ~ exists ip resp, redeems self q req ip resp).
Proof.
  unfold generate_auth_tokens, AuthService_client_ip. simpl.
  destruct (remote_ip req) as [ip|] eqn:Eip; [|refused]. simpl.
  destruct (pk_from_bytes _) as [pk|] eqn:Epk; [|refused]. simpl.
  pose proof (pk_to_from _ _ Epk) as Hpk. pose proof (length_pk_to_bytes pk) as H32.
  rewrite pubkey_try_from_32 by done. simpl. rewrite Hpk.
  unfold AuthChallenges_get_priority. rewrite get_priority_lookup.
  destruct (kpq_contents q !! ip) as [c|] eqn:Ec; [|refused]. simpl.
  case_bool_decide as Ek; [|refused]. simpl.
  case_bool_decide as Ech; [|refused]. simpl.
  destruct (Nat.eqb_spec (length (gt_signed_challenge (inner req))) 64) as [El|]; [|refused]. simpl.
  assert (array_try_from 64 (gt_signed_challenge (inner req)) = Some (gt_signed_challenge (inner req)))
    as -> by (by apply array_try_from_Some).
  simpl. destruct (sig_from_bytes _) as [sig|] eqn:Es; [|refused]. simpl.
  destruct (ed_verify _ _ _) eqn:Ev; [|refused]. simpl. unfold signed_token.
  destruct (jwt_sign _ _ (DeSerClaims_from (access_claims c))) as [a|] eqn:Ea; [|refused]. simpl.
  destruct (jwt_sign _ _ (DeSerClaims_from (refresh_claims c))) as [r|] eqn:Er; [|refused]. simpl.
  left. eexists ip, _. split; [|reflexivity]. exists c. split; [done|]. split.
  - split_and!; try done. by exists pk, sig.
  - by exists a, r.
Qed.

Lemma redeems_unique self q req ip resp ip' resp' :
  redeems self q req ip resp -> redeems self q req ip' resp' -> ip' = ip /\ resp' = resp.
Proof.
  intros (c & Hc & [Hip _] & a & r & Ha & Hr & ->) (c' & Hc' & [Hip' _] & a' & r' & Ha' & Hr' & ->).
  assert (ip' = ip) as -> by congruence. by simplify_eq.
Qed.

(** A clock whose readings can be extended by the longest lifetime. *)
Definition clock_ok self (clk : nat -> Z) : Prop :=
  forall i, 0 <= clk i /\ 0 <= access_token_ttl self /\ 0 <= refresh_token_ttl self /\
    0 <= challenge_ttl self /\
    in_chrono_range (clk i + (access_token_ttl self + refresh_token_ttl self + challenge_ttl self)).

(** The entry a new challenge leaves behind; its three expiration times are counted from three
    readings of the clock. *)
Definition fresh_challenge self (ip : IpAddr) (key : Pubkey) (samples : nat -> byte)
    (t1 t2 t3 : Z) : AuthChallenge := {|
  challenge := generate_challenge_token samples;
  access_claims := {| client_ip := ip; client_pubkey := key;
                      claims_expires_at_utc := t1 + access_token_ttl self |};
  refresh_claims := {| client_ip := ip; client_pubkey := key;
                       claims_expires_at_utc := t2 + refresh_token_ttl self |};
  expires_at_utc := t3 + challenge_ttl self;
|}.

(** Why a request for a new challenge is refused, [None] if it is not. *)
Definition challenge_refusal self (r : GenerateAuthChallengeRequest) : option Status :=
  if decide (gc_role r <> 2) then Some (invalid_argument "Role must be validator.")
  else if decide (length (gc_pubkey r) <> 32%nat) then
    Some (invalid_argument "Pubkey must be 32 bytes in length")
  else if is_authorized (validator_auther self) (gc_pubkey r) then None
  else Some (permission_denied "The supplied pubkey is not authorized to generate a challenge.").

Lemma fresh_claims_wf self ip r samples clk i j k :
  clock_ok self clk -> challenge_refusal self r = None ->
  Claims_wf (access_claims (fresh_challenge self ip (gc_pubkey r) samples (clk i) (clk j) (clk k))).
Proof.
  intros Hclk. unfold challenge_refusal. case_decide; [done|]. case_decide as Hl; [done|]. intros _.
  split; simpl; [lia|]. specialize (Hclk i). unfold in_chrono_range in *. lia.
Qed.

(** What a new challenge does to the queue; [clk] is read three times. *)
Definition new_challenge_spec self (ip : IpAddr) (r : GenerateAuthChallengeRequest)
    (clk : nat -> Z) (samples : nat -> byte) (q : Q)
    : outcome (result GenerateAuthChallengeResponse Status) * Q :=
  match challenge_refusal self r with
  | Some e => (Returns (Err e), q)
  | None =>
      let c := fresh_challenge self ip (gc_pubkey r) samples (clk 0%nat) (clk 1%nat) (clk 2%nat) in
      (Returns (Ok {| gcr_challenge := challenge c |}), kpq_push ip c q)
  end.

Lemma new_challenge_run `{!ChronoLaws} self ip r clk rng q :
  clock_ok self clk ->
  prog_run (new_challenge self ip r) clk rng q = new_challenge_spec self ip r clk (rng 0%nat) q.
Proof.
  intros Hclk. unfold new_challenge_spec, challenge_refusal, new_challenge.
  change (gc_role r =? Role_as_i32 VALIDATOR) with (gc_role r =? 2).
  destruct (Z.eqb_spec (gc_role r) 2); [rewrite decide_False by lia | by rewrite decide_True].
  destruct (Nat.eqb_spec (length (gc_pubkey r)) 32) as [Hl|]; simpl;
    [rewrite decide_False by lia | by rewrite decide_True].
  rewrite pubkey_try_from_32 by done. simpl.
  destruct (is_authorized _ _); [|done]. simpl.
  pose proof (Hclk 0%nat) as Hc0. pose proof (Hclk 1%nat) as Hc1. pose proof (Hclk 2%nat) as Hc2.
  unfold in_chrono_range in *. do 3 (rewrite chrono_add_range by lia; simpl). done.
Qed.

End run_lemmas.

(** ** Properties *)

Section properties.
Context `{!AddrText} `{!Chrono} {SK VK : Type} `{!Jwt SK VK} {PK SIG : Type} `{!Ed25519 PK SIG}.
Context `{!Ed25519Laws PK SIG} {V : Type} `{!ValidatorAuther V} {Q : Type} `{!Kpq Q} `{!KpqLaws Q}.
Implicit Types self : AuthServiceImpl V SK VK.

(** C2. Tokens need a proof of possession, under every interleaving of calls and of the
    expiration task: if a token call has succeeded, then a challenge was pending for the
    caller's address earlier in the run, made for the public key the caller names, the caller
    presented that key's text and that challenge with a signature that verifies under the
    key, and the two tokens are signed for the claims of that challenge, that is, for this
    address and this authorized key. *)
Theorem tokens_need_possession self limit t st i req resp :
  rtc (auth_step self limit) (auth_start t) st ->
  as_tasks st !! i = Some (CallTokens req, Ret (ReplyTokens (Ok resp))) ->
  exists ip c, was_pending self limit (auth_start t) st ip c /\
    proves_possession req ip c /\ tokens_for self c resp.
Proof.
  intros Hr Hi. destruct (reachable_safe self limit t st st Hr) as [_ Hts]; [done|].
  exact (Hts _ _ _ Hi).
Qed.

(** C20. The number of pending challenges is bounded: with at most [limit] calls in progress at
    a time it never exceeds the capacity by [limit] or more, because every push follows its
    own look at the length.  With one call at a time the capacity of 100000 is exact. *)
Theorem pending_challenges_bounded self limit (st : auth_state Q) :
  (1 <= limit)%nat -> auth_reachable self limit st ->
  (kpq_len (as_queue st) <= AUTH_CHALLENGES_CAPACITY + limit - 1)%nat.
Proof.
  intros Hlim Hr. destruct (cap_inv_reachable self limit st Hlim Hr) as (bs & _ & _ & Hs).
  rewrite len_size. lia.
Qed.

(** C26. Asking for a challenge, on every branch.  The call never panics.  A full queue and a
    missing address are refused; a pending challenge that has not expired is returned as it
    is, to whoever asks from that address; otherwise a wrong role, a key that is not 32 bytes
    long or not authorized are refused, and every refusal leaves the queue alone.  Else the
    reply is a fresh challenge, and the queue changes for the caller's address only, to an
    entry for the key asked for whose expiration times are the lifetimes of the service
    counted from the clock. *)
Theorem generate_auth_challenge_correct `{!ChronoLaws} self req clk rng (q : Q) :
  clock_ok self clk ->
  prog_run (generate_auth_challenge self req) clk rng q =
  if (AUTH_CHALLENGES_CAPACITY <=? kpq_len q)%nat
  then (Returns (Err (resource_exhausted "System overloaded.")), q)
  else match remote_ip req with
       | None => (Returns (Err (internal "Request is missing IP address")), q)
       | Some ip =>
           match kpq_contents q !! ip with
           | Some c =>
               if decide (clk 0%nat < expires_at_utc c)
               then (Returns (Ok {| gcr_challenge := challenge c |}), q)
               else new_challenge_spec self ip (inner req) (fun i => clk (S i)) (rng 0%nat) q
           | None => new_challenge_spec self ip (inner req) clk (rng 0%nat) q
           end
       end.
Proof.
  intros Hclk. simpl. unfold AuthChallenges_len. case_match; [done|].
  unfold AuthService_client_ip. destruct (remote_ip req) as [ip|]; [|done]. simpl.
  unfold AuthChallenges_get_priority. rewrite get_priority_lookup.
  destruct (kpq_contents q !! ip) as [c|]; [|by apply new_challenge_run].
  simpl. unfold is_expired.
  destruct (Z.leb_spec (expires_at_utc c) (clk 0%nat)); simpl.
  - rewrite decide_False by lia. apply new_challenge_run. intros i. apply (Hclk (S i)).
  - by rewrite decide_True.
Qed.

(** C15. Asking for tokens, alone.  The call never panics, and it succeeds exactly when a
    challenge is pending for the caller's address and the caller proves that it holds the key
    the challenge was made for (and signing works); it then removes that challenge and no
    other, so that a challenge is redeemed once: asking again is refused.  A call that fails
    leaves the queue unchanged. *)
Theorem generate_auth_tokens_correct self req clk rng (q : Q) :
  (forall ip resp, redeems self q req ip resp <->
     prog_run (generate_auth_tokens self req) clk rng q = (Returns (Ok resp), kpq_remove ip q) /\
     remote_ip req = Some ip) /\
  (forall r q', prog_run (generate_auth_tokens self req) clk rng q = (r, q') ->
     (exists e, r = Returns (Err e) /\ q' = q) \/
     (exists ip resp, r = Returns (Ok resp) /\ remote_ip req = Some ip /\
        kpq_contents q' = delete ip (kpq_contents q) /\
        forall clk' rng', exists e,
          prog_run (generate_auth_tokens self req) clk' rng' q' = (Returns (Err e), q'))).
Proof.
  split.
  - intros ip resp. destruct (generate_auth_tokens_run self req clk rng q)
      as [(ip' & resp' & Hr' & ->)|[[e ->] Hno]]; [|split; [by intros Hr; destruct Hno; eauto | by intros []]].
    split.
    + intros Hr. destruct (redeems_unique _ _ _ _ _ _ _ Hr Hr') as [-> ->]. split; [done|].
      by destruct Hr as (c & _ & [] & _).
    + intros [[= <- _] Hip]. destruct Hr' as (c & Hc & Hp & Ht). pose proof Hp as [Hip' _].
      assert (ip' = ip) as -> by congruence. by exists c.
  - intros r q' Hrun. destruct (generate_auth_tokens_run self req clk rng q)
      as [(ip & resp & Hr & Hrun')|[[e Hrun'] _]]; rewrite Hrun' in Hrun; simplify_eq; [right|eauto].
    exists ip, resp. pose proof Hr as (c & _ & [Hip _] & _). split_and!; try done.
    { apply contents_remove. }
    intros clk' rng'. destruct (generate_auth_tokens_run self req clk' rng' (kpq_remove ip q))
      as [(ip' & resp' & (c' & Hc' & [Hip' _] & _) & _)|[Hrun _]]; [|done].
    rewrite contents_remove in Hc'. assert (ip' = ip) as -> by congruence.
    by rewrite lookup_delete_eq in Hc'.
Qed.

(** A challenge can still be redeemed after it has expired, as long as the expiration task
    has not removed it: the token call does not look at the clock. *)
Theorem expired_challenge_redeemable self req clk rng (q : Q) ip c resp :
  kpq_contents q !! ip = Some c -> is_expired c (clk 0%nat) = true ->
  proves_possession req ip c -> tokens_for self c resp ->
  prog_run (generate_auth_tokens self req) clk rng q = (Returns (Ok resp), kpq_remove ip q).
Proof.
  intros Hc _ Hp Ht. assert (Hr : redeems self q req ip resp) by (by exists c).
  destruct (generate_auth_tokens_run self req clk rng q)
    as [(ip' & resp' & Hr' & ->)|[_ Hno]]; [|destruct Hno; eauto].
  by destruct (redeems_unique _ _ _ _ _ _ _ Hr Hr') as [-> ->].
Qed.

Context `{!AddrTextLaws} `{!ChronoLaws} `{!JwtLaws SK VK} `{!MetadataText} `{!MetadataTextLaws}.

(** C38. Refreshing: any token the relayer signed is taken, be it a refresh or an access token.
    At or after its expiration time, rounded down to the second, it is refused; before, the
    reply is an access token for the same address and key that expires one access lifetime
    after the call.  So an access token can be used to renew itself for ever. *)
Theorem refresh_access_token_correct self req clk rng (q : Q) c :
  jwt_pair (signing_key self) (service_verifying_key self) ->
  (forall d, is_Some (jwt_sign (signing_key self) Rs256 d)) -> clock_ok self clk -> Claims_wf c ->
  jwt_sign (signing_key self) Rs256 (DeSerClaims_from c) = Some (rt_refresh_token (inner req)) ->
  if decide (floor_secs (claims_expires_at_utc c) <= clk 0%nat)
  then prog_run (refresh_access_token self req) clk rng q =
       (Returns (Err (permission_denied "Client refresh_token has expired, please generate a new auth challenge to obtain a set of new access tokens.")), q)
  else let expires := clk 1%nat + access_token_ttl self in
       exists tok,
         jwt_sign (signing_key self) Rs256 (DeSerClaims_from {|
           client_ip := client_ip c; client_pubkey := client_pubkey c;
           claims_expires_at_utc := expires |}) = Some tok /\
         prog_run (refresh_access_token self req) clk rng q =
         (Returns (Ok {| rtr_access_token := Some {| token_value := tok;
            token_expires_at_utc := Some {| ts_seconds := expires / NANOS; ts_nanos := 0 |} |} |}), q).
Proof.
  intros Hp Hsign Hclk Hwf Hs. unfold refresh_access_token. simpl.
  rewrite (verify_sign _ _ _ _ _ Hp Hs). simpl. rewrite Claims_from_to by done. simpl.
  unfold Claims_is_expired. simpl.
  destruct (Z.leb_spec (floor_secs (claims_expires_at_utc c)) (clk 0%nat)).
  { by rewrite decide_True. }
  rewrite decide_False by lia. pose proof (Hclk 1%nat) as Hc1. unfold in_chrono_range in Hc1.
  simpl. rewrite chrono_add_range by lia. simpl. unfold signed_token.
  match goal with |- context [jwt_sign (signing_key self) Rs256 ?d] =>
    destruct (Hsign d) as [tok Htok] end.
  exists tok. split; [exact Htok|]. rewrite Htok. unfold pb_token. by rewrite timestamp_floor.
Qed.

(** C5. The handshake works from end to end: when there is room, a validator that asks for a
    challenge from an address without one gets it; if it signs its key's text, a dash and the
    challenge and asks for tokens from the same address, it gets two tokens at any later time
    and the queue is as before; and a request that carries the access token passes the
    interceptor of the packet service, which sees the validator's key. *)
Theorem handshake_authenticates self (ic : AuthInterceptor VK) req clk rng (q : Q) ip pk :
  jwt_pair (signing_key self) (verifying_key ic) -> expected_signing_algo ic = Rs256 ->
  (forall d, is_Some (jwt_sign (signing_key self) Rs256 d)) -> clock_ok self clk ->
  (kpq_len q < AUTH_CHALLENGES_CAPACITY)%nat -> remote_ip req = Some ip ->
  kpq_contents q !! ip = None -> challenge_refusal self (inner req) = None ->
  pk_from_bytes (gc_pubkey (inner req)) = Some pk ->
  exists ch q1,
    prog_run (generate_auth_challenge self req) clk rng q =
      (Returns (Ok {| gcr_challenge := ch |}), q1) /\
    forall req2 clk2 rng2 sig,
      remote_ip req2 = Some ip -> gt_client_pubkey (inner req2) = gc_pubkey (inner req) ->
      gt_challenge (inner req2) = pubkey_to_string (gc_pubkey (inner req)) +:+ "-" +:+ ch ->
      length (gt_signed_challenge (inner req2)) = 64%nat ->
      sig_from_bytes (gt_signed_challenge (inner req2)) = Some sig ->
      ed_verify pk (as_bytes (gt_challenge (inner req2))) sig = true ->
      exists access refresh q2,
        prog_run (generate_auth_tokens self req2) clk2 rng2 q1 =
          (Returns (Ok {| gtr_access_token := Some access; gtr_refresh_token := Some refresh |}), q2) /\
        kpq_contents q2 = kpq_contents q /\
        forall T (req3 : Request T),
          metadata req3 !! AUTHORIZATION_HEADER = Some (BEARER ++ as_bytes (token_value access)) ->
          exists req3', interceptor_call ic req3 = Returns (Ok req3') /\
            ext_pubkey req3' = Some (gc_pubkey (inner req)).
Proof.
  intros Hp Halg Hsign Hclk Hlen Hip Hnone Href Hpk.
  set (c := fresh_challenge self ip (gc_pubkey (inner req)) (rng 0%nat)
              (clk 0%nat) (clk 1%nat) (clk 2%nat)).
  exists (challenge c), (kpq_push ip c q). split.
  { simpl. unfold AuthChallenges_len. apply Nat.leb_gt in Hlen as ->.
    unfold AuthService_client_ip. rewrite Hip. simpl.
    unfold AuthChallenges_get_priority. rewrite get_priority_lookup, Hnone.
    rewrite new_challenge_run by done. unfold new_challenge_spec. by rewrite Href. }
  intros req2 clk2 rng2 sig Hip2 Hkey Hch Hlen2 Hsig Hver.
  destruct (Hsign (DeSerClaims_from (access_claims c))) as [a Ha].
  destruct (Hsign (DeSerClaims_from (refresh_claims c))) as [r Hr].
  assert (Hred : exists resp, redeems self (kpq_push ip c q) req2 ip resp /\ resp =
    {| gtr_access_token := Some (pb_token a (claims_expires_at_utc (access_claims c)));
       gtr_refresh_token := Some (pb_token r (claims_expires_at_utc (refresh_claims c))) |}).
  { eexists. split; [|reflexivity]. exists c. split; [by rewrite contents_push, lookup_insert_eq|].
    split; [|by exists a, r]. split_and!; try done; [by rewrite Hkey|]. rewrite Hkey. eauto. }
  destruct Hred as (resp & Hred & Hresp).
  destruct (generate_auth_tokens_run self req2 clk2 rng2 (kpq_push ip c q))
    as [(ip' & resp' & Hred' & Hrun)|[_ Hno]]; [|destruct Hno; eauto].
  destruct (redeems_unique _ _ _ _ _ _ _ Hred Hred') as [-> ->]. subst resp.
  do 3 eexists. split; [exact Hrun|]. split.
  { by rewrite contents_remove, contents_push, delete_insert_eq, delete_id. }
  intros T req3 Hm. unfold interceptor_call.
  rewrite (jwt_from_header_signed _ _ _ _ _ _ Hp Halg Ha Hm). simpl.
  rewrite Claims_from_to; [by eexists|].
  exact (fresh_claims_wf self ip (inner req) (rng 0%nat) clk 0 1 2 Hclk Href).
Qed.

End properties.

(** ** A handler that runs alone is a run of the service *)

Section alone.
Context `{!AddrText} `{!Chrono} {SK VK : Type} `{!Jwt SK VK} {PK SIG : Type} `{!Ed25519 PK SIG}.
Context {V : Type} `{!ValidatorAuther V} {Q : Type} `{!Kpq Q}.

Lemma auth_alone (self : AuthServiceImpl V SK VK) limit t rng ts i call p (q : Q) a :
  (forall n m, alphanumeric (rng n m) = true) -> ts !! i = Some (call, p) ->
  (prog_run p (fun _ => t) rng q).1 = Returns a ->
  rtc (auth_step self limit) (Build_auth_state t q ts)
    (Build_auth_state t (prog_run p (fun _ => t) rng q).2 (<[i := (call, Ret a)]> ts)).
Proof.
  intros Hrng. revert rng Hrng ts q.
  assert (Hnext : forall ts (p p' : prog AuthReply) q q' samples st',
    (forall n, alphanumeric (samples n) = true) -> ts !! i = Some (call, p) ->
    prog_step t samples p q = Some (p', q') ->
    (<[i := (call, p')]> ts !! i = Some (call, p') ->
     rtc (auth_step self limit) (Build_auth_state t q' (<[i := (call, p')]> ts))
       (Build_auth_state t st' (<[i := (call, Ret a)]> (<[i := (call, p')]> ts)))) ->
    rtc (auth_step self limit) (Build_auth_state t q ts)
      (Build_auth_state t st' (<[i := (call, Ret a)]> ts))).
  { intros ts p1 p' q q' samples st' Hs Hi Hstep Hrec. rewrite list_insert_insert_eq in Hrec.
    eapply rtc_l; [by eapply AuthOperation|]. apply Hrec, list_lookup_insert_eq.
    by eapply lookup_lt_Some. }
  induction p as [a'| |k IH|k IH|k IH|ip k IH|ip c p IH|ip p IH];
    intros rng Hrng ts q Hi Hrun; simpl in *; simplify_eq;
    try (eapply (Hnext ts _ _ q _ (rng 0%nat)); [by intros n | exact Hi | reflexivity|];
         intros Hi'; first [apply IH | apply (IH _ (fun n => rng (S n)))]; done).
  rewrite list_insert_id by done. apply rtc_refl.
Qed.

End alone.

(** ** Witnesses *)

#[local] Transparent AUTH_CHALLENGES_CAPACITY.

(** Keys are their bytes, padded; a signature is the start of the key and the message. *)
Definition pad_to (n : nat) (b : bytes) : bytes := take n (b ++ replicate n Byte.x00).

#[export] Instance toy_ed25519 : Ed25519 bytes bytes := {|
  pk_from_bytes b := array_try_from 32 b;
  pk_to_bytes k := pad_to 32 k;
  sig_from_bytes := Some;
  ed_verify k m s := bool_decide (s = pad_to 64 (drop 16 k ++ m));
  pubkey_try_from b := array_try_from 32 b;
|}.

#[export] Instance toy_ed25519_laws : Ed25519Laws bytes bytes.
Proof.
  constructor; simpl.
  - intros b k [Hl ->]%array_try_from_Some. unfold pad_to. by rewrite take_app_length'.
  - intros k. unfold pad_to. rewrite length_take, length_app, length_replicate. lia.
  - intros b Hb. by apply array_try_from_Some.
Qed.

Definition toy_service : AuthServiceImpl ValidatorAutherImpl positive positive :=
  AuthServiceImpl_new Build_ValidatorAutherImpl 5%positive 5%positive.

Definition toy_now : Z := from_secs 1000.
Definition toy_samples : nat -> nat -> byte := fun _ _ => Byte.x41.
Definition toy_ip : IpAddr := V4 [Byte.x0a; Byte.x00; Byte.x00; Byte.x01].

Definition toy_challenge_request : Request GenerateAuthChallengeRequest := {|
  metadata := ∅; remote_ip := Some toy_ip; ext_pubkey := None;
  inner := {| gc_role := 2; gc_pubkey := toy_key |} |}.

Definition toy_signed_text : string := of_bytes toy_key +:+ "-AAAAAAAAA".

Definition toy_tokens_request : Request GenerateAuthTokensRequest := {|
  metadata := ∅; remote_ip := Some toy_ip; ext_pubkey := None;
  inner := {| gt_challenge := toy_signed_text; gt_client_pubkey := toy_key;
              gt_signed_challenge := pad_to 64 (drop 16 toy_key ++ as_bytes toy_signed_text) |} |}.

Lemma toy_clock_ok t : 0 <= t <= from_secs 1000000 -> clock_ok toy_service (fun _ => t).
Proof.
  intros Ht i. unfold from_secs, NANOS in Ht. unfold in_chrono_range. simpl.
  unfold ACCESS_TOKEN_TTL, REFRESH_TOKEN_TTL, CHALLENGE_TTL, from_secs, NANOS, CHRONO_MAX_SECS. lia.
Qed.

Lemma toy_samples_ok n m : alphanumeric (toy_samples n m) = true.
Proof. done. Qed.

Lemma toy_sign_ok d : is_Some (jwt_sign (signing_key toy_service) Rs256 d).
Proof. by eexists. Qed.

Abbreviation Toy := (gmap IpAddr AuthChallenge).
Abbreviation toy_run := (fun p q => @prog_run Toy _ _ p (fun _ => toy_now) toy_samples q).
Abbreviation toy_handle := (@handle toy_addr_text toy_chrono _ _ toy_jwt _ _ toy_ed25519 _ _ toy_service).

Definition toy_pending : Toy :=
  {[ toy_ip := @fresh_challenge _ _ _ toy_service toy_ip toy_key (toy_samples 0) toy_now toy_now toy_now ]}.

Definition toy_reply : AuthReply :=
  match (toy_run (toy_handle (CallTokens toy_tokens_request)) toy_pending).1 with
  | Returns r => r
  | Panics => ReplyTokens (Err (internal "panic"))
  end.

Definition toy_resp : GenerateAuthTokensResponse :=
  match toy_reply with
  | ReplyTokens (Ok r) => r
  | _ => {| gtr_access_token := None; gtr_refresh_token := None |}
  end.

Definition toy_final : auth_state Toy := {|
  as_time := toy_now; as_queue := ∅;
  as_tasks := [(CallChallenge toy_challenge_request,
                Ret (ReplyChallenge (Ok {| gcr_challenge := "AAAAAAAAA" |})));
               (CallTokens toy_tokens_request, Ret (ReplyTokens (Ok toy_resp)))] |}.

(** A challenge call and a token call, one after the other. *)
Lemma toy_handshake_run :
  rtc (@auth_step toy_addr_text toy_chrono _ _ toy_jwt _ _ toy_ed25519 _ _ Toy _ toy_service 1)
    (auth_start toy_now) toy_final.
Proof.
  eapply rtc_l; [apply AuthArrive with (c := CallChallenge toy_challenge_request); by apply Nat.ltb_lt|].
  etransitivity.
  { eapply auth_alone with (i := 0%nat) (rng := toy_samples);
      [exact toy_samples_ok | reflexivity | vm_compute; reflexivity]. }
  eapply rtc_l; [apply AuthArrive with (c := CallTokens toy_tokens_request); by apply Nat.ltb_lt|].
  etransitivity.
  { eapply auth_alone with (i := 1%nat) (rng := toy_samples);
      [exact toy_samples_ok | reflexivity | vm_compute; reflexivity]. }
  apply reflexive_eq. vm_compute. reflexivity.
Qed.

Abbreviation toy_tokens_program :=
  (@generate_auth_tokens toy_addr_text toy_chrono _ _ toy_jwt _ _ toy_ed25519 _ toy_service).

Lemma tokens_need_possession_witness :
  exists ip c,
    @was_pending toy_addr_text toy_chrono _ _ toy_jwt _ _ toy_ed25519 _ _ Toy _ toy_service 1
      (auth_start toy_now) toy_final ip c /\
    @proves_possession toy_addr_text _ _ toy_ed25519 toy_tokens_request ip c /\
    @tokens_for toy_addr_text toy_chrono _ _ toy_jwt _ toy_service c toy_resp.
Proof.
  apply (@tokens_need_possession toy_addr_text toy_chrono _ _ toy_jwt _ _ toy_ed25519
    toy_ed25519_laws _ _ Toy _ _ toy_service 1 toy_now toy_final 1 toy_tokens_request toy_resp).
  - exact toy_handshake_run.
  - reflexivity.
Defined.

Lemma pending_challenges_bounded_witness :
  (kpq_len (as_queue toy_final) <= AUTH_CHALLENGES_CAPACITY + 1 - 1)%nat.
Proof.
  apply (@pending_challenges_bounded toy_addr_text toy_chrono _ _ toy_jwt _ _ toy_ed25519
    _ _ Toy _ _ toy_service 1 toy_final); [lia|].
  exists toy_now. exact toy_handshake_run.
Defined.

Lemma generate_auth_challenge_correct_witness :
  let '(r, q) := toy_run (@generate_auth_challenge toy_chrono _ _ _ _ toy_ed25519 _ _ toy_service
                            toy_challenge_request) ∅ in
  r = Returns (Ok {| gcr_challenge := "AAAAAAAAA" |}) /\
  (client_pubkey ∘ access_claims <$> q !! toy_ip) = Some toy_key.
Proof.
  cbv beta. rewrite (@generate_auth_challenge_correct toy_chrono _ _ _ _ toy_ed25519
    toy_ed25519_laws _ _ Toy _ _ toy_chrono_laws toy_service toy_challenge_request
    (fun _ => toy_now) toy_samples ∅).
  - split; vm_compute; reflexivity.
  - apply toy_clock_ok. vm_compute. split; discriminate.
Defined.

Lemma generate_auth_tokens_correct_witness :
  exists e, toy_run (toy_tokens_program toy_tokens_request) ∅ = (Returns (Err e), ∅).
Proof.
  destruct (@generate_auth_tokens_correct toy_addr_text toy_chrono _ _ toy_jwt _ _ toy_ed25519
    toy_ed25519_laws _ Toy _ _ toy_service toy_tokens_request (fun _ => toy_now) toy_samples
    toy_pending) as [_ Hrun].
  destruct (Hrun (Returns (Ok toy_resp)) ∅) as [(e & [=] & _)|(ip & resp & _ & _ & _ & Hagain)].
  - vm_compute. reflexivity.
  - apply Hagain.
Defined.

(** Two thousand seconds later the challenge has expired. *)
Lemma expired_challenge_redeemable_witness :
  @prog_run Toy _ _ (toy_tokens_program toy_tokens_request)
    (fun _ => toy_now + from_secs 2000) toy_samples toy_pending =
  (Returns (Ok toy_resp), kpq_remove toy_ip toy_pending).
Proof.
  apply (@expired_challenge_redeemable toy_addr_text toy_chrono _ _ toy_jwt _ _ toy_ed25519
    toy_ed25519_laws _ Toy _ _ toy_service toy_tokens_request
    (fun _ => toy_now + from_secs 2000) toy_samples toy_pending toy_ip
    (@fresh_challenge _ _ _ toy_service toy_ip toy_key (toy_samples 0) toy_now toy_now toy_now) toy_resp).
  - vm_compute. reflexivity.
  - vm_compute. reflexivity.
  - split_and!; try reflexivity. do 2 eexists. split_and!; vm_compute; reflexivity.
  - do 2 eexists. split_and!; vm_compute; reflexivity.
Defined.

(** An access token for claims that expire at second 2000, used to refresh at second 1000. *)
Definition toy_access_claims : Claims :=
  {| client_ip := toy_ip; client_pubkey := toy_key; claims_expires_at_utc := from_secs 2000 |}.

Definition toy_refresh_request : Request RefreshAccessTokenRequest := {|
  metadata := ∅; remote_ip := Some toy_ip; ext_pubkey := None;
  inner := {| rt_refresh_token :=
    toy_token 5 (@DeSerClaims_from toy_addr_text toy_chrono toy_access_claims) |} |}.

Lemma refresh_access_token_correct_witness :
  exists tok,
    @prog_run Toy _ _ (@refresh_access_token toy_addr_text toy_chrono _ _ toy_jwt _ toy_service
      toy_refresh_request) (fun _ => toy_now) toy_samples ∅ =
    (Returns (Ok {| rtr_access_token := Some {| token_value := tok;
       token_expires_at_utc := Some {| ts_seconds := 2800; ts_nanos := 0 |} |} |}), ∅).
Proof.
  pose proof (@refresh_access_token_correct toy_addr_text toy_chrono _ _ toy_jwt _ Toy _
    toy_addr_text_laws toy_chrono_laws toy_jwt_laws toy_service toy_refresh_request
    (fun _ => toy_now) toy_samples ∅ toy_access_claims eq_refl toy_sign_ok) as Hr.
  rewrite decide_False in Hr by (vm_compute; auto).
  destruct Hr as (tok & _ & Hrun).
  - apply toy_clock_ok. vm_compute. split; discriminate.
  - split; [reflexivity|]. vm_compute. split; discriminate.
  - reflexivity.
  - exists tok. exact Hrun.
Defined.

Lemma handshake_authenticates_witness :
  exists ch q1,
    toy_run (@generate_auth_challenge toy_chrono _ _ _ _ toy_ed25519 _ _ toy_service
      toy_challenge_request) ∅ = (Returns (Ok {| gcr_challenge := ch |}), q1) /\
    (ch = "AAAAAAAAA" -> exists access refresh q2,
       toy_run (toy_tokens_program toy_tokens_request) q1 =
         (Returns (Ok {| gtr_access_token := Some access; gtr_refresh_token := Some refresh |}), q2) /\
       kpq_contents q2 = ∅).
Proof.
  destruct (@handshake_authenticates toy_addr_text toy_chrono _ _ toy_jwt _ _ toy_ed25519
    toy_ed25519_laws _ _ Toy _ _ toy_addr_text_laws toy_chrono_laws toy_jwt_laws toy_metadata
    toy_metadata_laws toy_service toy_interceptor toy_challenge_request (fun _ => toy_now)
    toy_samples ∅ toy_ip toy_key) as (ch & q1 & Hrun & Htok); try reflexivity.
  - exact toy_sign_ok.
  - apply toy_clock_ok. vm_compute. split; discriminate.
  - apply Nat.ltb_lt. vm_compute. reflexivity.
  - exists ch, q1. split; [exact Hrun|]. intros ->.
    destruct (Htok toy_tokens_request (fun _ => toy_now) toy_samples
      (pad_to 64 (drop 16 toy_key ++ as_bytes toy_signed_text))) as (a & r & q2 & Hr & Hq & _);
      [vm_compute; reflexivity..|].
    exists a, r, q2. split; [exact Hr | exact Hq].
Defined.
