(* ===== verification/Mirror.v ===== *)
(** * The mirror (src/src/proxy/mirror.rs)

    The mirror copies what passes through the relayer to the Inertia server over one QUIC
    connection: packets and the connected validator's key as datagrams, bundles as
    length-prefixed frames on a stream; it takes filter datagrams and bundle streams back.
    The file models the datagram framing with its thread-local buffer and counters, the
    filter and control datagrams, both directions of the bundle streams, and the connection
    loop with its backoff.  Certificate pinning is in CertPin.v; the crates quinn, bytes and
    prost are behind the interfaces [Datagrams], [BytesMut] and [Prost]. *)

From S2P Require Import Prelude Bytes Protos FilterSet ProxyDelay.

Local Open Scope Z_scope.

(** ** Constants and counters *)

Definition BACKOFF_INITIAL : Z := from_millis 250.
Definition BACKOFF_MAX : Z := from_secs 5.
Definition MAX_BUNDLE_FRAME : Z := 4 * 1024 * 1024.
Definition FILTER_TAG : Z := 0.

Record MirrorStats := {
  tpu_packets_sent : Z;
  be_packets_sent : Z;
  control_sent : Z;
  bundles_sent : Z;
  bundles_received : Z;
  filters_received : Z;
  dropped_oversized : Z;
  dropped_other : Z;
}.

Definition MirrorStats_default : MirrorStats := Build_MirrorStats 0 0 0 0 0 0 0 0.

(** The counters by name, so that [fetch_add] and [swap] are single definitions. *)
Inductive Counter :=
| CTpu | CBe | CControl | CBundlesSent | CBundlesReceived | CFilters | COversized | COther.

#[export] Instance Counter_eq_dec : EqDecision Counter.
Proof. solve_decision. Defined.

Definition counter (c : Counter) (s : MirrorStats) : Z :=
  match c with
  | CTpu => tpu_packets_sent s | CBe => be_packets_sent s | CControl => control_sent s
  | CBundlesSent => bundles_sent s | CBundlesReceived => bundles_received s
  | CFilters => filters_received s | COversized => dropped_oversized s | COther => dropped_other s
  end.

(** A set of counters given by its values. *)
Definition stats_of (f : Counter -> Z) : MirrorStats :=
  Build_MirrorStats (f CTpu) (f CBe) (f CControl) (f CBundlesSent) (f CBundlesReceived)
    (f CFilters) (f COversized) (f COther).

(** [AtomicU64::fetch_add], which wraps around. *)
Definition fetch_add (c : Counter) (n : Z) (s : MirrorStats) : MirrorStats :=
  stats_of (fun c' => if decide (c' = c) then u64_add (counter c s) n else counter c' s).

Lemma counter_stats_of c f : counter c (stats_of f) = f c.
Proof. by destruct c. Qed.

Lemma counter_fetch_add c c' n s :
  counter c' (fetch_add c n s) = if decide (c' = c) then u64_add (counter c s) n else counter c' s.
Proof. apply counter_stats_of. Qed.

(** ** Datagrams *)

Inductive SendDatagramError := UnsupportedByPeer | Disabled | TooLarge | ConnectionLost.

(** [C] are connection handles, [W] the state of the transport; [dg_taken w c] are the
    datagrams the connection has accepted so far. *)
Class Datagrams (C W : Type) := {
  dg_send : C -> bytes -> W -> result unit SendDatagramError * W;
  dg_taken : W -> C -> list bytes;
}.

Class DatagramsLaws (C W : Type) `{!Datagrams C W} := {
  dg_send_ok c f w w' : dg_send c f w = (Ok tt, w') -> dg_taken w' c = dg_taken w c ++ [f];
  dg_send_err c f w w' e : dg_send c f w = (Err e, w') -> dg_taken w' c = dg_taken w c;
}.

(** [now_nanos]; [t] is the system time relative to the epoch, which may be negative. *)
Definition now_nanos (t : Z) : Z := wrap 64 (Z.max 0 t).

(** The buffers of the crate bytes; [split_freeze] is [split().freeze()], which takes what has
    been written and leaves the rest of the allocation. *)
Class BytesMut (B : Type) := {
  buf_bytes : B -> bytes;
  reserve : nat -> B -> B;
  put_u8 : Z -> B -> B;
  put_u64_le : Z -> B -> B;
  put_slice : bytes -> B -> B;
  split_freeze : B -> bytes * B;
}.

Class BytesMutLaws (B : Type) `{!BytesMut B} := {
  reserve_bytes n b : buf_bytes (reserve n b) = buf_bytes b;
  put_u8_bytes v b : buf_bytes (put_u8 v b) = buf_bytes b ++ [u8_of v];
  put_u64_le_bytes v b : buf_bytes (put_u64_le v b) = buf_bytes b ++ to_le_bytes 8 v;
  put_slice_bytes d b : buf_bytes (put_slice d b) = buf_bytes b ++ d;
  split_taken b : (split_freeze b).1 = buf_bytes b;
  split_left b : buf_bytes (split_freeze b).2 = [];
}.

(** The closure over [SEND_BUF]: the frame, and the buffer it leaves behind. *)
Definition send_frame {B} `{!BytesMut B} (source t : Z) (data : bytes) (buf : B) : bytes * B :=
  let buf := reserve (1 + 8 + length data) buf in
  let buf := put_u8 source buf in
  let buf := put_u64_le (now_nanos t) buf in
  let buf := put_slice data buf in
  split_freeze buf.

(** The counter of a datagram that was sent. *)
Definition sent_counter (source : Z) : Counter :=
  if source =? SOURCE_RELAYER then CTpu
  else if source =? SOURCE_CONTROL then CControl
  else CBe.

Section send.
Context {C W : Type} `{!Datagrams C W} {B : Type} `{!BytesMut B}.

Definition Mirror_send (conn : option C) (source : Z) (data : bytes) (t : Z)
    (buf : B) (stats : MirrorStats) (w : W) : B * MirrorStats * W :=
  match conn with
  | None => (buf, stats, w)
  | Some conn =>
      let '(frame, buf') := send_frame source t data buf in
      let '(r, w') := dg_send conn frame w in
      match r with
      | Ok _ => (buf', fetch_add (sent_counter source) 1 stats, w')
      | Err TooLarge => (buf', fetch_add COversized 1 stats, w')
      | Err _ => (buf', fetch_add COther 1 stats, w')
      end
  end.

(** One pass of [mirror_control] after a tick: [last] is the identity logged last. *)
Definition mirror_control_tick (validator : option Pubkey) (conn : option C) (t : Z)
    (last : option Pubkey) (buf : B) (stats : MirrorStats) (w : W)
    : option Pubkey * (B * MirrorStats * W) :=
  match validator with
  | None => (last, (buf, stats, w))
  | Some identity =>
      let last := if decide (last = Some identity) then last else Some identity in
      (last, Mirror_send conn SOURCE_CONTROL identity t buf stats w)
  end.

End send.

(** ** Filters *)

(** [ingest_filter]; [now] is the time [FilterSet::insert] reads. *)
Definition ingest_filter (bs : bytes) (now : Z) (fs : FilterSet) (stats : MirrorStats)
    : FilterSet * MirrorStats :=
  match bs with
  | [] => (fs, stats)
  | tag :: signature =>
      if negb (u8_val tag =? FILTER_TAG) then (fs, stats)
      else match array_try_from 64 signature with
           | None => (fs, stats)
           | Some signature => (FilterSet_insert signature now fs, fetch_add CFilters 1 stats)
           end
  end.

(** ** Bundle streams *)

Class Prost := {
  bundles_encode : SubscribeBundlesResponse -> option bytes;
  bundles_decode : bytes -> option SubscribeBundlesResponse;
}.

(** Decoding undoes encoding. *)
Class ProstLaws `{!Prost} :=
  bundles_decode_encode r b : bundles_encode r = Some b -> bundles_decode b = Some r.

(** [write_all] on a stream: all of the data, or an error after the first [k] bytes. *)
Definition write_all (fail : option nat) (data : bytes) : bytes * bool :=
  match fail with
  | Some k => if (k <? length data)%nat then (take k data, false) else (data, true)
  | None => (data, true)
  end.

(** [&(buf.len() as u32).to_le_bytes()]. *)
Definition len_prefix (buf : bytes) : bytes := to_le_bytes 4 (wrap 32 (Z.of_nat (length buf))).

Section bundle_streams.
Context `{!Prost}.

Record mb_state := {
  mb_running : bool;
  mb_stream : bytes;      (* what has been written to the stream *)
  mb_stats : MirrorStats;
}.

(** [MbRecv r w1 w2]: [rx.recv()] yields [r]; [w1] and [w2] are the outcomes of the two
    [write_all]. *)
Inductive mb_event :=
| MbShutdown
| MbRecv (r : @broadcast_recv SubscribeBundlesResponse) (w1 w2 : option nat).

Definition mb_init (stats : MirrorStats) : mb_state :=
  {| mb_running := true; mb_stream := []; mb_stats := stats |}.

(** One iteration of the loop of [mirror_bundles_out]. *)
Definition mb_step (st : mb_state) (ev : mb_event) : mb_state :=
  if negb (mb_running st) then st
  else
  let stop := {| mb_running := false; mb_stream := mb_stream st; mb_stats := mb_stats st |} in
  match ev with
  | MbShutdown => stop
  | MbRecv (Received resp) w1 w2 =>
      match bundles_encode resp with
      | None => st
      | Some buf =>
          let '(out1, ok1) := write_all w1 (len_prefix buf) in
          if negb ok1 then
            {| mb_running := false; mb_stream := mb_stream st ++ out1; mb_stats := mb_stats st |}
          else
          let '(out2, ok2) := write_all w2 buf in
          if negb ok2 then
            {| mb_running := false; mb_stream := mb_stream st ++ out1 ++ out2;
               mb_stats := mb_stats st |}
          else
            {| mb_running := true; mb_stream := mb_stream st ++ out1 ++ out2;
               mb_stats := fetch_add CBundlesSent (wrap 64 (Z.of_nat (length (sb_bundles resp))))
                             (mb_stats st) |}
      end
  | MbRecv (Lagged _) _ _ => st
  | MbRecv Closed _ _ => stop
  end.

Definition mb_exec (st : mb_state) (evs : list mb_event) : mb_state := fold_left mb_step evs st.

(** [read_exact]: the next [n] bytes of a stream and the rest, an error when it ends before. *)
Definition read_exact (n : nat) (input : bytes) : option (bytes * bytes) :=
  if (n <=? length input)%nat then Some (take n input, drop n input) else None.

(** [read_bundle_stream] on a stream of which [input] arrives; [shutdown i] is what the
    [i]-th look at the flag sees.  The result is what is sent to [out] and the counters.
    Every iteration that goes on has read four bytes, so the length of the input bounds
    the iterations. *)
Fixpoint read_bundle_loop (fuel : nat) (shutdown : nat -> bool) (i : nat) (input : bytes)
    (out : list SubscribeBundlesResponse) (stats : MirrorStats)
    : list SubscribeBundlesResponse * MirrorStats :=
  match fuel with
  | O => (out, stats)
  | S fuel' =>
      if shutdown i then (out, stats)
      else
      match read_exact 4 input with
      | None => (out, stats)
      | Some (len_buf, input) =>
          let len := from_le_bytes len_buf in
          if MAX_BUNDLE_FRAME <? len then (out, stats)
          else
          match read_exact (Z.to_nat len) input with
          | None => (out, stats)
          | Some (buf, input) =>
              match bundles_decode buf with
              | Some resp =>
                  read_bundle_loop fuel' shutdown (S i) input (out ++ [resp])
                    (fetch_add CBundlesReceived (wrap 64 (Z.of_nat (length (sb_bundles resp)))) stats)
              | None => read_bundle_loop fuel' shutdown (S i) input out stats
              end
          end
      end
  end.

Definition read_bundle_stream (shutdown : nat -> bool) (input : bytes) (stats : MirrorStats)
    : list SubscribeBundlesResponse * MirrorStats :=
  read_bundle_loop (S (length input)) shutdown 0 input [] stats.

End bundle_streams.

(** ** The connection loop *)

Section run.
Context {C : Type}.

Inductive mr_pc :=
| MrHead            (* at the condition of the loop *)
| MrConnecting      (* awaiting connect *)
| MrServing         (* in serve_connection *)
| MrCheck           (* at the second look at the shutdown flag *)
| MrSleeping
| MrDone.

Record mr_state := {
  mr_pc_ : mr_pc;
  mr_backoff : Z;
  mr_conn : option C;     (* self.conn *)
}.

Inductive mr_event :=
| MrBorrow (shutdown : bool)
| MrConnect (r : result C string)
| MrServed
| MrWoke.

Inductive mr_action :=
| Sleep (d : Z)
| CloseEndpoint.

Definition mr_init : mr_state :=
  {| mr_pc_ := MrHead; mr_backoff := BACKOFF_INITIAL; mr_conn := None |}.

(** [run] after the endpoint has been made; [None] when the event is not what it waits for. *)
Definition mr_step (st : mr_state) (ev : mr_event) : option (mr_state * list mr_action) :=
  match mr_pc_ st, ev with
  | MrHead, MrBorrow true =>
      Some ({| mr_pc_ := MrDone; mr_backoff := mr_backoff st; mr_conn := mr_conn st |}, [CloseEndpoint])
  | MrHead, MrBorrow false =>
      Some ({| mr_pc_ := MrConnecting; mr_backoff := mr_backoff st; mr_conn := mr_conn st |}, [])
  | MrConnecting, MrConnect (Ok conn) =>
      Some ({| mr_pc_ := MrServing; mr_backoff := BACKOFF_INITIAL; mr_conn := Some conn |}, [])
  | MrConnecting, MrConnect (Err _) =>
      Some ({| mr_pc_ := MrCheck; mr_backoff := mr_backoff st; mr_conn := mr_conn st |}, [])
  | MrServing, MrServed =>
      Some ({| mr_pc_ := MrCheck; mr_backoff := mr_backoff st; mr_conn := None |}, [])
  | MrCheck, MrBorrow true =>
      Some ({| mr_pc_ := MrDone; mr_backoff := mr_backoff st; mr_conn := mr_conn st |}, [CloseEndpoint])
  | MrCheck, MrBorrow false =>
      Some ({| mr_pc_ := MrSleeping; mr_backoff := mr_backoff st; mr_conn := mr_conn st |},
            [Sleep (mr_backoff st)])
  | MrSleeping, MrWoke =>
      Some ({| mr_pc_ := MrHead; mr_backoff := Z.min (mr_backoff st * 2) BACKOFF_MAX;
               mr_conn := mr_conn st |}, [])
  | _, _ => None
  end.

Fixpoint mr_exec (st : mr_state) (evs : list mr_event) : option (mr_state * list mr_action) :=
  match evs with
  | [] => Some (st, [])
  | ev :: evs' =>
      '(st1, acts1) ← mr_step st ev;
      '(st2, acts2) ← mr_exec st1 evs';
      Some (st2, acts1 ++ acts2)
  end.

End run.
Arguments mr_state C : clear implicits.
Arguments mr_event C : clear implicits.

(** ** The reporter *)

(** One tick of [report_stats]: every counter is swapped with 0, in the order of the code;
    what is logged are the values taken, in two lines that appear only if there is something
    to say. *)
Record StatsReport := { reported : Counter -> Z; log_totals : bool; log_dropped : bool }.

Definition report_tick (s : MirrorStats) : StatsReport * MirrorStats :=
  ({| reported := fun c => counter c s;
      log_totals := (0 <? tpu_packets_sent s) || (0 <? be_packets_sent s) ||
                    (0 <? bundles_sent s) || (0 <? bundles_received s) || (0 <? filters_received s);
      log_dropped := (0 <? dropped_oversized s) || (0 <? dropped_other s) |},
   stats_of (fun _ => 0)).

(** ** Lemmas: datagrams *)

(** The receiver's view of a datagram: source, time, payload. *)
Definition parse_frame (f : bytes) : option (Z * Z * bytes) :=
  match f with
  | [] => None
  | s :: rest =>
      if (8 <=? length rest)%nat
      then Some (u8_val s, from_le_bytes (take 8 rest), drop 8 rest)
      else None
  end.

Lemma parse_send_frame {B} `{!BytesMut B} `{!BytesMutLaws B} source t data (buf : B) :
  0 <= source < 256 -> 0 <= t < 2 ^ 64 -> buf_bytes buf = [] ->
  parse_frame (send_frame source t data buf).1 = Some (source, t, data) /\
  buf_bytes (send_frame source t data buf).2 = [].
Proof.
  intros Hs Ht Hbuf. unfold send_frame, now_nanos. split; [|apply split_left].
  rewrite split_taken, put_slice_bytes, put_u64_le_bytes, put_u8_bytes, reserve_bytes, Hbuf.
  rewrite Z.max_r, wrap_small by lia. cbn [app]. unfold parse_frame.
  pose proof (length_to_le_bytes 8 t) as Hl.
  rewrite length_app, Hl. change ((8 <=? 8 + length data)%nat) with true. cbv iota.
  rewrite u8_val_of, Z.mod_small by lia. rewrite take_app_length', drop_app_length' by done.
  by rewrite from_to_le_bytes_small.
Qed.

Definition sent_total (s : MirrorStats) : Z :=
  tpu_packets_sent s + be_packets_sent s + control_sent s.
Definition dropped_total (s : MirrorStats) : Z := dropped_oversized s + dropped_other s.

(** The counters of the datagrams are below [b]. *)
Definition stats_below (b : Z) (s : MirrorStats) : Prop := forall c, 0 <= counter c s < b.

Lemma stats_below_fetch_add b c s :
  b < 2 ^ 64 -> stats_below b s -> stats_below (b + 1) (fetch_add c 1 s).
Proof.
  intros Hb Hs c'. rewrite counter_fetch_add. pose proof (Hs c). pose proof (Hs c').
  case_decide; [rewrite u64_add_small|]; lia.
Qed.

Lemma sent_total_fetch_add b source s : b < 2 ^ 64 -> stats_below b s ->
  sent_total (fetch_add (sent_counter source) 1 s) = sent_total s + 1 /\
  dropped_total (fetch_add (sent_counter source) 1 s) = dropped_total s.
Proof.
  intros Hb Hs. pose proof (Hs (sent_counter source)) as Hc. unfold sent_total, dropped_total.
  unfold sent_counter in *. repeat case_match; simpl in *; rewrite u64_add_small by lia; lia.
Qed.

Lemma dropped_total_fetch_add b (e : SendDatagramError) s : b < 2 ^ 64 -> stats_below b s ->
  let c := match e with TooLarge => COversized | _ => COther end in
  sent_total (fetch_add c 1 s) = sent_total s /\
  dropped_total (fetch_add c 1 s) = dropped_total s + 1.
Proof.
  intros Hb Hs c. pose proof (Hs c) as Hc. unfold sent_total, dropped_total, c in *.
  destruct e; simpl in *; rewrite u64_add_small by lia; lia.
Qed.

Section send_lemmas.
Context {C W : Type} `{!Datagrams C W} `{!DatagramsLaws C W}.
Context {B : Type} `{!BytesMut B} `{!BytesMutLaws B}.

Abbreviation send_call := (Z * Z * bytes)%type.

(** A sequence of sends of one thread on one connection. *)
Definition Mirror_sends (conn : option C) (calls : list send_call) (buf : B)
    (stats : MirrorStats) (w : W) : B * MirrorStats * W :=
  fold_left (fun '(buf, stats, w) '(source, t, data) => Mirror_send conn source data t buf stats w)
    calls (buf, stats, w).

Definition send_call_ok (c : send_call) : Prop := 0 <= c.1.1 < 256 /\ 0 <= c.1.2 < 2 ^ 64.

(** One send on a connection, from an empty buffer: the frame decodes to the call, it is
    taken or not, and one counter says which. *)
Lemma Mirror_send_step c source t data b buf stats w :
  send_call_ok (source, t, data) -> b < 2 ^ 64 -> stats_below b stats -> buf_bytes buf = [] ->
  exists taken buf' stats' w', Mirror_send (Some c) source data t buf stats w = (buf', stats', w') /\
    buf_bytes buf' = [] /\ sublist taken [(source, t, data)] /\ stats_below (b + 1) stats' /\
    omap parse_frame (dg_taken w' c) = omap parse_frame (dg_taken w c) ++ taken /\
    sent_total stats' = sent_total stats + Z.of_nat (length taken) /\
    dropped_total stats' = dropped_total stats + 1 - Z.of_nat (length taken).
Proof.
  intros [Hs Ht] Hb Hst Hbuf. unfold Mirror_send.
  destruct (parse_send_frame source t data buf Hs Ht Hbuf) as [Hp Hbuf'].
  destruct (send_frame source t data buf) as [frame buf']. simpl in Hp, Hbuf'.
  destruct (dg_send c frame w) as [r w'] eqn:Es. destruct r as [[]|e].
  - exists [(source, t, data)], buf', (fetch_add (sent_counter source) 1 stats), w'.
    destruct (sent_total_fetch_add b source stats Hb Hst) as [-> ->].
    split_and!; try done; [by apply stats_below_fetch_add| |simpl; lia].
    rewrite (dg_send_ok _ _ _ _ Es), omap_app. csimpl. by rewrite Hp.
  - pose proof (dropped_total_fetch_add b e stats Hb Hst) as [Hs' Hd'].
    exists [], buf', (fetch_add (match e with TooLarge => COversized | _ => COther end) 1 stats), w'.
    rewrite Hs', Hd'. split_and!; try (simpl; lia); [by destruct e|done| |by apply stats_below_fetch_add|].
    { apply sublist_nil_l. }
    by rewrite (dg_send_err _ _ _ _ _ Es), app_nil_r.
Qed.

Lemma Mirror_sends_run c calls b buf stats w :
  Forall send_call_ok calls -> b + Z.of_nat (length calls) < 2 ^ 64 -> stats_below b stats ->
  buf_bytes buf = [] ->
  exists taken buf' stats' w', Mirror_sends (Some c) calls buf stats w = (buf', stats', w') /\
    buf_bytes buf' = [] /\ sublist taken calls /\
    omap parse_frame (dg_taken w' c) = omap parse_frame (dg_taken w c) ++ taken /\
    sent_total stats' = sent_total stats + Z.of_nat (length taken) /\
    dropped_total stats' = dropped_total stats + Z.of_nat (length calls) - Z.of_nat (length taken).
Proof.
  revert b buf stats w; induction calls as [|[[source t] data] calls IH]; intros b buf stats w Hok Hb Hst Hbuf.
  { exists [], buf, stats, w. split_and!; try (simpl; lia); [done|done|constructor|by rewrite app_nil_r]. }
  inversion_clear Hok as [|? ? Hc Hcs]. simpl in Hb.
  destruct (Mirror_send_step c source t data b buf stats w Hc ltac:(lia) Hst Hbuf)
    as (tk & buf1 & st1 & w1 & Hrun & Hbuf1 & Hsub & Hst1 & Htk & Hs1 & Hd1).
  destruct (IH (b + 1) buf1 st1 w1 Hcs ltac:(lia) Hst1 Hbuf1)
    as (tk2 & buf2 & st2 & w2 & Hrun2 & Hbuf2 & Hsub2 & Htk2 & Hs2 & Hd2).
  exists (tk ++ tk2), buf2, st2, w2. split_and!.
  - unfold Mirror_sends in *. cbn [fold_left]. rewrite Hrun. exact Hrun2.
  - done.
  - change ((source, t, data) :: calls) with ([(source, t, data)] ++ calls). by apply sublist_app.
  - by rewrite Htk2, Htk, app_assoc.
  - rewrite length_app. lia.
  - rewrite length_app. simpl length. lia.
Qed.

End send_lemmas.

(** ** Lemmas: bundle streams *)

Definition bundle_frame (body : bytes) : bytes := len_prefix body ++ body.

Definition body_fits (body : bytes) : Prop := Z.of_nat (length body) <= MAX_BUNDLE_FRAME.

Lemma length_len_prefix body : length (len_prefix body) = 4%nat.
Proof. apply length_to_le_bytes. Qed.

Lemma frames_cons body bodies :
  mjoin (bundle_frame <$> body :: bodies) = bundle_frame body ++ mjoin (bundle_frame <$> bodies).
Proof. done. Qed.

Lemma frames_snoc bodies body :
  mjoin (bundle_frame <$> bodies ++ [body]) = mjoin (bundle_frame <$> bodies) ++ bundle_frame body.
Proof. rewrite fmap_app, join_app. cbn [fmap list_fmap mjoin list_join]. by rewrite app_nil_r. Qed.

Lemma read_exact_app n a b : length a = n -> read_exact n (a ++ b) = Some (a, b).
Proof.
  intros Ha. unfold read_exact. rewrite length_app.
  assert ((n <=? length a + length b)%nat = true) as -> by (apply Nat.leb_le; lia).
  by rewrite take_app_length', drop_app_length'.
Qed.

Lemma read_exact_short n a : (length a < n)%nat -> read_exact n a = None.
Proof. intros Ha. unfold read_exact. by apply Nat.leb_gt in Ha as ->. Qed.

Lemma from_le_bytes_len body : body_fits body ->
  from_le_bytes (len_prefix body) = Z.of_nat (length body).
Proof.
  intros Hb. unfold body_fits, MAX_BUNDLE_FRAME in Hb. unfold len_prefix.
  rewrite wrap_small by lia. apply from_to_le_bytes_small. lia.
Qed.

(** [tail] is the beginning of a frame, without its end. *)
Definition partial_frame (tail : bytes) : Prop :=
  tail = [] \/ exists body rest, body_fits body /\ rest <> [] /\ bundle_frame body = tail ++ rest.

Section stream_lemmas.
Context `{!Prost}.

Lemma read_bundle_loop_partial fuel i tail out stats :
  partial_frame tail -> read_bundle_loop fuel (fun _ => false) i tail out stats = (out, stats).
Proof.
  intros Htail. destruct fuel as [|fuel]; [done|]. cbn [read_bundle_loop].
  destruct (decide (length tail < 4)%nat) as [Hlt|Hge]; [by rewrite read_exact_short|].
  destruct Htail as [->|(body & rest & Hb & Hr & Hf)]; [simpl in Hge; lia|].
  unfold bundle_frame in Hf. pose proof (length_len_prefix body) as Hl.
  assert (exists tail', tail = len_prefix body ++ tail' /\
    body = tail' ++ rest) as (tail' & -> & Hbody).
  { exists (drop 4 tail). rewrite <- (take_drop 4 tail), <- app_assoc in Hf.
    apply app_inj_1 in Hf as [Hf1 Hf2]; [|rewrite Hl, length_take; lia].
    split; [|done]. by rewrite Hf1, take_drop. }
  rewrite read_exact_app, from_le_bytes_len by done.
  assert ((MAX_BUNDLE_FRAME <? Z.of_nat (length body)) = false) as -> by (apply Z.ltb_ge; done).
  rewrite Nat2Z.id, read_exact_short; [done|]. rewrite Hbody, length_app.
  destruct rest; [done|]. simpl. lia.
Qed.

(** What counting the bundles of a sequence of responses leaves in the counters. *)
Definition add_bundles (c : Counter) (resps : list SubscribeBundlesResponse) (stats : MirrorStats)
    : MirrorStats :=
  fold_left (fun s r => fetch_add c (wrap 64 (Z.of_nat (length (sb_bundles r)))) s) resps stats.

Lemma counter_add_bundles c resps stats c' stats' :
  counter c stats = counter c' stats' ->
  counter c (add_bundles c resps stats) = counter c' (add_bundles c' resps stats').
Proof.
  revert stats stats'; induction resps as [|r resps IH]; intros stats stats' Heq; [done|].
  apply IH. rewrite !counter_fetch_add, !decide_True by done. by rewrite Heq.
Qed.

Lemma read_bundle_loop_frames bodies tail fuel i out stats :
  Forall body_fits bodies -> partial_frame tail -> (length bodies < fuel)%nat ->
  read_bundle_loop fuel (fun _ => false) i (mjoin (bundle_frame <$> bodies) ++ tail) out stats =
  (out ++ omap bundles_decode bodies, add_bundles CBundlesReceived (omap bundles_decode bodies) stats).
Proof.
  intros Hb Htail. revert fuel i out stats.
  induction Hb as [|body bodies Hb _ IH]; intros fuel i out stats Hfuel.
  { simpl. rewrite read_bundle_loop_partial by done. by rewrite app_nil_r. }
  destruct fuel as [|fuel]; [simpl in Hfuel; lia|]. simpl in Hfuel.
  rewrite frames_cons. cbn [read_bundle_loop]. unfold bundle_frame at 1. rewrite <- !app_assoc.
  rewrite read_exact_app by (apply length_len_prefix). rewrite from_le_bytes_len by done.
  assert ((MAX_BUNDLE_FRAME <? Z.of_nat (length body)) = false) as -> by (apply Z.ltb_ge; done).
  rewrite Nat2Z.id, read_exact_app by done.
  change (omap bundles_decode (body :: bodies)) with
    (match bundles_decode body with
     | Some r => r :: omap bundles_decode bodies | None => omap bundles_decode bodies end).
  destruct (bundles_decode body) as [r|]; rewrite IH by lia; [|done]. by rewrite <- app_assoc.
Qed.

Lemma length_frames bodies : (length bodies <= length (mjoin (bundle_frame <$> bodies)))%nat.
Proof.
  induction bodies as [|body bodies IH]; [done|]. rewrite frames_cons.
  unfold bundle_frame at 1. rewrite !length_app, length_len_prefix. simpl. lia.
Qed.

Lemma read_bundle_stream_frames bodies tail stats :
  Forall body_fits bodies -> partial_frame tail ->
  read_bundle_stream (fun _ => false) (mjoin (bundle_frame <$> bodies) ++ tail) stats =
  (omap bundles_decode bodies, add_bundles CBundlesReceived (omap bundles_decode bodies) stats).
Proof.
  intros Hb Ht. unfold read_bundle_stream. rewrite read_bundle_loop_frames; [done..|].
  rewrite length_app. pose proof (length_frames bodies). lia.
Qed.

(** *** The writer *)

(** The responses the writer received and could write in full, in order, until it stopped. *)
Definition mb_written (ev : mb_event) : option SubscribeBundlesResponse :=
  match ev with
  | MbRecv (Received resp) w1 w2 =>
      match bundles_encode resp with
      | Some buf =>
          if (write_all w1 (len_prefix buf)).2 && (write_all w2 buf).2
          then Some resp else None
      | None => None
      end
  | _ => None
  end.

(** Every response that is encoded fits into a frame. *)
Definition mb_fits (ev : mb_event) : Prop :=
  match ev with
  | MbRecv (Received resp) _ _ => forall buf, bundles_encode resp = Some buf -> body_fits buf
  | _ => True
  end.

Lemma write_all_ok fail data : (write_all fail data).2 = true -> (write_all fail data).1 = data.
Proof. destruct fail as [k|]; simpl; [|done]. by destruct (k <? length data)%nat. Qed.

Lemma write_all_err fail data : (write_all fail data).2 = false ->
  exists rest, rest <> [] /\ data = (write_all fail data).1 ++ rest.
Proof.
  destruct fail as [k|]; simpl; [|done]. destruct (Nat.ltb_spec k (length data)) as [Hk|]; [|done].
  intros _. exists (drop k data). split; [|simpl; by rewrite take_drop].
  intros Hd. apply (f_equal length) in Hd. rewrite length_drop in Hd. simpl in Hd. lia.
Qed.

(** What the stream holds: whole frames, and at most one partial one after the writer has
    stopped; the counter has the bundles of the whole ones. *)
Definition mb_inv (stats0 : MirrorStats) (sent : list SubscribeBundlesResponse) (st : mb_state)
    : Prop :=
  mb_stats st = add_bundles CBundlesSent sent stats0 /\
  exists bodies tail, mb_stream st = mjoin (bundle_frame <$> bodies) ++ tail /\
    Forall2 (fun r b => bundles_encode r = Some b) sent bodies /\
    Forall body_fits bodies /\ partial_frame tail /\ (mb_running st = true -> tail = []).

Lemma mb_step_inv stats0 sent st ev :
  mb_fits ev -> mb_inv stats0 sent st -> mb_running st = true ->
  mb_inv stats0 (sent ++ option_list (mb_written ev)) (mb_step st ev).
Proof.
  intros Hfit (Hstats & bodies & tail & Hs & Henc & Hb & Ht & Htl) Hrun.
  rewrite (Htl Hrun), app_nil_r in Hs. clear Ht Htl tail.
  assert (Hsame : forall tail b, partial_frame tail -> (b = true -> tail = []) ->
    mb_inv stats0 (sent ++ [])
      {| mb_running := b; mb_stream := mb_stream st ++ tail; mb_stats := mb_stats st |}).
  { intros tail b Ht Hb'. rewrite app_nil_r. split; [done|]. exists bodies, tail. simpl. by rewrite Hs. }
  assert (Hstop : forall b, mb_inv stats0 (sent ++ [])
    {| mb_running := b; mb_stream := mb_stream st; mb_stats := mb_stats st |}).
  { intros b. rewrite <- (app_nil_r (mb_stream st)). apply Hsame; [by left | done]. }
  assert (Hst : mb_inv stats0 (sent ++ []) st) by (destruct st; apply Hstop).
  unfold mb_step. rewrite Hrun. simpl negb. cbv iota.
  destruct ev as [|[resp|n|] w1 w2]; cbn [mb_written option_list]; try apply Hstop; try apply Hst.
  cbn in Hfit. destruct (bundles_encode resp) as [buf|] eqn:Ee; [|apply Hst].
  specialize (Hfit buf eq_refl). remember (len_prefix buf) as len eqn:Elen.
  pose proof (write_all_ok w1 len) as Hok1. pose proof (write_all_err w1 len) as Herr1.
  pose proof (write_all_ok w2 buf) as Hok2. pose proof (write_all_err w2 buf) as Herr2.
  destruct (write_all w1 len) as [out1 ok1], (write_all w2 buf) as [out2 ok2]. simpl in *.
  destruct ok1; simpl.
  - rewrite Hok1 by done. destruct ok2; simpl.
    + rewrite Hok2 by done.
      split; [simpl; unfold add_bundles in *; by rewrite fold_left_app, Hstats|].
      exists (bodies ++ [buf]), []. simpl. split_and!.
      * rewrite frames_snoc, app_nil_r, Hs. unfold bundle_frame at 3. by rewrite <- Elen.
      * by apply Forall2_app; [|constructor].
      * apply Forall_app. by split; [|constructor].
      * by left.
      * done.
    + destruct (Herr2 eq_refl) as (rest & Hr & Hbuf). apply Hsame; [|done]. right.
      exists buf, rest. split_and!; try done. unfold bundle_frame. rewrite <- Elen.
      by rewrite <- app_assoc, <- Hbuf.
  - destruct (Herr1 eq_refl) as (rest & Hr & Hlen). apply Hsame; [|done]. right.
    exists buf, (rest ++ buf). split_and!; try done; [by destruct rest|].
    unfold bundle_frame. rewrite <- Elen. by rewrite Hlen at 1; rewrite <- app_assoc.
Qed.

Lemma omap_decode_encoded `{!ProstLaws} sent bodies :
  Forall2 (fun r b => bundles_encode r = Some b) sent bodies -> omap bundles_decode bodies = sent.
Proof.
  induction 1 as [|r b sent bodies Hrb _ IH]; [done|]. csimpl.
  by rewrite (bundles_decode_encode _ _ Hrb), IH.
Qed.

Lemma mb_exec_stopped evs st : mb_running st = false -> mb_exec st evs = st.
Proof.
  induction evs as [|ev evs IH]; intros Hrun; [done|]. unfold mb_exec in *. cbn [fold_left].
  assert (mb_step st ev = st) as -> by (unfold mb_step; by rewrite Hrun). by apply IH.
Qed.

Lemma mb_exec_inv evs stats0 sent st :
  Forall mb_fits evs -> mb_inv stats0 sent st -> mb_running st = true ->
  exists sent', mb_inv stats0 (sent ++ sent') (mb_exec st evs) /\ sent' `prefix_of` omap mb_written evs /\
    (mb_running (mb_exec st evs) = true -> sent' = omap mb_written evs).
Proof.
  intros Hfit. revert sent st; induction Hfit as [|ev evs Hf _ IH]; intros sent st Hinv Hrun.
  { exists []. rewrite app_nil_r. done. }
  pose proof (mb_step_inv stats0 sent st ev Hf Hinv Hrun) as Hinv'.
  change (mb_exec st (ev :: evs)) with (mb_exec (mb_step st ev) evs).
  assert (omap mb_written (ev :: evs) = option_list (mb_written ev) ++ omap mb_written evs) as ->.
  { cbn [omap list_omap]. by destruct (mb_written ev). }
  destruct (mb_running (mb_step st ev)) eqn:Er.
  - destruct (IH _ _ Hinv' Er) as (sent' & Hi & Hp & Hall).
    exists (option_list (mb_written ev) ++ sent'). rewrite app_assoc. split; [done|].
    split; [by apply prefix_app | intros Hr; by rewrite (Hall Hr)].
  - rewrite mb_exec_stopped by done. exists (option_list (mb_written ev)).
    split; [done|]. split; [by apply prefix_app_r | congruence].
Qed.

End stream_lemmas.

(** ** Lemmas: the connection loop *)

Section run_lemmas.
Context {C : Type}.
Implicit Types st : mr_state C.

Definition backoff_ok (d : Z) : Prop := BACKOFF_INITIAL <= d <= BACKOFF_MAX.

Definition mr_inv st : Prop :=
  backoff_ok (mr_backoff st) /\ (is_Some (mr_conn st) <-> mr_pc_ st = MrServing).

Lemma mr_step_inv st ev st' acts : mr_inv st -> mr_step st ev = Some (st', acts) ->
  mr_inv st' /\ forall d, Sleep d ∈ acts -> backoff_ok d.
Proof.
  intros [Hb Hc] Hs. unfold mr_inv, mr_step, backoff_ok, is_Some in *.
  unfold BACKOFF_INITIAL, BACKOFF_MAX, from_millis, from_secs, NANOS in *.
  repeat case_match; simplify_eq; simpl in *;
    (split; [split; [lia|] |]); try set_solver; try naive_solver.
Qed.

Lemma mr_exec_inv evs st st' acts : mr_inv st -> mr_exec st evs = Some (st', acts) ->
  mr_inv st' /\ forall d, Sleep d ∈ acts -> backoff_ok d.
Proof.
  revert st acts; induction evs as [|ev evs IH]; intros st acts Hi He; simpl in He.
  { simplify_eq. split; [done|]. set_solver. }
  apply bind_Some in He as ([st1 a1] & H1 & He). apply bind_Some in He as ([st2 a2] & H2 & He).
  simplify_eq. destruct (mr_step_inv _ _ _ _ Hi H1) as [Hi1 Ha1].
  destruct (IH _ _ Hi1 H2) as [Hi2 Ha2]. split; [done|]. set_solver.
Qed.

(** An attempt to connect that fails, and the sleep after it. *)
Definition failed_attempt (e : string) : list (mr_event C) :=
  [MrBorrow false; MrConnect (Err e); MrBorrow false; MrWoke].

(** The sleep after [k] earlier failures: doubling from 250 ms up to 5 s. *)
Definition backoff_after (k : nat) : Z := Z.min (BACKOFF_INITIAL * 2 ^ Z.of_nat k) BACKOFF_MAX.

Lemma backoff_after_S k : backoff_after (S k) = Z.min (backoff_after k * 2) BACKOFF_MAX.
Proof.
  unfold backoff_after. rewrite Nat2Z.inj_succ, Z.pow_succ_r by lia.
  assert (0 < BACKOFF_INITIAL * 2 ^ Z.of_nat k).
  { apply Z.mul_pos_pos; [done|]. apply Z.pow_pos_nonneg; lia. }
  unfold BACKOFF_MAX, from_secs, NANOS in *. lia.
Qed.

Lemma mr_exec_app evs1 evs2 st st1 a1 st2 a2 :
  mr_exec st evs1 = Some (st1, a1) -> mr_exec st1 evs2 = Some (st2, a2) ->
  mr_exec st (evs1 ++ evs2) = Some (st2, a1 ++ a2).
Proof.
  revert st a1; induction evs1 as [|ev evs1 IH]; intros st a1 H1 H2; simpl in *; [by simplify_eq|].
  apply bind_Some in H1 as ([st' a'] & Hs & H1). apply bind_Some in H1 as ([st'' a''] & Hr & H1).
  simplify_eq. rewrite Hs. simpl. rewrite (IH _ _ Hr H2). simpl. by rewrite app_assoc.
Qed.

Lemma mr_exec_failures errs k (conn : option C) :
  mr_exec {| mr_pc_ := MrHead; mr_backoff := backoff_after k; mr_conn := conn |}
    (errs ≫= failed_attempt) =
  Some ({| mr_pc_ := MrHead; mr_backoff := backoff_after (k + length errs); mr_conn := conn |},
        Sleep ∘ backoff_after <$> seq k (length errs)).
Proof.
  revert k; induction errs as [|e errs IH]; intros k; [by rewrite Nat.add_0_r|].
  change ((e :: errs) ≫= failed_attempt) with (failed_attempt e ++ (errs ≫= failed_attempt)).
  assert (Hone : mr_exec {| mr_pc_ := MrHead; mr_backoff := backoff_after k; mr_conn := conn |}
    (failed_attempt e) = Some ({| mr_pc_ := MrHead; mr_backoff := backoff_after (S k);
                                  mr_conn := conn |}, [Sleep (backoff_after k)]))
    by (rewrite backoff_after_S; reflexivity).
  rewrite (mr_exec_app _ _ _ _ _ _ _ Hone (IH (S k))).
  by rewrite Nat.add_succ_l, <- Nat.add_succ_r.
Qed.

End run_lemmas.

(** ** Properties *)

(** C22. Mirroring is faithful and accounted for.  Whatever a thread sends over a connection, the
    buffer it keeps between calls never leaks from one datagram into the next: the datagrams
    the connection takes decode to exactly some of the calls, in order, with their source,
    time and payload, and the counters tell how many were sent and how many dropped, so that
    no call goes uncounted.  Without a connection a call does nothing. *)
Theorem mirror_sends_decode {C W} `{DatagramsLaws C W} {B} `{BytesMutLaws B} (c : C) calls
    (buf : B) (w : W) :
  Forall send_call_ok calls -> Z.of_nat (length calls) < 2 ^ 64 - 1 -> buf_bytes buf = [] ->
  (exists taken buf' stats w',
     Mirror_sends (Some c) calls buf MirrorStats_default w = (buf', stats, w') /\
     buf_bytes buf' = [] /\ sublist taken calls /\
     omap parse_frame (dg_taken w' c) = omap parse_frame (dg_taken w c) ++ taken /\
     sent_total stats = Z.of_nat (length taken) /\
     dropped_total stats = Z.of_nat (length calls) - Z.of_nat (length taken)) /\
  Mirror_sends None calls buf MirrorStats_default w = (buf, MirrorStats_default, w).
Proof.
  intros Hok Hlen Hbuf. split.
  - destruct (Mirror_sends_run c calls 1 buf MirrorStats_default w Hok ltac:(lia))
      as (taken & buf' & stats & w' & Hrun & Hbuf' & Hsub & Htk & Hs & Hd); [by intros []|done|].
    exists taken, buf', stats, w'. split_and!; try done; rewrite ?Hs, ?Hd; simpl; lia.
  - clear Hok Hlen Hbuf. unfold Mirror_sends. induction calls as [|[[source t] data] calls IH]; [done|].
    exact IH.
Qed.

(** C34. A filter datagram takes effect: of all datagrams, exactly those of 65 bytes that start
    with the tag 0 are taken, they add their last 64 bytes to the filter set and are counted,
    and from then on every transaction with that first signature is withheld (until a sweep);
    any other datagram changes nothing. *)
Theorem ingest_filter_correct bs now fs stats :
  (forall sig, bs = Byte.x00 :: sig -> length sig = 64%nat ->
     fs_map (ingest_filter bs now fs stats).1 = <[sig := now]> (fs_map fs) /\
     FilterSet_wf (ingest_filter bs now fs stats).1 /\
     (ingest_filter bs now fs stats).2 = fetch_add CFilters 1 stats /\
     forall count rest,
       withheld (fs_map (ingest_filter bs now fs stats).1) (count :: sig ++ rest)) /\
  ((forall sig, bs = Byte.x00 :: sig -> length sig <> 64%nat) ->
   ingest_filter bs now fs stats = (fs, stats)).
Proof.
  split.
  - intros sig -> Hl. simpl.
    assert (array_try_from 64 sig = Some sig) as -> by (by apply array_try_from_Some).
    simpl. split_and!; try done. intros count rest.
    exists sig. split; [apply first_signature_Some; eauto|]. set_solver.
  - intros Hno. destruct bs as [|tag sig]; [done|]. simpl. unfold FILTER_TAG.
    destruct (Z.eqb_spec (u8_val tag) 0) as [Ht|]; [|done]. simpl.
    assert (tag = Byte.x00) as -> by (by apply u8_val_inj).
    destruct (array_try_from 64 sig) as [s|] eqn:Ea; [|done].
    apply array_try_from_Some in Ea as [Hl _]. by destruct (Hno sig eq_refl).
Qed.

(** C21. Bundles survive the stream: as long as encoded responses fit into a frame of 4 MiB,
    reading what the writer has put on a stream yields the responses it wrote in full, in
    order and unchanged, even if the stream broke off in the middle of a frame; while the
    writer runs these are all it received and could encode, and both ends count the same
    number of bundles. *)
Theorem bundle_stream_round_trip `{ProstLaws} evs stats stats' :
  Forall mb_fits evs -> bundles_sent stats = bundles_received stats' ->
  let st := mb_exec (mb_init stats) evs in
  let '(out, stats_out) := read_bundle_stream (fun _ => false) (mb_stream st) stats' in
  out `prefix_of` omap mb_written evs /\
  (mb_running st = true -> out = omap mb_written evs) /\
  bundles_received stats_out = bundles_sent (mb_stats st).
Proof.
  intros Hfit Hcnt st.
  destruct (mb_exec_inv evs stats [] (mb_init stats) Hfit) as (sent & Hinv & Hpre & Hall); [|done|].
  { split; [done|]. exists [], []. split_and!; try constructor; done. }
  destruct Hinv as (Hst & bodies & tail & Hs & Henc & Hb & Ht & _). subst st. rewrite Hs, Hst.
  rewrite read_bundle_stream_frames by done.
  rewrite (omap_decode_encoded sent) by done.
  split_and!; [done | done |].
  symmetry. apply (counter_add_bundles CBundlesSent sent stats CBundlesReceived stats'), Hcnt.
Qed.

(** C39. The connection loop.  A connection is set exactly while it is being served, so nothing is
    sent over a connection that is being made or was closed; every sleep is between 250 ms and
    5 s; after a successful connection the sleeps start over, and while attempts keep failing
    the k-th sleep is 250 ms doubled k times, capped at 5 s. *)
Theorem mirror_run_backoff {C} evs (st : mr_state C) acts :
  mr_exec mr_init evs = Some (st, acts) ->
  (is_Some (mr_conn st) <-> mr_pc_ st = MrServing) /\
  (forall d, Sleep d ∈ acts -> from_millis 250 <= d <= from_secs 5) /\
  (mr_pc_ st = MrConnecting -> forall conn errs, exists st',
     mr_exec st (MrConnect (Ok conn) :: MrServed :: MrBorrow false :: MrWoke ::
                 (errs ≫= failed_attempt)) =
     Some (st', Sleep <$> backoff_after 0 :: (backoff_after <$> seq 1 (length errs)))).
Proof.
  intros He. destruct (mr_exec_inv evs mr_init st acts) as [[_ Hc] Ha]; [|done|].
  { split; [split; vm_compute; discriminate|]. simpl. split; [by intros [? ?] | done]. }
  split; [done|]. split; [exact Ha|]. intros Hpc conn errs. eexists.
  apply (mr_exec_app [MrConnect (Ok conn); MrServed; MrBorrow false; MrWoke] _ _
    {| mr_pc_ := MrHead; mr_backoff := backoff_after 1; mr_conn := None |}
    [Sleep (backoff_after 0)]).
  - destruct st as [pc b cn]. simpl in Hpc. subst pc. reflexivity.
  - rewrite mr_exec_failures. by rewrite list_fmap_compose.
Qed.

(** ** Witnesses *)

(** A connection that takes datagrams of up to 20 bytes. *)
#[export] Instance toy_datagrams : Datagrams unit (list bytes) := {|
  dg_send _ f w := if (length f <=? 20)%nat then (Ok tt, w ++ [f]) else (Err TooLarge, w);
  dg_taken w _ := w;
|}.

#[export] Instance toy_datagrams_laws : DatagramsLaws unit (list bytes).
Proof. constructor; simpl; intros c f w w'; [|intros e]; case_match; by intros [= <-]. Qed.

Definition toy_calls : list (Z * Z * bytes) :=
  [(0, 5, [Byte.x01; Byte.x02]); (1, 7, replicate 64 Byte.x03); (2, 9, replicate 3 Byte.x04)].

#[export] Instance list_bytes_mut : BytesMut bytes := {|
  buf_bytes b := b;
  reserve _ b := b;
  put_u8 v b := b ++ [u8_of v];
  put_u64_le v b := b ++ to_le_bytes 8 v;
  put_slice d b := b ++ d;
  split_freeze b := (b, []);
|}.

#[export] Instance list_bytes_mut_laws : BytesMutLaws bytes.
Proof. by constructor. Qed.

Lemma mirror_sends_decode_witness :
  (exists taken buf' stats w',
     Mirror_sends (Some tt) toy_calls [] MirrorStats_default [] = (buf', stats, w') /\
     buf_bytes buf' = [] /\ sublist taken toy_calls /\
     omap parse_frame (dg_taken w' tt) = omap parse_frame (dg_taken ([] : list bytes) tt) ++ taken /\
     sent_total stats = Z.of_nat (length taken) /\
     dropped_total stats = Z.of_nat (length toy_calls) - Z.of_nat (length taken)) /\
  Mirror_sends None toy_calls [] MirrorStats_default ([] : list bytes) = ([], MirrorStats_default, []).
Proof.
  apply (mirror_sends_decode tt toy_calls ([] : bytes) ([] : list bytes)).
  - repeat constructor; simpl; lia.
  - simpl. lia.
  - reflexivity.
Defined.

(** Of the three datagrams two are taken and one is too large. *)
Example toy_sends :
  let '(buf, stats, w) := Mirror_sends (Some tt) toy_calls [] MirrorStats_default [] in
  buf = [] /\ omap parse_frame w = [(0, 5, [Byte.x01; Byte.x02]); (2, 9, replicate 3 Byte.x04)] /\
  stats = Build_MirrorStats 1 0 1 0 0 0 1 0.
Proof. vm_compute. done. Qed.

Lemma ingest_filter_correct_witness :
  withheld (fs_map (ingest_filter (Byte.x00 :: replicate 64 Byte.x09) 3 FilterSet_default
                      MirrorStats_default).1) (Byte.x01 :: replicate 64 Byte.x09 ++ [Byte.x05]).
Proof.
  destruct (ingest_filter_correct (Byte.x00 :: replicate 64 Byte.x09) 3 FilterSet_default
    MirrorStats_default) as [Hin _].
  destruct (Hin (replicate 64 Byte.x09) eq_refl eq_refl) as (_ & _ & _ & Hw). apply Hw.
Defined.

(** Responses that carry only empty bundles, written as one byte for each. *)
Definition toy_prost : Prost := {|
  bundles_encode r :=
    if decide (Forall (fun b => bu_bundle b = None /\ bu_uuid b = EmptyString) (sb_bundles r))
    then Some (replicate (length (sb_bundles r)) Byte.x01) else None;
  bundles_decode b :=
    Some {| sb_bundles := replicate (length b) {| bu_bundle := None; bu_uuid := EmptyString |} |};
|}.

Lemma toy_prost_laws : @ProstLaws toy_prost.
Proof.
  intros [bs] b. simpl. case_decide as Hf; [|done]. intros [= <-]. rewrite length_replicate.
  do 2 f_equal. induction Hf as [|[? ?] bs [??] _ IH]; simpl in *; [done|]. by subst; rewrite IH.
Qed.

Definition toy_bundles (n : nat) : SubscribeBundlesResponse :=
  {| sb_bundles := replicate n {| bu_bundle := None; bu_uuid := EmptyString |} |}.

(** The second write of the third response breaks off after one byte. *)
Definition toy_writes : list mb_event :=
  [MbRecv (Received (toy_bundles 2)) None None; MbRecv (Lagged 4) None None;
   MbRecv (Received (toy_bundles 3)) None None; MbRecv (Received (toy_bundles 5)) None (Some 1%nat)].

Lemma toy_writes_fit : Forall (@mb_fits toy_prost) toy_writes.
Proof.
  assert (Hsmall : forall n w1 w2, (n <= 5)%nat ->
    @mb_fits toy_prost (MbRecv (Received (toy_bundles n)) w1 w2)).
  { intros n w1 w2 Hn buf. simpl. case_decide; [|done]. intros [= <-].
    unfold body_fits, MAX_BUNDLE_FRAME. rewrite !length_replicate. lia. }
  unfold toy_writes. repeat (apply Forall_cons; split; [first [apply Hsmall; lia | done]|]). constructor.
Qed.

Lemma bundle_stream_round_trip_witness :
  let st := @mb_exec toy_prost (mb_init MirrorStats_default) toy_writes in
  let '(out, stats_out) :=
    @read_bundle_stream toy_prost (fun _ => false) (mb_stream st) MirrorStats_default in
  (out `prefix_of` omap (@mb_written toy_prost) toy_writes /\
   (mb_running st = true -> out = omap (@mb_written toy_prost) toy_writes) /\
   bundles_received stats_out = bundles_sent (mb_stats st)) /\
  out = [toy_bundles 2; toy_bundles 3] /\ bundles_received stats_out = 5.
Proof.
  pose proof (@bundle_stream_round_trip toy_prost toy_prost_laws toy_writes MirrorStats_default
    MirrorStats_default toy_writes_fit eq_refl) as Hrt.
  cbv zeta in Hrt. intros st. fold st in Hrt.
  destruct (@read_bundle_stream toy_prost (fun _ => false) (mb_stream st) MirrorStats_default)
    as [out stats_out] eqn:Er.
  split; [exact Hrt|]. vm_compute in Er. by simplify_eq.
Defined.

Lemma mirror_run_backoff_witness :
  exists st', mr_exec {| mr_pc_ := MrConnecting; mr_backoff := BACKOFF_INITIAL; mr_conn := None |}
    (MrConnect (Ok tt) :: MrServed :: MrBorrow false :: MrWoke ::
      (["refused"; "refused"] ≫= failed_attempt)) =
  Some (st', Sleep <$> [from_millis 250; from_millis 500; from_millis 1000]).
Proof.
  destruct (mirror_run_backoff (C := unit) [MrBorrow false]
    {| mr_pc_ := MrConnecting; mr_backoff := BACKOFF_INITIAL; mr_conn := None |} [] eq_refl)
    as (_ & _ & Hs).
  exact (Hs eq_refl tt ["refused"; "refused"]).
Defined.
