(* ===== verification/KeyFiles.v ===== *)
(** * The JWT key files (src/src/relayer/mod.rs)

    The relayer signs its tokens with an RSA key it reads from a file and verifies them with
    a public key it reads from another; each file is made when it is missing.  The file
    models [load_or_generate_keys] and what [Relayer::new] makes of the two contents, as
    programs over a file system that end with the panic of an [expect], an [unwrap] or an
    [unwrap_or_else]; a panic leaves what was written until then.  The crate openssl is
    behind [RsaCrypto]. *)

From S2P Require Import Prelude Bytes Protos Grpc.

Local Open Scope Z_scope.

(** How a panic shows: with the message of [expect] or [panic!], or as an [unwrap]. *)
Inductive panic :=
| PanicMessage (msg : string)
| PanicUnwrap.

(** ** Paths

    A path as [Path::components] reads it: whether it is absolute, and the components
    without empty ones and [.].  Symbolic links and [..] are not resolved. *)

Abbreviation path := (bool * list string)%type.

Definition SLASH : Ascii.ascii := Ascii.ascii_of_nat 47.

Fixpoint split_slash (s : string) : list string :=
  match s with
  | EmptyString => [EmptyString]
  | String c s' =>
      if Ascii.eqb c SLASH then EmptyString :: split_slash s'
      else match split_slash s' with
           | p :: ps => String c p :: ps
           | [] => [String c EmptyString]
           end
  end.

Definition normal_component (c : string) : bool :=
  negb (String.eqb c EmptyString) && negb (String.eqb c ".").

Definition to_path (s : string) : path :=
  (match s with String c _ => Ascii.eqb c SLASH | EmptyString => false end,
   List.filter normal_component (split_slash s)).

(** [Path::parent]. *)
Definition parent (p : path) : option path :=
  match reverse p.2 with
  | [] => None
  | _ :: rest => Some (p.1, reverse rest)
  end.

(** The text of a path in messages, with the quotes of [{:?}]; without what [to_path] leaves out. *)
Fixpoint join_slash (cs : list string) : string :=
  match cs with
  | [] => EmptyString
  | [c] => c
  | c :: cs' => c +:+ "/" +:+ join_slash cs'
  end.

Definition show_path (p : path) : string :=
  QUOTE +:+ (if p.1 then "/" else EmptyString) +:+ join_slash p.2 +:+ QUOTE.

(** ** Files *)

Inductive node :=
| File (data : bytes) (mode : Z) (readable : bool)     (* whether the process may read it *)
| Dir.

Record Fs := { nodes : gmap path node }.

(** The root and the current directory are there. *)
Definition node_at (fs : Fs) (p : path) : option node :=
  match p.2 with [] => Some Dir | _ => nodes fs !! p end.

Definition set_node (p : path) (n : node) (fs : Fs) : Fs := {| nodes := <[p := n]> (nodes fs) |}.

(** Failures the operating system may add to those of the tree: of [mkdir], of [write] (on
    opening, or after so many bytes), of [chmod]; with their texts. *)
Record FsEnv := {
  fe_mkdir : path -> option string;
  fe_write : path -> option (string * option nat);
  fe_chmod : path -> option string;
}.

Definition ENOENT : string := "No such file or directory (os error 2)".
Definition EEXIST : string := "File exists (os error 17)".
Definition ENOTDIR : string := "Not a directory (os error 20)".
Definition EISDIR : string := "Is a directory (os error 21)".

Definition DEFAULT_MODE : Z := 420.      (* 0o644 under the usual umask *)
Definition SECRET_MODE : Z := 384.       (* 0o600 *)

(** Programs over the file system. *)
Definition Io (A : Type) : Type := Fs -> result A panic * Fs.

#[export] Instance Io_ret : MRet Io := fun _ a fs => (Ok a, fs).
#[export] Instance Io_bind : MBind Io := fun _ _ k m fs =>
  match m fs with
  | (Ok a, fs') => k a fs'
  | (Err e, fs') => (Err e, fs')
  end.

Definition io_expect {A} (o : option A) (msg : string) : Io A := fun fs =>
  (match o with Some a => Ok a | None => Err (PanicMessage msg) end, fs).

Definition io_unwrap {A} (o : option A) : Io A := fun fs =>
  (match o with Some a => Ok a | None => Err PanicUnwrap end, fs).

(** [op.unwrap_or_else(|e| panic!("{msg}: {e}"))]. *)
Definition unwrap_or_panic {A} (op : Fs -> result A string * Fs) (msg : string) : Io A := fun fs =>
  match op fs with
  | (Ok a, fs') => (Ok a, fs')
  | (Err e, fs') => (Err (PanicMessage (msg +:+ ": " +:+ e)), fs')
  end.

(** ** Operations of [std::fs] *)

Definition fs_exists (p : path) (fs : Fs) : bool :=
  match node_at fs p with Some _ => true | None => false end.

Definition is_file (p : path) (fs : Fs) : bool :=
  match node_at fs p with Some (File _ _ _) => true | _ => false end.

Definition fs_read (p : path) (fs : Fs) : option bytes :=
  match node_at fs p with Some (File data _ true) => Some data | _ => None end.

Section os.
Context (env : FsEnv).

(** [fs::write] truncates or creates the file; a failure on the way leaves what was written. *)
Definition fs_write (p : path) (data : bytes) (fs : Fs) : result unit string * Fs :=
  match parent p with
  | None => (Err EISDIR, fs)
  | Some d =>
      match node_at fs d, node_at fs p with
      | None, _ => (Err ENOENT, fs)
      | Some (File _ _ _), _ => (Err ENOTDIR, fs)
      | Some Dir, Some Dir => (Err EISDIR, fs)
      | Some Dir, old =>
          let '(mode, readable) :=
            match old with Some (File _ m r) => (m, r) | _ => (DEFAULT_MODE, true) end in
          match fe_write env p with
          | Some (e, None) => (Err e, fs)
          | Some (e, Some k) => (Err e, set_node p (File (take k data) mode readable) fs)
          | None => (Ok tt, set_node p (File data mode readable) fs)
          end
      end
  end.

(** [fs::create_dir_all], on the components last first: the missing directories are made from
    the outermost on. *)
Fixpoint create_dir_all (absolute : bool) (rcomps : list string) (fs : Fs) : result unit string * Fs :=
  match rcomps with
  | [] => (Ok tt, fs)
  | _ :: rest =>
      let p := (absolute, reverse rcomps) in
      match nodes fs !! p with
      | Some Dir => (Ok tt, fs)
      | Some (File _ _ _) => (Err EEXIST, fs)
      | None =>
          if is_file (absolute, reverse rest) fs then (Err ENOTDIR, fs)
          else
            match create_dir_all absolute rest fs with
            | (Err e, fs') => (Err e, fs')
            | (Ok _, fs') =>
                match fe_mkdir env p with
                | Some e => (Err e, fs')
                | None => (Ok tt, set_node p Dir fs')
                end
            end
      end
  end.

(** [fs::set_permissions]. *)
Definition fs_chmod (p : path) (mode : Z) (fs : Fs) : result unit string * Fs :=
  match node_at fs p with
  | None => (Err ENOENT, fs)
  | Some n =>
      match fe_chmod env p, n with
      | Some e, _ => (Err e, fs)
      | None, File data _ r => (Ok tt, set_node p (File data mode r) fs)
      | None, Dir => (Ok tt, fs)
      end
  end.

(** ** The keys *)

Definition ensure_parent_dir (p : path) : Io unit :=
  match parent p with
  | Some parent =>
      if bool_decide (parent = (false, [])) then mret tt
      else unwrap_or_panic (create_dir_all parent.1 (reverse parent.2))
             ("Failed to create key directory " +:+ show_path parent)
  | None => mret tt
  end.

Definition restrict_permissions (p : path) : Io unit :=
  unwrap_or_panic (fs_chmod p SECRET_MODE) ("Failed to set permissions on " +:+ show_path p).

Definition read_key (p : path) (msg : string) : Io bytes := fun fs =>
  io_expect (fs_read p fs) (msg +:+ show_path p) fs.
End os.

Class RsaCrypto (SKey VKey : Type) := {
  rsa_generate : nat -> option SKey;
  private_key_to_pem : SKey -> option bytes;
  private_key_from_pem : bytes -> option SKey;
  public_of : SKey -> VKey;
  public_key_to_pem : SKey -> option bytes;
  public_key_from_pem : bytes -> option VKey;
}.

(** PEM texts can be read back. *)
Class RsaCryptoLaws (SKey VKey : Type) `{!RsaCrypto SKey VKey} := {
  private_pem_round sk pem : private_key_to_pem sk = Some pem -> private_key_from_pem pem = Some sk;
  public_pem_round sk pem : public_key_to_pem sk = Some pem -> public_key_from_pem pem = Some (public_of sk);
}.

Section keys.
Context {SKey VKey : Type} `{!RsaCrypto SKey VKey} (env : FsEnv).

(** The first half of [load_or_generate_keys].  [seed] stands for the randomness of
    [Rsa::generate]. *)
Definition make_signing_key (sp : path) (seed : nat) : Io unit := fun fs =>
  (if fs_exists sp fs then mret tt
   else
     _ ← ensure_parent_dir env sp;
     rsa ← io_expect (rsa_generate seed) "Failed to generate RSA signing key";
     pem ← io_expect (private_key_to_pem rsa) "Failed to serialize signing key to PEM";
     _ ← unwrap_or_panic (fs_write env sp pem) ("Failed to write signing key " +:+ show_path sp);
     restrict_permissions env sp) fs.

(** The second half. *)
Definition make_verifying_key (vp : path) (private_key : bytes) : Io unit := fun fs =>
  (if fs_exists vp fs then mret tt
   else
     _ ← ensure_parent_dir env vp;
     pkey ← io_expect (private_key_from_pem private_key)
              "Failed to parse signing key when deriving public key";
     pem ← io_expect (public_key_to_pem pkey) "Failed to serialize verifying key to PEM";
     unwrap_or_panic (fs_write env vp pem) ("Failed to write verifying key " +:+ show_path vp)) fs.

Definition load_or_generate_keys (signing verifying : string) (seed : nat) : Io (bytes * bytes) :=
  let sp := to_path signing in
  let vp := to_path verifying in
  _ ← make_signing_key sp seed;
  private_key ← read_key sp "Failed to read signing key file: ";
  _ ← make_verifying_key vp private_key;
  public_key ← read_key vp "Failed to read verifying key file: ";
  mret (private_key, public_key).

(** The keys of [Relayer::new]. *)
Definition relayer_keys (signing verifying : string) (seed : nat) : Io (SKey * VKey) :=
  '(private_key, public_key) ← load_or_generate_keys signing verifying seed;
  sk ← io_unwrap (private_key_from_pem private_key);
  vk ← io_unwrap (public_key_from_pem public_key);
  mret (sk, vk).

End keys.

(** ** Lemmas *)

Lemma string_app_assoc (a b c : string) : (a +:+ b) +:+ c = a +:+ b +:+ c.
Proof. induction a as [|x a IH]; [done|]. change (String x ((a +:+ b) +:+ c) = String x (a +:+ b +:+ c)). by rewrite IH. Qed.

Lemma Io_bind_Ok {A B} (m : Io A) (k : A -> Io B) fs b fs' :
  (m ≫= k) fs = (Ok b, fs') -> exists a fs1, m fs = (Ok a, fs1) /\ k a fs1 = (Ok b, fs').
Proof. unfold mbind, Io_bind. destruct (m fs) as [[a|e] fs1]; intros He; [by exists a, fs1 | done]. Qed.

(** What may happen to the tree, apart from the paths [ps]: directories are added. *)
Definition grown (ps : list path) (fs fs' : Fs) : Prop :=
  forall q, q ∉ ps ->
    nodes fs' !! q = nodes fs !! q \/ (nodes fs !! q = None /\ nodes fs' !! q = Some Dir).

(** ... by a program, whatever its outcome. *)
Definition io_grows {A} (ps : list path) (m : Io A) : Prop :=
  forall fs r fs', m fs = (r, fs') -> grown ps fs fs'.

Lemma grown_refl ps fs : grown ps fs fs.
Proof. by intros q _; left. Qed.

Lemma grown_trans ps fs1 fs2 fs3 : grown ps fs1 fs2 -> grown ps fs2 fs3 -> grown ps fs1 fs3.
Proof.
  intros H1 H2 q Hq. destruct (H1 q Hq) as [E1|[E1 E1']], (H2 q Hq) as [E2|[E2 E2']];
    [left | right | right |]; naive_solver congruence.
Qed.

Lemma grown_mono ps ps' fs fs' : ps ⊆ ps' -> grown ps fs fs' -> grown ps' fs fs'.
Proof. intros Hs Hg q Hq. apply Hg. set_solver. Qed.

Lemma grows_bind {A B} ps (m : Io A) (k : A -> Io B) :
  io_grows ps m -> (forall a, io_grows ps (k a)) -> io_grows ps (m ≫= k).
Proof.
  intros Hm Hk fs r fs'. unfold mbind, Io_bind. destruct (m fs) as [[a|e] fs1] eqn:E.
  - intros He. eapply grown_trans; [by eapply Hm | by eapply Hk].
  - intros [= _ <-]. by eapply Hm.
Qed.

Lemma grows_pure {A} ps (f : Fs -> result A panic) : io_grows ps (fun fs => (f fs, fs)).
Proof. intros fs r fs' [= _ <-]. apply grown_refl. Qed.

Lemma grows_unwrap {A} ps (op : Fs -> result A string * Fs) msg :
  (forall fs, grown ps fs (op fs).2) -> io_grows ps (unwrap_or_panic op msg).
Proof.
  intros Ho fs r fs'. unfold unwrap_or_panic. specialize (Ho fs).
  destruct (op fs) as [[a|e] fs1]; by intros [= _ <-].
Qed.

Lemma set_node_grown p n fs : grown [p] fs (set_node p n fs).
Proof. intros q Hq. left. simpl. rewrite lookup_insert_ne; [done|]. set_solver. Qed.

Section lemmas.
Context (env : FsEnv).

(** Directories are made at prefixes only. *)
Lemma create_dir_all_grown abs rcomps fs :
  grown [] fs (create_dir_all env abs rcomps fs).2 /\
  forall q, (length rcomps < length q.2)%nat -> nodes (create_dir_all env abs rcomps fs).2 !! q = nodes fs !! q.
Proof.
  revert fs; induction rcomps as [|c rest IH]; intros fs; [split; [apply grown_refl | done]|].
  cbn [create_dir_all]. set (p := (abs, reverse (c :: rest))).
  destruct (nodes fs !! p) as [[]|] eqn:Hp; try (split; [apply grown_refl | done]).
  destruct (is_file (abs, reverse rest) fs); [split; [apply grown_refl | done]|].
  destruct (IH fs) as [Hg Hl]. destruct (create_dir_all env abs rest fs) as [[[]|e] fs1] eqn:E; simpl in *.
  - assert (length p.2 = S (length rest)) as Hlen by (unfold p; simpl; by rewrite length_reverse).
    destruct (fe_mkdir env p); simpl; (split; [|intros q Hq; try (apply Hl; lia)]).
    + done.
    + intros q Hq. simpl. destruct (decide (q = p)) as [->|Hne].
      * right. by rewrite lookup_insert_eq.
      * rewrite lookup_insert_ne by done. by apply Hg.
    + rewrite lookup_insert_ne; [apply Hl; lia|]. intros ->. lia.
  - split; [done|]. intros q Hq. apply Hl. lia.
Qed.

Lemma parent_shorter p d : parent p = Some d -> length p.2 = S (length d.2).
Proof.
  unfold parent. destruct (reverse p.2) as [|c rest] eqn:E; [done|]. intros [= <-]. simpl.
  rewrite length_reverse. apply (f_equal length) in E. by rewrite length_reverse in E.
Qed.

Lemma ensure_parent_dir_grows p : io_grows [] (ensure_parent_dir env p).
Proof.
  unfold ensure_parent_dir. destruct (parent p) as [d|]; [|apply grows_pure].
  case_bool_decide; [apply grows_pure|]. apply grows_unwrap. intros fs. apply create_dir_all_grown.
Qed.

Lemma ensure_parent_dir_self p fs r fs' :
  ensure_parent_dir env p fs = (r, fs') -> nodes fs' !! p = nodes fs !! p.
Proof.
  unfold ensure_parent_dir. destruct (parent p) as [d|] eqn:Hd; [|by intros [= _ <-]].
  case_bool_decide; [by intros [= _ <-]|]. unfold unwrap_or_panic.
  destruct (create_dir_all_grown d.1 (reverse d.2) fs) as [_ Hl].
  destruct (create_dir_all env d.1 (reverse d.2) fs) as [[]fs1]; intros [= _ <-]; apply Hl;
    rewrite length_reverse; apply parent_shorter in Hd; lia.
Qed.

Lemma fs_write_grown p data fs : grown [p] fs (fs_write env p data fs).2.
Proof.
  unfold fs_write. repeat case_match; simpl; try apply grown_refl; apply set_node_grown.
Qed.

Lemma fs_write_Ok p data fs u fs' :
  fs_write env p data fs = (Ok u, fs') -> nodes fs !! p = None ->
  nodes fs' !! p = Some (File data DEFAULT_MODE true) /\ p.2 <> [].
Proof.
  unfold fs_write. intros Hw Hn. destruct (parent p) as [d|] eqn:Hd; [|done].
  assert (p.2 <> []) as Hp by (apply parent_shorter in Hd; by intros E; rewrite E in Hd).
  assert (node_at fs p = None) as Hnp by (unfold node_at; by destruct p.2).
  rewrite Hnp in Hw. repeat case_match; simplify_eq. simpl. by rewrite lookup_insert_eq.
Qed.

Lemma fs_chmod_grown p m fs : grown [p] fs (fs_chmod env p m fs).2.
Proof. unfold fs_chmod. repeat case_match; simpl; try apply grown_refl; apply set_node_grown. Qed.

Lemma node_at_None fs p : node_at fs p = None -> nodes fs !! p = None.
Proof. unfold node_at. by destruct p.2. Qed.

Lemma fs_exists_false fs p : fs_exists p fs = false <-> node_at fs p = None.
Proof. unfold fs_exists. by destruct (node_at fs p). Qed.

Lemma fs_read_Some fs p data :
  fs_read p fs = Some data <-> p.2 <> [] /\ exists m, nodes fs !! p = Some (File data m true).
Proof.
  unfold fs_read, node_at. destruct p.2; [naive_solver|].
  destruct (nodes fs !! p) as [[d m []|]|]; naive_solver.
Qed.

End lemmas.

Section keys_lemmas.
Context {SKey VKey : Type} `{!RsaCrypto SKey VKey} (env : FsEnv).

Lemma make_signing_key_grows sp seed : io_grows [sp] (make_signing_key env sp seed).
Proof.
  intros fs r fs'. unfold make_signing_key. destruct (fs_exists sp fs); [by intros [= _ <-]; apply grown_refl|].
  revert fs r fs'. apply grows_bind.
  { intros fs r fs' He. eapply grown_mono; [|by eapply ensure_parent_dir_grows]. set_solver. }
  intros _. apply grows_bind; [apply grows_pure|]. intros rsa. apply grows_bind; [apply grows_pure|].
  intros pem. apply grows_bind; [apply grows_unwrap, fs_write_grown|]. intros _.
  apply grows_unwrap, fs_chmod_grown.
Qed.

Lemma make_verifying_key_grows vp priv : io_grows [vp] (make_verifying_key env vp priv).
Proof.
  intros fs r fs'. unfold make_verifying_key. destruct (fs_exists vp fs); [by intros [= _ <-]; apply grown_refl|].
  revert fs r fs'. apply grows_bind.
  { intros fs r fs' He. eapply grown_mono; [|by eapply ensure_parent_dir_grows]. set_solver. }
  intros _. apply grows_bind; [apply grows_pure|]. intros pk. apply grows_bind; [apply grows_pure|].
  intros pem. apply grows_unwrap, fs_write_grown.
Qed.

(** Nothing that existed is changed, whatever the outcome. *)
Definition keeps {A} (m : Io A) : Prop := forall fs r fs', m fs = (r, fs') -> nodes fs ⊆ nodes fs'.

Lemma keeps_bind {A B} (m : Io A) (k : A -> Io B) : keeps m -> (forall a, keeps (k a)) -> keeps (m ≫= k).
Proof.
  intros Hm Hk fs r fs'. unfold mbind, Io_bind. destruct (m fs) as [[a|e] fs1] eqn:E.
  - intros He. etrans; [by eapply Hm | by eapply Hk].
  - intros [= _ <-]. by eapply Hm.
Qed.

Lemma keeps_pure {A} (f : Fs -> result A panic) : keeps (fun fs => (f fs, fs)).
Proof. by intros fs r fs' [= _ <-]. Qed.

Lemma grown_keeps p fs fs' : nodes fs !! p = None -> grown [p] fs fs' -> nodes fs ⊆ nodes fs'.
Proof.
  intros Hp Hg. apply map_subseteq_spec. intros q n Hq.
  destruct (Hg q) as [E|[E _]]; [|congruence..]. intros ->%list_elem_of_singleton. congruence.
Qed.

Lemma make_signing_key_keeps sp seed : keeps (make_signing_key env sp seed).
Proof.
  intros fs r fs' He. pose proof (make_signing_key_grows sp seed fs r fs' He) as Hg.
  unfold make_signing_key in He. destruct (fs_exists sp fs) eqn:Ex; [by injection He as _ <-|].
  apply fs_exists_false, node_at_None in Ex. by eapply grown_keeps.
Qed.

Lemma make_verifying_key_keeps vp priv : keeps (make_verifying_key env vp priv).
Proof.
  intros fs r fs' He. pose proof (make_verifying_key_grows vp priv fs r fs' He) as Hg.
  unfold make_verifying_key in He. destruct (fs_exists vp fs) eqn:Ex; [by injection He as _ <-|].
  apply fs_exists_false, node_at_None in Ex. by eapply grown_keeps.
Qed.

Lemma relayer_keys_keeps signing verifying seed : keeps (relayer_keys env signing verifying seed).
Proof.
  unfold relayer_keys, load_or_generate_keys.
  repeat (apply keeps_bind; [|intros]); try apply make_signing_key_keeps; try apply make_verifying_key_keeps;
    try apply (keeps_pure (fun fs => _)).
  destruct a as [priv pub].
  repeat (apply keeps_bind; [|intros]); apply (keeps_pure (fun fs => _)).
Qed.

(** What the two halves leave behind when they succeed. *)
Lemma make_signing_key_Ok sp seed fs u fs' :
  make_signing_key env sp seed fs = (Ok u, fs') ->
  match node_at fs sp with
  | Some _ => fs' = fs
  | None => exists sk pem, rsa_generate seed = Some sk /\ private_key_to_pem sk = Some pem /\
              nodes fs' !! sp = Some (File pem SECRET_MODE true)
  end.
Proof.
  unfold make_signing_key, fs_exists. destruct (node_at fs sp) as [n|] eqn:Hn; [by intros [= _ <-]|].
  apply node_at_None in Hn. intros He.
  apply Io_bind_Ok in He as (u1 & fs1 & Hd & He). apply ensure_parent_dir_self in Hd as Hs.
  apply Io_bind_Ok in He as (sk & ? & H1 & He). unfold io_expect in H1.
  destruct (rsa_generate seed) as [sk'|]; simplify_eq.
  apply Io_bind_Ok in He as (pem & ? & H1 & He). unfold io_expect in H1.
  destruct (private_key_to_pem sk) as [pem'|] eqn:Hpem; simplify_eq.
  apply Io_bind_Ok in He as (u2 & fs2 & Hw & He). unfold unwrap_or_panic in Hw.
  destruct (fs_write env sp pem _) as [[[]|] fs2'] eqn:Ew; simplify_eq.
  apply fs_write_Ok in Ew as [Hf Hp]; [|congruence].
  exists sk, pem. split_and!; [done | done |].
  unfold restrict_permissions, unwrap_or_panic, fs_chmod, node_at in He.
  destruct sp.2 eqn:E; [done|]. rewrite Hf in He. destruct (fe_chmod env sp); [done|].
  injection He as _ <-. simpl. by rewrite lookup_insert_eq.
Qed.

Lemma make_verifying_key_Ok vp priv fs u fs' :
  make_verifying_key env vp priv fs = (Ok u, fs') ->
  match node_at fs vp with
  | Some _ => fs' = fs
  | None => exists sk pem, private_key_from_pem priv = Some sk /\ public_key_to_pem sk = Some pem /\
              nodes fs' !! vp = Some (File pem DEFAULT_MODE true)
  end.
Proof.
  unfold make_verifying_key, fs_exists. destruct (node_at fs vp) as [n|] eqn:Hn; [by intros [= _ <-]|].
  apply node_at_None in Hn. intros He.
  apply Io_bind_Ok in He as (u1 & fs1 & Hd & He). apply ensure_parent_dir_self in Hd as Hs.
  apply Io_bind_Ok in He as (sk & ? & H1 & He). unfold io_expect in H1.
  destruct (private_key_from_pem priv) as [sk'|]; simplify_eq.
  apply Io_bind_Ok in He as (pem & ? & H1 & He). unfold io_expect in H1.
  destruct (public_key_to_pem sk) as [pem'|] eqn:Hpem; simplify_eq.
  unfold unwrap_or_panic in He. destruct (fs_write env vp pem _) as [[[]|] fs2'] eqn:Ew; simplify_eq.
  apply fs_write_Ok in Ew as [Hf Hp]; [|congruence]. by exists sk, pem.
Qed.

Lemma read_key_Ok p msg fs data fs' :
  read_key p msg fs = (Ok data, fs') -> fs' = fs /\ fs_read p fs = Some data.
Proof. unfold read_key, io_expect. intros He. destruct (fs_read p fs); by simplify_eq. Qed.

(** Both halves together. *)
Lemma load_or_generate_keys_Ok signing verifying seed fs priv pub fs' :
  to_path signing <> to_path verifying ->
  load_or_generate_keys env signing verifying seed fs = (Ok (priv, pub), fs') ->
  fs_read (to_path signing) fs' = Some priv /\ fs_read (to_path verifying) fs' = Some pub /\
  (node_at fs (to_path signing) = None ->
     exists sk, rsa_generate seed = Some sk /\ private_key_to_pem sk = Some priv /\
       nodes fs' !! to_path signing = Some (File priv SECRET_MODE true)) /\
  (node_at fs (to_path verifying) = None ->
     exists sk, private_key_from_pem priv = Some sk /\ public_key_to_pem sk = Some pub) /\
  (node_at fs (to_path verifying) <> None -> fs_read (to_path verifying) fs = Some pub).
Proof.
  set (sp := to_path signing). set (vp := to_path verifying). intros Hne He.
  apply Io_bind_Ok in He as (u1 & fs1 & H1 & He).
  apply Io_bind_Ok in He as (p1 & fs1' & Hr1 & He). apply read_key_Ok in Hr1 as [-> Hr1].
  apply Io_bind_Ok in He as (u2 & fs2 & H2 & He).
  apply Io_bind_Ok in He as (p2 & fs2' & Hr2 & He). apply read_key_Ok in Hr2 as [-> Hr2].
  injection He as -> -> ->. fold sp in H1, Hr1. fold vp in H2, Hr2.
  pose proof (make_verifying_key_keeps _ _ _ _ _ H2) as Hk. rewrite map_subseteq_spec in Hk.
  pose proof (make_signing_key_grows _ _ _ _ _ H1 vp) as Hg1.
  apply make_signing_key_Ok in H1. apply make_verifying_key_Ok in H2.
  apply fs_read_Some in Hr1 as Hr1'. destruct Hr1' as (Hsp & m1 & Hn1).
  apply fs_read_Some in Hr2 as Hr2'. destruct Hr2' as (Hvp & m2 & Hn2).
  assert (node_at fs vp = nodes fs !! vp) as Evp by (unfold node_at; by destruct vp.2).
  assert (node_at fs1 vp = nodes fs1 !! vp) as Evp1 by (unfold node_at; by destruct vp.2).
  assert (nodes fs1 !! vp = nodes fs !! vp) as Eq.
  { destruct Hg1 as [Eq|[_ Eq]]; [by intros ?%list_elem_of_singleton | done |]. apply Hk in Eq. congruence. }
  split_and!.
  - apply fs_read_Some. split; [done|]. exists m1. by apply Hk.
  - done.
  - intros Hn. rewrite Hn in H1. destruct H1 as (sk & pem & Hg & Hp & Hf). exists sk.
    rewrite Hf in Hn1. injection Hn1 as <- <-. split_and!; [done | done |]. by apply Hk.
  - intros Hn. rewrite Evp1, Eq, <- Evp, Hn in H2. destruct H2 as (sk & pem & Hs & Hp & Hf). exists sk.
    rewrite Hf in Hn2. by simplify_eq.
  - intros Hn. rewrite Evp in Hn. rewrite Evp1, Eq in H2. destruct (nodes fs !! vp) as [n|] eqn:En; [|done].
    rewrite H2 in Hn2. apply fs_read_Some. split; [done|]. exists m2. congruence.
Qed.

(** With both files in place and readable nothing is written. *)
Lemma load_existing_keys signing verifying seed fs priv pub :
  fs_read (to_path signing) fs = Some priv -> fs_read (to_path verifying) fs = Some pub ->
  load_or_generate_keys env signing verifying seed fs = (Ok (priv, pub), fs).
Proof.
  intros Hs Hv. unfold load_or_generate_keys, mbind, Io_bind, make_signing_key, make_verifying_key, read_key.
  assert (forall p d, fs_read p fs = Some d -> fs_exists p fs = true) as Hx.
  { unfold fs_read, fs_exists. intros p d. by destruct (node_at fs p). }
  rewrite (Hx _ _ Hs). cbn [mret Io_ret]. rewrite Hs. cbn [io_expect]. rewrite (Hx _ _ Hv). cbn [mret Io_ret].
  by rewrite Hv.
Qed.

End keys_lemmas.

(** ** When generating succeeds *)

Definition ancestor (q p : path) : Prop := exists i, (0 < i < length p.2)%nat /\ q = (p.1, take i p.2).

(** There is room for a new file at [p]: nothing is there, what is above it is missing or a
    directory, and the missing directories can be made. *)
Record room (env : FsEnv) (fs : Fs) (p : path) : Prop := {
  room_comps : p.2 <> [];
  room_self : nodes fs !! p = None;
  room_above q : ancestor q p -> nodes fs !! q = None \/ nodes fs !! q = Some Dir;
  room_mkdir q : ancestor q p -> fe_mkdir env q = None;
}.

Lemma create_dir_all_Ok env abs rcomps fs :
  (forall i, (0 < i <= length rcomps)%nat -> let q := (abs, take i (reverse rcomps)) in
     (nodes fs !! q = None \/ nodes fs !! q = Some Dir) /\ fe_mkdir env q = None) ->
  exists fs', create_dir_all env abs rcomps fs = (Ok tt, fs') /\
    node_at fs' (abs, reverse rcomps) = Some Dir /\
    forall q, nodes fs' !! q = nodes fs !! q \/
      exists i, (0 < i <= length rcomps)%nat /\ q = (abs, take i (reverse rcomps)).
Proof.
  induction rcomps as [|c rest IH]; intros Hr.
  { exists fs. split_and!; [done | done | by left]. }
  set (p := (abs, reverse (c :: rest))).
  assert (forall i, (i <= length rest)%nat -> take i (reverse (c :: rest)) = take i (reverse rest)) as Htake.
  { intros i Hi. rewrite reverse_cons, take_app_le; [done|]. by rewrite length_reverse. }
  assert (take (S (length rest)) (reverse (c :: rest)) = reverse (c :: rest)) as Hfull.
  { apply take_ge. rewrite length_reverse. simpl. lia. }
  assert (forall fs', nodes fs' !! p = Some Dir -> node_at fs' p = Some Dir) as Hat.
  { intros fs' Hp. unfold node_at. by destruct p.2. }
  destruct (Hr (S (length rest))) as [Hp Hmk]; [simpl; lia|]. rewrite Hfull in Hp, Hmk. fold p in Hp, Hmk.
  cbn [create_dir_all]. fold p. destruct Hp as [Hp|Hp]; rewrite Hp; [|exists fs; split_and!; [done | by apply Hat | by left]].
  destruct IH as (fs1 & E1 & Hd & Hch).
  { intros i Hi. specialize (Hr i). rewrite Htake in Hr by lia. apply Hr. simpl. lia. }
  assert (is_file (abs, reverse rest) fs = false) as ->.
  { destruct rest as [|c' rest']; [done|]. destruct (Hr (length (c' :: rest'))) as [Hq _]; [simpl; lia|].
    rewrite Htake, take_ge in Hq by (rewrite ?length_reverse; simpl; lia).
    unfold is_file, node_at. simpl. destruct (reverse (c' :: rest')); [done|]. by destruct Hq as [-> | ->]. }
  rewrite E1, Hmk. exists (set_node p Dir fs1). split_and!; [done | apply Hat; simpl; by rewrite lookup_insert_eq |].
  intros q. destruct (decide (q = p)) as [->|Hq].
  - right. exists (S (length rest)). rewrite Hfull. split; [simpl; lia | done].
  - simpl. rewrite lookup_insert_ne by done. destruct (Hch q) as [Heq|(i & Hi & ->)]; [by left|].
    right. exists i. rewrite Htake by lia. split; [simpl; lia | done].
Qed.

Lemma parent_take p : p.2 <> [] -> parent p = Some (p.1, take (length p.2 - 1) p.2).
Proof.
  destruct p as [abs cs]. simpl. intros Hn. destruct cs as [|c cs] using rev_ind; [done|].
  unfold parent. simpl. rewrite reverse_app. simpl. rewrite reverse_involutive, length_app, take_app_le.
  - do 2 f_equal. rewrite take_ge; [done|]. simpl. lia.
  - simpl. lia.
Qed.

(** With room, the parent directory is there afterwards, and only ancestors were made. *)
Lemma ensure_parent_dir_Ok env p fs :
  room env fs p ->
  exists fs', ensure_parent_dir env p fs = (Ok tt, fs') /\
    (forall d, parent p = Some d -> node_at fs' d = Some Dir) /\
    (forall q, nodes fs' !! q = nodes fs !! q \/ ancestor q p).
Proof.
  intros [Hc _ Ha Hm]. unfold ensure_parent_dir. rewrite (parent_take p Hc).
  set (d := (p.1, take (length p.2 - 1) p.2)).
  case_bool_decide as Hd.
  { exists fs. split_and!; [done | intros ? [= <-]; by rewrite Hd | by left]. }
  assert (length d.2 = (length p.2 - 1)%nat) as Hlen by (unfold d; simpl; rewrite length_take; lia).
  assert (forall i, (i <= length d.2)%nat -> take i d.2 = take i p.2) as Ht.
  { intros i Hi. unfold d. simpl. rewrite take_take. f_equal. lia. }
  destruct (create_dir_all_Ok env d.1 (reverse d.2) fs) as (fs' & E & Hat & Hch).
  { intros i Hi. rewrite length_reverse in Hi. rewrite reverse_involutive, Ht by lia.
    assert (ancestor (p.1, take i p.2) p) as Han by (exists i; split; [lia | done]).
    split; [by apply Ha | by apply Hm]. }
  exists fs'. unfold unwrap_or_panic. rewrite E. rewrite reverse_involutive in Hat. split_and!; [done | |].
  - intros ? [= <-]. unfold d in Hat. simpl in Hat. exact Hat.
  - intros q. destruct (Hch q) as [Heq|(i & Hi & ->)]; [by left|]. right. rewrite length_reverse in Hi.
    exists i. rewrite reverse_involutive, Ht by lia. split; [lia | done].
Qed.

(** A new file is then written, as far as the operating system lets it. *)
Lemma fs_write_room env p data fs fs1 :
  room env fs p -> (forall d, parent p = Some d -> node_at fs1 d = Some Dir) -> nodes fs1 !! p = None ->
  fs_write env p data fs1 =
  match fe_write env p with
  | Some (e, None) => (Err e, fs1)
  | Some (e, Some k) => (Err e, set_node p (File (take k data) DEFAULT_MODE true) fs1)
  | None => (Ok tt, set_node p (File data DEFAULT_MODE true) fs1)
  end.
Proof.
  intros [Hc _ _ _] Hd Hn. unfold fs_write. rewrite (parent_take p Hc) in Hd |- *.
  rewrite (Hd _ eq_refl). assert (node_at fs1 p = None) as -> by (unfold node_at; by destruct p.2). done.
Qed.

Section generated.
Context {SKey VKey : Type} `{!RsaCrypto SKey VKey} (env : FsEnv).

(** Everything [make_signing_key] can end with when there is room. *)
Lemma make_signing_key_room sp seed fs sk pem :
  room env fs sp -> rsa_generate seed = Some sk -> private_key_to_pem sk = Some pem ->
  exists fs1, (forall q, nodes fs1 !! q = nodes fs !! q \/ ancestor q sp) /\ grown [] fs fs1 /\
    make_signing_key env sp seed fs =
    match fe_write env sp, fe_chmod env sp with
    | Some (e, None), _ =>
        (Err (PanicMessage ("Failed to write signing key " +:+ show_path sp +:+ ": " +:+ e)), fs1)
    | Some (e, Some k), _ =>
        (Err (PanicMessage ("Failed to write signing key " +:+ show_path sp +:+ ": " +:+ e)),
         set_node sp (File (take k pem) DEFAULT_MODE true) fs1)
    | None, Some e =>
        (Err (PanicMessage ("Failed to set permissions on " +:+ show_path sp +:+ ": " +:+ e)),
         set_node sp (File pem DEFAULT_MODE true) fs1)
    | None, None => (Ok tt, set_node sp (File pem SECRET_MODE true) fs1)
    end.
Proof.
  intros Hr Hg Hp. pose proof (room_comps _ _ _ Hr) as Hc. pose proof (room_self _ _ _ Hr) as Hn.
  destruct (ensure_parent_dir_Ok env sp fs Hr) as (fs1 & E1 & Hd & Hch).
  assert (nodes fs1 !! sp = None) as Hn1 by (by rewrite (ensure_parent_dir_self _ _ _ _ _ E1)).
  exists fs1. split; [done|]. split; [by eapply ensure_parent_dir_grows|].
  unfold make_signing_key. rewrite (proj2 (fs_exists_false fs sp)) by (unfold node_at; by destruct sp.2).
  unfold mbind, Io_bind, io_expect. rewrite E1, Hg, Hp. unfold restrict_permissions, unwrap_or_panic.
  rewrite (fs_write_room env sp pem fs fs1 Hr Hd Hn1).
  destruct (fe_write env sp) as [[e [k|]]|]; [by rewrite string_app_assoc..|].
  unfold fs_chmod, node_at. destruct sp.2 eqn:E; [done|].
  cbn [set_node nodes]. rewrite lookup_insert_eq.
  destruct (fe_chmod env sp); [by rewrite string_app_assoc|]. unfold set_node. simpl. by rewrite insert_insert_eq.
Qed.

Lemma make_verifying_key_room vp priv fs sk pem :
  room env fs vp -> fe_write env vp = None ->
  private_key_from_pem priv = Some sk -> public_key_to_pem sk = Some pem ->
  exists fs', make_verifying_key env vp priv fs = (Ok tt, fs') /\
    nodes fs' !! vp = Some (File pem DEFAULT_MODE true).
Proof.
  intros Hr Hw Hg Hp. pose proof (room_comps _ _ _ Hr) as Hc. pose proof (room_self _ _ _ Hr) as Hn.
  destruct (ensure_parent_dir_Ok env vp fs Hr) as (fs1 & E1 & Hd & Hch).
  assert (nodes fs1 !! vp = None) as Hn1 by (by rewrite (ensure_parent_dir_self _ _ _ _ _ E1)).
  exists (set_node vp (File pem DEFAULT_MODE true) fs1). split; [|simpl; by rewrite lookup_insert_eq].
  unfold make_verifying_key. rewrite (proj2 (fs_exists_false fs vp)) by (unfold node_at; by destruct vp.2).
  unfold mbind, Io_bind, io_expect. rewrite E1, Hg, Hp. unfold unwrap_or_panic.
  by rewrite (fs_write_room env vp pem fs fs1 Hr Hd Hn1), Hw.
Qed.

(** Making the signing key leaves room for the verifying key. *)
Lemma room_kept sp vp n fs fs1 :
  (forall q, nodes fs1 !! q = nodes fs !! q \/ ancestor q sp) -> grown [] fs fs1 ->
  vp <> sp -> ~ ancestor vp sp -> ~ ancestor sp vp -> room env fs vp -> room env (set_node sp n fs1) vp.
Proof.
  intros Hch Hgr Hne Hvs Hsv [Hc Hn Ha Hm]. split; [done | | | done].
  - simpl. rewrite lookup_insert_ne by done. by destruct (Hch vp) as [->|?].
  - intros q Hq. simpl. rewrite lookup_insert_ne by (by intros ->).
    destruct (Hgr q) as [->|[_ ->]]; [set_solver | auto | auto].
Qed.

(** A signing key file that is not a key ends every start. *)
Lemma corrupt_signing_key signing verifying seed fs bad :
  fs_read (to_path signing) fs = Some bad -> private_key_from_pem bad = None ->
  exists p, fst (relayer_keys env signing verifying seed fs : result (SKey * VKey) panic * Fs) = Err p.
Proof.
  intros Hr Hbad. destruct (relayer_keys env signing verifying seed fs) as [[ks|p] fs'] eqn:E; [|by exists p].
  apply Io_bind_Ok in E as ([priv pub] & fs1 & El & E).
  apply Io_bind_Ok in E as (sk & fs2 & Es & _). unfold io_unwrap in Es.
  assert (priv = bad) as ->; [|by rewrite Hbad in Es].
  apply Io_bind_Ok in El as (u & fs3 & H1 & El). apply Io_bind_Ok in El as (p1 & fs4 & Hr1 & El).
  apply read_key_Ok in Hr1 as [-> Hr1]. apply Io_bind_Ok in El as (u2 & fs5 & _ & El).
  apply Io_bind_Ok in El as (p2 & fs6 & _ & El). injection El as <- _ _.
  apply make_signing_key_keeps in H1. rewrite map_subseteq_spec in H1.
  apply fs_read_Some in Hr as (_ & m & Hr). apply H1 in Hr. apply fs_read_Some in Hr1 as (_ & m' & Hr1). congruence.
Qed.

End generated.

(** ** The three outcomes *)

(** What holds when the relayer got its keys. *)
Lemma started_keys {SKey VKey} `{RsaCryptoLaws SKey VKey}
    (env : FsEnv) signing verifying seed fs (sk : SKey) (vk : VKey) fs' :
  let sp := to_path signing in
  let vp := to_path verifying in
  sp <> vp ->
  relayer_keys env signing verifying seed fs = (Ok (sk, vk), fs') ->
  nodes fs ⊆ nodes fs' /\
  (node_at fs sp = None ->
     rsa_generate seed = Some sk /\ exists pem, nodes fs' !! sp = Some (File pem SECRET_MODE true)) /\
  (node_at fs vp = None -> vk = public_of sk) /\
  (node_at fs vp <> None -> exists old, fs_read vp fs = Some old /\ public_key_from_pem old = Some vk) /\
  (forall env' seed', relayer_keys env' signing verifying seed' fs' = (Ok (sk, vk), fs')).
Proof.
  intros sp vp Hne Hrun. split; [by eapply relayer_keys_keeps|].
  apply Io_bind_Ok in Hrun as ([priv pub] & fs1 & El & Hrun).
  apply Io_bind_Ok in Hrun as (sk' & fs2 & Es & Hrun). unfold io_unwrap in Es.
  destruct (private_key_from_pem priv) as [sk2|] eqn:Esk; simplify_eq.
  apply Io_bind_Ok in Hrun as (vk' & fs3 & Ev & Hrun). unfold io_unwrap in Ev.
  destruct (public_key_from_pem pub) as [vk2|] eqn:Evk; simplify_eq. injection Hrun as -> -> ->.
  apply load_or_generate_keys_Ok in El as (Hr1 & Hr2 & Hs & Hv & Hv'); [|done]. split_and!.
  - intros Hn. destruct (Hs Hn) as (sk2 & Hg & Hp & Hf). apply private_pem_round in Hp. split; [congruence|].
    by exists priv.
  - intros Hn. destruct (Hv Hn) as (sk2 & Hp & Hq). apply public_pem_round in Hq. congruence.
  - intros Hn. exists pub. auto.
  - intros env' seed'. unfold relayer_keys, mbind, Io_bind.
    rewrite (load_existing_keys env' signing verifying seed' fs' priv pub) by done.
    unfold io_unwrap. by rewrite Esk, Evk.
Qed.

(** On a machine without key files the relayer makes them. *)
Lemma fresh_keys {SKey VKey} `{RsaCryptoLaws SKey VKey}
    (env : FsEnv) signing verifying seed fs (sk : SKey) :
  let sp := to_path signing in
  let vp := to_path verifying in
  room env fs sp -> room env fs vp -> vp <> sp -> ~ ancestor vp sp -> ~ ancestor sp vp ->
  fe_write env sp = None -> fe_chmod env sp = None -> fe_write env vp = None ->
  rsa_generate seed = Some sk -> is_Some (private_key_to_pem sk) -> is_Some (public_key_to_pem sk) ->
  exists fs', relayer_keys env signing verifying seed fs = (Ok (sk, public_of sk), fs') /\
    private_key_to_pem sk = fs_read sp fs' /\ public_key_to_pem sk = fs_read vp fs'.
Proof.
  intros sp vp Hrs Hrv Hne Hvs Hsv Hw Hx Hwv Hg [priv Hp] [pub Hq].
  destruct (make_signing_key_room env sp seed fs sk priv Hrs Hg Hp) as (fs1 & Hch & Hgr & E1).
  rewrite Hw, Hx in E1.
  pose proof (room_kept env sp vp (File priv SECRET_MODE true) fs fs1 Hch Hgr Hne Hvs Hsv Hrv) as Hrv1.
  destruct (make_verifying_key_room env vp priv _ sk pub Hrv1 Hwv (private_pem_round _ _ Hp) Hq) as (fs2 & E2 & Hf2).
  pose proof (make_verifying_key_keeps env vp priv _ _ _ E2) as Hk. rewrite map_subseteq_spec in Hk.
  assert (fs_read sp (set_node sp (File priv SECRET_MODE true) fs1) = Some priv) as R1.
  { apply fs_read_Some. split; [apply (room_comps _ _ _ Hrs)|]. exists SECRET_MODE. simpl. by rewrite lookup_insert_eq. }
  assert (fs_read vp fs2 = Some pub) as R2.
  { apply fs_read_Some. split; [apply (room_comps _ _ _ Hrv) | eauto]. }
  exists fs2. split_and!.
  - unfold relayer_keys, load_or_generate_keys, mbind, Io_bind, read_key, io_unwrap. fold sp. fold vp.
    rewrite E1, R1. cbn [io_expect]. rewrite E2, R2. cbn [io_expect mret Io_ret].
    by rewrite (private_pem_round _ _ Hp), (public_pem_round _ _ Hq).
  - rewrite Hp. symmetry. apply fs_read_Some. apply fs_read_Some in R1 as [? [m Hm]]. eauto.
  - by rewrite Hq, R2.
Qed.

(** What a failed start leaves behind. *)
Lemma failed_start {SKey VKey} `{!RsaCrypto SKey VKey}
    (env : FsEnv) signing verifying seed fs (r : result (SKey * VKey) panic) fs' :
  let sp := to_path signing in
  relayer_keys env signing verifying seed fs = (r, fs') ->
  nodes fs ⊆ nodes fs' /\
  (room env fs sp -> forall sk pem, rsa_generate seed = Some sk -> private_key_to_pem sk = Some pem ->
   (forall e k, fe_write env sp = Some (e, Some k) ->
      r = Err (PanicMessage ("Failed to write signing key " +:+ show_path sp +:+ ": " +:+ e)) /\
      nodes fs' !! sp = Some (File (take k pem) DEFAULT_MODE true) /\
      (private_key_from_pem (take k pem) = None -> forall env' seed',
         exists p, fst (relayer_keys env' signing verifying seed' fs') = Err p)) /\
   (forall e, fe_write env sp = None -> fe_chmod env sp = Some e ->
      r = Err (PanicMessage ("Failed to set permissions on " +:+ show_path sp +:+ ": " +:+ e)) /\
      nodes fs' !! sp = Some (File pem DEFAULT_MODE true))).
Proof.
  intros sp Hrun. split; [by eapply relayer_keys_keeps|]. intros Hr sk pem Hg Hp.
  destruct (make_signing_key_room env sp seed fs sk pem Hr Hg Hp) as (fs1 & _ & _ & E1).
  unfold relayer_keys, load_or_generate_keys, mbind, Io_bind in Hrun. fold sp in Hrun. split.
  - intros e k Hw. rewrite E1, Hw in Hrun. injection Hrun as <- <-.
    split; [done|]. split; [simpl; by rewrite lookup_insert_eq|]. intros Hbad env' seed'.
    by eapply corrupt_signing_key; [|exact Hbad]; apply fs_read_Some; split;
      [apply (room_comps _ _ _ Hr) | exists DEFAULT_MODE; simpl; by rewrite lookup_insert_eq].
  - intros e Hw Hx. rewrite E1, Hw, Hx in Hrun. injection Hrun as <- <-.
    split; [done|]. simpl. by rewrite lookup_insert_eq.
Qed.

(** ** Property *)

(** C28. The keys of the relayer, whatever the files and the environment.

    In every case, panics included, no file or directory that existed has changed.  If
    [Relayer::new] gets its keys, a generated signing key can be read by its owner only; when
    there was nothing at the path of the verifying key, the verifying key is the public half
    of the signing key; when there was something, it is a file the process can read and the
    key in it, even if the signing key has just been generated; and starting again, in
    whatever environment, reads the same keys and changes nothing.

    If there is room for a signing key (nothing at its path, only directories or nothing
    above, missing directories can be made) then: with room for the verifying key too, and
    when writing and setting the mode are not refused, the relayer gets the generated key and
    its public half, and both files hold them.  If writing the signing key breaks off after
    some bytes, the start panics and the truncated file stays; when those bytes are not a key,
    every later start panics too, in whatever environment, because the file exists and is
    never made again.  If setting its mode fails, the start panics and the complete key stays
    with the default mode, readable by others. *)
Theorem relayer_keys_correct {SKey VKey} `{RsaCryptoLaws SKey VKey}
    (env : FsEnv) signing verifying seed fs (r : result (SKey * VKey) panic) fs' :
  let sp := to_path signing in
  let vp := to_path verifying in
  sp <> vp ->
  relayer_keys env signing verifying seed fs = (r, fs') ->
  nodes fs ⊆ nodes fs' /\
  (forall sk vk, r = Ok (sk, vk) ->
     (node_at fs sp = None ->
        rsa_generate seed = Some sk /\ exists pem, nodes fs' !! sp = Some (File pem SECRET_MODE true)) /\
     (node_at fs vp = None -> vk = public_of sk) /\
     (node_at fs vp <> None -> exists old, fs_read vp fs = Some old /\ public_key_from_pem old = Some vk) /\
     (forall env' seed', relayer_keys env' signing verifying seed' fs' = (Ok (sk, vk), fs'))) /\
  (room env fs sp -> forall sk priv, rsa_generate seed = Some sk -> private_key_to_pem sk = Some priv ->
     (forall pub, room env fs vp -> ~ ancestor vp sp -> ~ ancestor sp vp -> public_key_to_pem sk = Some pub ->
        fe_write env sp = None -> fe_chmod env sp = None -> fe_write env vp = None ->
        r = Ok (sk, public_of sk) /\ fs_read sp fs' = Some priv /\ fs_read vp fs' = Some pub) /\
     (forall e k, fe_write env sp = Some (e, Some k) ->
        r = Err (PanicMessage ("Failed to write signing key " +:+ show_path sp +:+ ": " +:+ e)) /\
        nodes fs' !! sp = Some (File (take k priv) DEFAULT_MODE true) /\
        (private_key_from_pem (take k priv) = None -> forall env' seed',
           exists p, fst (relayer_keys env' signing verifying seed' fs') = Err p)) /\
     (forall e, fe_write env sp = None -> fe_chmod env sp = Some e ->
        r = Err (PanicMessage ("Failed to set permissions on " +:+ show_path sp +:+ ": " +:+ e)) /\
        nodes fs' !! sp = Some (File priv DEFAULT_MODE true))).
Proof.
  intros sp vp Hne Hrun. destruct (failed_start env signing verifying seed fs r fs' Hrun) as [Hk Hp].
  split; [done|]. split; [intros sk vk ->; by apply (started_keys _ _ _ _ _ _ _ _ Hne Hrun)|].
  intros Hrs sk priv Hg Hpem. split; [|by eapply Hp]. intros pub Hrv Hvs Hsv Hpub Hw Hx Hwv.
  destruct (fresh_keys env signing verifying seed fs sk Hrs Hrv (not_eq_sym Hne) Hvs Hsv Hw Hx Hwv Hg
    (ex_intro _ _ Hpem) (ex_intro _ _ Hpub)) as (fs1 & E1 & Hr1 & Hr2).
  rewrite Hrun in E1. injection E1 as -> ->. split_and!; [done | by rewrite <- Hpem | by rewrite <- Hpub].
Qed.

(** ** Witnesses *)

(** Keys are numbers, written as that many bytes and a newline. *)
Definition toy_unpem (b : bytes) : option nat :=
  match last b with
  | Some c => if Byte.eqb c Byte.x0a then Some (length b - 1)%nat else None
  | None => None
  end.

#[export] Instance toy_rsa : RsaCrypto nat nat := {|
  rsa_generate seed := Some seed;
  private_key_to_pem sk := Some (replicate sk Byte.x73 ++ [Byte.x0a]);
  private_key_from_pem := toy_unpem;
  public_of sk := sk;
  public_key_to_pem sk := Some (replicate sk Byte.x70 ++ [Byte.x0a]);
  public_key_from_pem := toy_unpem;
|}.

#[export] Instance toy_rsa_laws : RsaCryptoLaws nat nat.
Proof.
  constructor; intros sk pem [= <-]; simpl; unfold toy_unpem;
    rewrite last_snoc, length_app, length_replicate; simpl; f_equal; lia.
Qed.

Definition toy_fs_env : FsEnv := {| fe_mkdir _ := None; fe_write _ := None; fe_chmod _ := None |}.

(** The disk is full after two bytes. *)
Definition full_disk : FsEnv :=
  {| fe_mkdir _ := None; fe_write _ := Some ("No space left on device (os error 28)", Some 2%nat);
     fe_chmod _ := None |}.

Definition empty_fs : Fs := {| nodes := ∅ |}.
Definition stale_fs : Fs :=
  {| nodes := {[(false, ["b.pem"]) := File (replicate 9 Byte.x70 ++ [Byte.x0a]) DEFAULT_MODE true]} |}.

Definition toy_sp : path := to_path "/etc//relayer/./a.pem".
Definition toy_vp : path := to_path "b.pem".

Example toy_paths : toy_sp = (true, ["etc"; "relayer"; "a.pem"]) /\ toy_vp = (false, ["b.pem"]) /\
  parent toy_vp = Some (false, []) /\ show_path toy_vp = QUOTE +:+ "b.pem" +:+ QUOTE.
Proof. split_and!; reflexivity. Qed.

Abbreviation toy_relayer_keys env seed fs :=
  (relayer_keys (SKey := nat) (VKey := nat) env "/etc//relayer/./a.pem" "b.pem" seed fs).

Lemma toy_room env p : (forall q, fe_mkdir env q = None) -> p.2 <> [] -> room env empty_fs p.
Proof. intros Hm Hp. split; [done | apply lookup_empty | left; apply lookup_empty | by intros]. Qed.

(** A first start makes the keys and a later one on a full disk reads them; on a disk that is
    full from the beginning, two bytes of the key are left and no later start succeeds. *)
Lemma relayer_keys_correct_witness :
  (exists fs', toy_relayer_keys toy_fs_env 3%nat empty_fs = (Ok (3%nat, 3%nat), fs') /\
     fs_read toy_sp fs' = Some (replicate 3 Byte.x73 ++ [Byte.x0a]) /\
     toy_relayer_keys full_disk 8%nat fs' = (Ok (3%nat, 3%nat), fs')) /\
  (exists r fs', toy_relayer_keys full_disk 3%nat empty_fs = (r, fs') /\
     nodes fs' !! toy_sp = Some (File [Byte.x73; Byte.x73] DEFAULT_MODE true) /\
     exists p, fst (toy_relayer_keys toy_fs_env 4%nat fs') = Err p).
Proof.
  assert (toy_sp <> toy_vp) as Hne by discriminate. split.
  - destruct (toy_relayer_keys toy_fs_env 3%nat empty_fs) as [r fs'] eqn:He. exists fs'.
    destruct (relayer_keys_correct toy_fs_env "/etc//relayer/./a.pem" "b.pem" 3 empty_fs r fs' Hne He)
      as (_ & Hok & Hroom).
    destruct (Hroom ltac:(by apply toy_room) 3%nat _ eq_refl eq_refl) as [Hfresh _].
    destruct (Hfresh _ ltac:(by apply toy_room) ltac:(intros (i & _ & Hi); discriminate Hi)
      ltac:(intros (i & Hi & _); vm_compute in Hi; lia) eq_refl eq_refl eq_refl eq_refl) as (Hr & Hs & _).
    destruct (Hok _ _ Hr) as (_ & _ & _ & Hagain).
    split; [by rewrite Hr|]. split; [exact Hs|]. apply Hagain.
  - destruct (toy_relayer_keys full_disk 3%nat empty_fs) as [r fs'] eqn:He. exists r, fs'. split; [reflexivity|].
    destruct (relayer_keys_correct full_disk "/etc//relayer/./a.pem" "b.pem" 3 empty_fs r fs' Hne He)
      as (_ & _ & Hroom).
    destruct (Hroom ltac:(by apply toy_room) 3%nat _ eq_refl eq_refl) as (_ & Hw & _).
    destruct (Hw _ _ eq_refl) as (_ & Hf & Hlater). split; [exact Hf|]. apply Hlater. reflexivity.
Defined.

(** With a stale public key (9) beside it, the generated signing key (3) is used with a
    verifying key that is not its own. *)
Example stale_verifying_key : fst (toy_relayer_keys toy_fs_env 3%nat stale_fs) = Ok (3%nat, 9%nat).
Proof. vm_compute. reflexivity. Qed.

(** A directory at the path of the signing key exists but cannot be read. *)
Example directory_as_key :
  fst (toy_relayer_keys toy_fs_env 3%nat {| nodes := {[toy_sp := Dir]} |}) =
  Err (PanicMessage ("Failed to read signing key file: " +:+ show_path toy_sp)).
Proof. vm_compute. reflexivity. Qed.
