(* ===== verification/StakedNodes.v ===== *)
(** * The staked nodes updater (src/src/relayer/staked_nodes_updater_service.rs)

    A thread refreshes the map of validator stakes that the QUIC servers use for their
    quality of service, from the vote accounts an RPC node reports.  [StakedNodes::new] of
    the crate solana_streamer is a parameter, and so are the answers of the node. *)

From S2P Require Import Prelude Bytes Protos.

Local Open Scope Z_scope.

Definition PK_TO_STAKE_REFRESH_DURATION : Z := from_secs 5.

(** [RpcVoteAccountInfo] and [RpcVoteAccountStatus]: the fields that are read. *)
Record VoteAccount := { node_pubkey : string; activated_stake : Z }.
Record VoteAccounts := { current : list VoteAccount; delinquent : list VoteAccount }.

Section updater.
Context `{!AddrText} {Shared E : Type}.
Context (staked_nodes_new : gmap Pubkey Z -> gmap Pubkey Z -> Shared).

(** The [collect] of [try_refresh_pk_to_stake]: accounts whose key does not parse are skipped,
    a later account replaces an earlier one with the same key. *)
Definition add_account (m : gmap Pubkey Z) (va : VoteAccount) : gmap Pubkey Z :=
  match pubkey_from_str (node_pubkey va) with
  | Some k => <[k := activated_stake va]> m
  | None => m
  end.

Definition stake_map (vas : VoteAccounts) : gmap Pubkey Z :=
  fold_left add_account (current vas ++ delinquent vas) ∅.

(** [now1] and [now2] are what [elapsed] and [Instant::now] read, [rpc] the answer of
    [get_vote_accounts]; the result comes with the new [last_stakes] and map. *)
Definition try_refresh_pk_to_stake (last_stakes : Z) (m : gmap Pubkey Z) (now1 : Z)
    (rpc : result VoteAccounts E) (now2 : Z) : result bool E * Z * gmap Pubkey Z :=
  if PK_TO_STAKE_REFRESH_DURATION <? elapsed now1 last_stakes then
    match rpc with
    | Err e => (Err e, last_stakes, m)
    | Ok vote_accounts => (Ok true, now2, stake_map vote_accounts)
    end
  else (Ok false, last_stakes, m).

Record su_state := { su_last : Z; su_shared : Shared }.

(** One iteration: the clock readings, and the answer of the node if it is asked. *)
Record su_event := {
  su_check : Z;       (* last_stakes.elapsed() of the loop *)
  su_now1 : Z;
  su_rpc : result VoteAccounts E;
  su_now2 : Z;
}.

Inductive su_outcome := Waited | Refreshed | NotDue | RefreshFailed.

(** An iteration of the loop. *)
Definition su_step (overrides : gmap Pubkey Z) (st : su_state) (ev : su_event)
    : su_state * su_outcome :=
  if 60 <=? elapsed (su_check ev) (su_last st) / NANOS then
    match try_refresh_pk_to_stake (su_last st) ∅ (su_now1 ev) (su_rpc ev) (su_now2 ev) with
    | (Ok true, last, m) =>
        ({| su_last := last; su_shared := staked_nodes_new m overrides|}, Refreshed)
    | (Ok false, last, _) =>
        ({| su_last := last; su_shared := su_shared st |}, NotDue)
    | (Err _, last, _) =>
        ({| su_last := last; su_shared := su_shared st |}, RefreshFailed)
    end
  else (st, Waited).

Fixpoint su_exec (overrides : gmap Pubkey Z) (st : su_state) (evs : list su_event)
    : su_state * list su_outcome :=
  match evs with
  | [] => (st, [])
  | ev :: evs' =>
      let '(st1, o) := su_step overrides st ev in
      let '(st2, os) := su_exec overrides st1 evs' in
      (st2, o :: os)
  end.

Definition su_init (t0 : Z) (default_nodes : Shared) : su_state :=
  {| su_last := t0; su_shared := default_nodes |}.

(** The clock is monotone, and an iteration starts a second after the one before. *)
Fixpoint su_clock (t : Z) (evs : list su_event) : Prop :=
  match evs with
  | [] => True
  | ev :: evs' =>
      t <= su_check ev <= su_now1 ev /\ su_now1 ev <= su_now2 ev /\
      su_clock (su_check ev + from_secs 1) evs'
  end.

(** ** Lemmas *)

(** The stake the list of accounts gives to [k]: that of the last account with this key. *)
Definition last_stake (k : Pubkey) (l : list VoteAccount) : option Z :=
  last (omap (fun va => k' ← pubkey_from_str (node_pubkey va);
                        if decide (k' = k) then Some (activated_stake va) else None) l).

Lemma stake_map_lookup l m k :
  fold_left add_account l m !! k =
  match last_stake k l with Some s => Some s | None => m !! k end.
Proof.
  induction l as [|va l IH] using rev_ind; [done|].
  rewrite fold_left_app. cbn [fold_left]. unfold last_stake in *. rewrite omap_app.
  unfold add_account at 1. csimpl.
  destruct (pubkey_from_str (node_pubkey va)) as [k'|]; csimpl; [|by rewrite app_nil_r].
  case_decide as Hk; csimpl.
  - subst k'. by rewrite last_snoc, lookup_insert_eq.
  - by rewrite app_nil_r, lookup_insert_ne.
Qed.

Lemma elapsed_60 now last : 60 <= elapsed now last / NANOS <-> from_secs 60 <= now - last.
Proof.
  unfold elapsed, saturating_duration_since, from_secs.
  assert (HN : 0 < NANOS) by done. split; intros H1.
  - apply (Z.mul_le_mono_nonneg_r 60 _ NANOS) in H1; [|lia].
    pose proof (Z.mul_div_le (Z.max 0 (now - last)) NANOS HN). lia.
  - apply Z.div_le_lower_bound; lia.
Qed.

(** A step of the loop: it asks the node exactly when a minute has passed. *)
Lemma su_step_spec overrides st ev :
  su_check ev <= su_now1 ev ->
  su_step overrides st ev =
  if decide (from_secs 60 <= su_check ev - su_last st) then
    match su_rpc ev with
    | Ok vas => ({| su_last := su_now2 ev; su_shared := staked_nodes_new (stake_map vas) overrides |},
              Refreshed)
    | Err _ => (st, RefreshFailed)
    end
  else (st, Waited).
Proof.
  intros Hle. unfold su_step. destruct (Z.leb_spec 60 (elapsed (su_check ev) (su_last st) / NANOS)) as [H1|H1].
  - apply elapsed_60 in H1. rewrite decide_True by done. unfold try_refresh_pk_to_stake.
    assert ((PK_TO_STAKE_REFRESH_DURATION <? elapsed (su_now1 ev) (su_last st)) = true) as ->.
    { apply Z.ltb_lt. unfold PK_TO_STAKE_REFRESH_DURATION, elapsed, saturating_duration_since.
      unfold from_secs, NANOS in *. lia. }
    destruct (su_rpc ev); [done|]. by destruct st.
  - rewrite decide_False; [done|]. intros H2. apply elapsed_60 in H2. lia.
Qed.

(** The last iteration that refreshed, with the accounts the node reported. *)
Definition last_refreshed (evs : list su_event) (os : list su_outcome) : option (su_event * VoteAccounts) :=
  last (omap (fun '(ev, o) =>
    match o, su_rpc ev with Refreshed, Ok vas => Some (ev, vas) | _, _ => None end) (zip evs os)).

Definition refreshed_or (overrides : gmap Pubkey Z) (st : su_state) (r : option (su_event * VoteAccounts))
    : su_state :=
  match r with
  | None => st
  | Some (ev, vas) =>
      {| su_last := su_now2 ev; su_shared := staked_nodes_new (stake_map vas) overrides |}
  end.

Lemma su_exec_spec overrides st evs t st' os :
  su_clock t evs -> su_exec overrides st evs = (st', os) ->
  NotDue ∉ os /\ st' = refreshed_or overrides st (last_refreshed evs os).
Proof.
  revert t st os; induction evs as [|ev evs IH]; intros t st os Hc He; simpl in He.
  { injection He as <- <-. split; [set_solver | done]. }
  destruct Hc as ((Ht & Hle) & _ & Hc).
  rewrite su_step_spec in He by done.
  destruct (decide _) as [Hd|Hd]; [destruct (su_rpc ev) as [vas|e] eqn:Er|];
    destruct (su_exec overrides _ evs) as [st2 os2] eqn:Ee; injection He as <- <-;
    destruct (IH _ _ _ Hc Ee) as [Hno ->]; (split; [set_solver|]);
    unfold last_refreshed; csimpl; rewrite ?Er; try done.
  rewrite last_cons. by destruct (last (omap _ _)) as [[ev' vas']|].
Qed.

End updater.

Arguments su_state Shared : clear implicits.
Arguments su_event E : clear implicits.

(** ** Properties *)

(** C36. The stake map follows the node's answers, once a minute.  Whatever the node answers and
    however long it takes, the shared map is the one of the last successful refresh (the
    empty default before), in which a key has the stake of the last reported account with
    that key, delinquent accounts after current ones; the node is asked exactly when a minute
    has passed since that refresh, so after a failure it is asked again in the next
    iteration, and the threshold of five seconds never decides anything. *)
Theorem staked_nodes_refresh `{!AddrText} {Shared E : Type} (new : gmap Pubkey Z -> gmap Pubkey Z -> Shared)
    overrides t0 d (evs : list (su_event E)) st os :
  su_clock t0 evs -> su_exec new overrides (su_init t0 d) evs = (st, os) ->
  NotDue ∉ os /\
  st = refreshed_or new overrides (su_init t0 d) (last_refreshed evs os) /\
  (forall ev : su_event E, su_check ev <= su_now1 ev ->
     (su_step new overrides st ev).2 <> Waited <-> from_secs 60 <= su_check ev - su_last st) /\
  (forall vas k, stake_map vas !! k = last_stake k (current vas ++ delinquent vas)).
Proof.
  intros Hc He. destruct (su_exec_spec _ _ _ _ _ _ _ Hc He) as [Hno Hst]. split_and!; [done|done| |].
  - intros ev Hle. rewrite su_step_spec by done. destruct (decide _) as [Hd|Hd]; simpl.
    + split; [done|]. by destruct (su_rpc ev).
    + done.
  - intros vas k. unfold stake_map. rewrite stake_map_lookup. by destruct (last_stake _ _).
Qed.

(** ** Witness *)

Definition toy_account (b : byte) (stake : Z) : VoteAccount :=
  {| node_pubkey := of_bytes (replicate 32 b); activated_stake := stake |}.

Definition toy_accounts : VoteAccounts :=
  {| current := [toy_account Byte.x01 10; {| node_pubkey := "?"; activated_stake := 5 |}];
     delinquent := [toy_account Byte.x01 7; toy_account Byte.x02 3] |}.

Definition toy_refreshes : list (su_event unit) :=
  [{| su_check := from_secs 59; su_now1 := from_secs 59; su_rpc := Ok toy_accounts; su_now2 := from_secs 59 |};
   {| su_check := from_secs 60; su_now1 := from_secs 60; su_rpc := Err tt; su_now2 := from_secs 60 |};
   {| su_check := from_secs 61; su_now1 := from_secs 61; su_rpc := Ok toy_accounts; su_now2 := from_secs 62 |};
   {| su_check := from_secs 63; su_now1 := from_secs 63; su_rpc := Ok toy_accounts; su_now2 := from_secs 63 |}].

Lemma staked_nodes_refresh_witness :
  let '(st, os) := @su_exec toy_addr_text _ _ (fun m _ => m) ∅ (su_init 0 ∅) toy_refreshes in
  os = [Waited; RefreshFailed; Refreshed; Waited] /\ su_last st = from_secs 62 /\
  NotDue ∉ os /\ su_shared st !! replicate 32 Byte.x01 = Some 7.
Proof.
  destruct (@su_exec toy_addr_text _ _ (fun m _ => m) ∅ (su_init 0 ∅) toy_refreshes) as [st os] eqn:He.
  destruct (@staked_nodes_refresh toy_addr_text _ _ (fun m _ => m) ∅ 0 ∅ toy_refreshes st os)
    as (Hno & Hst & _ & Hlook).
  - repeat split; vm_compute; discriminate.
  - exact He.
  - assert (os = [Waited; RefreshFailed; Refreshed; Waited]) as Hos
      by (apply (f_equal snd) in He; vm_compute in He; by simplify_eq).
    rewrite Hos in Hst. subst st. split_and!; [done | vm_compute; reflexivity | done |].
    simpl. rewrite Hlook. vm_compute. reflexivity.
Defined.
