(* ===== verification/Blockengine.v ===== *)
(** * The block-engine service (src/src/blockengine/service.rs)

    To its validator the relayer looks like a block engine.  Each subscription opens a stream
    at the real block engine with a pooled client, pumps that stream into a broadcast channel
    (from which the proxy takes it), and serves the validator from the channel the proxy
    fills.  A cancellation token ties the three parties of a subscription together: the pump,
    a bridge that watches the exit flag of the process, and the stream the validator reads.
    The file models the client pool, the handlers, and one subscription as a state machine, in
    which the token can be cancelled between any two looks at it and at something else.
    The gRPC clients of tonic are parameters. *)

From S2P Require Import Prelude Bytes Protos Grpc ProxyDelay.

Local Open Scope Z_scope.

Abbreviation SocketAddr := (IpAddr * Z)%type.

(** ** The client pool *)

Section pool.
Context {Channel C : Type}.

(** [get_client]: the results of [Endpoint::from_shared], of [tls_config] and of [connect],
    whose errors are texts here. *)
Definition get_client (from_shared tls_config : result unit string) (connect : result Channel string)
    : result Channel Status :=
  let? _ := map_err internal from_shared in
  let? _ := map_err internal tls_config in
  map_err unavailable connect.

(** [get_pooled_client]: [client] is what [get_client] returns if it is called.  The result
    tells also whether it was. *)
Definition get_pooled_client (peer : option SocketAddr) (client : result Channel Status)
    (make : Channel -> C) (pool : gmap SocketAddr C) : result C Status * bool * gmap SocketAddr C :=
  let existing := addr ← peer; pool !! addr in
  match existing with
  | Some existing => (Ok existing, false, pool)
  | None =>
      match client with
      | Err e => (Err e, true, pool)
      | Ok channel =>
          let client := make channel in
          (Ok client, true,
           match peer with Some addr => <[addr := client]> pool | None => pool end)
      end
  end.

End pool.

(** ** The handlers *)

(** [let mut upstream = ..; upstream.call(req).await] with a pooled client: the calls the
    service hands on ([get_block_builder_fee_info] and the three of [AuthService]). *)
Definition forward_call {C R} (client : result C Status) (call : C -> result R Status) : result R Status :=
  let? upstream := client in call upstream.

(** The beginning of [subscribe_packets] and [subscribe_bundles]: the stream of the block
    engine, [None] when it refuses this validator. *)
Definition open_upstream {C U} (client : result C Status) (call : C -> result U Status)
    : result (option U) Status :=
  let? upstream := client in
  match call upstream with
  | Ok resp => Ok (Some resp)
  | Err e => if decide (status_code e <> PermissionDenied) then Err e else Ok None
  end.

Record BlockEngineEndpoint := {
  block_engine_url : string;
  shredstream_receiver_address : string;
}.

Record GetBlockEngineEndpointResponse := {
  global_endpoint : option BlockEngineEndpoint;
  regioned_endpoints : list BlockEngineEndpoint;
}.

Definition local_endpoint (local_blockengine_url : string) (e : BlockEngineEndpoint)
    : BlockEngineEndpoint := {|
  block_engine_url := local_blockengine_url;
  shredstream_receiver_address := shredstream_receiver_address e;
|}.

Definition get_block_engine_endpoints {C} (local_blockengine_url : string)
    (client : result C Status) (call : C -> result GetBlockEngineEndpointResponse Status)
    : result GetBlockEngineEndpointResponse Status :=
  let? jito_res := forward_call client call in
  Ok {| global_endpoint := local_endpoint local_blockengine_url <$> global_endpoint jito_res;
        regioned_endpoints := map (local_endpoint local_blockengine_url) (regioned_endpoints jito_res) |}.

(** ** One subscription *)

Section subscription.
Context {T : Type}.

(** The pump, at the points of its select: the biased select polls the token, and if that is
    not cancelled the upstream. *)
Inductive pump_pc := NoPump | Pumping | PumpPolled | PumpStopped.

Record ps_state := {
  ps_pump : pump_pc;
  ps_bridge : bool;           (* the bridge task is waiting *)
  ps_cancelled : bool;        (* the token *)
  ps_open : bool;             (* the stream has not been dropped *)
  ps_polled : bool;           (* poll_next has found the token not cancelled *)
  ps_exit : bool;             (* the exit flag of the process *)
  ps_sent : list T;           (* what the pump has sent to the block-engine channel *)
  ps_yielded : list T;        (* what the stream has given to the validator *)
}.

Inductive upstream_message :=
| UpItem (t : T)              (* Ok(Some(item)) *)
| UpEnd                       (* Ok(None) *)
| UpError (e : Status).

(** What a poll of the stream gives. *)
Inductive poll_result := PollItem (t : T) | PollEnd | PollPending.

Inductive ps_event :=
| PsPumpToken                                 (* the pump's select polls the token *)
| PsMessage (m : option upstream_message)     (* ... and then the upstream; None: pending *)
| PsBridge                                    (* the bridge's select ends *)
| PsPollToken                                 (* poll_next polls the token *)
| PsPollInner (inner : list (@broadcast_recv T))   (* ... and then the receiver, which yields in turn *)
| PsDrop                                      (* the validator's stream is dropped *)
| PsExit.                                     (* the process is told to exit *)

(** [serve_proxy_stream]: the token is new; a pump is started if there is an upstream. *)
Definition ps_init (upstream exit : bool) : ps_state := {|
  ps_pump := if upstream then Pumping else NoPump;
  ps_bridge := true; ps_cancelled := false; ps_open := true; ps_polled := false; ps_exit := exit;
  ps_sent := []; ps_yielded := [];
|}.

(** [BroadcastStream] with the [filter_map] that drops its errors: lagging is passed over. *)
Fixpoint poll_inner (inner : list (@broadcast_recv T)) : poll_result :=
  match inner with
  | [] => PollPending
  | Received t :: _ => PollItem t
  | Lagged _ :: inner' => poll_inner inner'
  | Closed :: _ => PollEnd
  end.

Definition set_pump (p : pump_pc) (sent : list T) (st : ps_state) : ps_state :=
  {| ps_pump := p; ps_bridge := ps_bridge st; ps_cancelled := ps_cancelled st; ps_open := ps_open st;
     ps_polled := ps_polled st; ps_exit := ps_exit st; ps_sent := sent; ps_yielded := ps_yielded st |}.

(** The two halves of [ExitAwareStream::poll_next]. *)
Definition poll_token (st : ps_state) : ps_state :=
  {| ps_pump := ps_pump st; ps_bridge := ps_bridge st; ps_cancelled := ps_cancelled st;
     ps_open := ps_open st; ps_polled := negb (ps_cancelled st); ps_exit := ps_exit st;
     ps_sent := ps_sent st; ps_yielded := ps_yielded st |}.

Definition poll_rest (inner : list (@broadcast_recv T)) (st : ps_state) : ps_state :=
  {| ps_pump := ps_pump st; ps_bridge := ps_bridge st; ps_cancelled := ps_cancelled st;
     ps_open := ps_open st; ps_polled := false; ps_exit := ps_exit st; ps_sent := ps_sent st;
     ps_yielded := ps_yielded st ++ match poll_inner inner with PollItem t => [t] | _ => [] end |}.

(** One step; [None] when the party is not there or does not wait for the event. *)
Definition ps_step (st : ps_state) (ev : ps_event) : option ps_state :=
  match ev with
  | PsPumpToken =>
      match ps_pump st with
      | Pumping => Some (set_pump (if ps_cancelled st then PumpStopped else PumpPolled) (ps_sent st) st)
      | _ => None
      end
  | PsMessage m =>
      match ps_pump st with
      | PumpPolled =>
          match m with
          | None => Some (set_pump Pumping (ps_sent st) st)
          | Some (UpItem t) => Some (set_pump Pumping (ps_sent st ++ [t]) st)
          | Some UpEnd | Some (UpError _) => Some (set_pump PumpStopped (ps_sent st) st)
          end
      | _ => None
      end
  | PsBridge =>
      if ps_bridge st && (ps_exit st || ps_cancelled st)
      then Some {| ps_pump := ps_pump st; ps_bridge := false; ps_cancelled := true;
                   ps_open := ps_open st; ps_polled := ps_polled st; ps_exit := ps_exit st;
                   ps_sent := ps_sent st; ps_yielded := ps_yielded st |}
      else None
  | PsPollToken => if ps_open st && negb (ps_polled st) then Some (poll_token st) else None
  | PsPollInner inner => if ps_open st && ps_polled st then Some (poll_rest inner st) else None
  | PsDrop =>                                    (* dropping the guard cancels the token *)
      if ps_open st && negb (ps_polled st)
      then Some {| ps_pump := ps_pump st; ps_bridge := ps_bridge st; ps_cancelled := true;
                   ps_open := false; ps_polled := false; ps_exit := ps_exit st; ps_sent := ps_sent st;
                   ps_yielded := ps_yielded st |}
      else None
  | PsExit =>
      Some {| ps_pump := ps_pump st; ps_bridge := ps_bridge st; ps_cancelled := ps_cancelled st;
              ps_open := ps_open st; ps_polled := ps_polled st; ps_exit := true; ps_sent := ps_sent st;
              ps_yielded := ps_yielded st |}
  end.

Fixpoint ps_exec (st : ps_state) (evs : list ps_event) : option ps_state :=
  match evs with
  | [] => Some st
  | ev :: evs' => st' ← ps_step st ev; ps_exec st' evs'
  end.

(** The items that arrive from the block engine. *)
Definition ps_items (evs : list ps_event) : list T :=
  ev ← evs; match ev with PsMessage (Some (UpItem t)) => [t] | _ => [] end.

(** *** Lemmas *)

(** What the machine is after a run: the token is cancelled exactly when the bridge has ended
    or the stream has been dropped. *)
Definition ps_consistent (st : ps_state) : Prop :=
  ps_cancelled st = negb (ps_bridge st) || negb (ps_open st).

Ltac ps_cases :=
  repeat match goal with
  | H : match ?x with _ => _ end = Some _ |- _ => destruct x eqn:?; try discriminate H
  | H : (if ?x then _ else _) = Some _ |- _ => destruct x eqn:?; try discriminate H
  | H : Some _ = Some _ |- _ => injection H as <-
  end.

Lemma ps_step_consistent st ev st' : ps_consistent st -> ps_step st ev = Some st' -> ps_consistent st'.
Proof.
  unfold ps_consistent, ps_step, set_pump, poll_token, poll_rest. intros Hc Hs.
  ps_cases; simpl in *; try done; try congruence. by destruct (ps_bridge st).
Qed.

Lemma ps_exec_consistent st evs st' : ps_consistent st -> ps_exec st evs = Some st' -> ps_consistent st'.
Proof.
  revert st; induction evs as [|ev evs IH]; intros st Hc He; simpl in He; [by simplify_eq|].
  apply bind_Some in He as (st1 & Hs & He). eapply IH; [|exact He]. by eapply ps_step_consistent.
Qed.

Lemma ps_step_sent st ev st' : ps_step st ev = Some st' -> ps_sent st' = ps_sent st ++ ps_items [ev].
Proof.
  unfold ps_step, set_pump, poll_token, poll_rest. intros Hs. ps_cases; simpl; by rewrite ?app_nil_r.
Qed.

Lemma ps_exec_sent st evs st' : ps_exec st evs = Some st' -> ps_sent st' = ps_sent st ++ ps_items evs.
Proof.
  revert st; induction evs as [|ev evs IH]; intros st He; simpl in He.
  { simplify_eq. by rewrite app_nil_r. }
  apply bind_Some in He as (st1 & Hs & He). rewrite (IH _ He), (ps_step_sent _ _ _ Hs), <- app_assoc.
  f_equal. unfold ps_items. by rewrite <- bind_app.
Qed.

(** What may still come once the token is cancelled: what a select or a poll has already looked
    past the token for. *)
Definition pump_credit (st : ps_state) : nat := match ps_pump st with PumpPolled => 1 | _ => 0 end.
Definition poll_credit (st : ps_state) : nat := if ps_polled st then 1 else 0.

(** The token stays cancelled, and only the credit is used up. *)
Definition only_credit (st st' : ps_state) : Prop :=
  ps_cancelled st' = true /\
  (exists more, ps_sent st' = ps_sent st ++ more /\ (length more + pump_credit st' <= pump_credit st)%nat) /\
  (exists more, ps_yielded st' = ps_yielded st ++ more /\ (length more + poll_credit st' <= poll_credit st)%nat).

Lemma ps_step_cancelled st ev st' : ps_cancelled st = true -> ps_step st ev = Some st' -> only_credit st st'.
Proof.
  unfold ps_step, set_pump, poll_token, poll_rest, only_credit, pump_credit, poll_credit. intros Hc Hs.
  rewrite Hc in Hs. ps_cases; simpl; rewrite ?Hc; split_and!; try done;
    try (exists []; rewrite app_nil_r; split; [done|]; simpl; lia);
    try (eexists; split; [done|]; simpl; lia).
  all: try (exists []; rewrite app_nil_r; split; [done|]; by destruct (ps_polled st)).
  all: eexists; split; [done|]; destruct (ps_polled st); simpl; try done; destruct (poll_inner inner); simpl; lia.
Qed.

Lemma only_credit_trans st1 st2 st3 : only_credit st1 st2 -> only_credit st2 st3 -> only_credit st1 st3.
Proof.
  intros (_ & (m1 & E1 & L1) & (y1 & F1 & K1)) (Hc & (m2 & E2 & L2) & (y2 & F2 & K2)).
  split_and!; [done | exists (m1 ++ m2) | exists (y1 ++ y2)].
  - rewrite E2, E1, app_assoc, length_app. split; [done | lia].
  - rewrite F2, F1, app_assoc, length_app. split; [done | lia].
Qed.

Lemma ps_exec_cancelled st evs st' : ps_cancelled st = true -> ps_exec st evs = Some st' -> only_credit st st'.
Proof.
  revert st; induction evs as [|ev evs IH]; intros st Hc He; simpl in He.
  { simplify_eq. split_and!; [done | exists []; by rewrite app_nil_r | exists []; by rewrite app_nil_r]. }
  apply bind_Some in He as (st1 & Hs & He). pose proof (ps_step_cancelled _ _ _ Hc Hs) as Ho.
  eapply only_credit_trans; [exact Ho|]. apply IH; [apply Ho | done].
Qed.

(** A pump that has stopped sends nothing. *)
Lemma ps_exec_stopped st evs st' : ps_pump st = PumpStopped -> ps_exec st evs = Some st' ->
  ps_sent st' = ps_sent st.
Proof.
  revert st; induction evs as [|ev evs IH]; intros st Hp He; simpl in He; [by simplify_eq|].
  apply bind_Some in He as (st1 & Hs & He).
  assert (ps_pump st1 = PumpStopped /\ ps_sent st1 = ps_sent st) as [Hp1 <-]; [|by apply IH].
  unfold ps_step, set_pump, poll_token, poll_rest in Hs. rewrite Hp in Hs. ps_cases; simpl; done.
Qed.

(** The end of all parties: with the token cancelled, at most three steps end the tasks. *)
Lemma ps_wind_down st : ps_cancelled st = true ->
  exists evs st', (length evs <= 3)%nat /\ ps_exec st evs = Some st' /\
    ps_bridge st' = false /\ (ps_pump st' = NoPump \/ ps_pump st' = PumpStopped).
Proof.
  intros Hc. destruct st as [p b c o l e s y]. simpl in Hc. subst c.
  exists ((if b then [PsBridge] else []) ++
    match p with Pumping => [PsPumpToken] | PumpPolled => [PsMessage None; PsPumpToken] | _ => [] end).
  destruct b, p; simpl; rewrite ?orb_true_r; eexists; (split; [lia|]); (split; [reflexivity|]); auto.
Qed.

End subscription.

Arguments ps_state T : clear implicits.
Arguments ps_event T : clear implicits.

(** ** The whole handlers *)

(** [subscribe_packets] and [subscribe_bundles]: the pooled client, the upstream, and the
    subscription they start ([serve_proxy_stream]). *)
Definition BlockengineService_subscribe {Channel C U T : Type} (peer : option SocketAddr)
    (client : result Channel Status) (make : Channel -> C) (call : C -> result U Status)
    (exit : bool) (pool : gmap SocketAddr C) : result (ps_state T) Status * gmap SocketAddr C :=
  let '(upstream, _, pool') := get_pooled_client peer client make pool in
  (let? up_resp := open_upstream upstream call in
   Ok (ps_init (match up_resp with Some _ => true | None => false end) exit),
   pool').

(** The handlers that hand a call on. *)
Definition BlockengineService_forward {Channel C R : Type} (peer : option SocketAddr)
    (client : result Channel Status) (make : Channel -> C) (call : C -> result R Status)
    (pool : gmap SocketAddr C) : result R Status * gmap SocketAddr C :=
  let '(upstream, _, pool') := get_pooled_client peer client make pool in
  (forward_call upstream call, pool').

(** A subscription starts whenever the block engine can be reached and either accepts the
    validator, with a pump, or denies permission, without one; any other answer is passed
    on as the error. *)
Lemma subscribe_cases {Channel C U T : Type} peer client (make : Channel -> C) (call : C -> result U Status)
    exit pool c connected pool' :
  get_pooled_client peer client make pool = (Ok c, connected, pool') ->
  BlockengineService_subscribe (T := T) peer client make call exit pool =
  (match call c with
   | Ok _ => Ok (ps_init true exit)
   | Err e => if decide (status_code e = PermissionDenied) then Ok (ps_init false exit) else Err e
   end, pool').
Proof.
  intros Hp. unfold BlockengineService_subscribe, open_upstream. rewrite Hp. simpl.
  destruct (call c) as [u|e]; [done|].
  destruct (decide (status_code e = PermissionDenied)); [rewrite decide_False by tauto | rewrite decide_True by done]; done.
Qed.

(** ** Properties *)

(** C17. A subscription at the block-engine service, in every interleaving of its parties.  The
    pump sends exactly the items that arrive, in order.  The token is cancelled exactly when
    the bridge has ended or the validator's stream was dropped; from then on at most one more
    item is sent, and only if the pump's select had already found the token not cancelled,
    at most one more is yielded, and only if [poll_next] had, and three steps end the
    remaining tasks.  While it is not cancelled, telling the process to exit lets the bridge
    cancel it.  But the end of the upstream, or an error on it, stops the pump only: the
    validator's stream stays open, and no item of the block engine comes through this
    subscription again. *)
Theorem subscription_lifecycle {T} upstream exit evs (st : ps_state T) :
  ps_exec (ps_init upstream exit) evs = Some st ->
  ps_sent st = ps_items evs /\
  (ps_cancelled st = true <-> ps_bridge st = false \/ ps_open st = false) /\
  (ps_cancelled st = true ->
     (forall evs' st', ps_exec st evs' = Some st' ->
        exists sent yielded,
          ps_sent st' = ps_sent st ++ sent /\ ps_yielded st' = ps_yielded st ++ yielded /\
          (length sent <= match ps_pump st with PumpPolled => 1 | _ => 0 end)%nat /\
          (length yielded <= if ps_polled st then 1 else 0)%nat) /\
     exists evs' st', (length evs' <= 3)%nat /\ ps_exec st evs' = Some st' /\
       ps_bridge st' = false /\ (ps_pump st' = NoPump \/ ps_pump st' = PumpStopped)) /\
  (ps_cancelled st = false -> exists st', ps_exec st [PsExit; PsBridge] = Some st' /\
     ps_cancelled st' = true) /\
  (ps_cancelled st = false -> ps_pump st = Pumping -> forall m, (forall t, m <> UpItem t) ->
     exists st', ps_exec st [PsPumpToken; PsMessage (Some m)] = Some st' /\
       ps_open st' = true /\ ps_cancelled st' = false /\
       forall evs' st'', ps_exec st' evs' = Some st'' -> ps_sent st'' = ps_sent st).
Proof.
  intros He. pose proof (ps_exec_consistent (ps_init upstream exit) evs st eq_refl He) as Hc.
  unfold ps_consistent in Hc. split; [exact (ps_exec_sent _ _ _ He)|].
  split; [rewrite Hc; destruct (ps_bridge st), (ps_open st); simpl; naive_solver|].
  split; [intros Hcc; split; [|by apply ps_wind_down]|].
  { intros evs' st' He'. destruct (ps_exec_cancelled _ _ _ Hcc He') as (_ & (m & Hm & Lm) & (y & Hy & Ly)).
    exists m, y. unfold pump_credit, poll_credit in *. split_and!; [done | done | lia | lia]. }
  rewrite Hc. split.
  - destruct (ps_bridge st) eqn:Hb; [|done]. intros _. simpl. rewrite Hb. simpl. by eexists.
  - destruct (ps_bridge st) eqn:Hb, (ps_open st) eqn:Ho; try done. intros _ Hp m Hm.
    exists (set_pump PumpStopped (ps_sent st) st). simpl. rewrite Hp, Hc. simpl.
    split; [by destruct m as [t| |]; [destruct (Hm t)|..]|]. split_and!; [done..|].
    intros evs' st'' He'. by apply (ps_exec_stopped (set_pump PumpStopped (ps_sent st) st) evs').
Qed.

(** The client pool: a client pooled for an address is used again without connecting; else a
    connection is made, a failure is reported and not remembered, and a new client is pooled
    for the address, if it is known, and for no other.  Nothing ever leaves the pool, so a
    client stays in use for its address whatever becomes of its connection. *)
Theorem pooled_client_correct {Channel C} peer client (make : Channel -> C) pool r connected pool' :
  get_pooled_client peer client make pool = (r, connected, pool') ->
  pool ⊆ pool' /\
  (connected = false <-> exists addr c, peer = Some addr /\ pool !! addr = Some c /\ r = Ok c /\ pool' = pool) /\
  (connected = true ->
     match client with
     | Err e => r = Err e /\ pool' = pool
     | Ok ch => r = Ok (make ch) /\
         forall a, pool' !! a = if decide (peer = Some a) then Some (make ch) else pool !! a
     end) /\
  (forall addr c, peer = Some addr -> r = Ok c -> forall client',
     get_pooled_client peer client' make pool' = (Ok c, false, pool')).
Proof.
  unfold get_pooled_client. destruct (addr ← peer; pool !! addr) as [c|] eqn:Ex.
  - apply bind_Some in Ex as (addr & -> & Hc). intros [= <- <- <-]. split; [done|].
    split; [split; [by exists addr, c | done]|]. split; [done|].
    intros a c' [= <-] [= <-] client'. simpl. by rewrite Hc.
  - assert (forall addr, peer = Some addr -> pool !! addr = None) as Hnone
      by (intros addr ->; exact Ex).
    destruct client as [ch|e]; intros [= <- <- <-].
    + split; [destruct peer as [addr|]; [by apply insert_subseteq, Hnone | done]|].
      split; [split; [done | intros (addr & c & Hp & Hc & _); by rewrite Hnone in Hc]|].
      split.
      * intros _. split; [done|]. intros a. destruct peer as [addr|]; [|by rewrite decide_False].
        case_decide as Ha; [simplify_eq; by rewrite lookup_insert_eq|].
        rewrite lookup_insert_ne; [done|]. intros ->. done.
      * intros addr c -> [= <-] client'. simpl. by rewrite lookup_insert_eq.
    + split; [done|].
      split; [split; [done | intros (addr & c & Hp & Hc & _); by rewrite Hnone in Hc]|]. by split.
Qed.

(** The endpoints the validator sees are those of the block engine, in order and with their
    shredstream addresses, all at the relayer's own URL. *)
Lemma endpoints_are_local {C} url client (call : C -> result GetBlockEngineEndpointResponse Status) r :
  get_block_engine_endpoints url client call = Ok r ->
  exists c jito, client = Ok c /\ call c = Ok jito /\
    shredstream_receiver_address <$> regioned_endpoints r =
      (shredstream_receiver_address <$> regioned_endpoints jito) /\
    Forall (fun e => block_engine_url e = url) (option_list (global_endpoint r) ++ regioned_endpoints r).
Proof.
  unfold get_block_engine_endpoints, forward_call. intros Hr. destruct client as [c|]; [|done].
  simpl in Hr. destruct (call c) as [jito|] eqn:Ec; [|done]. simpl in Hr. injection Hr as <-.
  exists c, jito. split_and!; [done | done | |]; simpl.
  - change (map ?f ?l) with (f <$> l). by rewrite <- list_fmap_compose.
  - apply Forall_app. split; [by destruct (global_endpoint jito); repeat constructor|].
    apply Forall_fmap, Forall_true. done.
Qed.

(** ** Witnesses *)

Definition toy_subscription : list (ps_event nat) :=
  [PsPumpToken; PsMessage (Some (UpItem 1%nat)); PsPollToken; PsPollInner [Lagged 2; Received 7%nat];
   PsPumpToken; PsMessage None; PsPumpToken; PsMessage (Some (UpItem 2%nat));
   PsPollToken; PsPollInner [Received 8%nat]].

Definition toy_subscribed : ps_state nat :=
  {| ps_pump := Pumping; ps_bridge := true; ps_cancelled := false; ps_open := true; ps_polled := false;
     ps_exit := false; ps_sent := [1; 2]%nat; ps_yielded := [7; 8]%nat |}.

(** The token is cancelled right after the pump has looked at it: one more item follows. *)
Example item_after_cancellation :
  option_map ps_sent (ps_exec toy_subscribed
    [PsPumpToken; PsDrop; PsMessage (Some (UpItem 3%nat)); PsPumpToken]) = Some [1; 2; 3]%nat.
Proof. reflexivity. Qed.

Lemma subscription_lifecycle_witness :
  exists st', ps_exec toy_subscribed [PsExit; PsBridge] = Some st' /\ ps_cancelled st' = true.
Proof.
  destruct (subscription_lifecycle true false toy_subscription toy_subscribed) as (_ & _ & _ & Hexit & _).
  - reflexivity.
  - apply Hexit. reflexivity.
Defined.

Definition toy_addr : SocketAddr := (V4 [Byte.x01], 9000).

Definition toy_pool : gmap SocketAddr nat := {[toy_addr := 5%nat]}.

(** A second call for the address needs no connection. *)
Lemma pooled_client_correct_witness :
  get_pooled_client (Some toy_addr) (Err (unavailable "down")) S toy_pool = (Ok 5%nat, false, toy_pool).
Proof.
  assert (Hrun : get_pooled_client (Some toy_addr) (Ok 4%nat) S (∅ : gmap SocketAddr nat) =
    (Ok 5%nat, true, toy_pool)).
  { unfold get_pooled_client, toy_pool. cbn [mbind option_bind]. by rewrite lookup_empty, insert_empty. }
  destruct (pooled_client_correct _ _ _ _ _ _ _ Hrun) as (_ & _ & _ & Hagain).
  exact (Hagain toy_addr 5%nat eq_refl eq_refl (Err (unavailable "down"))).
Defined.
