(* ===== verification/BlockengineCalls.v ===== *)
(** * Concurrent calls at the block-engine service (src/src/blockengine/service.rs)

    The service answers the calls of many validators at a time, and each handler takes its
    upstream client from one of two pools: [client_pool] for the four calls of
    [BlockEngineValidator] and [auth_client_pool] for the three of [AuthService].  A handler
    looks into the pool under the read lock, waits for a connection if nothing is there, puts
    the new client into the pool under the write lock, and waits for the answer of the block
    engine.  Other handlers run at each of these waits.  The machine below has one event for
    each piece between two waits; its handlers are the ones of Blockengine.v cut at the
    waits. *)

From S2P Require Import Prelude Bytes Protos Grpc ProxyDelay Blockengine.

Local Open Scope Z_scope.

(** The seven calls. *)
Inductive be_method :=
| SubscribePackets | SubscribeBundles | GetBlockBuilderFeeInfo | GetBlockEngineEndpoints
| GenerateAuthChallenge | GenerateAuthTokens | RefreshAccessToken.

(** Which of [get_block_engine_client] and [get_auth_client] the handler calls. *)
Definition uses_auth_client (m : be_method) : bool :=
  match m with
  | SubscribePackets | SubscribeBundles | GetBlockBuilderFeeInfo | GetBlockEngineEndpoints => false
  | GenerateAuthChallenge | GenerateAuthTokens | RefreshAccessToken => true
  end.

(** What the generated client types are made from: [BlockEngineValidatorClient::new] and
    [AuthServiceClient::new]. *)
Class UpstreamClients (Channel BeClient AuthClient : Type) := {
  be_client_new : Channel -> BeClient;
  auth_client_new : Channel -> AuthClient;
}.

Section calls.
Context {Channel BeClient AuthClient : Type} `{!UpstreamClients Channel BeClient AuthClient}.
(** The response of a call that is handed on as it is. *)
Context {R : Type}.
Context (local_blockengine_url : string).

Record be_pools := {
  client_pool : gmap SocketAddr BeClient;
  auth_client_pool : gmap SocketAddr AuthClient;
}.

Inductive be_client := BeC (c : BeClient) | AuthC (c : AuthClient).

(** The first half of [get_pooled_client], for the pool of the method. *)
Definition pooled (m : be_method) (peer : option SocketAddr) (p : be_pools) : option be_client :=
  if uses_auth_client m then addr ← peer; AuthC <$> auth_client_pool p !! addr
  else addr ← peer; BeC <$> client_pool p !! addr.

(** The second half: [make] and the insertion. *)
Definition make_client (m : be_method) (ch : Channel) : be_client :=
  if uses_auth_client m then AuthC (auth_client_new ch) else BeC (be_client_new ch).

Definition add_client (peer : option SocketAddr) (c : be_client) (p : be_pools) : be_pools :=
  match peer with
  | None => p
  | Some addr =>
      match c with
      | AuthC c => {| client_pool := client_pool p; auth_client_pool := <[addr := c]> (auth_client_pool p) |}
      | BeC c => {| client_pool := <[addr := c]> (client_pool p); auth_client_pool := auth_client_pool p |}
      end
  end.

(** What the block engine responds with, by the kind of the call. *)
Inductive be_response :=
| RespStream                                     (* a stream of packets or bundles *)
| RespEndpoints (r : GetBlockEngineEndpointResponse)
| RespOther (r : R).

(** The clients are typed: a call is answered with its own kind of response, or a status. *)
Definition answer_fits (m : be_method) (a : result be_response Status) : bool :=
  match m, a with
  | _, Err _ => true
  | (SubscribePackets | SubscribeBundles), Ok RespStream => true
  | GetBlockEngineEndpoints, Ok (RespEndpoints _) => true
  | (GetBlockBuilderFeeInfo | GenerateAuthChallenge | GenerateAuthTokens | RefreshAccessToken),
    Ok (RespOther _) => true
  | _, _ => false
  end.

(** What a handler returns: a stream of the proxy, with or without a pump from the block
    engine, or a response. *)
Inductive be_outcome :=
| OutStream (pump : bool)
| OutResponse (r : be_response).

(** The end of the handlers, once the block engine has answered. *)
Definition handler_end (m : be_method) (a : result be_response Status) : result be_outcome Status :=
  match m with
  | SubscribePackets | SubscribeBundles =>
      let? up_resp := open_upstream (Ok tt) (fun _ => a) in
      Ok (OutStream (match up_resp with Some _ => true | None => false end))
  | GetBlockEngineEndpoints =>
      let? resp := a in
      match resp with
      | RespEndpoints r =>
          let? res := get_block_engine_endpoints local_blockengine_url (Ok tt) (fun _ => Ok r) in
          Ok (OutResponse (RespEndpoints res))
      | _ => Ok (OutResponse resp)
      end
  | GetBlockBuilderFeeInfo | GenerateAuthChallenge | GenerateAuthTokens | RefreshAccessToken =>
      let? resp := forward_call (Ok tt) (fun _ => a) in
      Ok (OutResponse resp)
  end.

(** A call in progress, waiting for a connection or for the answer. *)
Inductive be_wait := WaitConnect | WaitAnswer (c : be_client).

Record be_call := {
  bc_method : be_method;
  bc_peer : option SocketAddr;
  bc_wait : be_wait;
}.

Record bc_state := {
  bc_pools : be_pools;
  bc_calls : gmap nat be_call;
}.

Definition bc_init : bc_state :=
  {| bc_pools := {| client_pool := ∅; auth_client_pool := ∅ |}; bc_calls := ∅ |}.

Inductive bc_event :=
| BcCall (id : nat) (m : be_method) (peer : option SocketAddr)
| BcConnect (id : nat) (r : result Channel Status)
| BcAnswer (id : nat) (a : result be_response Status).

Inductive bc_action :=
| BcOpened (peer : option SocketAddr) (m : be_method) (ch : Channel)      (* a new connection *)
| BcAsked (peer : option SocketAddr) (m : be_method) (c : be_client)   (* a call goes upstream *)
| BcReturned (id : nat) (m : be_method) (out : result be_outcome Status).

Definition bc_step (st : bc_state) (ev : bc_event) : option (bc_state * list bc_action) :=
  match ev with
  | BcCall id m peer =>
      match bc_calls st !! id with
      | Some _ => None
      | None =>
          match pooled m peer (bc_pools st) with
          | Some existing =>
              Some ({| bc_pools := bc_pools st;
                       bc_calls := <[id := {| bc_method := m; bc_peer := peer;
                                              bc_wait := WaitAnswer existing |}]> (bc_calls st) |},
                    [BcAsked peer m existing])
          | None =>
              Some ({| bc_pools := bc_pools st;
                       bc_calls := <[id := {| bc_method := m; bc_peer := peer;
                                              bc_wait := WaitConnect |}]> (bc_calls st) |}, [])
          end
      end
  | BcConnect id r =>
      match bc_calls st !! id with
      | Some {| bc_method := m; bc_peer := peer; bc_wait := WaitConnect |} =>
          match r with
          | Err e => Some ({| bc_pools := bc_pools st; bc_calls := delete id (bc_calls st) |},
                           [BcReturned id m (Err e)])
          | Ok ch =>
              let c := make_client m ch in
              Some ({| bc_pools := add_client peer c (bc_pools st);
                       bc_calls := <[id := {| bc_method := m; bc_peer := peer;
                                              bc_wait := WaitAnswer c |}]> (bc_calls st) |},
                    [BcOpened peer m ch; BcAsked peer m c])
          end
      | _ => None
      end
  | BcAnswer id a =>
      match bc_calls st !! id with
      | Some {| bc_method := m; bc_wait := WaitAnswer _ |} =>
          if answer_fits m a
          then Some ({| bc_pools := bc_pools st; bc_calls := delete id (bc_calls st) |},
                     [BcReturned id m (handler_end m a)])
          else None
      | _ => None
      end
  end.

Fixpoint bc_exec (st : bc_state) (evs : list bc_event) : option (bc_state * list bc_action) :=
  match evs with
  | [] => Some (st, [])
  | ev :: evs' =>
      match bc_step st ev with
      | None => None
      | Some (st1, acts1) =>
          match bc_exec st1 evs' with
          | None => None
          | Some (st2, acts2) => Some (st2, acts1 ++ acts2)
          end
      end
  end.

(** ** Lemmas *)

(** A connection of this pool was opened for this peer. *)
Definition opened_for (acts : list bc_action) (peer : option SocketAddr) (auth : bool) (ch : Channel) : Prop :=
  exists m, uses_auth_client m = auth /\ BcOpened peer m ch ∈ acts.

Lemma opened_for_app acts acts' peer auth ch :
  opened_for acts peer auth ch -> opened_for (acts ++ acts') peer auth ch.
Proof. intros (m & Hm & Hin). exists m. split; [done|]. apply elem_of_app. by left. Qed.

(** Where every pooled client comes from, with the actions so far. *)
Definition bc_inv (acts : list bc_action) (st : bc_state) : Prop :=
  (forall addr c, client_pool (bc_pools st) !! addr = Some c ->
     exists ch, c = be_client_new ch /\ opened_for acts (Some addr) false ch) /\
  (forall addr c, auth_client_pool (bc_pools st) !! addr = Some c ->
     exists ch, c = auth_client_new ch /\ opened_for acts (Some addr) true ch).

Lemma pooled_source acts st m peer c :
  bc_inv acts st -> pooled m peer (bc_pools st) = Some c ->
  exists ch, c = make_client m ch /\ opened_for acts peer (uses_auth_client m) ch.
Proof.
  intros [Hb Ha]. unfold pooled, make_client. destruct (uses_auth_client m); intros Hp;
    apply bind_Some in Hp as (addr & -> & Hp); apply fmap_Some in Hp as (c' & Hc & ->).
  - destruct (Ha _ _ Hc) as (ch & -> & Ho). by exists ch.
  - destruct (Hb _ _ Hc) as (ch & -> & Ho). by exists ch.
Qed.

Lemma bc_inv_mono acts acts' st pools calls :
  bc_inv acts st -> pools = bc_pools st -> bc_inv (acts ++ acts') {| bc_pools := pools; bc_calls := calls |}.
Proof.
  intros [Hb Ha] ->. split; intros addr c Hc; [destruct (Hb _ _ Hc) as (ch & -> & Ho) |
    destruct (Ha _ _ Hc) as (ch & -> & Ho)]; exists ch; eauto using opened_for_app.
Qed.

Lemma bc_inv_add acts st peer m ch calls :
  bc_inv acts st ->
  bc_inv (acts ++ [BcOpened peer m ch; BcAsked peer m (make_client m ch)])
    {| bc_pools := add_client peer (make_client m ch) (bc_pools st); bc_calls := calls |}.
Proof.
  intros Hi. destruct peer as [addr|]; [|by apply (bc_inv_mono acts _ st)].
  destruct (bc_inv_mono acts [BcOpened (Some addr) m ch; BcAsked (Some addr) m (make_client m ch)]
    st (bc_pools st) calls Hi eq_refl) as [Hb Ha]. simpl in Hb, Ha.
  assert (opened_for (acts ++ [BcOpened (Some addr) m ch; BcAsked (Some addr) m (make_client m ch)])
    (Some addr) (uses_auth_client m) ch) as Ho.
  { exists m. split; [done|]. apply elem_of_app. right. left. }
  unfold make_client in *. destruct (uses_auth_client m); split; simpl; try done;
    intros a c; rewrite lookup_insert_Some; intros [[<- <-]|[_ Hc]]; eauto.
Qed.

(** What one step asks upstream goes over a connection of the same peer and pool. *)
Lemma bc_step_inv acts st ev st' new :
  bc_inv acts st -> bc_step st ev = Some (st', new) ->
  bc_inv (acts ++ new) st' /\
  forall pre peer m c post, new = pre ++ BcAsked peer m c :: post ->
    exists ch, c = make_client m ch /\ opened_for (acts ++ pre) peer (uses_auth_client m) ch.
Proof.
  intros Hi Hs. destruct ev as [id m peer|id [ch|e]|id a]; simpl in Hs.
  - destruct (bc_calls st !! id); [done|]. destruct (pooled m peer (bc_pools st)) as [c|] eqn:Hp;
      injection Hs as <- <-; (split; [by apply (bc_inv_mono acts _ st)|]).
    + intros [|x [|]] peer' m' c' post Heq; simplify_eq/=. rewrite app_nil_r. by apply (pooled_source acts st).
    + by intros [] ? ? ? ? Heq.
  - destruct (bc_calls st !! id) as [[m peer [|c]]|]; try done. injection Hs as <- <-.
    split; [by apply bc_inv_add|].
    intros [|x [|y pre]] peer' m' c' post Heq; simplify_eq/=; [|by destruct pre].
    exists ch. split; [done|]. exists m'. split; [done|]. apply elem_of_app. right. left.
  - destruct (bc_calls st !! id) as [[m peer [|c]]|]; try done. injection Hs as <- <-.
    split; [by apply (bc_inv_mono acts _ st)|]. by intros [|x []] ? ? ? ? Heq; simplify_eq/=.
  - destruct (bc_calls st !! id) as [[m peer [|c]]|]; try done.
    destruct (answer_fits m a); [|done]. injection Hs as <- <-.
    split; [by apply (bc_inv_mono acts _ st)|]. by intros [|x []] ? ? ? ? Heq; simplify_eq/=.
Qed.

Lemma bc_exec_inv acts st evs st' new :
  bc_inv acts st -> bc_exec st evs = Some (st', new) ->
  bc_inv (acts ++ new) st' /\
  forall pre peer m c post, new = pre ++ BcAsked peer m c :: post ->
    exists ch, c = make_client m ch /\ opened_for (acts ++ pre) peer (uses_auth_client m) ch.
Proof.
  revert acts st new; induction evs as [|ev evs IH]; intros acts st new Hi He; simpl in He.
  { injection He as <- <-. rewrite app_nil_r. split; [done|]. by intros [] ? ? ? ? Heq. }
  destruct (bc_step st ev) as [[st1 a1]|] eqn:Hs; [|done].
  destruct (bc_exec st1 evs) as [[st2 a2]|] eqn:He2; [|done]. injection He as <- <-.
  destruct (bc_step_inv _ _ _ _ _ Hi Hs) as [Hi1 Ha1].
  destruct (IH _ _ _ Hi1 He2) as [Hi2 Ha2]. rewrite <- app_assoc in Hi2. split; [done|].
  intros pre peer m c post Heq. apply app_eq_app in Heq as (l & [[-> Hl]|[-> Hl]]).
  - destruct l as [|x l]; simplify_eq/=.
    + rewrite app_nil_r in *. destruct (Ha2 [] peer m c post) as (ch & -> & Ho); [done|].
      rewrite app_nil_r in Ho. eauto.
    + by apply (Ha1 pre peer m c l).
  - destruct (Ha2 l peer m c post) as (ch & -> & Ho); [done|]. rewrite <- app_assoc in Ho. eauto.
Qed.

(** A pooled address without a call that waits for a connection. *)
Definition settled (addr : SocketAddr) (auth : bool) (st : bc_state) : Prop :=
  (forall m, uses_auth_client m = auth -> is_Some (pooled m (Some addr) (bc_pools st))) /\
  (forall id call, bc_calls st !! id = Some call -> bc_peer call = Some addr ->
     uses_auth_client (bc_method call) = auth -> bc_wait call <> WaitConnect).

Lemma add_client_pooled m peer c p :
  is_Some (pooled m peer p) -> forall peer', is_Some (pooled m peer (add_client peer' c p)).
Proof.
  unfold pooled. intros Hp [addr'|]; [|done]. destruct c as [c|c], (uses_auth_client m); try done;
    destruct peer as [addr|]; simpl in *; try done; apply fmap_is_Some in Hp; apply fmap_is_Some;
    by apply lookup_insert_is_Some'; right.
Qed.

Lemma settled_calls addr auth st pools (calls : gmap nat be_call) :
  settled addr auth st ->
  (forall m, is_Some (pooled m (Some addr) (bc_pools st)) -> is_Some (pooled m (Some addr) pools)) ->
  (forall id call, calls !! id = Some call -> bc_calls st !! id = Some call \/ bc_wait call <> WaitConnect \/
     ~ (bc_peer call = Some addr /\ uses_auth_client (bc_method call) = auth)) ->
  settled addr auth {| bc_pools := pools; bc_calls := calls |}.
Proof.
  intros [Hp Hw] Hpools Hcalls. split; [auto|].
  intros id call Hc Hpeer Hm. destruct (Hcalls id call Hc) as [Hc'|[Hn|Hn]]; [by eapply Hw | done | tauto].
Qed.

Lemma bc_step_settled addr auth st ev st' new :
  settled addr auth st -> bc_step st ev = Some (st', new) ->
  settled addr auth st' /\ forall ch, ~ opened_for new (Some addr) auth ch.
Proof.
  intros Hst Hs. pose proof Hst as [Hp Hw]. destruct ev as [id m peer|id [ch|e]|id a]; simpl in Hs.
  - destruct (bc_calls st !! id) eqn:Hid; [done|].
    destruct (pooled m peer (bc_pools st)) as [c|] eqn:Hc; injection Hs as <- <-.
    + split; [|intros ch (? & _ & Hin); set_solver]. apply (settled_calls addr auth st); [done | done |].
      intros i call. rewrite lookup_insert_Some. intros [[_ <-]|[_ ?]]; auto.
    + split; [|intros ch (? & _ & Hin); set_solver]. apply (settled_calls addr auth st); [done | done |].
      intros i call. rewrite lookup_insert_Some. intros [[_ <-]|[_ ?]]; [|auto]. right. right. simpl.
      intros [-> Hm]. destruct (Hp m Hm) as [? Hp']. by rewrite Hc in Hp'.
  - destruct (bc_calls st !! id) as [[m peer [|c]]|] eqn:Hid; try done. injection Hs as <- <-. split.
    + apply (settled_calls addr auth st); [done | intros m' Hm'; by apply add_client_pooled |].
      intros i call. rewrite lookup_insert_Some. intros [[_ <-]|[_ ?]]; auto.
    + intros ch' (m' & Hm' & Hin). apply list_elem_of_In in Hin as [Heq|[Heq|[]]]; simplify_eq.
      by apply (Hw _ _ Hid).
  - destruct (bc_calls st !! id) as [[m peer [|c]]|]; try done. injection Hs as <- <-.
    split; [|intros ch (? & _ & Hin); set_solver]. apply (settled_calls addr auth st); [done | done |].
    intros i call. rewrite lookup_delete_Some. intros [_ ?]. by left.
  - destruct (bc_calls st !! id) as [[m peer [|c]]|]; try done.
    destruct (answer_fits m a); [|done]. injection Hs as <- <-.
    split; [|intros ch (? & _ & Hin); set_solver]. apply (settled_calls addr auth st); [done | done |].
    intros i call. rewrite lookup_delete_Some. intros [_ ?]. by left.
Qed.

Lemma bc_exec_settled addr auth st evs st' new :
  settled addr auth st -> bc_exec st evs = Some (st', new) ->
  settled addr auth st' /\ forall ch, ~ opened_for new (Some addr) auth ch.
Proof.
  revert st new; induction evs as [|ev evs IH]; intros st new Hst He; simpl in He.
  { injection He as <- <-. split; [done|]. intros ch (? & _ & Hin). set_solver. }
  destruct (bc_step st ev) as [[st1 a1]|] eqn:Hs; [|done].
  destruct (bc_exec st1 evs) as [[st2 a2]|] eqn:He2; [|done]. injection He as <- <-.
  destruct (bc_step_settled _ _ _ _ _ _ Hst Hs) as [Hst1 H1].
  destruct (IH _ _ Hst1 He2) as [Hst2 H2]. split; [done|].
  intros ch (m & Hm & Hin). apply elem_of_app in Hin as [Hin|Hin]; [apply (H1 ch) | apply (H2 ch)]; by exists m.
Qed.

(** ** [get_block_engine_client] and [get_auth_client] *)

Definition get_block_engine_client (peer : option SocketAddr) (client : result Channel Status) (p : be_pools)
    : result BeClient Status * bool * be_pools :=
  let '(r, connected, pool) := get_pooled_client peer client be_client_new (client_pool p) in
  (r, connected, {| client_pool := pool; auth_client_pool := auth_client_pool p |}).

Definition get_auth_client (peer : option SocketAddr) (client : result Channel Status) (p : be_pools)
    : result AuthClient Status * bool * be_pools :=
  let '(r, connected, pool) := get_pooled_client peer client auth_client_new (auth_client_pool p) in
  (r, connected, {| client_pool := client_pool p; auth_client_pool := pool |}).

Definition client_for (m : be_method) (peer : option SocketAddr) (client : result Channel Status) (p : be_pools)
    : result be_client Status * bool * be_pools :=
  if uses_auth_client m then
    let '(r, connected, p') := get_auth_client peer client p in ((let? c := r in Ok (AuthC c)), connected, p')
  else
    let '(r, connected, p') := get_block_engine_client peer client p in ((let? c := r in Ok (BeC c)), connected, p').

(** The two halves of [get_pooled_client] make the whole. *)
Lemma client_for_pooled m peer client p :
  client_for m peer client p =
  match pooled m peer p with
  | Some c => (Ok c, false, p)
  | None =>
      match client with
      | Err e => (Err e, true, p)
      | Ok ch => (Ok (make_client m ch), true, add_client peer (make_client m ch) p)
      end
  end.
Proof.
  unfold client_for, get_auth_client, get_block_engine_client, get_pooled_client, pooled, make_client.
  destruct p as [bp ap]. destruct (uses_auth_client m), peer as [addr|]; simpl;
    [destruct (ap !! addr) | | destruct (bp !! addr) |]; destruct client; done.
Qed.

(** ** Replies *)

Definition endpoint_at (url address : string) : BlockEngineEndpoint :=
  {| block_engine_url := url; shredstream_receiver_address := address |}.

(** What the validator is to get for an answer of the block engine, stated case by case. *)
Definition reply_for (m : be_method) (a : result be_response Status) (out : result be_outcome Status) : Prop :=
  match m, a with
  | (SubscribePackets | SubscribeBundles), Ok _ => out = Ok (OutStream true)
  | (SubscribePackets | SubscribeBundles), Err e =>
      (status_code e = PermissionDenied -> out = Ok (OutStream false)) /\
      (status_code e <> PermissionDenied -> out = Err e)
  | GetBlockEngineEndpoints, Ok (RespEndpoints r) =>
      exists r', out = Ok (OutResponse (RespEndpoints r')) /\
        regioned_endpoints r' =
          (endpoint_at local_blockengine_url <$> (shredstream_receiver_address <$> regioned_endpoints r)) /\
        global_endpoint r' =
          (endpoint_at local_blockengine_url <$> (shredstream_receiver_address <$> global_endpoint r))
  | GetBlockEngineEndpoints, Ok _ => False
  | _, Ok r => out = Ok (OutResponse r)
  | _, Err e => out = Err e
  end.

Lemma handler_end_reply m a : answer_fits m a = true -> reply_for m a (handler_end m a).
Proof.
  destruct m, a as [[|r|r]|e]; simpl; intros Hf; try done.
  1, 2: unfold open_upstream; simpl; case_decide; simpl; split; intros; tauto.
  eexists. split; [reflexivity|]. simpl. change (map ?f ?l) with (f <$> l).
  by rewrite <- list_fmap_compose, <- option_fmap_compose.
Qed.

Definition is_call (id : nat) (ev : bc_event) : bool :=
  match ev with BcCall i _ _ => bool_decide (i = id) | _ => false end.
Definition is_return (id : nat) (a : bc_action) : bool :=
  match a with BcReturned i _ _ => bool_decide (i = id) | _ => false end.

Definition calls_of (id : nat) (evs : list bc_event) : nat := length (List.filter (is_call id) evs).
Definition returns_of (id : nat) (acts : list bc_action) : nat := length (List.filter (is_return id) acts).
Definition in_progress (id : nat) (st : bc_state) : nat :=
  match bc_calls st !! id with Some _ => 1 | None => 0 end.

Lemma bc_step_counts id st ev st' acts :
  bc_step st ev = Some (st', acts) ->
  (in_progress id st + calls_of id [ev] = returns_of id acts + in_progress id st')%nat.
Proof.
  intros Hs. unfold in_progress, calls_of, returns_of. unfold bc_step in Hs.
  destruct ev as [i m peer|i [ch|e]|i a]; destruct (bc_calls st !! i) as [[m' peer' [|c]]|] eqn:Hi;
    repeat case_match; simplify_eq/=; rewrite ?lookup_insert, ?lookup_delete in *; repeat case_decide;
    simplify_eq/=; try case_bool_decide; simplify_eq/=; try done; try congruence.
Qed.

Lemma bc_exec_counts id st evs st' acts :
  bc_exec st evs = Some (st', acts) ->
  (in_progress id st + calls_of id evs = returns_of id acts + in_progress id st')%nat.
Proof.
  revert st acts; induction evs as [|ev evs IH]; intros st acts He; simpl in He; [by simplify_eq|].
  destruct (bc_step st ev) as [[st1 a1]|] eqn:Hs; [|done].
  destruct (bc_exec st1 evs) as [[st2 a2]|] eqn:He2; [|done]. injection He as <- <-.
  apply (bc_step_counts id) in Hs. apply IH in He2. unfold calls_of, returns_of in *.
  change (ev :: evs) with ([ev] ++ evs). rewrite !List.filter_app, !length_app. lia.
Qed.

(** Where a reply comes from. *)
Definition reply_source (st : bc_state) (evs : list bc_event) (id : nat) (m : be_method)
    (out : result be_outcome Status) : Prop :=
  ((exists peer, BcCall id m peer ∈ evs) \/ (exists c, bc_calls st !! id = Some c /\ bc_method c = m)) /\
  ((exists e, BcConnect id (Err e) ∈ evs /\ out = Err e) \/
   (exists a, BcAnswer id a ∈ evs /\ reply_for m a out)).

Lemma bc_step_reply st ev st' acts id m out :
  bc_step st ev = Some (st', acts) -> BcReturned id m out ∈ acts -> reply_source st [ev] id m out.
Proof.
  unfold bc_step. intros Hs Hin.
  destruct ev as [i m' peer|i [ch|e]|i a]; destruct (bc_calls st !! i) as [[m1 peer1 [|c]]|] eqn:Hi;
    repeat case_match; simplify_eq/=; repeat (apply elem_of_cons in Hin as [Hin|Hin]; simplify_eq/=);
    try by apply elem_of_nil in Hin.
  - split; [right; eauto|]. left. exists e. split; [left | done].
  - split; [right; eauto|]. right. exists a. split; [left | by apply handler_end_reply].
Qed.

Lemma bc_step_method st ev st' acts id c :
  bc_step st ev = Some (st', acts) -> bc_calls st' !! id = Some c ->
  (exists peer, ev = BcCall id (bc_method c) peer) \/
  exists c0, bc_calls st !! id = Some c0 /\ bc_method c0 = bc_method c.
Proof.
  unfold bc_step. intros Hs Hc.
  destruct ev as [i m' peer|i [ch|e]|i a]; destruct (bc_calls st !! i) as [[m1 peer1 [|c1]]|] eqn:Hi;
    repeat case_match; simplify_eq/=; rewrite ?lookup_insert_Some, ?lookup_delete_Some in Hc;
    naive_solver.
Qed.

Lemma bc_exec_reply st evs st' acts id m out :
  bc_exec st evs = Some (st', acts) -> BcReturned id m out ∈ acts -> reply_source st evs id m out.
Proof.
  revert st acts; induction evs as [|ev evs IH]; intros st acts He Hin; simpl in He.
  { simplify_eq. by apply elem_of_nil in Hin. }
  destruct (bc_step st ev) as [[st1 a1]|] eqn:Hs; [|done].
  destruct (bc_exec st1 evs) as [[st2 a2]|] eqn:He2; [|done]. injection He as <- <-.
  apply elem_of_app in Hin as [Hin|Hin].
  - destruct (bc_step_reply _ _ _ _ _ _ _ Hs Hin) as [Ho Ha]. split; set_solver.
  - destruct (IH _ _ He2 Hin) as [[[peer Hp]|(c & Hc & Hm)] Ha]; (split; [|set_solver]).
    + left. exists peer. by right.
    + destruct (bc_step_method _ _ _ _ _ _ Hs Hc) as [[peer ->]|(c0 & Hc0 & Hm0)];
        [left; exists peer; rewrite Hm; left | right; exists c0; by rewrite Hm0].
Qed.

(** What a call in progress waits for, and what it does then. *)
Definition goes_on (st : bc_state) (id : nat) (c : be_call) : Prop :=
  match bc_wait c with
  | WaitConnect =>
      (forall e, exists st',
         bc_step st (BcConnect id (Err e)) = Some (st', [BcReturned id (bc_method c) (Err e)])) /\
      (forall ch, exists st' acts c',
         bc_step st (BcConnect id (Ok ch)) = Some (st', acts) /\ bc_calls st' !! id = Some c' /\
         bc_method c' = bc_method c /\ bc_wait c' <> WaitConnect)
  | WaitAnswer _ =>
      forall a, answer_fits (bc_method c) a = true -> exists st' out,
        bc_step st (BcAnswer id a) = Some (st', [BcReturned id (bc_method c) out]) /\
        reply_for (bc_method c) a out
  end.

Lemma bc_goes_on st id c : bc_calls st !! id = Some c -> goes_on st id c.
Proof.
  intros Hc. unfold goes_on, bc_step. destruct c as [m peer [|cl]]; simpl.
  - rewrite Hc. split; [by eexists|]. intros ch. do 3 eexists. split; [reflexivity|]. simpl.
    rewrite lookup_insert_eq. by split_and!.
  - intros a Ha. rewrite Hc, Ha. do 2 eexists. split; [reflexivity|]. by apply handler_end_reply.
Qed.

End calls.

Arguments be_pools BeClient AuthClient : clear implicits.
Arguments bc_state BeClient AuthClient : clear implicits.
Arguments bc_event Channel R : clear implicits.
Arguments bc_action Channel BeClient AuthClient R : clear implicits.
Arguments be_response R : clear implicits.
Arguments be_outcome R : clear implicits.
Arguments be_client BeClient AuthClient : clear implicits.

(** ** Properties *)

(** C33. Every call is answered once, and as it should be, in any interleaving of any calls: for
    each identifier the calls made are the replies given, plus one while a call is in
    progress; a call in progress replies with the status when its connection fails, asks the
    block engine when it succeeds, and replies to every answer the block engine can give; and
    a reply belongs to a call of that method and is either the status of the failed
    connection or made from an answer of the block engine: a subscription that was
    accepted becomes a stream with a pump, one denied for lack of permission a stream of the
    proxy alone, any other status is passed on; the endpoints keep their number, order and
    shredstream addresses and get the relayer's own URL; every other response and status is
    passed on as it is. *)
Theorem calls_answered {Channel BeClient AuthClient} `{!UpstreamClients Channel BeClient AuthClient}
    {R} (url : string) evs (st : bc_state BeClient AuthClient) (acts : list (bc_action Channel BeClient AuthClient R)) :
  bc_exec url bc_init evs = Some (st, acts) ->
  (forall id, calls_of id evs = (returns_of id acts + in_progress id st)%nat) /\
  (forall id c, bc_calls st !! id = Some c -> goes_on (R := R) url st id c) /\
  (forall id m out, BcReturned id m out ∈ acts ->
     (exists peer, BcCall id m peer ∈ evs) /\
     ((exists e, BcConnect id (Err e) ∈ evs /\ out = Err e) \/
      (exists a, BcAnswer id a ∈ evs /\ reply_for url m a out))).
Proof.
  intros He. split_and!.
  - intros id. by apply (bc_exec_counts _ id) in He.
  - intros id c. apply bc_goes_on.
  - intros id m out Hin. destruct (bc_exec_reply _ _ _ _ _ _ _ _ He Hin) as [[Hc|(c & Hc & _)] Ha]; [done|].
    simpl in Hc. by rewrite lookup_empty in Hc.
Qed.

(** C18. Validators do not share connections, in any interleaving of any calls: a call goes
    upstream only with a client of its own pool, over a connection that was opened before
    for a call of the same pool from the same address (for a caller without an address:
    from a caller without one).  Once an address has a pooled client and none of its calls
    waits for a connection, it has one for good, and no connection is opened for it in that
    pool again. *)
Theorem connections_not_shared {Channel BeClient AuthClient} `{!UpstreamClients Channel BeClient AuthClient}
    {R} (url : string) evs (st : bc_state BeClient AuthClient) (acts : list (bc_action Channel BeClient AuthClient R)) :
  bc_exec url bc_init evs = Some (st, acts) ->
  (forall pre peer m c post, acts = pre ++ BcAsked peer m c :: post ->
     exists ch, c = make_client m ch /\ opened_for pre peer (uses_auth_client m) ch) /\
  (forall addr auth, settled addr auth st ->
     forall evs' st' acts', bc_exec (R := R) url st evs' = Some (st', acts') ->
       settled addr auth st' /\ forall ch, ~ opened_for acts' (Some addr) auth ch).
Proof.
  intros He. split.
  - apply (bc_exec_inv url [] bc_init evs st acts); [|done].
    by split; intros addr c Hc; simpl in Hc; rewrite lookup_empty in Hc.
  - intros addr auth Hst evs' st' acts' He'. by apply (bc_exec_settled url addr auth st evs').
Qed.

(** ** Witnesses *)

#[local] Instance toy_clients : UpstreamClients nat nat nat := {| be_client_new := S; auth_client_new := S |}.

Definition other_addr : SocketAddr := (V4 [Byte.x02], 9000).

(** Two calls of one address miss the pool and both connect; a call of another address runs in
    between. *)
Definition toy_calls : list (bc_event nat nat) :=
  [BcCall 1 SubscribePackets (Some toy_addr); BcCall 2 SubscribeBundles (Some toy_addr);
   BcCall 3 GenerateAuthChallenge (Some other_addr); BcConnect 2 (Ok 10%nat); BcConnect 3 (Ok 20%nat);
   BcConnect 1 (Ok 30%nat); BcAnswer 3 (Ok (RespOther 5%nat)); BcCall 4 GetBlockBuilderFeeInfo (Some toy_addr);
   BcAnswer 1 (Err (permission_denied "not on the list")); BcAnswer 4 (Ok (RespOther 6%nat))].

Abbreviation toy_calls_run := (bc_exec (UpstreamClients0 := toy_clients) "https://local" bc_init toy_calls).

(** The later connection replaced the earlier one in the pool, and the last call used it. *)
Example racing_calls :
  option_map snd toy_calls_run =
  Some [BcOpened (Some toy_addr) SubscribeBundles 10%nat; BcAsked (Some toy_addr) SubscribeBundles (BeC 11%nat);
        BcOpened (Some other_addr) GenerateAuthChallenge 20%nat;
        BcAsked (Some other_addr) GenerateAuthChallenge (AuthC 21%nat);
        BcOpened (Some toy_addr) SubscribePackets 30%nat; BcAsked (Some toy_addr) SubscribePackets (BeC 31%nat);
        BcReturned 3 GenerateAuthChallenge (Ok (OutResponse (RespOther 5%nat)));
        BcAsked (Some toy_addr) GetBlockBuilderFeeInfo (BeC 31%nat);
        BcReturned 1 SubscribePackets (Ok (OutStream false));
        BcReturned 4 GetBlockBuilderFeeInfo (Ok (OutResponse (RespOther 6%nat)))].
Proof. vm_compute. reflexivity. Qed.

Lemma connections_not_shared_witness :
  exists st acts, toy_calls_run = Some (st, acts) /\
    forall pre peer m c post, acts = pre ++ BcAsked peer m c :: post ->
      exists ch, c = make_client m ch /\ opened_for pre peer (uses_auth_client m) ch.
Proof.
  assert (option_map (fun _ => tt) toy_calls_run = Some tt) as Hr by (vm_compute; reflexivity).
  destruct toy_calls_run as [[st acts]|] eqn:He; [|discriminate Hr].
  exists st, acts. split; [reflexivity|].
  exact (proj1 (connections_not_shared "https://local" toy_calls st acts He)).
Defined.

(** The first call of the run was denied permission and got a stream without a pump. *)
Lemma calls_answered_witness :
  exists st acts, toy_calls_run = Some (st, acts) /\
    (calls_of 1 toy_calls = returns_of 1 acts + in_progress 1 st)%nat /\
    BcReturned 1 SubscribePackets (Ok (OutStream false)) ∈ acts /\
    exists peer, BcCall 1 SubscribePackets peer ∈ toy_calls.
Proof.
  pose proof racing_calls as Hr. destruct toy_calls_run as [[st acts]|] eqn:He; [|discriminate Hr].
  injection Hr as Hr. exists st, acts. split; [reflexivity|].
  destruct (calls_answered "https://local" toy_calls st acts He) as (Hc & _ & Hs).
  assert (BcReturned 1 SubscribePackets (Ok (OutStream false)) ∈ acts) as Hin by (rewrite Hr; do 8 right; left).
  split; [apply Hc|]. split; [exact Hin|]. exact (proj1 (Hs _ _ _ Hin)).
Defined.
