(* ===== verification/Startup.v ===== *)
(** * Start-up (src/src/main.rs and the constructors it calls)

    [main] reads its configuration, makes the channels and shared objects, and starts the
    threads, tasks and servers, which are connected only through what it hands them.  Here
    every constructor is a program in a state monad [St] that records the objects made and
    the tasks started, in order, and that ends with the panic of an [expect] or [unwrap] that
    fails.  A task is a constructor of [task] with the objects it was given, so that the
    result of [main] is the wiring of the process. *)

From stdpp Require Import pretty.
From S2P Require Import Prelude Helper Bytes CertPin Protos Forwarder Interceptor AuthService.
From S2P Require Import ProxyDelay Rpc Mirror KeyFiles Blockengine.

Local Open Scope Z_scope.

(** ** Objects and tasks *)

Inductive payload := RawPackets | BankingBatches | BePackets | BeBundles | SlotNumbers.

(** What several tasks share; an object is named by its number in order of creation.  The exit
    flag, which every task gets, is not listed. *)
Inductive object :=
| Crossbeam (capacity : option Z) (p : payload)
| Broadcast (capacity : Z) (p : payload)
| WatchFlag
| Token
| PacketSubscriptions
| FilterSetObject
| StakedNodesObject
| MirrorConn.

#[export] Instance payload_eq_dec : EqDecision payload.
Proof. solve_decision. Defined.
#[export] Instance object_eq_dec : EqDecision object.
Proof. solve_decision. Defined.

Abbreviation obj := nat (only parsing).
Abbreviation handle := nat (only parsing).

(** The struct [Mirror]; its connection is a shared object. *)
Record MirrorConfig := {
  mirror_shutdown : obj;
  mirror_proxy_server : SocketAddr;
  mirror_inertia_server : SocketAddr;
  mirror_cert_pin : bytes;
  mirror_conn : obj;
  mirror_filter_set : obj;
  mirror_validator : obj;
}.

(** The struct [BlockengineService] without its client pools, which start empty. *)
Record BlockengineService := {
  blockengine_url : string;
  local_blockengine_url : string;
  bes_packet_from_proxy : obj;
  bes_packet_from_blockengine : obj;
  bes_bundle_from_proxy : obj;
  bes_bundle_from_blockengine : obj;
}.

(** The options of a QUIC server that the code sets. *)
Record QuicOptions := {
  max_connections_per_ipaddr_per_min : Z;
  num_threads : Z;
  max_streams_per_ms : Z;
  max_connections_per_staked_peer : Z;
  max_connections_per_unstaked_peer : Z;
}.

Section tasks.
Context {KP SK VK : Type}.

(** The threads and tasks, with what is moved into their closures. *)
Inductive task :=
| SlotSubscribe (websocket_server : string) (slot_sender : obj)
| StakedNodesUpdater (rpc_server : string) (staked_nodes : obj) (overrides : gmap Pubkey Z)
| TpuCancelWatcher (cancel : obj)
| QuicServer (name : string) (ip : IpAddr) (port : Z) (keypair : KP) (sender : obj)
    (staked_nodes : obj) (options : QuicOptions) (cancel : obj)
| SigVerify (receiver sender : obj) (threads : Z)
| ForwarderEventLoop (subscriptions : obj) (delay_packet_receiver : obj)
| ChallengeExpiration (interval : Z)
| RelayerServer (addr : SocketAddr) (service : ForwarderService) (subscriptions : obj)
    (interceptor_key : VK) (auth : AuthServiceImpl ValidatorAutherImpl SK VK)
| BlockengineServer (addr : SocketAddr) (service : BlockengineService)
| ShutdownWatch (watch : obj)
| RelayerDelay (rx tx : obj) (mirror : MirrorConfig) (filter_set : obj) (delay : Z)
| DelayPackets (rx tx : obj) (delay : Z) (shutdown : obj) (mirror : MirrorConfig) (filter_set : obj)
| DelayBundles (rx tx : obj) (delay : Z) (shutdown : obj) (filter_set : obj)
| MirrorRun (mirror : MirrorConfig) (bundle_out bundle_mirror_in : obj)
| JoinAll (handles : list handle).

(** What start-up leaves behind: objects and tasks in order of creation, sockets bound, the
    panic hook, and the key files. *)
Record os := {
  os_objects : list object;
  os_tasks : list task;
  os_sockets : list SocketAddr;
  os_hook : bool;      (* the panic hook of graceful_panic is installed *)
  os_fs : Fs;
}.

(** ** The monad *)

Definition St (A : Type) : Type := os -> result A panic * os.

End tasks.
Arguments task KP SK VK : clear implicits.
Arguments os KP SK VK : clear implicits.
Arguments St KP SK VK A : clear implicits.

#[export] Instance St_ret KP SK VK : MRet (St KP SK VK) := fun _ a s => (Ok a, s).
#[export] Instance St_bind KP SK VK : MBind (St KP SK VK) := fun _ _ k m s =>
  match m s with
  | (Ok a, s') => k a s'
  | (Err e, s') => (Err e, s')
  end.

(** ** The environment: operating system and third-party constructors *)

Record Env (KP : Type) := {
  env_debug : bool;                                   (* cfg!(debug_assertions) *)
  env_logger : result unit string;                    (* either logger's init *)
  env_read_keypair : string -> option KP;
  env_open_file : string -> option bytes;
  env_overrides_yaml : bytes -> option (gmap Pubkey Z);  (* staked_map_id of the file *)
  env_parse_host_port : string -> option SocketAddr;
  env_public_ip : SocketAddr -> IpAddr -> option IpAddr;
  env_runtime : bool;                                 (* the tokio runtime can be built *)
  env_parallelism : option Z;
  env_bind : IpAddr -> Z -> Z -> bool;                (* with this receive buffer *)
  env_spawn_thread : string -> bool;                  (* a thread of this name can be spawned *)
  env_quic : string -> bool;                          (* the QUIC server can be started *)
  env_rayon : Z -> bool;
  env_fs : FsEnv;
  env_seed : nat;
}.
Arguments env_debug {KP}. Arguments env_logger {KP}. Arguments env_read_keypair {KP}.
Arguments env_open_file {KP}. Arguments env_overrides_yaml {KP}.
Arguments env_parse_host_port {KP}. Arguments env_public_ip {KP}. Arguments env_runtime {KP}.
Arguments env_parallelism {KP}. Arguments env_bind {KP}. Arguments env_spawn_thread {KP}.
Arguments env_quic {KP}. Arguments env_rayon {KP}. Arguments env_fs {KP}.
Arguments env_seed {KP}.

(** ** Command line *)

Record Args := {
  keypair_path : string;
  signing_key_pem_path : string;
  verifying_key_pem_path : string;
  arg_tpu_quic_port : Z;
  arg_tpu_quic_fwd_port : Z;
  relayer_bind_ip : IpAddr;
  relayer_bind_port : Z;
  blockengine_bind_ip : IpAddr;
  blockengine_bind_port : Z;
  arg_blockengine_url : string;
  proxy_bind_ip : IpAddr;
  proxy_bind_port : Z;
  inertia_server : SocketAddr;
  inertia_cert_sha256 : string;
  rpc_server : string;
  websocket_server : string;
  staked_nodes_overrides : option string;
  arg_public_ip : option IpAddr;
  log_path : string;
}.

Definition UNSPECIFIED : IpAddr := V4 (replicate 4 Byte.x00).

(** The arguments when only the mandatory ones are given. *)
Definition Args_default (keypair url : string) (server : SocketAddr) (cert : string) : Args := {|
  keypair_path := keypair;
  signing_key_pem_path := "/etc/inertia-relayer/signing-key.pem";
  verifying_key_pem_path := "/etc/inertia-relayer/verifying-key.pem";
  arg_tpu_quic_port := 11228;
  arg_tpu_quic_fwd_port := 11229;
  relayer_bind_ip := UNSPECIFIED;
  relayer_bind_port := 11225;
  blockengine_bind_ip := UNSPECIFIED;
  blockengine_bind_port := 11226;
  arg_blockengine_url := url;
  proxy_bind_ip := UNSPECIFIED;
  proxy_bind_port := 11227;
  inertia_server := server;
  inertia_cert_sha256 := cert;
  rpc_server := "http://127.0.0.1:8899";
  websocket_server := "ws://127.0.0.1:8900";
  staked_nodes_overrides := None;
  arg_public_ip := None;
  log_path := "/etc/inertia-relayer/relayer.log";
|}.

Definition TPU_QUEUE_CAPACITY : Z := 100000.
Definition MAX_QUIC_CONNECTIONS_PER_UNSTAKED_PEER : Z := 16.
Definition MAX_QUIC_CONNECTIONS_PER_STAKED_PEER : Z := 64.
Definition MAX_CONNECTIONS_PER_IPADDR_PER_MIN : Z := 64.
Definition QUIC_SOCKET_RECV_BUFFER_SIZE : Z := 64 * 1024 * 1024.
Definition MAX_STREAMS_PER_MS : Z := 4000.
Definition BLOCKENGINE_CHANNEL_LIMIT : Z := 50000.
Definition CHALLENGE_EXPIRATION_SLEEP_INTERVAL : Z := from_secs 180.
Definition ENTRYPOINT : string := "entrypoint.mainnet-beta.solana.com:8001".

(** ** The constructors *)

Section start.
Context {KP : Type} (env : Env KP).
Context `{!AddrText} {SK VK : Type} `{!RsaCrypto SK VK}.

Abbreviation M := (St KP SK VK).

Definition panic_with {A} (p : panic) : M A := fun s => (Err p, s).
Definition expect {A} (o : option A) (msg : string) : M A :=
  match o with Some a => mret a | None => panic_with (PanicMessage msg) end.
Definition unwrap_ok (b : bool) : M unit := if b then mret tt else panic_with PanicUnwrap.

Definition new_object (o : object) : M obj := fun s =>
  (Ok (length (os_objects s)),
   {| os_objects := os_objects s ++ [o]; os_tasks := os_tasks s; os_sockets := os_sockets s;
      os_hook := os_hook s; os_fs := os_fs s |}).

(** [rt.spawn], and threads of third-party code. *)
Definition spawn (t : task KP SK VK) : M handle := fun s =>
  (Ok (length (os_tasks s)),
   {| os_objects := os_objects s; os_tasks := os_tasks s ++ [t]; os_sockets := os_sockets s;
      os_hook := os_hook s; os_fs := os_fs s |}).

(** [Builder::new().name(name).spawn(..).expect(msg)]. *)
Definition spawn_thread (name msg : string) (t : task KP SK VK) : M handle :=
  if env_spawn_thread env name then spawn t else panic_with (PanicMessage msg).

(** [bind_to_with_config(..).unwrap()]. *)
Definition bind_socket (ip : IpAddr) (port : Z) : M unit :=
  if env_bind env ip port QUIC_SOCKET_RECV_BUFFER_SIZE
  then fun s => (Ok tt, {| os_objects := os_objects s; os_tasks := os_tasks s;
                           os_sockets := os_sockets s ++ [(ip, port)];
                           os_hook := os_hook s; os_fs := os_fs s |})
  else panic_with PanicUnwrap.

(** [Rpc::new] and [start_slot_sender]; of the client only its address matters here. *)
Definition Rpc_new (rpc_server websocket_server : string) : M (string * handle) :=
  slot_sender ← new_object (Broadcast SLOT_CHANNEL_CAPACITY SlotNumbers);
  task ← spawn_thread "slot-subscribe" "spawn slot-subscribe thread"
           (SlotSubscribe websocket_server slot_sender);
  mret (rpc_server, task).

Definition StakedNodesUpdaterService_new (rpc : string) (staked_nodes : obj)
    (overrides : gmap Pubkey Z) : M handle :=
  spawn_thread "staked-nodes-updater" "spawn staked-nodes-updater thread"
    (StakedNodesUpdater rpc staked_nodes overrides).

(** The sizes of the two thread pools for [cores] processors. *)
Definition quic_threads (cores : Z) : Z := Z.max (cores / 8) 2.
Definition sigverify_threads (cores : Z) : Z :=
  Z.max (Z.max 0 (cores - 2 * quic_threads cores)) 2.

Definition quic_options (threads : Z) : QuicOptions := {|
  max_connections_per_ipaddr_per_min := MAX_CONNECTIONS_PER_IPADDR_PER_MIN;
  num_threads := threads;
  max_streams_per_ms := MAX_STREAMS_PER_MS;
  max_connections_per_staked_peer := MAX_QUIC_CONNECTIONS_PER_STAKED_PEER;
  max_connections_per_unstaked_peer := MAX_QUIC_CONNECTIONS_PER_UNSTAKED_PEER;
|}.

(** [spawn_stake_wighted_qos_server(..).unwrap().thread]. *)
Definition spawn_quic (name : string) (port : Z) (keypair : KP) (sender staked_nodes : obj)
    (threads : Z) (cancel : obj) : M handle :=
  _ ← unwrap_ok (env_quic env name);
  spawn (QuicServer name UNSPECIFIED port keypair sender staked_nodes (quic_options threads) cancel).

(** [Tpu::new]: the receiving end of the verified packets, and the thread to join. *)
Definition Tpu_new (keypair : KP) (rpc : string) (overrides : gmap Pubkey Z) (port fwd_port : Z)
    : M (obj * handle) :=
  let cores := match env_parallelism env with Some n => n | None => 8 end in
  threads ← expect (if 0 <? quic_threads cores then Some (quic_threads cores) else None)
              "quic_threads is non-zero";
  tpu_packets ← new_object (Crossbeam (Some TPU_QUEUE_CAPACITY) RawPackets);
  _ ← bind_socket UNSPECIFIED port;
  _ ← bind_socket UNSPECIFIED fwd_port;
  staked_nodes ← new_object StakedNodesObject;
  snus_task ← StakedNodesUpdaterService_new rpc staked_nodes overrides;
  cancel ← new_object Token;
  _ ← spawn_thread "tpu-cancel-watcher" "spawn tpu-cancel-watcher thread" (TpuCancelWatcher cancel);
  quic_task ← spawn_quic "quic_streamer_tpu" port keypair tpu_packets staked_nodes threads cancel;
  quic_fwd_task ← spawn_quic "quic_streamer_tpu_fwd" fwd_port keypair tpu_packets staked_nodes threads cancel;
  banking_packets ← new_object (Crossbeam None BankingBatches);
  _ ← expect (if env_rayon env (sigverify_threads cores) then Some tt else None) "New rayon threadpool";
  sigverify_stage ← spawn (SigVerify tpu_packets banking_packets (sigverify_threads cores));
  task ← spawn_thread "tpu" "Spawn tpu thread"
           (JoinAll [snus_task; quic_task; quic_fwd_task; sigverify_stage]);
  mret (banking_packets, task).

(** [Forwarder::new]: the sending end, the subscriptions, the server and the event loop. *)
Definition Forwarder_new (ip : IpAddr) (port fwd_port : Z) (bind_ip : IpAddr) (bind_port : Z)
    (signing : SK) (verifying : VK) : M (obj * obj * handle * handle) :=
  delay_packets ← new_object (Crossbeam (Some TPU_QUEUE_CAPACITY) BankingBatches);
  packet_subscriptions ← new_object PacketSubscriptions;
  let forwarder_service :=
    {| public_ip := ip; tpu_quic_port := port; tpu_fwd_quic_port := fwd_port |} in
  _ ← spawn (ChallengeExpiration CHALLENGE_EXPIRATION_SLEEP_INTERVAL);
  let auth_svc := AuthServiceImpl_new Build_ValidatorAutherImpl signing verifying in
  event_task ← spawn_thread "forwarder-event-loop" "spawn forwarder-event-loop thread"
                 (ForwarderEventLoop packet_subscriptions delay_packets);
  join ← spawn (RelayerServer (bind_ip, bind_port) forwarder_service packet_subscriptions verifying auth_svc);
  mret (delay_packets, packet_subscriptions, join, event_task).

(** [load_or_generate_keys] and the two [unwrap] of [Relayer::new], on the file system; a panic
    leaves what was written. *)
Definition relayer_keys_m (signing verifying : string) : M (SK * VK) := fun s =>
  let '(r, fs) := relayer_keys (env_fs env) signing verifying (env_seed env) (os_fs s) in
  (r, {| os_objects := os_objects s; os_tasks := os_tasks s; os_sockets := os_sockets s;
         os_hook := os_hook s; os_fs := fs |}).

(** The struct [Relayer]: what its accessors give away. *)
Record Relayer := {
  tpu_receiver : obj;
  forwarder_sender : obj;
  connected_validator : obj;
}.

Definition Relayer_new (keypair : KP) (rpc : string) (ip : IpAddr) (overrides : gmap Pubkey Z)
    (port fwd_port : Z) (grpc_bind_ip : IpAddr) (bind_port : Z) (signing_path verifying_path : string)
    : M (Relayer * handle * handle) :=
  '(signing, verifying) ← relayer_keys_m signing_path verifying_path;
  '(tpu, tpu_task) ← Tpu_new keypair rpc overrides port fwd_port;
  '(sender, subscriptions, grpc_join, event_task) ←
    Forwarder_new ip port fwd_port grpc_bind_ip bind_port signing verifying;
  let relayer :=
    {| tpu_receiver := tpu; forwarder_sender := sender; connected_validator := subscriptions |} in
  task ← spawn_thread "relayer" "Spawn tpu thread" (JoinAll [tpu_task; event_task]);
  mret (relayer, grpc_join, task).

(** The struct [Blockengine]. *)
Record Blockengine := {
  packet_from_proxy : obj;
  packet_from_blockengine : obj;
  bundle_from_proxy : obj;
  bundle_from_blockengine : obj;
}.

(** [format!("http://{}:{}", relayer_bind_ip, blockengine_bind_port)]. *)
Definition local_url (ip : IpAddr) (port : Z) : string :=
  "http://" +:+ ip_to_string ip +:+ ":" +:+ pretty port.

Definition Blockengine_new (url : string) (bind_ip : IpAddr) (bind_port : Z) : M (Blockengine * handle) :=
  bundle_from_proxy ← new_object (Broadcast BLOCKENGINE_CHANNEL_LIMIT BeBundles);
  packet_from_blockengine ← new_object (Broadcast BLOCKENGINE_CHANNEL_LIMIT BePackets);
  packet_from_proxy ← new_object (Broadcast BLOCKENGINE_CHANNEL_LIMIT BePackets);
  bundle_from_blockengine ← new_object (Broadcast BLOCKENGINE_CHANNEL_LIMIT BeBundles);
  let blockengine_service := {|
    blockengine_url := url;
    local_blockengine_url := local_url bind_ip bind_port;
    bes_packet_from_proxy := packet_from_proxy;
    bes_packet_from_blockengine := packet_from_blockengine;
    bes_bundle_from_proxy := bundle_from_proxy;
    bes_bundle_from_blockengine := bundle_from_blockengine |} in
  join ← spawn (BlockengineServer (bind_ip, bind_port) blockengine_service);
  mret ({| packet_from_proxy := packet_from_proxy;
           packet_from_blockengine := packet_from_blockengine;
           bundle_from_proxy := bundle_from_proxy;
           bundle_from_blockengine := bundle_from_blockengine |}, join).

Definition shutdown_watch : M obj :=
  rx ← new_object WatchFlag;
  _ ← spawn (ShutdownWatch rx);
  mret rx.

Definition Mirror_new (proxy_server inertia_server : SocketAddr) (cert_pin : bytes)
    (filter_set validator shutdown : obj) : M MirrorConfig :=
  conn ← new_object MirrorConn;
  mret {| mirror_shutdown := shutdown; mirror_proxy_server := proxy_server;
          mirror_inertia_server := inertia_server; mirror_cert_pin := cert_pin;
          mirror_conn := conn; mirror_filter_set := filter_set; mirror_validator := validator |}.

(** The message of [parse_cert_pin(..).expect(..)]. *)
Definition PIN_MESSAGE : string := "Invalid inertia certificate fingerprint (--inertia-cert-sha256)".

Definition Proxy_new (relayer : Relayer) (blockengine : Blockengine) (bind_ip : IpAddr) (bind_port : Z)
    (server : SocketAddr) (cert : string) : M (handle * handle) :=
  cert_pin ← expect (match parse_cert_pin cert with Ok pin => Some pin | Err _ => None end) PIN_MESSAGE;
  let be_packet_in := packet_from_blockengine blockengine in
  let be_packet_out := packet_from_proxy blockengine in
  let be_bundle_in := bundle_from_blockengine blockengine in
  let be_bundle_mirror_in := bundle_from_blockengine blockengine in
  let bundle_out := bundle_from_proxy blockengine in
  shutdown ← shutdown_watch;
  filter_set ← new_object FilterSetObject;
  mirror ← Mirror_new (bind_ip, bind_port) server cert_pin filter_set (connected_validator relayer) shutdown;
  relayer_delay_task ← spawn_thread "proxy-relayer-delay" "spawn proxy-relayer-delay thread"
    (RelayerDelay (tpu_receiver relayer) (forwarder_sender relayer) mirror filter_set PACKET_DELAY);
  packets_join ← spawn (DelayPackets be_packet_in be_packet_out PACKET_DELAY shutdown mirror filter_set);
  bundles_join ← spawn (DelayBundles be_bundle_in bundle_out PACKET_DELAY shutdown filter_set);
  mirror_join ← spawn (MirrorRun mirror bundle_out be_bundle_mirror_in);
  join ← spawn (JoinAll [mirror_join; packets_join; bundles_join]);
  mret (join, relayer_delay_task).

(** ** [main] *)

Definition init_logger : M unit :=
  match env_logger env with
  | Ok _ => mret tt
  | Err e =>
      if env_debug env then panic_with PanicUnwrap
      else panic_with (PanicMessage ("Failed to initialize logger: " +:+ e))
  end.

(** [StakedNodesOverrides::default()] has an empty map.  The messages show the path with
    [{:?}], which puts it in quotes. *)
Definition read_overrides (path : option string) : M (gmap Pubkey Z) :=
  match path with
  | None => mret ∅
  | Some p =>
      file ← expect (env_open_file env p)
               ("Failed to open staked nodes overrides file: " +:+ Grpc.QUOTE +:+ p +:+ Grpc.QUOTE);
      expect (env_overrides_yaml env file)
        ("Failed to read staked nodes overrides file: " +:+ Grpc.QUOTE +:+ p +:+ Grpc.QUOTE)
  end.

Definition find_public_ip (ip : option IpAddr) : M IpAddr :=
  match ip with
  | Some ip => mret ip
  | None =>
      entrypoint ← expect (env_parse_host_port env ENTRYPOINT) "parse entrypoint";
      expect (env_public_ip env entrypoint UNSPECIFIED) "Could not get public IP address"
  end.

(** [graceful_panic(None)]. *)
Definition install_hook : M unit := fun s =>
  (Ok tt, {| os_objects := os_objects s; os_tasks := os_tasks s; os_sockets := os_sockets s;
             os_hook := true; os_fs := os_fs s |}).

(** The exit code of a process whose start-up panics: that of the hook, or the default. *)
Definition panic_exit_code (s : os KP SK VK) : Z := if os_hook s then 1 else 101.

(** Everything up to the joins; the result is what [main] joins, in order, with the messages
    of the [expect]s. *)
Definition main (args : Args) : M (list (handle * string)) :=
  _ ← init_logger;
  keypair ← expect (env_read_keypair env (keypair_path args)) "Keypair file does not exist";
  overrides ← read_overrides (staked_nodes_overrides args);
  ip ← find_public_ip (arg_public_ip args);
  _ ← install_hook;
  _ ← unwrap_ok (env_runtime env);
  '(rpc, rpc_task) ← Rpc_new (rpc_server args) (websocket_server args);
  '(relayer, relayer_join, relayer_task) ←
    Relayer_new keypair rpc ip overrides (arg_tpu_quic_port args) (arg_tpu_quic_fwd_port args)
      (relayer_bind_ip args) (relayer_bind_port args)
      (signing_key_pem_path args) (verifying_key_pem_path args);
  '(blockengine, blockengine_join) ←
    Blockengine_new (arg_blockengine_url args) (blockengine_bind_ip args) (blockengine_bind_port args);
  '(proxy_join, proxy_delay_task) ←
    Proxy_new relayer blockengine (proxy_bind_ip args) (proxy_bind_port args)
      (inertia_server args) (inertia_cert_sha256 args);
  mret [(relayer_join, "Relayer grpc server"); (blockengine_join, "Blockengine server");
        (proxy_join, "Proxy tasks"); (rpc_task, "Rpc worker thread");
        (relayer_task, "Relayer worker thread"); (proxy_delay_task, "Proxy delay thread")].

(** Start-up begins with nothing but the file system. *)
Definition os_init (fs : Fs) : os KP SK VK :=
  {| os_objects := []; os_tasks := []; os_sockets := []; os_hook := false; os_fs := fs |}.

End start.
