(* ===== verification/Wiring.v ===== *)
(** * The running process (src/src/main.rs)

    What [main] of Startup.v leaves behind when nothing goes wrong: the exact objects and
    tasks, what an environment must answer for it, how start-up panics, and what follows from
    the wiring: every packet of the QUIC servers passes the delay thread with its filter
    before it reaches the forwarder, and every packet and bundle of the block engine passes
    its delay task. *)

From S2P Require Import Prelude Bytes CertPin Protos Forwarder Interceptor AuthService.
From S2P Require Import ProxyDelay Rpc KeyFiles Blockengine Startup.

Local Open Scope Z_scope.

(** The arguments with another certificate pin. *)
Definition set_cert (cert : string) (a : Args) : Args := {|
  keypair_path := keypair_path a; signing_key_pem_path := signing_key_pem_path a;
  verifying_key_pem_path := verifying_key_pem_path a;
  arg_tpu_quic_port := arg_tpu_quic_port a; arg_tpu_quic_fwd_port := arg_tpu_quic_fwd_port a;
  relayer_bind_ip := relayer_bind_ip a; relayer_bind_port := relayer_bind_port a;
  blockengine_bind_ip := blockengine_bind_ip a; blockengine_bind_port := blockengine_bind_port a;
  arg_blockengine_url := arg_blockengine_url a; proxy_bind_ip := proxy_bind_ip a;
  proxy_bind_port := proxy_bind_port a; inertia_server := inertia_server a;
  inertia_cert_sha256 := cert; rpc_server := rpc_server a; websocket_server := websocket_server a;
  staked_nodes_overrides := staked_nodes_overrides a; arg_public_ip := arg_public_ip a;
  log_path := log_path a |}.

(** ** A successful start *)

Section wiring.
Context {KP : Type} (env : Env KP).
Context `{!AddrText} {SK VK : Type} `{!RsaCrypto SK VK}.

(** What has to hold for the process to start, and what it starts with. *)
Record startable (args : Args) (fs : Fs) (kp : KP) (ov : gmap Pubkey Z) (ip : IpAddr)
    (sk : SK) (vk : VK) (fs' : Fs) (pin : bytes) : Prop := {
  st_logger : exists u, env_logger env = Ok u;
  st_keypair : env_read_keypair env (keypair_path args) = Some kp;
  st_overrides : match staked_nodes_overrides args with
                 | None => ov = ∅
                 | Some p => (file ← env_open_file env p; env_overrides_yaml env file) = Some ov
                 end;
  st_public_ip : match arg_public_ip args with
                 | Some ip' => ip = ip'
                 | None => (e ← env_parse_host_port env ENTRYPOINT; env_public_ip env e UNSPECIFIED) = Some ip
                 end;
  st_runtime : env_runtime env = true;
  st_threads : forall name, name ∈ ["slot-subscribe"; "staked-nodes-updater"; "tpu-cancel-watcher"; "tpu";
                 "forwarder-event-loop"; "relayer"; "proxy-relayer-delay"] ->
                 env_spawn_thread env name = true;
  st_keys : relayer_keys (env_fs env) (signing_key_pem_path args) (verifying_key_pem_path args)
              (env_seed env) fs = (Ok (sk, vk), fs');
  st_bind : env_bind env UNSPECIFIED (arg_tpu_quic_port args) QUIC_SOCKET_RECV_BUFFER_SIZE = true /\
            env_bind env UNSPECIFIED (arg_tpu_quic_fwd_port args) QUIC_SOCKET_RECV_BUFFER_SIZE = true;
  st_quic : env_quic env "quic_streamer_tpu" = true /\ env_quic env "quic_streamer_tpu_fwd" = true;
  st_rayon : env_rayon env (sigverify_threads (default 8 (env_parallelism env))) = true;
  st_pin : parse_cert_pin (inertia_cert_sha256 args) = Ok pin;
}.

(** The objects, in order of creation. *)
Definition all_objects : list object :=
  [Broadcast SLOT_CHANNEL_CAPACITY SlotNumbers; Crossbeam (Some TPU_QUEUE_CAPACITY) RawPackets;
   StakedNodesObject; Token; Crossbeam None BankingBatches;
   Crossbeam (Some TPU_QUEUE_CAPACITY) BankingBatches; PacketSubscriptions;
   Broadcast BLOCKENGINE_CHANNEL_LIMIT BeBundles; Broadcast BLOCKENGINE_CHANNEL_LIMIT BePackets;
   Broadcast BLOCKENGINE_CHANNEL_LIMIT BePackets; Broadcast BLOCKENGINE_CHANNEL_LIMIT BeBundles;
   WatchFlag; FilterSetObject; MirrorConn].

Definition the_mirror (args : Args) (pin : bytes) : MirrorConfig := {|
  mirror_shutdown := 11%nat; mirror_proxy_server := (proxy_bind_ip args, proxy_bind_port args);
  mirror_inertia_server := inertia_server args; mirror_cert_pin := pin; mirror_conn := 13%nat;
  mirror_filter_set := 12%nat; mirror_validator := 6%nat |}.

(** The tasks, in order of creation. *)
Definition wiring (args : Args) (kp : KP) (ov : gmap Pubkey Z) (ip : IpAddr) (sk : SK) (vk : VK)
    (pin : bytes) : list (task KP SK VK) :=
  let cores := default 8 (env_parallelism env) in
  let port := arg_tpu_quic_port args in
  let fwd_port := arg_tpu_quic_fwd_port args in
  let opts := quic_options (quic_threads cores) in
  [ (* 0 *) SlotSubscribe (websocket_server args) 0;
    (* 1 *) StakedNodesUpdater (rpc_server args) 2 ov;
    (* 2 *) TpuCancelWatcher 3;
    (* 3 *) QuicServer "quic_streamer_tpu" UNSPECIFIED port kp 1 2 opts 3;
    (* 4 *) QuicServer "quic_streamer_tpu_fwd" UNSPECIFIED fwd_port kp 1 2 opts 3;
    (* 5 *) SigVerify 1 4 (sigverify_threads cores);
    (* 6 *) JoinAll [1; 3; 4; 5]%nat;
    (* 7 *) ChallengeExpiration CHALLENGE_EXPIRATION_SLEEP_INTERVAL;
    (* 8 *) ForwarderEventLoop 6 5;
    (* 9 *) RelayerServer (relayer_bind_ip args, relayer_bind_port args)
              {| public_ip := ip; tpu_quic_port := port; tpu_fwd_quic_port := fwd_port |} 6 vk
              (AuthServiceImpl_new Build_ValidatorAutherImpl sk vk);
    (* 10 *) JoinAll [6; 8]%nat;
    (* 11 *) BlockengineServer (blockengine_bind_ip args, blockengine_bind_port args)
              {| blockengine_url := arg_blockengine_url args;
                 local_blockengine_url := local_url (blockengine_bind_ip args) (blockengine_bind_port args);
                 bes_packet_from_proxy := 9%nat; bes_packet_from_blockengine := 8%nat;
                 bes_bundle_from_proxy := 7%nat; bes_bundle_from_blockengine := 10%nat |};
    (* 12 *) ShutdownWatch 11;
    (* 13 *) RelayerDelay 4 5 (the_mirror args pin) 12 PACKET_DELAY;
    (* 14 *) DelayPackets 8 9 PACKET_DELAY 11 (the_mirror args pin) 12;
    (* 15 *) DelayBundles 10 7 PACKET_DELAY 11 12;
    (* 16 *) MirrorRun (the_mirror args pin) 7 10;
    (* 17 *) JoinAll [16; 14; 15]%nat ].

(** What [main] joins: the relayer server, the block-engine server, the proxy, the slot thread,
    the relayer thread and the delay thread. *)
Definition main_joins : list (handle * string) :=
  [(9%nat, "Relayer grpc server"); (11%nat, "Blockengine server"); (17%nat, "Proxy tasks");
   (0%nat, "Rpc worker thread"); (10%nat, "Relayer worker thread"); (13%nat, "Proxy delay thread")].

Definition running (args : Args) kp ov ip sk vk (fs' : Fs) pin : os KP SK VK := {|
  os_objects := all_objects;
  os_tasks := wiring args kp ov ip sk vk pin;
  os_sockets := [(UNSPECIFIED, arg_tpu_quic_port args); (UNSPECIFIED, arg_tpu_quic_fwd_port args)];
  os_hook := true;
  os_fs := fs' |}.

Implicit Types s : os KP SK VK.

(** *** Running with the answers of the environment *)

Lemma bind_run {A B} (m : St KP SK VK A) (k : A -> St KP SK VK B) s a s1 r :
  m s = (Ok a, s1) -> k a s1 = r -> (m ≫= k) s = r.
Proof. unfold mbind, St_bind. by intros ->. Qed.

Lemma expect_run {A} (o : option A) msg s a : o = Some a -> expect o msg s = (Ok a, s).
Proof. by intros ->. Qed.

Lemma unwrap_ok_run b s : b = true -> unwrap_ok b s = (Ok tt, s).
Proof. by intros ->. Qed.

Lemma new_object_run k o t n h fs :
  new_object (KP := KP) (SK := SK) (VK := VK) k
    {| os_objects := o; os_tasks := t; os_sockets := n; os_hook := h; os_fs := fs |} =
  (Ok (length o), {| os_objects := o ++ [k]; os_tasks := t; os_sockets := n; os_hook := h; os_fs := fs |}).
Proof. done. Qed.

Lemma spawn_run (x : task KP SK VK) o t n h fs :
  spawn x {| os_objects := o; os_tasks := t; os_sockets := n; os_hook := h; os_fs := fs |} =
  (Ok (length t), {| os_objects := o; os_tasks := t ++ [x]; os_sockets := n; os_hook := h; os_fs := fs |}).
Proof. done. Qed.

Lemma spawn_thread_run name msg x o t n h fs :
  env_spawn_thread env name = true ->
  spawn_thread env name msg x {| os_objects := o; os_tasks := t; os_sockets := n; os_hook := h; os_fs := fs |} =
  (Ok (length t), {| os_objects := o; os_tasks := t ++ [x : task KP SK VK]; os_sockets := n; os_hook := h; os_fs := fs |}).
Proof. unfold spawn_thread. by intros ->. Qed.

Lemma bind_socket_run ip port o t n h fs :
  env_bind env ip port QUIC_SOCKET_RECV_BUFFER_SIZE = true ->
  bind_socket (KP := KP) (SK := SK) (VK := VK) env ip port
    {| os_objects := o; os_tasks := t; os_sockets := n; os_hook := h; os_fs := fs |} =
  (Ok tt, {| os_objects := o; os_tasks := t; os_sockets := n ++ [(ip, port)]; os_hook := h; os_fs := fs |}).
Proof. unfold bind_socket. by intros ->. Qed.

Lemma install_hook_run o t n h fs :
  install_hook (KP := KP) (SK := SK) (VK := VK)
    {| os_objects := o; os_tasks := t; os_sockets := n; os_hook := h; os_fs := fs |} =
  (Ok tt, {| os_objects := o; os_tasks := t; os_sockets := n; os_hook := true; os_fs := fs |}).
Proof. done. Qed.

Lemma read_overrides_run (path : option string) ov s :
  match path with
  | None => ov = ∅
  | Some p => (file ← env_open_file env p; env_overrides_yaml env file) = Some ov
  end -> read_overrides env path s = (Ok ov, s).
Proof.
  intros Hov. unfold read_overrides. destruct path; [|subst; reflexivity].
  destruct (env_open_file env _); [|done]. csimpl in Hov. eapply bind_run; [done|]. by apply expect_run.
Qed.

Lemma find_public_ip_run (arg : option IpAddr) ip s :
  match arg with
  | Some ip' => ip = ip'
  | None => (e ← env_parse_host_port env ENTRYPOINT; env_public_ip env e UNSPECIFIED) = Some ip
  end -> find_public_ip env arg s = (Ok ip, s).
Proof.
  intros Hip. unfold find_public_ip. destruct arg; [subst; reflexivity|].
  destruct (env_parse_host_port env _); [|done]. csimpl in Hip. eapply bind_run; [done|]. by apply expect_run.
Qed.

Lemma relayer_keys_run signing verifying sk vk o t n h fs fs' :
  relayer_keys (env_fs env) signing verifying (env_seed env) fs = (Ok (sk, vk), fs') ->
  relayer_keys_m env signing verifying
    {| os_objects := o; os_tasks := t; os_sockets := n; os_hook := h; os_fs := fs |} =
  (Ok (sk, vk), {| os_objects := o; os_tasks := t; os_sockets := n; os_hook := h; os_fs := fs' |}).
Proof. unfold relayer_keys_m. cbn [os_fs]. by intros ->. Qed.

Lemma quic_threads_pos cores : 2 <= quic_threads cores.
Proof. unfold quic_threads. lia. Qed.

Ltac st_solve :=
  lazymatch goal with
  | |- (if 0 <? quic_threads ?c then _ else _) = _ =>
      by rewrite (proj2 (Z.ltb_lt 0 (quic_threads c)) ltac:(pose proof (quic_threads_pos c); lia))
  | H : parse_cert_pin _ = Ok _ |- match parse_cert_pin _ with _ => _ end = _ => by rewrite H
  | |- (if ?b then _ else _) = _ => assert (b = true) as -> by eauto; reflexivity
  | Hth : forall name, _ -> env_spawn_thread env name = true |- env_spawn_thread env _ = true =>
      apply Hth; set_solver
  | |- _ => eauto
  end.

Ltac st_run :=
  cbv beta iota zeta;
  lazymatch goal with
  | |- (_ ≫= _) _ = _ => eapply bind_run; [st_run | st_run]
  | |- mret _ _ = _ => reflexivity
  | |- expect _ _ _ = _ => apply expect_run; st_solve
  | |- unwrap_ok _ _ = _ => apply unwrap_ok_run; st_solve
  | |- new_object _ _ = _ => apply new_object_run
  | |- spawn _ _ = _ => apply spawn_run
  | |- spawn_thread _ _ _ _ _ = _ => apply spawn_thread_run; st_solve
  | |- bind_socket _ _ _ _ = _ => apply bind_socket_run; st_solve
  | |- install_hook _ = _ => apply install_hook_run
  | |- read_overrides _ _ _ = _ => apply read_overrides_run; st_solve
  | |- find_public_ip _ _ _ = _ => apply find_public_ip_run; st_solve
  | |- relayer_keys_m _ _ _ _ = _ => apply relayer_keys_run; st_solve
  end.

(** The start of the threads, given what the environment allows. *)
Lemma main_runs args fs kp ov ip sk vk fs' pin :
  startable args fs kp ov ip sk vk fs' pin ->
  main env args (os_init fs) = (Ok main_joins, running args kp ov ip sk vk fs' pin).
Proof.
  intros [[u Hlog] Hkp Hov Hip Hrt Hth Hkeys [Hb1 Hb2] [Hq1 Hq2] Hray Hpin].
  unfold main, init_logger, os_init, Rpc_new, Relayer_new, Tpu_new, StakedNodesUpdaterService_new,
    Forwarder_new, Blockengine_new, Proxy_new, shutdown_watch, Mirror_new, spawn_quic.
  rewrite Hlog. st_run.
Qed.

(** *** A certificate pin that does not parse *)

Lemma bind_panics {A B} (m : St KP SK VK A) (k : A -> St KP SK VK B) s p s1 :
  m s = (Err p, s1) -> (m ≫= k) s = (Err p, s1).
Proof. unfold mbind, St_bind. by intros ->. Qed.

Lemma expect_fails {A} (o : option A) msg s :
  o = None -> expect (KP := KP) (SK := SK) (VK := VK) o msg s = (Err (PanicMessage msg), s).
Proof. by intros ->. Qed.

Ltac st_run_panic :=
  cbv beta iota zeta;
  lazymatch goal with
  | |- (Proxy_new _ _ _ _ _ _ _ ≫= _) _ = _ => apply bind_panics; apply bind_panics
  | |- (_ ≫= _) _ = _ => eapply bind_run; [st_run | st_run_panic]
  end.

Lemma main_bad_pin args fs kp ov ip sk vk fs' pin cert :
  startable args fs kp ov ip sk vk fs' pin ->
  match parse_cert_pin cert with Ok _ => False | Err _ => True end ->
  exists s, main env (set_cert cert args) (os_init fs) = (Err (PanicMessage PIN_MESSAGE), s) /\
    panic_exit_code s = 1 /\ os_tasks s = take 12 (wiring args kp ov ip sk vk pin).
Proof.
  intros [[u Hlog] Hkp Hov Hip Hrt Hth Hkeys [Hb1 Hb2] [Hq1 Hq2] Hray Hpin] Hc.
  destruct args; cbn in *. eexists. split; [|split].
  - unfold main, init_logger, os_init, Rpc_new, Relayer_new, Tpu_new, StakedNodesUpdaterService_new,
      Forwarder_new, Blockengine_new, spawn_quic.
    rewrite Hlog. st_run_panic.
    apply expect_fails. change (Startup.inertia_cert_sha256 _) with cert. by destruct (parse_cert_pin cert).
  - reflexivity.
  - reflexivity.
Qed.

(** *** A run that returns got all the answers it needs *)

Lemma bind_Ok {A B} (m : St KP SK VK A) (k : A -> St KP SK VK B) s b s' :
  (m ≫= k) s = (Ok b, s') -> exists a s1, m s = (Ok a, s1) /\ k a s1 = (Ok b, s').
Proof. unfold mbind, St_bind. destruct (m s) as [[a|e] s1]; [by eauto | done]. Qed.

Lemma expect_Ok {A} (o : option A) msg s a s' :
  expect o msg s = (Ok a, s') -> o = Some a /\ s' = s.
Proof. unfold expect, mret, St_ret, panic_with. intros H1. by destruct o; simplify_eq. Qed.

Lemma unwrap_ok_Ok b s u s' : unwrap_ok b s = (Ok u, s') -> b = true /\ s' = s.
Proof. unfold unwrap_ok, mret, St_ret, panic_with. intros H1. by destruct b; simplify_eq. Qed.

Lemma spawn_thread_Ok name msg t s h s' :
  spawn_thread env name msg t s = (Ok h, s') ->
  env_spawn_thread env name = true /\ os_fs s' = os_fs s.
Proof. unfold spawn_thread, spawn, panic_with. intros H1. case_match; by simplify_eq. Qed.

Lemma bind_socket_Ok ip port s u s' :
  bind_socket env ip port s = (Ok u, s') -> env_bind env ip port QUIC_SOCKET_RECV_BUFFER_SIZE = true /\ os_fs s' = os_fs s.
Proof. unfold bind_socket, panic_with. intros H1. case_match; by simplify_eq. Qed.

Lemma init_logger_Ok s u s' : init_logger env s = (Ok u, s') -> (exists u, env_logger env = Ok u) /\ s' = s.
Proof.
  unfold init_logger, mret, St_ret, panic_with. intros H1. repeat case_match; simplify_eq. by eauto.
Qed.

Lemma read_overrides_Ok (path : option string) s ov s' :
  read_overrides env path s = (Ok ov, s') ->
  match path with
  | None => ov = ∅
  | Some p => (file ← env_open_file env p; env_overrides_yaml env file) = Some ov
  end /\ s' = s.
Proof.
  unfold read_overrides. intros H1. destruct path; [|by injection H1 as <- <-].
  apply bind_Ok in H1 as (f & s1 & Ho & Hy). apply expect_Ok in Ho as [-> ->]. by apply expect_Ok in Hy.
Qed.

Lemma find_public_ip_Ok (arg : option IpAddr) s ip s' :
  find_public_ip env arg s = (Ok ip, s') ->
  match arg with
  | Some ip' => ip = ip'
  | None => (e ← env_parse_host_port env ENTRYPOINT; env_public_ip env e UNSPECIFIED) = Some ip
  end /\ s' = s.
Proof.
  unfold find_public_ip. intros H1. destruct arg; [by injection H1 as <- <-|].
  apply bind_Ok in H1 as (f & s1 & Ho & Hy). apply expect_Ok in Ho as [-> ->]. by apply expect_Ok in Hy.
Qed.

Lemma relayer_keys_Ok signing verifying s ks s' :
  relayer_keys_m env signing verifying s = (Ok ks, s') ->
  relayer_keys (env_fs env) signing verifying (env_seed env) (os_fs s) =
    (Ok ks, os_fs s').
Proof. unfold relayer_keys_m. intros H1. repeat case_match; by simplify_eq/=. Qed.

Lemma new_object_Ok k s o s' : new_object k s = (Ok o, s') -> os_fs s' = os_fs s.
Proof. unfold new_object. by intros [= <- <-]. Qed.

Lemma install_hook_Ok s u s' : install_hook s = (Ok u, s') -> os_fs s' = os_fs s.
Proof. unfold install_hook. by intros [= <- <-]. Qed.

Lemma spawn_Ok t s h s' : spawn t s = (Ok h, s') -> os_fs s' = os_fs s.
Proof. unfold spawn. by intros [= <- <-]. Qed.

Lemma mret_Ok {A} (a b : A) s s' : (mret a : St KP SK VK A) s = (Ok b, s') -> os_fs s' = os_fs s.
Proof. unfold mret, St_ret. by intros [= <- <-]. Qed.

Ltac st_inv :=
  repeat match goal with
  | H : (_ ≫= _) _ = (Ok _, _) |- _ => apply bind_Ok in H as (? & ? & ? & ?)
  | H : expect _ _ _ = (Ok _, _) |- _ => apply expect_Ok in H as [? ?]; subst
  | H : unwrap_ok _ _ = (Ok _, _) |- _ => apply unwrap_ok_Ok in H as [? ?]; subst
  | H : spawn_thread _ _ _ _ _ = (Ok _, _) |- _ => apply spawn_thread_Ok in H as [? ?]
  | H : bind_socket _ _ _ _ = (Ok _, _) |- _ => apply bind_socket_Ok in H as [? ?]
  | H : init_logger _ _ = (Ok _, _) |- _ => apply init_logger_Ok in H as [? ?]; subst
  | H : read_overrides _ _ _ = (Ok _, _) |- _ => apply read_overrides_Ok in H as [? ?]; subst
  | H : find_public_ip _ _ _ = (Ok _, _) |- _ => apply find_public_ip_Ok in H as [? ?]; subst
  | H : new_object _ _ = (Ok _, _) |- _ => apply new_object_Ok in H
  | H : install_hook _ = (Ok _, _) |- _ => apply install_hook_Ok in H
  | H : relayer_keys_m _ _ _ _ = (Ok _, _) |- _ => apply relayer_keys_Ok in H
  | H : (let '(_, _) := ?p in _) _ = (Ok _, _) |- _ => destruct p
  | H : spawn _ _ = (Ok _, _) |- _ => apply spawn_Ok in H
  | H : mret _ _ = (Ok _, _) |- _ => apply mret_Ok in H
  end.

Lemma main_needs args fs js s :
  main env args (os_init fs) = (Ok js, s) ->
  exists kp ov ip sk vk fs' pin, startable args fs kp ov ip sk vk fs' pin.
Proof.
  unfold main, Rpc_new, Relayer_new, Tpu_new, StakedNodesUpdaterService_new,
    Forwarder_new, Blockengine_new, Proxy_new, shutdown_watch, Mirror_new, spawn_quic.
  intros Hm. cbv zeta in Hm. st_inv.
  match goal with H : relayer_keys _ _ _ _ (os_fs ?x) = _ |- _ =>
    replace (os_fs x) with fs in H by (simpl in *; congruence) end.
  match goal with H : match parse_cert_pin _ with _ => _ end = Some _ |- _ =>
    destruct (parse_cert_pin (inertia_cert_sha256 args)) eqn:Hpin; [|done] end.
  do 7 eexists. split; eauto.
  - intros name Hn. repeat (apply elem_of_cons in Hn as [->|Hn]; [done|]). by apply elem_of_nil in Hn.
  - by case_match.
Qed.

(** *** The hook stays installed *)

Definition keeps_hook {A} (m : St KP SK VK A) : Prop :=
  forall s, os_hook s = true -> os_hook (m s).2 = true.

Lemma keeps_hook_bind {A B} (m : St KP SK VK A) (k : A -> St KP SK VK B) :
  keeps_hook m -> (forall a, keeps_hook (k a)) -> keeps_hook (m ≫= k).
Proof.
  intros Hm Hk s Hs. specialize (Hm s Hs). unfold mbind, St_bind.
  destruct (m s) as [[a|e] s1]; simpl in *; [by apply Hk | done].
Qed.

Lemma keeps_hook_let {A B C} (p : A * B) (k : A -> B -> St KP SK VK C) :
  (forall a b, keeps_hook (k a b)) -> keeps_hook (let '(a, b) := p in k a b).
Proof. destruct p. auto. Qed.

Ltac hook_solve :=
  repeat first
  [ apply keeps_hook_bind; [|intros ?]
  | apply keeps_hook_let; intros ? ?
  | match goal with |- keeps_hook (let _ := _ in _) => cbv zeta end ];
  intros ? ?;
  unfold expect, unwrap_ok, new_object, spawn_thread, spawn, bind_socket, relayer_keys_m, panic_with, mret, St_ret;
  repeat case_match; simplify_eq/=; done.

Lemma keeps_hook_Relayer_new kp rpc ip ov port fwd gip bport sp vp :
  keeps_hook (Relayer_new env kp rpc ip ov port fwd gip bport sp vp).
Proof.
  unfold Relayer_new, Tpu_new, StakedNodesUpdaterService_new, Forwarder_new, spawn_quic. hook_solve.
Qed.

(** [main] after the hook has been installed. *)
Definition rest (args : Args) (kp : KP) (ov : gmap Pubkey Z) (ip : IpAddr)
    : St KP SK VK (list (handle * string)) :=
    _ ← unwrap_ok (env_runtime env);
    '(rpc, rpc_task) ← Rpc_new env (rpc_server args) (websocket_server args);
    '(relayer, relayer_join, relayer_task) ←
      Relayer_new env kp rpc ip ov (arg_tpu_quic_port args) (arg_tpu_quic_fwd_port args)
        (relayer_bind_ip args) (relayer_bind_port args)
        (signing_key_pem_path args) (verifying_key_pem_path args);
    '(blockengine, blockengine_join) ←
      Blockengine_new (arg_blockengine_url args) (blockengine_bind_ip args) (blockengine_bind_port args);
    '(proxy_join, proxy_delay_task) ←
      Proxy_new env relayer blockengine (proxy_bind_ip args) (proxy_bind_port args)
        (inertia_server args) (inertia_cert_sha256 args);
    mret [(relayer_join, "Relayer grpc server"); (blockengine_join, "Blockengine server");
          (proxy_join, "Proxy tasks"); (rpc_task, "Rpc worker thread");
          (relayer_task, "Relayer worker thread"); (proxy_delay_task, "Proxy delay thread")].

Lemma keeps_hook_rest args kp ov ip : keeps_hook (rest args kp ov ip).
Proof.
  apply keeps_hook_bind; [hook_solve|]. intros _.
  apply keeps_hook_bind; [unfold Rpc_new; hook_solve|]. intros [rpc h].
  apply keeps_hook_bind; [apply keeps_hook_Relayer_new|]. intros [[r h1] h2].
  unfold Blockengine_new, Proxy_new, shutdown_watch, Mirror_new. hook_solve.
Qed.

(** The checks [main] makes before it installs the hook and starts anything. *)
Definition early_checks (args : Args) : option (KP * gmap Pubkey Z * IpAddr) :=
  _ ← match env_logger env with Ok _ => Some tt | Err _ => None end;
  kp ← env_read_keypair env (keypair_path args);
  ov ← match staked_nodes_overrides args with
       | None => Some ∅
       | Some p => file ← env_open_file env p; env_overrides_yaml env file
       end;
  ip ← match arg_public_ip args with
       | Some ip => Some ip
       | None => e ← env_parse_host_port env ENTRYPOINT; env_public_ip env e UNSPECIFIED
       end;
  Some (kp, ov, ip).

(** [main] up to the hook, in front of the rest [K]. *)
Definition early_main {B} (args : Args) (K : KP -> gmap Pubkey Z -> IpAddr -> St KP SK VK B) : St KP SK VK B :=
  _ ← init_logger env;
  keypair ← expect (env_read_keypair env (keypair_path args)) "Keypair file does not exist";
  overrides ← read_overrides env (staked_nodes_overrides args);
  ip ← find_public_ip env (arg_public_ip args);
  K keypair overrides ip.

Ltac st_reduce := cbv [mbind St_bind mret St_ret expect panic_with option_bind].

Lemma early_main_run {B} (args : Args) (K : KP -> gmap Pubkey Z -> IpAddr -> St KP SK VK B) s :
  match early_checks args with
  | Some (kp, ov, ip) => early_main args K s = K kp ov ip s
  | None => exists p, early_main args K s = (Err p, s)
  end.
Proof.
  unfold early_checks, early_main, init_logger, read_overrides, find_public_ip.
  destruct (env_logger env) as [u|e]; [|destruct (env_debug env); eexists; reflexivity].
  destruct (env_read_keypair env _) as [kp|]; [|eexists; reflexivity]. csimpl.
  destruct (staked_nodes_overrides args) as [path|].
  1: destruct (env_open_file env path) as [f|]; [csimpl|eexists; reflexivity];
     destruct (env_overrides_yaml env f) as [ov|] eqn:Ey; csimpl.
  2: eexists; st_reduce; rewrite Ey; reflexivity.
  all: st_reduce; try rewrite Ey.
  all: destruct (arg_public_ip args) as [ip|]; [reflexivity|].
  all: destruct (env_parse_host_port env _) as [a|]; [|eexists; reflexivity].
  all: destruct (env_public_ip env a _) as [ip|]; [reflexivity|eexists; reflexivity].
Qed.

Lemma main_early_failure args fs :
  early_checks args = None -> exists p, main env args (os_init fs) = (Err p, os_init fs).
Proof.
  intros He. pose proof (early_main_run args (fun kp ov ip => _ ← install_hook; rest args kp ov ip) (os_init fs)) as H1.
  by rewrite He in H1.
Qed.

Lemma main_late_hook args fs :
  early_checks args <> None -> os_hook (main env args (os_init fs)).2 = true.
Proof.
  intros He. pose proof (early_main_run args (fun kp ov ip => _ ← install_hook; rest args kp ov ip) (os_init fs)) as H1.
  destruct (early_checks args) as [[[kp ov] ip]|]; [|done].
  change (main env args) with (early_main args (fun kp ov ip => _ ← install_hook; rest args kp ov ip)).
  rewrite H1. erewrite bind_run; [|apply install_hook_run|reflexivity]. by apply keeps_hook_rest.
Qed.

End wiring.

(** ** Who talks to whom *)

Section channels.
Context {KP SK VK : Type}.

(** The channels the tasks of each file send on, and those they receive from.  The slot thread
    sends slots; the QUIC servers fill the queue of the signature verification, which sends to
    the banking channel; the two subscription handlers of the block-engine server subscribe
    to what the proxy publishes, and their pumps publish what the block engine sends; the
    tasks of the proxy are the delay lines and the mirror. *)
Definition rpc_sends (t : task KP SK VK) : list obj :=
  match t with SlotSubscribe _ slot_sender => [slot_sender] | _ => [] end.

Definition tpu_sends (t : task KP SK VK) : list obj :=
  match t with
  | QuicServer _ _ _ _ tpu_packet_sender _ _ _ => [tpu_packet_sender]
  | SigVerify _ banking_packet_sender _ => [banking_packet_sender]
  | _ => []
  end.

Definition blockengine_sends (t : task KP SK VK) : list obj :=
  match t with
  | BlockengineServer _ svc => [bes_packet_from_blockengine svc; bes_bundle_from_blockengine svc]
  | _ => []
  end.

Definition proxy_sends (t : task KP SK VK) : list obj :=
  match t with
  | RelayerDelay _ forwarder_sender _ _ _ => [forwarder_sender]
  | DelayPackets _ be_packet_out _ _ _ _ => [be_packet_out]
  | DelayBundles _ bundle_out _ _ _ => [bundle_out]
  | MirrorRun _ bundle_out _ => [bundle_out]
  | _ => []
  end.

Definition task_sends (t : task KP SK VK) : list obj :=
  rpc_sends t ++ tpu_sends t ++ blockengine_sends t ++ proxy_sends t.

Definition tpu_receives (t : task KP SK VK) : list obj :=
  match t with SigVerify tpu_packet_receiver _ _ => [tpu_packet_receiver] | _ => [] end.

Definition forwarder_receives (t : task KP SK VK) : list obj :=
  match t with ForwarderEventLoop _ delay_packet_receiver => [delay_packet_receiver] | _ => [] end.

Definition blockengine_receives (t : task KP SK VK) : list obj :=
  match t with
  | BlockengineServer _ svc => [bes_packet_from_proxy svc; bes_bundle_from_proxy svc]
  | _ => []
  end.

Definition proxy_receives (t : task KP SK VK) : list obj :=
  match t with
  | RelayerDelay tpu_receiver _ _ _ _ => [tpu_receiver]
  | DelayPackets be_packet_in _ _ _ _ _ => [be_packet_in]
  | DelayBundles be_bundle_in _ _ _ _ => [be_bundle_in]
  | MirrorRun _ _ be_bundle_mirror_in => [be_bundle_mirror_in]
  | _ => []
  end.

Definition task_receives (t : task KP SK VK) : list obj :=
  tpu_receives t ++ forwarder_receives t ++ blockengine_receives t ++ proxy_receives t.

End channels.

(** ** Theorems *)

Section theorems.
Context {KP SK VK : Type} `{!AddrText} `{!RsaCrypto SK VK} (env : Env KP).
Implicit Types (args : Args) (fs : Fs) (s : os KP SK VK).

(** C13. Start-up succeeds exactly when every answer it needs is given (logger, key pair,
    overrides, public address, runtime, threads, key files, sockets, QUIC servers, thread
    pool, certificate pin), and then the process consists of exactly the objects and tasks of
    [running], connected as listed there, with the six handles of [main_joins] left to join. *)
Theorem main_wiring args fs joins s :
  main env args (os_init fs) = (Ok joins, s) <->
  exists kp ov ip sk vk fs' pin,
    startable env args fs kp ov ip sk vk fs' pin /\
    joins = main_joins /\ s = running env args kp ov ip sk vk fs' pin.
Proof.
  split.
  - intros Hm. destruct (main_needs env args fs joins s Hm) as (kp & ov & ip & sk & vk & fs' & pin & Hs).
    exists kp, ov, ip, sk, vk, fs', pin. split; [done|].
    pose proof (main_runs env args fs kp ov ip sk vk fs' pin Hs) as Hr. rewrite Hr in Hm. by simplify_eq.
  - intros (kp & ov & ip & sk & vk & fs' & pin & Hs & -> & ->). by apply main_runs.
Qed.

(** C3. Nothing bypasses the filter.  In the running process, the only task that sends to the
    channel of the forwarder's event loop is the delay thread, which alone receives what the
    signature verification passes on and holds it for 100 ms; the only task that sends
    packets to the block-engine subscribers of the validator is the packet delay task, and
    bundles come to them from the bundle delay task and from the mirror alone.  All three
    delay tasks filter with the set the mirror fills, and the mirror reports the validator of
    the subscriptions the event loop forwards to. *)
Theorem no_path_around_the_filter args fs joins s :
  main env args (os_init fs) = (Ok joins, s) ->
  exists rx tx mirror subs addr svc be_rx be_tx bu_rx bu_tx,
    let f := mirror_filter_set mirror in
    let relayer_delay := RelayerDelay rx tx mirror f PACKET_DELAY in
    let packets := DelayPackets be_rx be_tx PACKET_DELAY (mirror_shutdown mirror) mirror f in
    let bundles := DelayBundles bu_rx bu_tx PACKET_DELAY (mirror_shutdown mirror) f in
    let mirror_run := MirrorRun mirror bu_tx bu_rx in
    (forall t, t ∈ [relayer_delay; packets; bundles; mirror_run; ForwarderEventLoop subs tx;
                    BlockengineServer addr svc] -> t ∈ os_tasks s) /\
    bes_packet_from_proxy svc = be_tx /\ bes_bundle_from_proxy svc = bu_tx /\
    mirror_validator mirror = subs /\
    Forall (fun t =>
      (tx ∈ task_sends t -> t = relayer_delay) /\ (rx ∈ task_receives t -> t = relayer_delay) /\
      (be_tx ∈ task_sends t -> t = packets) /\
      (bu_tx ∈ task_sends t -> t = bundles \/ t = mirror_run)) (os_tasks s).
Proof.
  intros Hm. destruct (main_needs env args fs joins s Hm) as (kp & ov & ip & sk & vk & fs' & pin & Hs).
  pose proof (main_runs env args fs kp ov ip sk vk fs' pin Hs) as Hr. rewrite Hr in Hm.
  injection Hm as <- <-. clear Hr.
  exists 4%nat, 5%nat, (the_mirror args pin), 6%nat, (blockengine_bind_ip args, blockengine_bind_port args).
  eexists. exists 8%nat, 9%nat, 10%nat, 7%nat. cbv zeta. split.
  { intros t Ht. unfold running, wiring. cbn [os_tasks].
    repeat (apply elem_of_cons in Ht as [->|Ht]; [by repeat (constructor 1 || constructor 2)|]).
    by apply elem_of_nil in Ht. }
  split_and!; try reflexivity.
  unfold running, wiring. cbn [os_tasks].
  repeat (apply Forall_cons; split; [cbn; set_solver by lia|]). constructor.
Qed.

(** C30. How start-up panics.  A failure of one of the checks made first (logger, key pair,
    overrides, public address) leaves nothing behind: no object, no task, no socket, the key
    files as they were, and the default exit code 101.  Every later failure finds the panic
    hook installed, so the process ends with code 1 after the threads that are already
    running have been told to stop.  A certificate pin that does not parse is such a late
    failure: by then both servers and the TPU are running. *)
Theorem startup_panics args fs :
  (early_checks env args = None ->
   exists p, main env args (os_init fs : os KP SK VK) = (Err p, os_init fs) /\
     panic_exit_code (os_init fs : os KP SK VK) = 101) /\
  (early_checks env args <> None ->
   forall p s, main env args (os_init fs) = (Err p, s) -> panic_exit_code s = 1) /\
  (forall kp ov ip sk vk fs' pin cert,
     startable env args fs kp ov ip sk vk fs' pin ->
     match parse_cert_pin cert with Ok _ => False | Err _ => True end ->
     exists s, main env (set_cert cert args) (os_init fs) = (Err (PanicMessage PIN_MESSAGE), s) /\
       panic_exit_code s = 1 /\ os_tasks s = take 12 (wiring env args kp ov ip sk vk pin)).
Proof.
  split_and!.
  - intros He. destruct (main_early_failure env args fs He) as [p Hp]. by exists p.
  - intros He p s Hm. apply (main_late_hook env args fs) in He. rewrite Hm in He.
    unfold panic_exit_code. simpl in He. by rewrite He.
  - intros kp ov ip sk vk fs' pin cert Hs Hc. by eapply main_bad_pin.
Qed.

(** The thread pools of the TPU.  On a machine with [cores] processors each of the two
    QUIC servers gets at least 2 threads and the signature verification at least 2, together
    at most as many as there are processors (or 6, if that is more), and exactly as many from
    6 processors on; when the number of processors cannot be determined, 8 are assumed. *)
Theorem thread_pools_bounded cores :
  1 <= cores ->
  let q := quic_threads cores in
  let v := sigverify_threads cores in
  2 <= q /\ 2 <= v /\ 2 * q + v <= Z.max cores 6 /\ (6 <= cores -> 2 * q + v = cores).
Proof.
  intros Hc q v. unfold q, v, sigverify_threads, quic_threads.
  pose proof (Z.div_le_mono cores cores 8 ltac:(lia) ltac:(lia)).
  pose proof (Z.mul_div_le cores 8 ltac:(lia)). pose proof (Z.div_pos cores 8 ltac:(lia) ltac:(lia)).
  split_and!; lia.
Qed.

(** The relayer's server and what it depends on agree: the interceptor verifies with the key
    the auth service was given, both come from the key files, the ports advertised to the
    validator are those of the two QUIC servers less 6, and the handlers subscribe to the map
    the event loop forwards to. *)
Theorem relayer_server_consistent args fs joins s :
  main env args (os_init fs) = (Ok joins, s) ->
  6 <= arg_tpu_quic_port args < 2 ^ 16 -> 6 <= arg_tpu_quic_fwd_port args < 2 ^ 16 ->
  exists addr svc subs vk auth rx,
    RelayerServer addr svc subs vk auth ∈ os_tasks s /\ ForwarderEventLoop subs rx ∈ os_tasks s /\
    service_verifying_key auth = vk /\
    relayer_keys (env_fs env) (signing_key_pem_path args) (verifying_key_pem_path args)
      (env_seed env) fs = (Ok (signing_key auth, vk), os_fs s) /\
    (exists tpu_ fwd, get_tpu_configs svc = {| tpu := Some tpu_; tpu_forward := Some fwd |} /\
       os_sockets s = [(UNSPECIFIED, socket_port tpu_ + 6); (UNSPECIFIED, socket_port fwd + 6)]).
Proof.
  intros Hm Hp Hf. destruct (main_needs env args fs joins s Hm) as (kp & ov & ip & sk & vk & fs' & pin & Hs).
  pose proof (main_runs env args fs kp ov ip sk vk fs' pin Hs) as Hr. rewrite Hr in Hm.
  injection Hm as <- <-. clear Hr. do 6 eexists. split; [|split; [|split; [|split]]].
  - unfold running, wiring. cbn [os_tasks]. by repeat (constructor 1 || constructor 2).
  - unfold running, wiring. cbn [os_tasks]. by repeat (constructor 1 || constructor 2).
  - reflexivity.
  - apply Hs.
  - do 2 eexists. split; [reflexivity|]. unfold running. cbn.
    unfold u16_sub. rewrite !wrap_small by lia. by rewrite !Z.sub_add.
Qed.

End theorems.

(** ** Witnesses *)

(** A machine with 16 processors on which everything works, and the default arguments. *)
Definition toy_env : Env unit := {|
  env_debug := false;
  env_logger := Ok tt;
  env_read_keypair _ := Some tt;
  env_open_file _ := None;
  env_overrides_yaml _ := None;
  env_parse_host_port _ := Some (V4 [Byte.x01; Byte.x02; Byte.x03; Byte.x04], 8001);
  env_public_ip _ _ := Some (V4 [Byte.x05; Byte.x06; Byte.x07; Byte.x08]);
  env_runtime := true;
  env_parallelism := Some 16;
  env_bind _ _ _ := true;
  env_spawn_thread _ := true;
  env_quic _ := true;
  env_rayon _ := true;
  env_fs := toy_fs_env;
  env_seed := 3%nat;
|}.

Definition toy_args : Args :=
  Args_default "id.json" "https://mainnet.block-engine.jito.wtf"
    (V4 [Byte.x09; Byte.x09; Byte.x09; Byte.x09], 7000) toy_pin_text.

Definition toy_key_fs : Fs := {|
  nodes := {[to_path "/etc/inertia-relayer/signing-key.pem" :=
               File (replicate 5 Byte.x73 ++ [Byte.x0a]) SECRET_MODE true;
             to_path "/etc/inertia-relayer/verifying-key.pem" :=
               File (replicate 5 Byte.x70 ++ [Byte.x0a]) DEFAULT_MODE true]} |}.

Definition toy_pin : bytes := Byte.xab :: replicate 30 Byte.x00 ++ [Byte.xff].

Lemma toy_startable :
  @startable unit toy_env nat nat toy_rsa toy_args toy_key_fs tt ∅
    (V4 [Byte.x05; Byte.x06; Byte.x07; Byte.x08]) 5%nat 5%nat toy_key_fs toy_pin.
Proof.
  split; try done. by exists tt.
Qed.

Definition toy_running : os unit nat nat :=
  @running unit toy_env toy_addr_text nat nat toy_args tt ∅
    (V4 [Byte.x05; Byte.x06; Byte.x07; Byte.x08]) 5%nat 5%nat toy_key_fs toy_pin.

Lemma no_path_around_the_filter_witness :
  @main unit toy_env toy_addr_text nat nat toy_rsa toy_args (os_init toy_key_fs) =
    (Ok main_joins, toy_running) /\
  exists tx subs, ForwarderEventLoop subs tx ∈ os_tasks toy_running.
Proof.
  assert (@main unit toy_env toy_addr_text nat nat toy_rsa toy_args (os_init toy_key_fs) =
    (Ok main_joins, toy_running)) as Hm by (apply main_runs, toy_startable).
  split; [exact Hm|].
  destruct (@no_path_around_the_filter unit nat nat toy_addr_text toy_rsa toy_env toy_args
    toy_key_fs main_joins toy_running Hm) as (rx & tx & m & subs & addr & svc & a & b & c & d & Ht & _).
  exists tx, subs. apply Ht. do 4 constructor 2. constructor 1.
Defined.

Lemma thread_pools_bounded_witness : 2 * quic_threads 16 + sigverify_threads 16 = 16.
Proof. apply (thread_pools_bounded 16); lia. Defined.

(** The default ports do not collide. *)
Example default_ports_distinct :
  NoDup [arg_tpu_quic_port toy_args; arg_tpu_quic_fwd_port toy_args; relayer_bind_port toy_args;
         blockengine_bind_port toy_args; proxy_bind_port toy_args].
Proof. repeat constructor; set_solver by (simpl; lia). Qed.
