(* ===== verification/TaskEnds.v ===== *)
(** * When the loops end

    Each thread and task of the process is a loop with its own reasons to end: the exit flag,
    the shutdown watch, a channel whose other side is gone.  This file states, for every loop
    that is a machine of another file, the condition under which it ends, and proves the
    condition right: the machine ends in no other way, and under the condition it has a way
    to its end from every point.  Shutdown.v puts the conditions together. *)

From S2P Require Import Prelude Helper Bytes Protos FilterSet DelayLine ProxyDelay Rpc Grpc Forwarder Mirror.

Local Open Scope Z_scope.

(** ** The conditions *)

(** [start_slot_sender]. *)
Definition slot_thread_ends (exit : bool) : Prop := exit = true.

(** [spawn_relayer_delay]: the exit flag, a disconnected input, a failed send. *)
Definition relayer_delay_ends (exit : bool) (disconnected receiver_gone : Prop) : Prop :=
  exit = true \/ disconnected \/ receiver_gone.

(** [delay_forward]: the shutdown watch, a closed input. *)
Definition delay_forward_ends (shutdown : bool) (closed : Prop) : Prop := shutdown = true \/ closed.

(** [run_event_loop]: the exit flag, a disconnected input. *)
Definition event_loop_ends (exit : bool) (disconnected : Prop) : Prop := exit = true \/ disconnected.

(** [Mirror::run]: no endpoint, or the shutdown watch. *)
Definition mirror_run_ends (shutdown endpoint_ok : bool) : Prop := endpoint_ok = false \/ shutdown = true.

(** ** Loops as machines *)

Section loop.
Context {St Ev : Type} (step : St -> Ev -> option St).
Context (fact : Ev -> Prop).       (* events that agree with the state of the outside *)
Context (ended : St -> bool).

Definition goes (st st' : St) : Prop := exists ev, fact ev /\ step st ev = Some st'.

(** From [st] the loop can get to its end. *)
Definition winds_up (st : St) : Prop := exists st', rtc goes st st' /\ ended st' = true.

(** [cond] is why the loop ends: it does not end otherwise, and with it, it can from everywhere. *)
Definition ends_exactly (cond : Prop) : Prop :=
  (forall st st', ended st = false -> goes st st' -> ended st' = true -> cond) /\
  (cond -> forall st, winds_up st).

Lemma winds_up_here st : ended st = true -> winds_up st.
Proof. by exists st. Qed.

Lemma winds_up_step ev st st1 : fact ev -> step st ev = Some st1 -> winds_up st1 -> winds_up st.
Proof.
  intros Hf Hs (st' & Hr & He). exists st'. split; [|done]. eapply rtc_l; [|done]. by exists ev.
Qed.

End loop.

(** Takes the step of event [e]. *)
Ltac wind e := eapply (winds_up_step _ _ _ e); [solve [done | simpl; congruence] | reflexivity |].
Ltac wound := by apply winds_up_here.

(** ** The slot thread *)

Definition slot_fact (exit : bool) (ev : sl_event) : Prop :=
  match ev with SlExit b => b = exit | _ => True end.

Definition slot_ended (pc : sl_pc) : bool := match pc with SlDone => true | _ => false end.

Lemma slot_thread_ends_exactly exit :
  ends_exactly (fun pc ev => fst <$> sl_step pc ev) (slot_fact exit) slot_ended (slot_thread_ends exit).
Proof.
  unfold slot_thread_ends. split.
  - intros pc pc' Hn (ev & Hf & Hs) He. destruct (sl_step pc ev) as [[pc1 acts]|] eqn:E; [|done].
    unfold sl_step in E. by repeat case_match; simplify_eq/=.
  - intros -> pc.
    destruct pc.
    + wind (SlExit true). wound.
    + wind (SlSubscribed (Err EmptyString)). wind (SlExit true). wind (SlExit true). wound.
    + wind (SlExit true). wind (SlExit true). wind (SlExit true). wound.
    + wind (SlReceived (Err Timeout)). wind (SlExit true). wind (SlExit true). wound.
    + wind (SlExit true). wind (SlExit true). wound.
    + wind SlWoke. wind (SlExit true). wound.
    + wound.
Qed.

(** ** The relayer delay thread *)

Section relayer_delay.
Context {P : Type} `{!SolanaPacket P} (delay : Z) (exit disconnected gone : bool).

(** A send fails exactly when the receiver is gone. *)
Definition rd_fact (ev : rd_event P) : Prop :=
  match ev with
  | EvExit b _ => b = exit
  | EvRecv (Err Disconnected) _ => disconnected = true
  | EvSend ok => ok = negb gone
  | _ => True
  end.

Definition rd_ended (st : rd_state P) : bool := match rd_pc_ st with RdStopped => true | _ => false end.

Abbreviation rd_next := (fun st ev => fst <$> rd_step delay st ev).
Abbreviation at_pc p q fs c := {| rd_pc_ := p; rd_queue := q; rd_filter_set := fs; rd_clock := c |}.
Abbreviation rd_cond := (relayer_delay_ends exit (disconnected = true) (gone = true)).

(** With the receiver gone and nothing else, the thread ends at the first batch that is due. *)
Lemma rd_winds_head q fs c : rd_cond -> winds_up rd_next rd_fact rd_ended (at_pc RdHead q fs c).
Proof.
  intros Hc. destruct exit eqn:Hx. { wind (EvExit true c : rd_event P). wound. }
  wind (EvExit false c : rd_event P). destruct disconnected eqn:Hd. { wind (EvRecv (Err Disconnected) c : rd_event P). wound. }
  destruct Hc as [?|[?|Hg]]; [done | done |].
  eapply (winds_up_step _ _ _ (EvRecv (Ok []) c)); [done | reflexivity |].
  eapply (winds_up_step _ _ _ (EvSweep (fun _ => c))); [done | reflexivity |].
  destruct (q ++ [(c + delay, [])]) as [|[r b] q'] eqn:Hq; [by destruct q|].
  eapply (winds_up_step _ _ _ (EvNow r)); [done | reflexivity |].
  eapply (winds_up_step _ _ _ EvFilter); [done | simpl; rewrite Hq, Z.leb_refl; reflexivity |].
  eapply (winds_up_step _ _ _ (EvSend false)); [by simpl; rewrite Hg | reflexivity | wound].
Qed.

Lemma rd_winds_drain now q fs c : rd_cond -> winds_up rd_next rd_fact rd_ended (at_pc (RdDrain now) q fs c).
Proof.
  intros Hc. induction q as [|[r b] q IH]. { wind (@EvDrained P). by apply rd_winds_head. }
  destruct (Z.leb_spec r now) as [Hle|Hgt].
  - eapply (winds_up_step _ _ _ EvFilter);
      [done | simpl; rewrite (proj2 (Z.leb_le r now) Hle); reflexivity |].
    eapply (winds_up_step _ _ _ (EvSend (negb gone))); [done | reflexivity |].
    simpl. destruct gone; [wound | exact IH].
  - eapply (winds_up_step _ _ _ EvDrained);
      [done | simpl; rewrite (proj2 (Z.leb_gt r now) Hgt); reflexivity |]. by apply rd_winds_head.
Qed.

Lemma relayer_delay_ends_exactly : ends_exactly rd_next rd_fact rd_ended rd_cond.
Proof.
  unfold relayer_delay_ends. split.
  - intros st st' Hn (ev & Hf & Hs) He. destruct (rd_step delay st ev) as [[st1 acts]|] eqn:E; [|done].
    injection Hs as <-. unfold rd_ended in *. unfold rd_step in E.
    destruct ev as [ex now|[b|[]] now|clk|now| |[]| |sig now]; repeat case_match; simplify_eq/=; auto.
    by destruct gone; auto.
  - intros Hc [p q fs c].
    destruct p as [|to| | |now|now b|].
    + by apply rd_winds_head.
    + wind (EvRecv (Err Timeout) c : rd_event P). wind (EvSweep (fun _ => c) : rd_event P).
      wind (EvNow c : rd_event P). by apply rd_winds_drain.
    + wind (EvSweep (fun _ => c) : rd_event P). wind (EvNow c : rd_event P). by apply rd_winds_drain.
    + wind (EvNow c : rd_event P). by apply rd_winds_drain.
    + by apply rd_winds_drain.
    + wind (EvSend (negb gone) : rd_event P). simpl.
      destruct gone eqn:Hg; [wound | by apply rd_winds_drain; rewrite Hg].
    + wound.
Qed.

End relayer_delay.

(** ** The block-engine delay task *)

Section delay_forward_task.
Context {T : Type} (on_receive : T -> list mirror_call) (on_release : FilterSet -> T -> T) (delay : Z).
Context (shutdown closed : bool).

(** What a pass over the select tells of the outside. *)
Definition df_fact (ev : df_event T) : Prop :=
  match ev with
  | DfPoll b _ r => b = shutdown /\ match r with Some (Closed, _) => closed = true | _ => True end
  | _ => True
  end.

Definition df_ended (st : df_state T) : bool := match df_pc_ st with DfStopped => true | _ => false end.

Abbreviation df_next := (fun st ev => fst <$> df_step on_receive on_release delay st ev).
Abbreviation at_pc p q fs c := {| df_pc_ := p; df_queue := q; df_filter_set := fs; df_clock := c |}.
Abbreviation df_cond := (delay_forward_ends shutdown (closed = true)).

Lemma df_winds_select q fs c : df_cond -> winds_up df_next df_fact df_ended (at_pc DfSelect q fs c).
Proof.
  intros Hc. destruct shutdown eqn:Hx.
  - eapply (winds_up_step _ _ _ (DfPoll true None None)); [by rewrite <- Hx | reflexivity | wound].
  - destruct Hc as [?|Hc]; [done|].
    eapply (winds_up_step _ _ _ (DfPoll false None (Some (Closed, c)))); [by rewrite <- Hx | reflexivity | wound].
Qed.

Lemma df_winds_drain now q fs c : df_cond -> winds_up df_next df_fact df_ended (at_pc (DfDrain now) q fs c).
Proof.
  intros Hc. induction q as [|[r b] q IH]. { wind (@DfDrained T). by apply df_winds_select. }
  destruct (Z.leb_spec r now) as [Hle|Hgt].
  - eapply (winds_up_step _ _ _ DfSend);
      [done | simpl; rewrite (proj2 (Z.leb_le r now) Hle); reflexivity | exact IH].
  - eapply (winds_up_step _ _ _ DfDrained);
      [done | simpl; rewrite (proj2 (Z.leb_gt r now) Hgt); reflexivity |]. by apply df_winds_select.
Qed.

Lemma delay_forward_ends_exactly : ends_exactly df_next df_fact df_ended df_cond.
Proof.
  unfold delay_forward_ends. split.
  - intros st st' Hn (ev & Hf & Hs) He.
    destruct (df_step on_receive on_release delay st ev) as [[st1 acts]|] eqn:E; [|done].
    injection Hs as <-. unfold df_ended in *. unfold df_step in E.
    repeat case_match; simplify_eq/=; naive_solver.
  - intros Hc [p q fs c].
    destruct p; [by apply df_winds_select | by apply df_winds_drain | wound].
Qed.

End delay_forward_task.

(** ** The event loop of the forwarder *)

Section event_loop.
Context `{!AddrText} `{!HashIter} {W S : Type} `{!Mpsc W S (result RelayerPacketsResponse Status)}.
Context {P : Type} `{!SolanaPacket P} (recv_error_text : string) (exit disconnected : bool).

Definition fw_fact (ev : fw_event W P) : Prop :=
  match ev with
  | FwExit b => b = exit
  | FwPackets None _ => disconnected = true
  | _ => True
  end.

Definition fw_ended (st : fw_state W S) : bool := match fw_pc_ st with FwReturned _ => true | _ => false end.

Abbreviation fw_next := (fw_step (P := P) recv_error_text).
Abbreviation at_pc p subs w hb d :=
  {| fw_pc_ := p; fw_subs := subs; fw_world := w; fw_heartbeat := hb; fw_dropped := d |}.
Abbreviation fw_cond := (event_loop_ends exit (disconnected = true)).

Lemma fw_winds_head subs w hb d : fw_cond -> winds_up fw_next fw_fact fw_ended (at_pc FwHead subs w hb d).
Proof.
  intros Hc. destruct exit eqn:Hx. { wind (FwExit true : fw_event W P). wound. }
  wind (FwExit false : fw_event W P). destruct Hc as [?|Hd]; [done|].
  eapply (winds_up_step _ _ _ (FwPackets None {| ts_seconds := 0; ts_nanos := 0 |}));
    [done | reflexivity | wound].
Qed.

Lemma event_loop_ends_exactly : ends_exactly fw_next fw_fact fw_ended fw_cond.
Proof.
  unfold event_loop_ends. split.
  - intros st st' Hn (ev & Hf & Hs) He. unfold fw_ended in *. unfold fw_step, forward_packets in Hs.
    repeat case_match; simplify_eq/=; auto; congruence.
  - intros Hc [p subs w hb d].
    destruct p as [| |failed|r]; [by apply fw_winds_head | | | wound].
    + wind (FwDropLogTick : fw_event W P). by apply fw_winds_head.
    + destruct (drop_connections failed subs w) as [subs' w'] eqn:Hd.
      eapply (winds_up_step _ _ _ FwDropConnections); [done | simpl; rewrite Hd; reflexivity |].
      by apply fw_winds_head.
Qed.

(** How it ended: with an error exactly when its input was disconnected. *)
Lemma event_loop_result st st' r :
  fw_ended st = false -> goes fw_next fw_fact st st' -> fw_pc_ st' = FwReturned r ->
  match r with Ok _ => exit = true | Err e => disconnected = true /\ e = recv_error_text end.
Proof.
  intros Hn (ev & Hf & Hs) He. unfold fw_ended in *. unfold fw_step, forward_packets in Hs.
  repeat case_match; simplify_eq/=; auto; congruence.
Qed.

End event_loop.

(** ** [Mirror::run] *)

Section mirror_run.
Context {C : Type} (shutdown : bool).

Definition mr_fact (ev : mr_event C) : Prop := match ev with MrBorrow b => b = shutdown | _ => True end.

Definition mr_ended (st : mr_state C) : bool := match mr_pc_ st with MrDone => true | _ => false end.

Abbreviation mr_next := (fun st ev => fst <$> mr_step st ev).

Lemma mirror_run_ends_exactly : ends_exactly mr_next mr_fact mr_ended (mirror_run_ends shutdown true).
Proof.
  unfold mirror_run_ends. split.
  - intros st st' Hn (ev & Hf & Hs) He. destruct (mr_step st ev) as [[st1 acts]|] eqn:E; [|done].
    injection Hs as <-. unfold mr_ended in *. unfold mr_step in E. repeat case_match; simplify_eq/=; auto.
  - intros Hc [p b c]. destruct Hc as [Hf|Hx]; [done|].
   
    assert (forall b c, winds_up mr_next mr_fact mr_ended {| mr_pc_ := MrCheck; mr_backoff := b; mr_conn := c |})
      as Hk. { intros b' c'. wind (MrBorrow true : mr_event C). wound. }
    destruct p.
    + wind (MrBorrow true : mr_event C). wound.
    + wind (MrConnect (Err EmptyString) : mr_event C). apply Hk.
    + wind (MrServed : mr_event C). apply Hk.
    + apply Hk.
    + wind (MrWoke : mr_event C). wind (MrBorrow true : mr_event C). wound.
    + wound.
Qed.

End mirror_run.

(** ** Theorem *)

(** C11. The loops end when they say.  The five long loops of the process each end for the
    reasons listed for them and for no other, and whenever one of its reasons holds, a loop
    can get to its end from every point of its code, whatever it holds in its queue: the slot
    thread and the relayer delay thread at the exit flag, the latter also at a disconnected
    input or a failed send; the tasks that delay block-engine traffic at the shutdown watch
    or a closed input; the event loop of the forwarder at the exit flag, with [Ok], or a
    disconnected input, with that error; the mirror at the shutdown watch. *)
Theorem loops_end_for_their_reasons `{!AddrText} `{!HashIter} {W S C T P : Type}
    `{!Mpsc W S (result RelayerPacketsResponse Status)} `{!SolanaPacket P}
    (on_receive : T -> list mirror_call) (on_release : FilterSet -> T -> T) (delay : Z)
    (recv_error_text : string) (exit shutdown disconnected gone : bool) :
  ends_exactly (fun pc ev => fst <$> sl_step pc ev) (slot_fact exit) slot_ended (slot_thread_ends exit) /\
  ends_exactly (fun (st : rd_state P) ev => fst <$> rd_step delay st ev) (rd_fact exit disconnected gone)
    rd_ended (relayer_delay_ends exit (disconnected = true) (gone = true)) /\
  ends_exactly (fun st ev => fst <$> df_step on_receive on_release delay st ev)
    (df_fact shutdown disconnected) df_ended (delay_forward_ends shutdown (disconnected = true)) /\
  ends_exactly (St := fw_state W S) (fw_step (P := P) recv_error_text) (fw_fact exit disconnected) fw_ended
    (event_loop_ends exit (disconnected = true)) /\
  (forall (st st' : fw_state W S) r, fw_ended st = false ->
     goes (fw_step (P := P) recv_error_text) (fw_fact exit disconnected) st st' ->
     fw_pc_ st' = FwReturned r ->
     match r with Ok _ => exit = true | Err e => disconnected = true /\ e = recv_error_text end) /\
  ends_exactly (fun (st : mr_state C) ev => fst <$> mr_step st ev) (mr_fact shutdown) mr_ended
    (mirror_run_ends shutdown true).
Proof.
  split_and!; eauto using slot_thread_ends_exactly, relayer_delay_ends_exactly, delay_forward_ends_exactly,
    event_loop_ends_exactly, mirror_run_ends_exactly.
  intros st st' r. apply event_loop_result.
Qed.
