(* ===== verification/Shutdown.v ===== *)
(** * The end of the process

    How the running process of Wiring.v comes to its end.  A signal of the operating system
    resolves the [shutdown_signal] of each server, which sets the exit flag; the loops that
    poll the flag end, the watcher cancels the token of the QUIC servers, the shutdown watch
    is set, channels are disconnected when their last sender is gone, threads that join
    others return, and [main] joins what is left.  The conditions of the long loops are those
    of TaskEnds.v, proved there of the loops themselves; the file adds those of the other
    tasks, says what the end of a task causes, and proves that a signal brings the whole
    process down, and that nothing else does.

    Panics are not steps here: the hook of Helper.v ends the process five seconds after one.
    A task that can end is one whose loop or join will end by itself; the steps of the
    environment are the signal, validators and their streams, and third-party threads that
    end on their own. *)

From S2P Require Import Prelude Bytes Protos Forwarder KeyFiles Helper Startup Wiring TaskEnds.

Local Open Scope Z_scope.

Record sd_state := {
  sd_exit : bool;                 (* the exit flag *)
  sd_signalled : bool;            (* the operating system has sent a signal *)
  sd_notified : gset nat;         (* servers whose shutdown_signal has returned *)
  sd_cancelled : bool;            (* the cancellation token of the QUIC servers *)
  sd_shutdown : bool;             (* the watch channel of the proxy *)
  sd_streams : nat;               (* open packet streams of the relayer server *)
  sd_be_streams : nat;            (* open streams of the block-engine server *)
  sd_done : gset nat;             (* tasks that have ended *)
}.

Definition sd_init : sd_state :=
  {| sd_exit := false; sd_signalled := false; sd_notified := ∅; sd_cancelled := false;
     sd_shutdown := false; sd_streams := 0; sd_be_streams := 0; sd_done := ∅ |}.

(** ** Why a task ends *)

(** The loops that only look at the exit flag: the staked-nodes updater, the cancel watcher and
    the task behind the shutdown watch (these two are [tpu_cancel_watcher] and [wait_for_exit]
    of Helper.v), and the expiration task of the challenges. *)
Definition staked_updater_ends (exit : bool) : Prop := exit = true.
Definition cancel_watcher_ends (exit : bool) : Prop := exit = true.
Definition expiration_ends (exit : bool) : Prop := exit = true.
Definition shutdown_watch_ends (exit : bool) : Prop := exit = true.

(** Third-party threads: the QUIC streamer ends when its token is cancelled, the verification
    stage when its input is disconnected. *)
Definition quic_server_ends (cancelled : bool) : Prop := cancelled = true.
Definition sigverify_ends (disconnected : Prop) : Prop := disconnected.

(** [serve_with_shutdown]: the signal future has resolved and the streams have ended. *)
Definition relayer_server_ends (notified : Prop) (streams : nat) : Prop := notified /\ streams = 0%nat.
Definition blockengine_server_ends (notified : Prop) (streams : nat) : Prop := notified /\ streams = 0%nat.

(** Threads and tasks that join others. *)
Definition joins_end (done : gset nat) (handles : list handle) : Prop := Forall (fun h => h ∈ done) handles.

Create HintDb task_ends.
#[export] Hint Unfold slot_thread_ends relayer_delay_ends delay_forward_ends event_loop_ends mirror_run_ends
  staked_updater_ends cancel_watcher_ends expiration_ends shutdown_watch_ends quic_server_ends
  sigverify_ends relayer_server_ends blockengine_server_ends joins_end : task_ends.

(** ** What the end of a task causes *)

Section causes.
Context {KP SK VK : Type}.

(** The forwarder thread sets the exit flag when its loop ended with an error. *)
Definition exit_after (t : task KP SK VK) (exit : bool) : bool :=
  match t with
  | ForwarderEventLoop _ _ => forwarder_thread_exit (if exit then Ok tt else Err "disconnected") exit
  | _ => exit
  end.

(** [cancel.cancel()] of the watcher. *)
Definition cancelled_after (t : task KP SK VK) (cancelled : bool) : bool :=
  match t with TpuCancelWatcher _ => true | _ => cancelled end.

(** [tx.send(true)] of the shutdown watch. *)
Definition shutdown_after (t : task KP SK VK) (shutdown : bool) : bool :=
  match t with ShutdownWatch _ => true | _ => shutdown end.

End causes.

Section shutdown.
Context {KP SK VK : Type} (ts : list (task KP SK VK)) (endpoint_ok : bool).

Definition senders_done (st : sd_state) (ch : obj) : Prop :=
  forall j t, ts !! j = Some t -> ch ∈ task_sends t -> j ∈ sd_done st.
Definition receivers_done (st : sd_state) (ch : obj) : Prop :=
  forall j t, ts !! j = Some t -> ch ∈ task_receives t -> j ∈ sd_done st.

Definition is_server (t : task KP SK VK) : bool :=
  match t with RelayerServer _ _ _ _ _ | BlockengineServer _ _ => true | _ => false end.

(** When task [i] can end; a channel is disconnected when the tasks at its other end are gone.
    [endpoint_ok] tells whether [Mirror::run] gets its endpoint; if not it returns at once. *)
Definition may_finish (st : sd_state) (i : nat) (t : task KP SK VK) : Prop :=
  match t with
  | SlotSubscribe _ _ => slot_thread_ends (sd_exit st)
  | StakedNodesUpdater _ _ _ => staked_updater_ends (sd_exit st)
  | TpuCancelWatcher _ => cancel_watcher_ends (sd_exit st)
  | QuicServer _ _ _ _ _ _ _ _ => quic_server_ends (sd_cancelled st)
  | SigVerify rx _ _ => sigverify_ends (senders_done st rx)
  | ForwarderEventLoop _ rx => event_loop_ends (sd_exit st) (senders_done st rx)
  | ChallengeExpiration _ => expiration_ends (sd_exit st)
  | RelayerServer _ _ _ _ _ => relayer_server_ends (i ∈ sd_notified st) (sd_streams st)
  | BlockengineServer _ _ => blockengine_server_ends (i ∈ sd_notified st) (sd_be_streams st)
  | ShutdownWatch _ => shutdown_watch_ends (sd_exit st)
  | RelayerDelay rx tx _ _ _ => relayer_delay_ends (sd_exit st) (senders_done st rx) (receivers_done st tx)
  | DelayPackets rx _ _ _ _ _ => delay_forward_ends (sd_shutdown st) (senders_done st rx)
  | DelayBundles rx _ _ _ _ => delay_forward_ends (sd_shutdown st) (senders_done st rx)
  | MirrorRun _ _ _ => mirror_run_ends (sd_shutdown st) endpoint_ok
  | JoinAll hs => joins_end (sd_done st) hs
  end.

(** Task [i] ends. *)
Definition finish (i : nat) (t : task KP SK VK) (st : sd_state) : sd_state :=
  {| sd_exit := exit_after t (sd_exit st);
     sd_signalled := sd_signalled st;
     sd_notified := sd_notified st;
     sd_cancelled := cancelled_after t (sd_cancelled st);
     sd_shutdown := shutdown_after t (sd_shutdown st);
     sd_streams := sd_streams st;
     sd_be_streams := sd_be_streams st;
     sd_done := {[i]} ∪ sd_done st |}.

(** [shutdown_signal] of server [i] returns. *)
Definition notify (i : nat) (st : sd_state) : sd_state :=
  {| sd_exit := true; sd_signalled := sd_signalled st; sd_notified := {[i]} ∪ sd_notified st;
     sd_cancelled := sd_cancelled st; sd_shutdown := sd_shutdown st; sd_streams := sd_streams st;
     sd_be_streams := sd_be_streams st; sd_done := sd_done st |}.

Definition set_streams (n be : nat) (st : sd_state) : sd_state :=
  {| sd_exit := sd_exit st; sd_signalled := sd_signalled st; sd_notified := sd_notified st;
     sd_cancelled := sd_cancelled st; sd_shutdown := sd_shutdown st; sd_streams := n;
     sd_be_streams := be; sd_done := sd_done st |}.

(** Steps the process takes by itself. *)
Inductive sd_int : sd_state -> sd_state -> Prop :=
| sd_int_notify st i t :
    ts !! i = Some t -> is_server t = true -> sd_signalled st = true -> i ∉ sd_notified st ->
    sd_int st (notify i st)
| sd_int_finish st i t :
    ts !! i = Some t -> i ∉ sd_done st -> may_finish st i t -> sd_int st (finish i t st)
| sd_int_be_stream st n :     (* an exit-aware stream ends *)
    sd_exit st = true -> sd_be_streams st = S n -> sd_int st (set_streams (sd_streams st) n st).

(** Steps of the environment. *)
Inductive sd_env : sd_state -> sd_state -> Prop :=
| sd_env_signal st :
    sd_env st {| sd_exit := sd_exit st; sd_signalled := true; sd_notified := sd_notified st;
                 sd_cancelled := sd_cancelled st; sd_shutdown := sd_shutdown st;
                 sd_streams := sd_streams st; sd_be_streams := sd_be_streams st;
                 sd_done := sd_done st |}
| sd_env_streams st n be : sd_env st (set_streams n be st)
| sd_env_third_party st i t :
    ts !! i = Some t -> i ∉ sd_done st ->
    match t with QuicServer _ _ _ _ _ _ _ _ | SigVerify _ _ _ => True | _ => False end ->
    sd_env st (finish i t st).

Definition sd_step (st st' : sd_state) : Prop := sd_int st st' \/ sd_env st st'.

Definition sd_reachable (st : sd_state) : Prop := rtc sd_step sd_init st.

(** ** Invariants *)

(** What ended tasks and notified servers have caused. *)
Definition sd_inv (st : sd_state) : Prop :=
  (forall i, i ∈ sd_notified st -> sd_signalled st = true /\ sd_exit st = true) /\
  (forall i t, ts !! i = Some t -> i ∈ sd_done st ->
     match t with
     | TpuCancelWatcher _ => sd_cancelled st = true
     | ShutdownWatch _ => sd_shutdown st = true
     | RelayerServer _ _ _ _ _ | BlockengineServer _ _ => i ∈ sd_notified st
     | JoinAll hs => Forall (fun h => h ∈ sd_done st) hs
     | _ => True
     end).

Lemma finish_exit i t st : sd_exit st = true -> sd_exit (finish i t st) = true.
Proof. intros He. unfold finish. simpl. destruct t; try done. by rewrite He. Qed.

Lemma finish_inv i t st :
  ts !! i = Some t -> sd_inv st ->
  match t with
  | RelayerServer _ _ _ _ _ | BlockengineServer _ _ => i ∈ sd_notified st
  | JoinAll hs => Forall (fun h => h ∈ sd_done st) hs
  | _ => True
  end -> sd_inv (finish i t st).
Proof.
  intros Hi [Hn Hd] Hf. split.
  - intros j Hj. destruct (Hn j Hj) as [Hs He]. split; [done | by apply finish_exit].
  - intros j t' Hj Hin. simpl in Hin. destruct (decide (j = i)) as [->|Hne].
    + rewrite Hi in Hj. injection Hj as <-. destruct t; simpl; try done.
      eapply Forall_impl; [done|]. set_solver.
    + assert (j ∈ sd_done st) as Hin' by set_solver. specialize (Hd j t' Hj Hin').
      destruct t'; simpl; try done; try (destruct t; done).
      eapply Forall_impl; [done|]. set_solver.
Qed.

Lemma sd_step_inv st st' : sd_inv st -> sd_step st st' -> sd_inv st'.
Proof.
  intros Hinv [Hi|He].
  - destruct Hi as [st i t Ht Hs Hsig Hni | st i t Ht Hnd Hm | st n Hx Hb].
    + destruct Hinv as [Hn Hd]. split; simpl.
      * done.
      * intros j t' Hj Hin. specialize (Hd j t' Hj Hin). destruct t'; try done; set_solver.
    + apply finish_inv; [done | done |].
      destruct t; simpl in *; autounfold with task_ends in *; naive_solver.
    + destruct Hinv as [Hn Hd]. by split.
  - destruct He as [st | st n be | st i t Ht Hnd Hm].
    + destruct Hinv as [Hn Hd]. split; simpl; [|done]. naive_solver.
    + destruct Hinv as [Hn Hd]. by split.
    + apply finish_inv; [done | done |]. by destruct t.
Qed.

Lemma sd_init_inv : sd_inv sd_init.
Proof. split; simpl; set_solver. Qed.

Lemma sd_reachable_inv st : sd_reachable st -> sd_inv st.
Proof.
  unfold sd_reachable. intros Hr. pose proof sd_init_inv as H0. induction Hr as [|x y z Hs Hr IH]; [done|].
  apply IH. by eapply sd_step_inv.
Qed.

(** ** Termination *)

(** Indices of tasks that are not in [X]. *)
Definition missing (X : gset nat) : nat := length (List.filter (fun i => bool_decide (i ∉ X)) (seq 0 (length ts))).

Lemma missing_add X i : (i < length ts)%nat -> i ∉ X -> (missing ({[i]} ∪ X) < missing X)%nat.
Proof.
  intros Hi Hn. unfold missing.
  assert (i ∈ seq 0 (length ts)) as Hin by (apply elem_of_seq; lia). revert Hin.
  assert (forall l, (length (List.filter (fun j => bool_decide (j ∉ {[i]} ∪ X)) l) <=
                     length (List.filter (fun j => bool_decide (j ∉ X)) l))%nat) as Hle.
  { induction l as [|j l IH]; simpl; [done|]. repeat case_bool_decide; simpl; set_solver by lia. }
  induction (seq 0 (length ts)) as [|j l IH]; intros Hin; [by apply elem_of_nil in Hin|]. simpl.
  specialize (Hle l). apply elem_of_cons in Hin as [<-|Hin].
  - rewrite bool_decide_false by set_solver. rewrite bool_decide_true by done. simpl. lia.
  - specialize (IH Hin). repeat case_bool_decide; simpl; set_solver by lia.
Qed.

Definition sd_measure (st : sd_state) : nat :=
  missing (sd_done st) + missing (sd_notified st) + sd_be_streams st.

Lemma sd_int_decreases st st' : sd_int st st' -> (sd_measure st' < sd_measure st)%nat.
Proof.
  intros Hs. unfold sd_measure. destruct Hs as [st i t Ht _ _ Hn | st i t Ht Hn _ | st n _ Hb]; simpl.
  - apply lookup_lt_Some in Ht. pose proof (missing_add _ _ Ht Hn). lia.
  - apply lookup_lt_Some in Ht. pose proof (missing_add _ _ Ht Hn). lia.
  - lia.
Qed.

Lemma sd_int_nsteps n st st' : nsteps sd_int n st st' -> (n + sd_measure st' <= sd_measure st)%nat.
Proof.
  induction 1 as [|n x y z Hs Hn IH]; [lia|]. apply sd_int_decreases in Hs. lia.
Qed.

Lemma missing_bound X : (missing X <= length ts)%nat.
Proof.
  unfold missing. etrans; [apply filter_length_le|]. by rewrite length_seq.
Qed.

(** What internal steps leave alone. *)
Lemma sd_int_keeps st st' :
  sd_int st st' -> sd_signalled st' = sd_signalled st /\ sd_streams st' = sd_streams st.
Proof. by destruct 1. Qed.

End shutdown.

(** ** The process *)

(** The tasks of the running process, and [main] itself, which joins in order. *)
Definition MAIN : nat := 18.

Definition process {KP SK VK : Type} (env : Env KP) `{!AddrText} (args : Args) (kp : KP)
    (ov : gmap Pubkey Z) (ip : IpAddr) (sk : SK) (vk : VK) (pin : bytes) : list (task KP SK VK) :=
  wiring env args kp ov ip sk vk pin ++ [JoinAll (fst <$> main_joins)].

Section process.
Context {KP SK VK : Type} (env : Env KP) `{!AddrText} (args : Args) (kp : KP).
Context (ov : gmap Pubkey Z) (ip : IpAddr) (sk : SK) (vk : VK) (pin : bytes) (endpoint_ok : bool).

Abbreviation ts := (process env args kp ov ip sk vk pin).

(** Either task [i] has ended, or its condition holds and its end is a step. *)
Ltac ends i :=
  match goal with
  | |- MAIN ∈ sd_done ?st \/ _ =>
      destruct (decide (i ∈ sd_done st)) as [|Hnd];
      [|right; eexists; eapply (sd_int_finish _ _ st i); [reflexivity | exact Hnd |];
        cbn [may_finish]; autounfold with task_ends; solve [auto | repeat (apply Forall_cons; split; [assumption|]); constructor]]
  end.

Ltac notified i :=
  match goal with
  | |- MAIN ∈ sd_done ?st \/ _ =>
      destruct (decide (i ∈ sd_notified st)) as [|Hni];
      [|right; eexists; by eapply (sd_int_notify _ _ st i)]
  end.

Ltac all_done :=
  intros j t Hlook Hsend;
  repeat (destruct j as [|j]; [injection Hlook as <-; cbn in Hsend; set_solver by lia|]);
  by apply lookup_lt_Some in Hlook; cbn in Hlook; lia.

(** After a signal, and without open packet streams, the process is never stuck before [main]
    has returned: the tasks can end one after the other, in this order. *)
Lemma shutdown_progress st :
  sd_inv ts st -> sd_signalled st = true -> sd_streams st = 0%nat ->
  MAIN ∈ sd_done st \/ exists st', sd_int ts endpoint_ok st st'.
Proof.
  intros [Hn Hd] Hs Hz. notified 9%nat. notified 11%nat.
  destruct (Hn 9%nat) as [_ Hx]; [done|].
  destruct (sd_be_streams st) as [|n] eqn:Hb; [|right; eexists; by eapply sd_int_be_stream].
  ends 0%nat. ends 1%nat. ends 2%nat. ends 7%nat. ends 8%nat. ends 9%nat. ends 11%nat. ends 12%nat. ends 13%nat.
  assert (sd_cancelled st = true) as Hc by exact (Hd 2%nat _ eq_refl ltac:(assumption)).
  assert (sd_shutdown st = true) as Hsh by exact (Hd 12%nat _ eq_refl ltac:(assumption)).
  ends 3%nat. ends 4%nat. ends 14%nat. ends 15%nat. ends 16%nat.
  assert (senders_done ts st 1%nat) by all_done.
  ends 5%nat. ends 6%nat. ends 10%nat. ends 17%nat. ends MAIN. by left.
Qed.

Lemma sd_int_run_keeps st st' :
  rtc (sd_int ts endpoint_ok) st st' -> sd_inv ts st ->
  sd_inv ts st' /\ sd_signalled st' = sd_signalled st /\ sd_streams st' = sd_streams st.
Proof.
  intros Hr. induction Hr as [st|st st1 st2 Hs Hr IH]; intros Hi; [done|].
  destruct (sd_int_keeps _ _ _ _ Hs) as [E1 E2].
  destruct IH as (H1 & H2 & H3); [eapply sd_step_inv; [exact Hi | by left]|].
  split_and!; [done | congruence | congruence].
Qed.

Lemma shutdown_reaches_end st :
  sd_inv ts st -> sd_signalled st = true -> sd_streams st = 0%nat ->
  exists st', rtc (sd_int ts endpoint_ok) st st' /\ MAIN ∈ sd_done st'.
Proof.
  remember (sd_measure ts st) as n eqn:En. revert st En.
  induction (lt_wf n) as [n _ IH]. intros st -> Hi Hs Hz.
  destruct (shutdown_progress st Hi Hs Hz) as [Hm|[st1 H1]]; [by exists st|].
  destruct (sd_int_keeps _ _ _ _ H1) as [E1 E2].
  destruct (IH (sd_measure ts st1) (sd_int_decreases _ _ _ _ H1) st1 eq_refl) as (st' & Hr & Hm);
    [eapply sd_step_inv; [exact Hi | by left] | congruence | congruence |].
  exists st'. split; [by eapply rtc_l | done].
Qed.

(** A server that serves streams does not end, and [main] waits for it. *)
Lemma open_stream_blocks st st' :
  sd_inv ts st -> (0 < sd_streams st)%nat -> 9%nat ∉ sd_done st ->
  rtc (sd_int ts endpoint_ok) st st' -> 9%nat ∉ sd_done st'.
Proof.
  intros Hi Hz Hnd Hr. induction Hr as [st|st st1 st2 Hs Hr IH]; [done|].
  destruct (sd_int_keeps _ _ _ _ Hs) as [_ E2]. apply IH; [eapply sd_step_inv; [exact Hi | by left] | lia |].
  destruct Hs as [st i t Ht _ _ _ | st i t Ht Hi' Hm | st n _ _]; [done | | done].
  simpl. destruct (decide (i = 9%nat)) as [->|]; [|set_solver].
  injection Ht as <-. destruct Hm as [_ Hm]. lia.
Qed.

Lemma main_needs_server st : sd_inv ts st -> MAIN ∈ sd_done st -> 9%nat ∈ sd_done st.
Proof.
  intros [_ Hd] Hm. pose proof (Hd MAIN _ eq_refl Hm) as Hf. cbn in Hf. by apply Forall_cons in Hf as [H1 _].
Qed.

(** *** A stop without a signal *)

Ltac step_end i :=
  eapply rtc_l;
  [left; eapply (sd_int_finish ts endpoint_ok _ i _ eq_refl);
     [cbn; set_solver by lia | cbn; autounfold with task_ends; try done] | cbn].
(** The verification stage ends, then the delay thread, then the event loop with an error,
    which sets the exit flag, and then every task but the two servers and [main]. *)
Definition servers_only : sd_state := {|
  sd_exit := true; sd_signalled := false; sd_notified := ∅; sd_cancelled := true; sd_shutdown := true;
  sd_streams := 0; sd_be_streams := 0;
  sd_done := list_to_set [0; 1; 2; 3; 4; 5; 6; 7; 8; 10; 12; 13; 14; 15; 16; 17]%nat |}.

Lemma servers_only_reachable : sd_reachable ts endpoint_ok servers_only.
Proof.
  unfold sd_reachable.
  eapply rtc_l; [right; apply (sd_env_third_party ts _ 5%nat _ eq_refl); [set_solver | done] | cbn].
  step_end 13%nat. { right. left. all_done. }
  step_end 8%nat. { right. all_done. }
  step_end 0%nat. step_end 1%nat. step_end 2%nat. step_end 7%nat. step_end 12%nat.
  step_end 3%nat. step_end 4%nat. step_end 14%nat. { by left. } step_end 15%nat. { by left. }
  step_end 16%nat. { by right. }
  step_end 6%nat. { repeat (apply Forall_cons; split; [set_solver|]). constructor. }
  step_end 10%nat. { repeat (apply Forall_cons; split; [set_solver|]). constructor. }
  step_end 17%nat. { repeat (apply Forall_cons; split; [set_solver|]). constructor. }
  match goal with |- rtc _ ?st _ => assert (st = servers_only) as -> end; [|done].
  reflexivity.
Qed.

Lemma servers_only_stuck st' : ~ sd_int ts endpoint_ok servers_only st'.
Proof.
  intros Hs. inversion Hs as [st i t Ht _ Hsig _ | st i t Ht Hnd Hm | st n _ Hb]; subst; [done | | done].
  unfold servers_only in Hnd. cbn [sd_done] in Hnd. rewrite elem_of_list_to_set in Hnd.
  destruct (decide (i ∈ [9; 11; 18]%nat)) as [Hi|Hi].
  - repeat (apply elem_of_cons in Hi as [->|Hi]); [| | |by apply elem_of_nil in Hi].
    + injection Ht as <-. destruct Hm as [Hm _]. cbn in Hm. set_solver.
    + injection Ht as <-. destruct Hm as [Hm _]. cbn in Hm. set_solver.
    + injection Ht as <-. cbn [may_finish] in Hm. unfold joins_end in Hm. apply Forall_cons in Hm as [Hm _].
      unfold servers_only in Hm. cbn [sd_done] in Hm. rewrite elem_of_list_to_set in Hm. set_solver by lia.
  - apply lookup_lt_Some in Ht. cbn in Ht. set_unfold. lia.
Qed.

End process.

(** ** Theorems *)

Section theorems.
Context {KP SK VK : Type} (env : Env KP) `{!AddrText} (args : Args) (kp : KP).
Context (ov : gmap Pubkey Z) (ip : IpAddr) (sk : SK) (vk : VK) (pin : bytes) (endpoint_ok : bool).

Abbreviation ts := (process env args kp ov ip sk vk pin).

(** C7. A signal ends the process.  From every state the running process can reach, once a
    signal has been sent and the validator's packet stream is closed: the process can go on
    until [main] has joined everything and returned; on the way it is never stuck before
    that; and it takes at most 38 steps, plus one for every block-engine stream that is open,
    in whatever order the tasks end. *)
Theorem signal_ends_process st :
  sd_reachable ts endpoint_ok st -> sd_signalled st = true -> sd_streams st = 0%nat ->
  (exists st', rtc (sd_int ts endpoint_ok) st st' /\ MAIN ∈ sd_done st') /\
  (forall n st', nsteps (sd_int ts endpoint_ok) n st st' ->
     (n <= 38 + sd_be_streams st)%nat /\
     (MAIN ∈ sd_done st' \/ exists st'', sd_int ts endpoint_ok st' st'')).
Proof.
  intros Hr Hs Hz. apply sd_reachable_inv in Hr. split; [by apply shutdown_reaches_end|].
  intros n st' Hn. split.
  - apply sd_int_nsteps in Hn. unfold sd_measure in Hn.
    pose proof (missing_bound ts (sd_done st)) as H1. pose proof (missing_bound ts (sd_notified st)) as H2.
    assert (length ts = 19%nat) as Hl by reflexivity. rewrite Hl in H1, H2. lia.
  - destruct (sd_int_run_keeps env args kp ov ip sk vk pin endpoint_ok st st') as (Hi & E1 & E2);
      [apply rtc_nsteps; by exists n | done |]. apply shutdown_progress; congruence.
Qed.

(** C24. Nothing but a signal ends it.  As long as the operating system has not sent one,
    neither server has stopped and [main] has not returned, whatever else has happened, the
    exit flag included.  In particular, when the forwarder thread fails and sets that flag,
    the process reaches a state in which every other thread and task has ended, nothing more
    can happen, and both servers are still up.  And after a signal [main] does not return
    while a validator keeps its packet stream open. *)
Theorem only_a_signal_ends_process :
  (forall st, sd_reachable ts endpoint_ok st -> sd_signalled st = false ->
     9%nat ∉ sd_done st /\ 11%nat ∉ sd_done st /\ MAIN ∉ sd_done st) /\
  (exists st, sd_reachable ts endpoint_ok st /\ sd_signalled st = false /\ sd_exit st = true /\
     (forall i, (i < MAIN)%nat -> i <> 9%nat -> i <> 11%nat -> i ∈ sd_done st) /\
     (forall st', ~ sd_int ts endpoint_ok st st')) /\
  (forall st st', sd_reachable ts endpoint_ok st -> (0 < sd_streams st)%nat -> 9%nat ∉ sd_done st ->
     rtc (sd_int ts endpoint_ok) st st' -> MAIN ∉ sd_done st').
Proof.
  split_and!.
  - intros st Hr Hs. apply sd_reachable_inv in Hr as Hi. destruct Hi as [Hn Hd].
    assert (forall i t, ts !! i = Some t -> is_server t = true -> i ∉ sd_done st) as Hsrv.
    { intros i t Ht Hsv Hin. specialize (Hd i t Ht Hin).
      assert (i ∈ sd_notified st) as Hni by (by destruct t). apply Hn in Hni as [Hx _]. congruence. }
    split_and!; [by eapply Hsrv | by eapply Hsrv |].
    intros Hm. apply (main_needs_server env args kp ov ip sk vk pin) in Hm; [|by split]. by eapply Hsrv in Hm.
  - exists servers_only. split_and!; [apply servers_only_reachable | done | done | | apply servers_only_stuck].
    intros i Hi H9 H11. unfold servers_only. cbn [sd_done]. rewrite elem_of_list_to_set.
    unfold MAIN in Hi. set_unfold. lia.
  - intros st st' Hr Hz Hnd Hint Hm. apply sd_reachable_inv in Hr.
    destruct (sd_int_run_keeps env args kp ov ip sk vk pin endpoint_ok st st' Hint Hr) as (Hi' & _).
    apply (main_needs_server env args kp ov ip sk vk pin) in Hm; [|done]. by eapply open_stream_blocks in Hint.
Qed.

End theorems.

(** ** Witness *)

Definition toy_signalled : sd_state :=
  {| sd_exit := false; sd_signalled := true; sd_notified := ∅; sd_cancelled := false;
     sd_shutdown := false; sd_streams := 0; sd_be_streams := 0; sd_done := ∅ |}.

Definition toy_process : list (task unit nat nat) :=
  @process unit nat nat toy_env toy_addr_text toy_args tt ∅ UNSPECIFIED 5%nat 5%nat toy_pin.

Lemma signal_ends_process_witness :
  exists st', rtc (sd_int toy_process true) toy_signalled st' /\ MAIN ∈ sd_done st'.
Proof.
  apply (@signal_ends_process unit nat nat toy_env toy_addr_text toy_args tt ∅ UNSPECIFIED 5%nat 5%nat
    toy_pin true toy_signalled).
  - apply rtc_once. right. exact (sd_env_signal toy_process sd_init).
  - reflexivity.
  - reflexivity.
Defined.
