(* ===== verification/MirrorServe.v ===== *)
(** * Serving a mirror connection (src/src/proxy/mirror.rs)

    [Mirror::run] of Mirror.v builds one QUIC endpoint, connects, and serves the connection
    with four branches in one [select!]: accepting bundle streams, reading filter datagrams,
    sending bundles out, and reporting the connected validator.  The branches run in one
    task and take turns at their await points; the first one to return ends the others.  The
    file models the endpoint configuration, [wait_for_shutdown], the four branches and their
    interleaving ([sv_step]), and proves that the order in which they take turns does not
    matter. *)

From S2P Require Import Prelude Bytes CertPin Protos FilterSet ProxyDelay Mirror.
From S2P Require Import KeyFiles Blockengine Startup Wiring.

Local Open Scope Z_scope.

Definition KEEP_ALIVE : Z := from_secs 5.
Definition IDLE_TIMEOUT : Z := from_secs 30.
Definition DATAGRAM_SEND_BUFFER : Z := 4 * 1024 * 1024.
Definition ALPN : bytes := as_bytes "inertia-mirror".
Definition SERVER_NAME : string := "inertia-relayer".
Definition CONTROL_INTERVAL : Z := from_secs 1.

(** ** The endpoint *)

(** What [client_endpoint] asks of rustls and quinn; errors are already texts. *)
Record QuicEnv := {
  tls_versions : result unit string;                   (* with_safe_default_protocol_versions *)
  quic_client_config : result unit string;             (* QuicClientConfig::try_from *)
  idle_timeout_from : Z -> result Z string;            (* IdleTimeout::try_from *)
  endpoint_client : IpAddr * Z -> result unit string;  (* Endpoint::client binds the socket *)
}.

(** The configured endpoint. *)
Record Endpoint := {
  ep_local : IpAddr * Z;
  ep_verifier : PinnedServerCertVerifier;
  ep_alpn : list bytes;
  ep_keep_alive : option Z;
  ep_max_idle : option Z;
  ep_datagram_send_buffer : Z;
}.

Definition client_endpoint (q : QuicEnv) (self : MirrorConfig) : result Endpoint string :=
  let verifier := {| pinned_sha256 := mirror_cert_pin self |} in
  let? _ := tls_versions q in
  let? _ := quic_client_config q in
  let? idle := idle_timeout_from q IDLE_TIMEOUT in
  let? _ := endpoint_client q (mirror_proxy_server self) in
  Ok {| ep_local := mirror_proxy_server self;
        ep_verifier := verifier;
        ep_alpn := [ALPN];
        ep_keep_alive := Some KEEP_ALIVE;
        ep_max_idle := Some idle;
        ep_datagram_send_buffer := DATAGRAM_SEND_BUFFER |}.

(** [connect]: starting the handshake and awaiting it, with the texts of both errors. *)
Definition Mirror_connect {Connecting C E1 E2 : Type} (e1_to_string : E1 -> string) (e2_to_string : E2 -> string)
    (connect : IpAddr * Z -> string -> result Connecting E1) (handshake : Connecting -> result C E2)
    (self : MirrorConfig) : result C string :=
  let? connecting := map_err e1_to_string (connect (mirror_inertia_server self) SERVER_NAME) in
  map_err e2_to_string (handshake connecting).

(** ** Waiting for the shutdown *)

(** The loop of [wait_for_shutdown]: in each round what [borrow] shows, and whether [changed]
    resolves without an error; [false] while it still waits. *)
Fixpoint wait_for_shutdown (rounds : list (bool * bool)) : bool :=
  match rounds with
  | [] => false
  | (shutdown, changed) :: rounds' =>
      if shutdown then true
      else if negb changed then true
      else wait_for_shutdown rounds'
  end.

Lemma wait_for_shutdown_spec rounds :
  wait_for_shutdown rounds = true <-> exists r, r ∈ rounds /\ (r.1 = true \/ r.2 = false).
Proof.
  induction rounds as [|[s c] rounds IH]; simpl; [set_solver|].
  destruct s, c; simpl; set_solver.
Qed.

(** ** The branches *)

Inductive sv_branch := ReadBundles | ReadFilters | MirrorBundlesOut | MirrorControl.

#[export] Instance sv_branch_eq_dec : EqDecision sv_branch.
Proof. solve_decision. Defined.

(** Where [mirror_bundles_out] is: opening its stream, in its select, or in one of the two
    writes of a frame. *)
Inductive mo_pc :=
| MoOpening
| MoSelect
| MoWriteLen (resp : SubscribeBundlesResponse) (buf : bytes)
| MoWriteBuf (resp : SubscribeBundlesResponse) (buf : bytes).

Section serve.
Context {C W : Type} `{!Datagrams C W} {B : Type} `{!BytesMut B} `{!Prost} {R : Type}.

Record sv_state := {
  sv_ended : option sv_branch;    (* the branch whose return ended the select *)
  sv_readers : list R;            (* streams handed to read_bundle_stream tasks *)
  sv_filter_set : FilterSet;
  sv_out : mo_pc;
  sv_stream : bytes;              (* what completed writes have put on the bundle stream *)
  sv_finished : bool;             (* finish() was called on it *)
  sv_last : option Pubkey;        (* the identity logged last *)
  sv_buf : B;                     (* SEND_BUF of the thread *)
  sv_world : W;
  sv_stats : MirrorStats;
}.

Inductive sv_event :=
| SvShutdown (b : sv_branch)                     (* wait_for_shutdown of [b] has returned *)
| SvAccept (r : result R string)                 (* accept_uni *)
| SvDatagram (r : result bytes string) (now : Z) (* read_datagram, and the time insert reads *)
| SvOpenUni (r : result unit string)             (* open_uni *)
| SvRecv (r : @broadcast_recv SubscribeBundlesResponse)
| SvWrite (fail : option nat)                    (* write_all *)
| SvTick (validator : option Pubkey) (t : Z).

Definition sv_init (fs : FilterSet) (buf : B) (stats : MirrorStats) (w : W) : sv_state :=
  {| sv_ended := None; sv_readers := []; sv_filter_set := fs; sv_out := MoOpening; sv_stream := [];
     sv_finished := false;     sv_last := None; sv_buf := buf; sv_world := w; sv_stats := stats |}.

Definition end_with (b : sv_branch) (st : sv_state) : sv_state :=
  {| sv_ended := Some b; sv_readers := sv_readers st; sv_filter_set := sv_filter_set st;
     sv_out := sv_out st; sv_stream := sv_stream st; sv_finished := sv_finished st; sv_last := sv_last st; sv_buf := sv_buf st;
     sv_world := sv_world st; sv_stats := sv_stats st |}.

(** [mirror_bundles_out] returns after [send.finish()]. *)
Definition end_finished (st : sv_state) : sv_state :=
  {| sv_ended := Some MirrorBundlesOut; sv_readers := sv_readers st; sv_filter_set := sv_filter_set st;
     sv_out := sv_out st; sv_stream := sv_stream st; sv_finished := true; sv_last := sv_last st;
     sv_buf := sv_buf st; sv_world := sv_world st; sv_stats := sv_stats st |}.

Definition set_out (pc : mo_pc) (written : bytes) (stats : MirrorStats) (st : sv_state) : sv_state :=
  {| sv_ended := sv_ended st; sv_readers := sv_readers st; sv_filter_set := sv_filter_set st;
     sv_out := pc; sv_stream := sv_stream st ++ written; sv_finished := sv_finished st; sv_last := sv_last st; sv_buf := sv_buf st;
     sv_world := sv_world st; sv_stats := stats |}.

(** One step of [read_bundles]. *)
Definition read_bundles_step (r : result R string) (st : sv_state) : sv_state :=
  match r with
  | Ok recv =>
      {| sv_ended := sv_ended st; sv_readers := sv_readers st ++ [recv]; sv_filter_set := sv_filter_set st;
         sv_out := sv_out st; sv_stream := sv_stream st; sv_finished := sv_finished st; sv_last := sv_last st; sv_buf := sv_buf st;
         sv_world := sv_world st; sv_stats := sv_stats st |}
  | Err _ => end_with ReadBundles st
  end.

(** One step of [read_filters]. *)
Definition read_filters_step (r : result bytes string) (now : Z) (st : sv_state) : sv_state :=
  match r with
  | Ok bs =>
      let '(fs, stats) := ingest_filter bs now (sv_filter_set st) (sv_stats st) in
      {| sv_ended := sv_ended st; sv_readers := sv_readers st; sv_filter_set := fs;
         sv_out := sv_out st; sv_stream := sv_stream st; sv_finished := sv_finished st; sv_last := sv_last st; sv_buf := sv_buf st;
         sv_world := sv_world st; sv_stats := stats |}
  | Err _ => end_with ReadFilters st
  end.

(** The steps of [mirror_bundles_out]. *)
Definition open_step (r : result unit string) (st : sv_state) : option sv_state :=
  match sv_out st, r with
  | MoOpening, Ok _ => Some (set_out MoSelect [] (sv_stats st) st)
  | MoOpening, Err _ => Some (end_with MirrorBundlesOut st)
  | _, _ => None
  end.

Definition recv_step (r : @broadcast_recv SubscribeBundlesResponse) (st : sv_state) : option sv_state :=
  match sv_out st, r with
  | MoSelect, Received resp =>
      match bundles_encode resp with
      | None => Some st
      | Some buf => Some (set_out (MoWriteLen resp buf) [] (sv_stats st) st)
      end
  | MoSelect, Lagged _ => Some st
  | MoSelect, Closed => Some (end_finished st)
  | _, _ => None
  end.

Definition write_step (fail : option nat) (st : sv_state) : option sv_state :=
  match sv_out st with
  | MoWriteLen resp buf =>
      let '(out, ok) := write_all fail (len_prefix buf) in
      if negb ok then Some (end_with MirrorBundlesOut (set_out (MoWriteLen resp buf) out (sv_stats st) st))
      else Some (set_out (MoWriteBuf resp buf) out (sv_stats st) st)
  | MoWriteBuf resp buf =>
      let '(out, ok) := write_all fail buf in
      if negb ok then Some (end_with MirrorBundlesOut (set_out (MoWriteBuf resp buf) out (sv_stats st) st))
      else Some (set_out MoSelect out
             (fetch_add CBundlesSent (wrap 64 (Z.of_nat (length (sb_bundles resp)))) (sv_stats st)) st)
  | _ => None
  end.

(** One tick of [mirror_control]; [self.conn] is the connection served. *)
Definition control_step (conn : C) (validator : option Pubkey) (t : Z) (st : sv_state) : sv_state :=
  let '(last, (buf, stats, w)) :=
    mirror_control_tick validator (Some conn) t (sv_last st) (sv_buf st) (sv_stats st) (sv_world st) in
  {| sv_ended := sv_ended st; sv_readers := sv_readers st; sv_filter_set := sv_filter_set st;
     sv_out := sv_out st; sv_stream := sv_stream st; sv_finished := sv_finished st; sv_last := last; sv_buf := buf;
     sv_world := w; sv_stats := stats |}.

(** [serve_connection]: one step of one branch; [None] when no branch waits for the event.
    [mirror_bundles_out] looks at the shutdown only in its select. *)
Definition sv_step (conn : C) (st : sv_state) (ev : sv_event) : option sv_state :=
  match sv_ended st with
  | Some _ => None
  | None =>
      match ev with
      | SvShutdown MirrorBundlesOut =>
          match sv_out st with MoSelect => Some (end_finished st) | _ => None end
      | SvShutdown b => Some (end_with b st)
      | SvAccept r => Some (read_bundles_step r st)
      | SvDatagram r now => Some (read_filters_step r now st)
      | SvOpenUni r => open_step r st
      | SvRecv r => recv_step r st
      | SvWrite fail => write_step fail st
      | SvTick validator t => Some (control_step conn validator t st)
      end
  end.

Fixpoint sv_exec (conn : C) (st : sv_state) (evs : list sv_event) : option sv_state :=
  match evs with
  | [] => Some st
  | ev :: evs' => st' ← sv_step conn st ev; sv_exec conn st' evs'
  end.

(** The branch an event belongs to. *)
Definition branch_of (ev : sv_event) : sv_branch :=
  match ev with
  | SvShutdown b => b
  | SvAccept _ => ReadBundles
  | SvDatagram _ _ => ReadFilters
  | SvOpenUni _ | SvRecv _ | SvWrite _ => MirrorBundlesOut
  | SvTick _ _ => MirrorControl
  end.

Definition only (b : sv_branch) (evs : list sv_event) : list sv_event :=
  List.filter (fun ev => bool_decide (branch_of ev = b)) evs.

(** The branches one after the other, each with its own events. *)
Definition one_by_one (evs : list sv_event) : list sv_event :=
  only ReadBundles evs ++ only ReadFilters evs ++ only MirrorBundlesOut evs ++ only MirrorControl evs.

(** ** Lemmas *)

Lemma fetch_add_comm c1 c2 n1 n2 s :
  c1 <> c2 -> fetch_add c1 n1 (fetch_add c2 n2 s) = fetch_add c2 n2 (fetch_add c1 n1 s).
Proof. intros Hne. destruct c1, c2; try done. Qed.

Lemma sv_exec_app conn st evs1 evs2 :
  sv_exec conn st (evs1 ++ evs2) = (st' ← sv_exec conn st evs1; sv_exec conn st' evs2).
Proof.
  revert st; induction evs1 as [|ev evs1 IH]; intros st; simpl; [done|].
  destruct (sv_step conn st ev); csimpl; [apply IH | done].
Qed.

Lemma sv_exec_ended conn st evs st' :
  sv_exec conn st evs = Some st' -> sv_ended st' = None -> sv_ended st = None.
Proof.
  destruct evs as [|ev evs]; simpl; [by intros [= ->]|]. unfold sv_step.
  by destruct (sv_ended st).
Qed.

(** What a step that goes on changes: each branch has fields of its own and counters of its
    own. *)
Inductive eff :=
| EReader (r : R)
| EFilter (fs : FilterSet) (counted : bool)
| EOut (pc : mo_pc) (written : bytes) (sent : option Z)
| EControl (last : option Pubkey) (buf : B) (w : W) (sent : option (result unit SendDatagramError)).

Definition eff_branch (e : eff) : sv_branch :=
  match e with
  | EReader _ => ReadBundles | EFilter _ _ => ReadFilters
  | EOut _ _ _ => MirrorBundlesOut | EControl _ _ _ _ => MirrorControl
  end.

Definition control_counter (r : result unit SendDatagramError) : Counter :=
  match r with Ok _ => CControl | Err TooLarge => COversized | Err _ => COther end.

Definition apply_eff (e : eff) (st : sv_state) : sv_state :=
  match e with
  | EReader r =>
      {| sv_ended := sv_ended st; sv_readers := sv_readers st ++ [r]; sv_filter_set := sv_filter_set st;
         sv_out := sv_out st; sv_stream := sv_stream st; sv_finished := sv_finished st;
         sv_last := sv_last st; sv_buf := sv_buf st; sv_world := sv_world st; sv_stats := sv_stats st |}
  | EFilter fs counted =>
      {| sv_ended := sv_ended st; sv_readers := sv_readers st; sv_filter_set := fs;
         sv_out := sv_out st; sv_stream := sv_stream st; sv_finished := sv_finished st;
         sv_last := sv_last st; sv_buf := sv_buf st; sv_world := sv_world st;
         sv_stats := if counted then fetch_add CFilters 1 (sv_stats st) else sv_stats st |}
  | EOut pc written sent =>
      {| sv_ended := sv_ended st; sv_readers := sv_readers st; sv_filter_set := sv_filter_set st;
         sv_out := pc; sv_stream := sv_stream st ++ written; sv_finished := sv_finished st;
         sv_last := sv_last st; sv_buf := sv_buf st; sv_world := sv_world st;
         sv_stats := match sent with
                     | Some n => fetch_add CBundlesSent n (sv_stats st) | None => sv_stats st end |}
  | EControl last buf w sent =>
      {| sv_ended := sv_ended st; sv_readers := sv_readers st; sv_filter_set := sv_filter_set st;
         sv_out := sv_out st; sv_stream := sv_stream st; sv_finished := sv_finished st;
         sv_last := last; sv_buf := buf; sv_world := w;
         sv_stats := match sent with
                     | Some r => fetch_add (control_counter r) 1 (sv_stats st) | None => sv_stats st end |}
  end.

(** Two states agree on the fields branch [b] reads. *)
Definition same_own (b : sv_branch) (st st' : sv_state) : Prop :=
  match b with
  | ReadBundles => True
  | ReadFilters => sv_filter_set st = sv_filter_set st'
  | MirrorBundlesOut => sv_out st = sv_out st'
  | MirrorControl => sv_last st = sv_last st' /\ sv_buf st = sv_buf st' /\ sv_world st = sv_world st'
  end.

Lemma eff_comm e1 e2 st :
  eff_branch e1 <> eff_branch e2 -> apply_eff e1 (apply_eff e2 st) = apply_eff e2 (apply_eff e1 st).
Proof.
  intros Hb. destruct e1, e2; try (by destruct Hb); simpl; try done; f_equal;
    repeat case_match; try done; by rewrite fetch_add_comm by (try done; unfold control_counter; by repeat case_match).
Qed.

Lemma eff_other e b st : eff_branch e <> b -> same_own b st (apply_eff e st).
Proof. intros Hb. by destruct e, b. Qed.

Lemma eff_ended e st : sv_ended (apply_eff e st) = sv_ended st.
Proof. by destruct e. Qed.

Lemma ingest_eff bs now fs : exists fs' (counted : bool), forall stats,
  ingest_filter bs now fs stats = (fs', if counted then fetch_add CFilters 1 stats else stats).
Proof.
  unfold ingest_filter. destruct bs as [|tag sig]; [by exists fs, false|].
  destruct (negb _); [by exists fs, false|]. destruct (array_try_from 64 sig); [|by exists fs, false].
  by exists (FilterSet_insert l now fs), true.
Qed.

Lemma control_eff validator (conn : C) t last buf w : exists last' buf' w' sent, forall stats,
  mirror_control_tick validator (Some conn) t last buf stats w =
  (last', (buf', match sent with Some r => fetch_add (control_counter r) 1 stats | None => stats end, w')).
Proof.
  unfold mirror_control_tick, Mirror_send.
  destruct validator as [k|]; [|by exists last, buf, w, None].
  destruct (send_frame SOURCE_CONTROL t k buf) as [frame buf'].
  destruct (dg_send conn frame w) as [r w'].
  exists (if decide (last = Some k) then last else Some k), buf', w', (Some r).
  intros stats. destruct r as [|[]]; done.
Qed.

(** A step that goes on has an effect that depends on the branch's own fields only. *)
Lemma step_eff conn st ev st' :
  sv_step conn st ev = Some st' -> sv_ended st' = None ->
  exists e, eff_branch e = branch_of ev /\ st' = apply_eff e st /\
    forall st1, sv_ended st1 = None -> same_own (branch_of ev) st st1 ->
      sv_step conn st1 ev = Some (apply_eff e st1).
Proof.
  intros Hs He. unfold sv_step in Hs. destruct (sv_ended st) eqn:E0; [done|].
  destruct ev as [b|[r|]|[bs|] now|r|r|fail|v t].
  - destruct b; try (by simplify_eq). by destruct (sv_out st); simplify_eq.
  - injection Hs as <-. exists (EReader r). split_and!; [done | done |].
    intros st1 E1 _. unfold sv_step. by rewrite E1.
  - by simplify_eq.
  - destruct (ingest_eff bs now (sv_filter_set st)) as (fs' & c & Hi). injection Hs as <-.
    exists (EFilter fs' c). split_and!; [done | by simpl; rewrite Hi |].
    intros st1 E1 Ho. unfold sv_step. rewrite E1. simpl in *. by rewrite <- Ho, Hi.
  - by simplify_eq.
  - unfold open_step in Hs. destruct (sv_out st) eqn:Eo; try done. destruct r; [|by simplify_eq].
    injection Hs as <-. exists (EOut MoSelect [] None). split_and!; [done | done |].
    intros st1 E1 Ho. unfold sv_step, open_step. simpl in Ho. by rewrite E1, <- Ho, Eo.
  - unfold recv_step in Hs. destruct (sv_out st) eqn:Eo; try done.
    assert (forall st1, sv_out st1 = MoSelect -> apply_eff (EOut MoSelect [] None) st1 = st1) as Hid.
    { intros [] Hx. simpl in *. subst. by rewrite app_nil_r. }
    assert (forall st1, sv_ended st1 = None -> same_own MirrorBundlesOut st st1 ->
      sv_step conn st1 (SvRecv r) = recv_step r st1 /\ sv_out st1 = MoSelect) as Hst.
    { intros st1 E1 Ho. unfold sv_step. simpl in Ho. by rewrite E1, <- Ho. }
    destruct r as [resp|n|]; [destruct (bundles_encode resp) as [buf|] eqn:Eb| |by simplify_eq].
    + injection Hs as <-. exists (EOut (MoWriteLen resp buf) [] None). split_and!; [done | done |].
      intros st1 E1 Ho. destruct (Hst st1 E1 Ho) as [-> Hx]. unfold recv_step. by rewrite Hx, Eb.
    + injection Hs as <-. exists (EOut MoSelect [] None). split_and!; [done | by rewrite Hid |].
      intros st1 E1 Ho. destruct (Hst st1 E1 Ho) as [-> Hx]. unfold recv_step. by rewrite Hx, Eb, Hid.
    + injection Hs as <-. exists (EOut MoSelect [] None). split_and!; [done | by rewrite Hid |].
      intros st1 E1 Ho. destruct (Hst st1 E1 Ho) as [-> Hx]. unfold recv_step. by rewrite Hx, Hid.
  - unfold write_step in Hs. destruct (sv_out st) as [| |resp buf|resp buf] eqn:Eo; try done.
    + destruct (write_all fail (len_prefix buf)) as [out ok] eqn:Ew. destruct ok; simpl in Hs; [|by simplify_eq/=].
      injection Hs as <-. exists (EOut (MoWriteBuf resp buf) out None). split_and!; [done | done |].
      intros st1 E1 Ho. unfold sv_step, write_step. simpl in Ho. by rewrite E1, <- Ho, Eo, Ew.
    + destruct (write_all fail buf) as [out ok] eqn:Ew. destruct ok; simpl in Hs; [|by simplify_eq/=].
      injection Hs as <-. exists (EOut MoSelect out (Some (wrap 64 (Z.of_nat (length (sb_bundles resp)))))).
      split_and!; [done | done |].
      intros st1 E1 Ho. unfold sv_step, write_step. simpl in Ho. by rewrite E1, <- Ho, Eo, Ew.
  - destruct (control_eff v conn t (sv_last st) (sv_buf st) (sv_world st)) as (l' & b' & w' & sent & Hc).
    injection Hs as <-. exists (EControl l' b' w' sent).
    split_and!; [done | unfold control_step; by rewrite Hc |].
    intros st1 E1 (Hl & Hb & Hw). unfold sv_step. rewrite E1. unfold control_step. by rewrite <- Hl, <- Hb, <- Hw, Hc.
Qed.

(** Steps of different branches can be exchanged. *)
Lemma sv_swap conn st e1 e2 st2 :
  branch_of e1 <> branch_of e2 -> sv_exec conn st [e1; e2] = Some st2 -> sv_ended st2 = None ->
  sv_exec conn st [e2; e1] = Some st2.
Proof.
  simpl. intros Hb He Hr.
  destruct (sv_step conn st e1) as [st1|] eqn:E1; [|done]. csimpl in He.
  destruct (sv_step conn st1 e2) as [st2'|] eqn:E2; [|done]. csimpl in He. injection He as ->.
  destruct (step_eff _ _ _ _ E2 Hr) as (f2 & Hb2 & -> & H2). rewrite eff_ended in Hr.
  destruct (step_eff _ _ _ _ E1 Hr) as (f1 & Hb1 & -> & H1). rewrite eff_ended in Hr.
  assert (same_own (branch_of e2) (apply_eff f1 st) st) as Hso.
  { assert (same_own (branch_of e2) st (apply_eff f1 st)) as Hx by (apply eff_other; congruence).
    destruct (branch_of e2); simpl in *; naive_solver. }
  rewrite (H2 st Hr Hso). csimpl.
  rewrite (H1 (apply_eff f2 st)); [csimpl | by rewrite eff_ended | apply eff_other; congruence].
  by rewrite eff_comm by congruence.
Qed.

(** Moving an event past events of other branches. *)
Lemma sv_move conn e l r st st' :
  Forall (fun ev => branch_of ev <> branch_of e) l ->
  sv_exec conn st (e :: l ++ r) = Some st' -> sv_ended st' = None ->
  sv_exec conn st (l ++ e :: r) = Some st'.
Proof.
  revert st; induction l as [|ev l IH]; intros st Hl He Hr; [done|].
  apply Forall_cons in Hl as [Hev Hl].
  change (e :: (ev :: l) ++ r) with ([e; ev] ++ (l ++ r)) in He. rewrite sv_exec_app in He.
  destruct (sv_exec conn st [e; ev]) as [st1|] eqn:E1; [|done]. csimpl in He.
  assert (sv_ended st1 = None) as Hr1 by (by eapply sv_exec_ended).
  apply sv_swap in E1; [|congruence|done].
  simpl. change (sv_exec conn st [ev; e]) with (sv_exec conn st ([ev] ++ [e])) in E1.
  simpl in E1. destruct (sv_step conn st ev) as [st0|] eqn:E0; [|done]. csimpl in *.
  apply IH; [done | | done]. simpl.
  destruct (sv_step conn st0 e) as [st1'|]; [|done]. csimpl in *. by injection E1 as ->.
Qed.

Lemma only_branch b evs : Forall (fun ev => branch_of ev = b) (only b evs).
Proof.
  apply Forall_forall. intros ev Hin. unfold only in Hin. apply elem_of_filter_bool in Hin as [_ H1].
  by apply bool_decide_eq_true in H1.
Qed.

Lemma sv_sort conn evs st st' :
  sv_exec conn st evs = Some st' -> sv_ended st' = None -> sv_exec conn st (one_by_one evs) = Some st'.
Proof.
  revert st; induction evs as [|ev evs IH]; intros st He Hr; [done|].
  simpl in He. destruct (sv_step conn st ev) as [st1|] eqn:E1; [|done]. csimpl in He.
  apply IH in He; [|done].
  assert (sv_exec conn st (ev :: one_by_one evs) = Some st') as He' by (simpl; by rewrite E1).
  assert (forall b, branch_of ev <> b -> only b (ev :: evs) = only b evs) as Hother.
  { intros b Hb. unfold only. simpl. by rewrite bool_decide_false. }
  assert (only (branch_of ev) (ev :: evs) = ev :: only (branch_of ev) evs) as Hown.
  { unfold only. simpl. by rewrite bool_decide_true. }
  assert (forall b, branch_of ev <> b -> Forall (fun e => branch_of e <> branch_of ev) (only b evs)) as Hne.
  { intros b Hb. eapply Forall_impl; [apply only_branch|]. simpl. congruence. }
  unfold one_by_one in *. destruct (branch_of ev) eqn:Eb; rewrite Hown, !Hother by done.
  - done.
  - rewrite <- !app_comm_cons. apply sv_move; [rewrite Eb; by apply Hne | done | done].
  - rewrite <- !app_comm_cons, (app_assoc (only ReadBundles evs)). 
    apply sv_move; [rewrite Eb; apply Forall_app; split; by apply Hne | by rewrite <- app_assoc | done].
  - rewrite (app_assoc (only ReadFilters evs)), (app_assoc (only ReadBundles evs)).
    apply sv_move; [rewrite Eb; rewrite !Forall_app; split_and!; by apply Hne | by rewrite <- !app_assoc | done].
Qed.

(** What a run has accepted, and the datagrams it has read. *)
Definition accepted_streams (evs : list sv_event) : list R :=
  omap (fun ev => match ev with SvAccept (Ok r) => Some r | _ => None end) evs.

Definition datagrams_read (evs : list sv_event) : list (bytes * Z) :=
  omap (fun ev => match ev with SvDatagram (Ok bs) now => Some (bs, now) | _ => None end) evs.

Definition ingest_all (fs : FilterSet) (ds : list (bytes * Z)) : FilterSet :=
  fold_left (fun fs d => (ingest_filter d.1 d.2 fs MirrorStats_default).1) ds fs.

Lemma ingest_fs_indep bs now fs stats stats' :
  (ingest_filter bs now fs stats).1 = (ingest_filter bs now fs stats').1.
Proof. unfold ingest_filter. by repeat case_match. Qed.

Lemma out_step_frame ev st st' :
  open_step ev st = Some st' -> sv_readers st' = sv_readers st /\ sv_filter_set st' = sv_filter_set st.
Proof. unfold open_step. intros Hs. repeat case_match; by simplify_eq. Qed.

Lemma recv_step_frame ev st st' :
  recv_step ev st = Some st' -> sv_readers st' = sv_readers st /\ sv_filter_set st' = sv_filter_set st.
Proof. unfold recv_step. intros Hs. repeat case_match; by simplify_eq. Qed.

Lemma write_step_frame ev st st' :
  write_step ev st = Some st' -> sv_readers st' = sv_readers st /\ sv_filter_set st' = sv_filter_set st.
Proof. unfold write_step. intros Hs. repeat case_match; by simplify_eq. Qed.

Lemma sv_step_effects conn st ev st' :
  sv_step conn st ev = Some st' ->
  sv_readers st' = sv_readers st ++ accepted_streams [ev] /\
  sv_filter_set st' = ingest_all (sv_filter_set st) (datagrams_read [ev]).
Proof.
  unfold sv_step. intros Hs. destruct (sv_ended st); [done|].
  destruct ev as [b|r|r now|r|r|fail|v t]; unfold accepted_streams, datagrams_read; csimpl;
    rewrite ?app_nil_r.
  - destruct b; try (by simplify_eq). by destruct (sv_out st); simplify_eq.
  - injection Hs as <-. destruct r; simpl; by rewrite ?app_nil_r.
  - injection Hs as <-. destruct r as [bs|]; simpl; [|by rewrite ?app_nil_r].
    rewrite (ingest_fs_indep _ _ _ MirrorStats_default (sv_stats st)). by destruct (ingest_filter _ _ _ _).
  - by apply out_step_frame in Hs as [-> ->].
  - by apply recv_step_frame in Hs as [-> ->].
  - by apply write_step_frame in Hs as [-> ->].
  - injection Hs as <-. unfold control_step. by destruct (mirror_control_tick _ _ _ _ _ _ _) as [? [[] ?]].
Qed.

Lemma sv_exec_effects conn st evs st' :
  sv_exec conn st evs = Some st' ->
  sv_readers st' = sv_readers st ++ accepted_streams evs /\
  sv_filter_set st' = ingest_all (sv_filter_set st) (datagrams_read evs).
Proof.
  revert st; induction evs as [|ev evs IH]; intros st He; simpl in He.
  { injection He as <-. by rewrite app_nil_r. }
  destruct (sv_step conn st ev) as [st1|] eqn:E1; [|done]. csimpl in He.
  apply sv_step_effects in E1 as [Hr Hf]. apply IH in He as [-> ->]. rewrite Hr, Hf.
  unfold accepted_streams, datagrams_read, ingest_all.
  rewrite <- app_assoc, <- omap_app, <- fold_left_app, <- omap_app. done.
Qed.

(** The event that ended the select is the last one, and of the branch that returned. *)
Lemma sv_step_ended conn st ev st' b :
  sv_step conn st ev = Some st' -> sv_ended st' = Some b -> branch_of ev = b.
Proof.
  unfold sv_step. intros Hs Hb. destruct (sv_ended st) eqn:E0; [done|].
  destruct ev as [b'|r|r now|r|r|fail|v t].
  - destruct b'; [by simplify_eq/=.. | | by simplify_eq/=]. by destruct (sv_out st); simplify_eq/=.
  - injection Hs as <-. destruct r; simpl in *; congruence.
  - injection Hs as <-. destruct r; simpl in *; [|congruence].
    destruct (ingest_filter _ _ _ _); simpl in *; congruence.
  - unfold open_step in Hs. repeat case_match; simplify_eq/=; try done; congruence.
  - unfold recv_step in Hs. repeat case_match; simplify_eq/=; try done; congruence.
  - unfold write_step in Hs. repeat case_match; simplify_eq/=; try done; congruence.
  - injection Hs as <-. unfold control_step in Hb.
    destruct (mirror_control_tick _ _ _ _ _ _ _) as [? [[] ?]]. simpl in *. congruence.
Qed.

Lemma sv_exec_last conn st evs st' b :
  sv_exec conn st evs = Some st' -> sv_ended st = None -> sv_ended st' = Some b ->
  exists evs0 ev, evs = evs0 ++ [ev] /\ branch_of ev = b.
Proof.
  intros He H0 Hb. destruct evs as [|ev evs _] using rev_ind; [simplify_eq/=; congruence|].
  rewrite sv_exec_app in He. destruct (sv_exec conn st evs) as [st1|]; [|done]. csimpl in He.
  exists evs, ev. split; [done|]. destruct (sv_step conn st1 ev) as [st2|] eqn:E2; [|done].
  csimpl in He. injection He as ->. by eapply sv_step_ended.
Qed.

End serve.

Arguments sv_state W B R : clear implicits.

(** ** Theorems *)

(** C12. The interleaving of the four branches does not matter.  However the branches of
    [serve_connection] have taken turns, as long as none has returned, the state (filter set,
    bundle readers, what was written, datagrams sent, send buffer and every counter) is the
    one that running the branches one after the other on their own events gives. *)
Theorem serve_connection_equiv {C W B R : Type} `{!Datagrams C W} `{!BytesMut B} `{!Prost}
    (conn : C) fs (buf : B) stats (w : W) (evs : list (sv_event (R := R))) (st : sv_state W B R) :
  sv_exec conn (sv_init fs buf stats w) evs = Some st -> sv_ended st = None ->
  sv_exec conn (sv_init fs buf stats w) (one_by_one evs) = Some st.
Proof. apply sv_sort. Qed.

(** What serving a connection does, also when it has ended: every accepted stream is handed to
    a reader task of its own, once and in order; the filter set is what ingesting the
    datagrams in their order gives; and when the select has ended, its last event is of the
    branch that returned. *)
Theorem serve_connection_effects {C W B R : Type} `{!Datagrams C W} `{!BytesMut B} `{!Prost}
    (conn : C) fs (buf : B) stats (w : W) (evs : list (sv_event (R := R))) (st : sv_state W B R) :
  sv_exec conn (sv_init fs buf stats w) evs = Some st ->
  sv_readers st = accepted_streams evs /\
  sv_filter_set st = ingest_all fs (datagrams_read evs) /\
  (forall b, sv_ended st = Some b -> exists evs0 ev, evs = evs0 ++ [ev] /\ branch_of ev = b).
Proof.
  intros He. pose proof (sv_exec_effects _ _ _ _ He) as [Hr Hf]. split_and!; [done | done |].
  intros b Hb. by eapply sv_exec_last.
Qed.

(** C23. The mirror talks to the configured server only.  In a process that has started, if the
    mirror gets its endpoint, the endpoint accepts a certificate exactly when the hexadecimal
    form of its SHA-256 digest is the text of [--inertia-cert-sha256] without white space and
    colons and in lower case; it speaks one protocol, and keeps the connection alive well
    within the idle timeout.  If it does not get one, the error is the first of TLS versions,
    QUIC configuration, idle timeout and binding that failed. *)
Theorem mirror_trusts_only_the_pin {KP SK VK : Type} `{!AddrText} `{!RsaCrypto SK VK}
    `{PinCryptoLaws} (env : Env KP) args fs joins (s : os KP SK VK) q mirror bundle_out bundle_in :
  main env args (os_init fs) = (Ok joins, s) -> MirrorRun mirror bundle_out bundle_in ∈ os_tasks s ->
  match client_endpoint q mirror with
  | Ok ep =>
      (forall cert, verify_server_cert (ep_verifier ep) cert = Ok tt <->
         hex_encode (sha256 cert) = ascii_lower <$> cleaned (inertia_cert_sha256 args)) /\
      ep_alpn ep = [ALPN] /\
      (exists idle, ep_max_idle ep = Some idle /\ idle_timeout_from q (from_secs 30) = Ok idle) /\
      ep_keep_alive ep = Some (from_secs 5)
  | Err e =>
      tls_versions q = Err e \/
      (exists u, tls_versions q = Ok u) /\
      (quic_client_config q = Err e \/
       (exists u, quic_client_config q = Ok u) /\
       (idle_timeout_from q IDLE_TIMEOUT = Err e \/
        (exists t, idle_timeout_from q IDLE_TIMEOUT = Ok t) /\
        endpoint_client q (proxy_bind_ip args, proxy_bind_port args) = Err e))
  end.
Proof.
  intros Hm Hin. destruct (main_needs env args fs joins s Hm) as (kp & ov & ip & sk & vk & fs' & pin & Hs).
  pose proof (main_runs env args fs kp ov ip sk vk fs' pin Hs) as Hr. rewrite Hr in Hm.
  injection Hm as <- <-. assert (mirror = the_mirror args pin) as ->.
  { unfold running, wiring in Hin. cbn [os_tasks] in Hin.
    repeat (apply elem_of_cons in Hin as [Hin|Hin]; [by simplify_eq|]). by apply elem_of_nil in Hin. }
  pose proof (st_pin _ _ _ _ _ _ _ _ _ _ Hs) as Hpin.
  apply parse_cert_pin_denotes in Hpin as [Hl Hd].
  unfold client_endpoint. destruct (tls_versions q) as [u1|e]; simpl; [|by left].
  destruct (quic_client_config q) as [u2|e]; simpl; [|by right; eauto].
  destruct (idle_timeout_from q IDLE_TIMEOUT) as [idle|e] eqn:Hi; simpl; [|right; eauto 8].
  destruct (endpoint_client q _) as [u3|e] eqn:He; simpl; [|right; eauto 10].
  split_and!; [|done | by exists idle | done].
  intros cert. by apply verify_pin_iff.
Qed.

(** ** Witnesses *)

(** The branches take turns: the stream is opened, a filter arrives, a bundle is received, a
    stream is accepted, the first write completes, a tick reports the validator. *)
Definition toy_turns : list (sv_event (R := nat)) :=
  [SvTick None 1; SvOpenUni (Ok tt); SvDatagram (Ok (Byte.x00 :: replicate 64 Byte.x07)) 5;
   SvRecv (Received (toy_bundles 2)); SvAccept (Ok 1%nat); SvWrite None;
   SvTick (Some (replicate 32 Byte.x05)) 9; SvWrite None; SvAccept (Ok 2%nat)].

Abbreviation toy_served :=
  (@sv_exec unit (list bytes) toy_datagrams bytes list_bytes_mut toy_prost nat tt
    (sv_init FilterSet_default [] MirrorStats_default []) toy_turns).

Lemma serve_connection_equiv_witness :
  (sv_readers <$> toy_served) = Some [1%nat; 2%nat] /\
  toy_served = @sv_exec unit (list bytes) toy_datagrams bytes list_bytes_mut toy_prost nat tt
    (sv_init FilterSet_default [] MirrorStats_default []) (one_by_one toy_turns).
Proof.
  split; [vm_compute; reflexivity|].
  assert ((sv_ended <$> toy_served) = Some None) as He by (vm_compute; reflexivity).
  destruct toy_served as [st|] eqn:Hs; [|discriminate He]. injection He as He. symmetry.
  exact (@serve_connection_equiv unit (list bytes) bytes nat toy_datagrams list_bytes_mut toy_prost tt
    FilterSet_default [] MirrorStats_default [] toy_turns st Hs He).
Defined.

Definition toy_quic : QuicEnv := {|
  tls_versions := Ok tt; quic_client_config := Ok tt; idle_timeout_from d := Ok d;
  endpoint_client _ := Ok tt |}.

Lemma mirror_trusts_only_the_pin_witness :
  match client_endpoint toy_quic (the_mirror toy_args toy_pin) with
  | Ok ep => @verify_server_cert toy_crypto (ep_verifier ep) toy_pin = Ok tt
  | Err _ => False
  end.
Proof.
  pose proof (@mirror_trusts_only_the_pin unit nat nat toy_addr_text toy_rsa toy_crypto
    toy_crypto_laws toy_env toy_args toy_key_fs main_joins toy_running toy_quic (the_mirror toy_args toy_pin)
    7%nat 10%nat ltac:(apply main_runs, toy_startable)
    ltac:(do 16 constructor 2; constructor 1)) as H1.
  destruct (client_endpoint toy_quic (the_mirror toy_args toy_pin)) as [ep|e] eqn:He; [|discriminate He].
  destruct H1 as (H1 & _). apply (H1 toy_pin). vm_compute. reflexivity.
Defined.
