(* ===== verification/Pipeline.v ===== *)
(** * From the QUIC servers to the validator

    The delay thread of src/src/proxy/mod.rs (ProxyDelay.v) and the event loop of
    src/src/relayer/forwarder.rs (Forwarder.v) are connected by the bounded channel
    [Forwarder::new] makes.  The file composes the two machines with that channel: a send
    blocks while the channel is full and fails once the event loop has returned, a receive
    takes the oldest batch and fails once the channel is empty and the delay thread is gone.
    The theorems follow a transaction from its arrival to the batches for the validator. *)

From S2P Require Import Prelude Bytes Protos Grpc FilterSet DelayLine ProxyDelay Forwarder.
From S2P Require Import KeyFiles Startup.

Local Open Scope Z_scope.

Section pipeline.
Context `{!AddrText} `{!HashIter}.
Context {W S : Type} `{!Mpsc W S (result RelayerPacketsResponse Status)}.
Context {P : Type} `{!SolanaPacket P}.
Context (recv_error_text : string).

Abbreviation batch := (BankingPacketBatch P).

Record pl_state := {
  pl_delay : rd_state P;
  pl_chan : list batch;          (* sent and not yet received *)
  pl_forward : fw_state W S;
}.

(** A step of the delay thread, a receive of the event loop, or another step of it. *)
Inductive pl_event :=
| PlDelay (ev : rd_event P)
| PlRecv (ts : Timestamp)
| PlForward (ev : fw_event W P).

Definition pl_init (fs : FilterSet) (t0 : Z) (w : W) : pl_state :=
  {| pl_delay := rd_init fs t0; pl_chan := []; pl_forward := fw_init w |}.

Definition loop_returned (fw : fw_state W S) : bool :=
  match fw_pc_ fw with FwReturned _ => true | _ => false end.
Definition thread_gone (rd : rd_state P) : bool :=
  match rd_pc_ rd with RdStopped => true | _ => false end.

(** Whether [tx.send] can return with this outcome: an error exactly when the receiver is gone,
    success only while there is room. *)
Definition send_possible (st : pl_state) (ok : bool) : bool :=
  if loop_returned (pl_forward st) then negb ok
  else ok && (Z.of_nat (length (pl_chan st)) <? TPU_QUEUE_CAPACITY).

(** The batches an action puts into the channel. *)
Definition put_in_chan (acts : list rd_action) : list batch :=
  a ← acts; match a with TxSend _ b true => [b] | _ => [] end.

Definition pl_step (st : pl_state) (ev : pl_event) : option (pl_state * list batch) :=
  match ev with
  | PlDelay ev =>
      if match ev with EvSend ok => send_possible st ok | _ => true end then
        match rd_step PACKET_DELAY (pl_delay st) ev with
        | Some (rd, acts) =>
            Some ({| pl_delay := rd; pl_chan := pl_chan st ++ put_in_chan acts;
                     pl_forward := pl_forward st |}, [])
        | None => None
        end
      else None
  | PlRecv ts =>
      match pl_chan st with
      | b :: rest =>
          match fw_step recv_error_text (pl_forward st) (FwPackets (Some b) ts) with
          | Some fw => Some ({| pl_delay := pl_delay st; pl_chan := rest; pl_forward := fw |}, [b])
          | None => None
          end
      | [] =>
          if thread_gone (pl_delay st) then
            match fw_step recv_error_text (pl_forward st) (FwPackets None ts) with
            | Some fw => Some ({| pl_delay := pl_delay st; pl_chan := []; pl_forward := fw |}, [])
            | None => None
            end
          else None
      end
  | PlForward (FwPackets _ _) => None
  | PlForward ev =>
      match fw_step recv_error_text (pl_forward st) ev with
      | Some fw => Some ({| pl_delay := pl_delay st; pl_chan := pl_chan st; pl_forward := fw |}, [])
      | None => None
      end
  end.

(** A run, with the batches the event loop has taken to forward, in order. *)
Fixpoint pl_exec (st : pl_state) (evs : list pl_event) : option (pl_state * list batch) :=
  match evs with
  | [] => Some (st, [])
  | ev :: evs' =>
      match pl_step st ev with
      | None => None
      | Some (st1, taken1) =>
          match pl_exec st1 evs' with
          | None => None
          | Some (st2, taken2) => Some (st2, taken1 ++ taken2)
          end
      end
  end.

(** The releases of a run: at each step in which the delay thread filters a batch, the clock
    reading its inner loop goes by and the filter set of that moment. *)
Fixpoint pl_releases (st : pl_state) (evs : list pl_event) : list (Z * FilterSet) :=
  match evs with
  | [] => []
  | ev :: evs' =>
      match ev, rd_pc_ (pl_delay st) with
      | PlDelay EvFilter, RdDrain now => [(now, rd_filter_set (pl_delay st))]
      | _, _ => []
      end ++
      match pl_step st ev with
      | Some (st', _) => pl_releases st' evs'
      | None => []
      end
  end.

(** The part of a run the delay thread sees. *)
Definition delay_events (evs : list pl_event) : list (rd_event P) :=
  ev ← evs; match ev with PlDelay ev => [ev] | _ => [] end.

(** ** Lemmas *)

Lemma put_in_chan_app a1 a2 : put_in_chan (a1 ++ a2) = put_in_chan a1 ++ put_in_chan a2.
Proof. unfold put_in_chan. apply bind_app. Qed.

Lemma pl_step_delay st ev st1 taken :
  pl_step st ev = Some (st1, taken) ->
  exists acts,
    rd_exec PACKET_DELAY (pl_delay st) (delay_events [ev]) = Some (pl_delay st1, acts) /\
    pl_chan st ++ put_in_chan acts = taken ++ pl_chan st1 /\
    (Z.of_nat (length (pl_chan st)) <= TPU_QUEUE_CAPACITY ->
     Z.of_nat (length (pl_chan st1)) <= TPU_QUEUE_CAPACITY).
Proof.
  intros Hs. destruct ev as [ev|ts|ev]; unfold delay_events; csimpl.
  - unfold pl_step in Hs. destruct (match ev with EvSend ok => _ | _ => true end) eqn:Hp; [|done].
    destruct (rd_step PACKET_DELAY (pl_delay st) ev) as [[rd acts]|] eqn:E; [|done].
    injection Hs as <- <-. exists acts. simpl. rewrite app_nil_r. split_and!; [done | done |].
    intros Hb. rewrite length_app.
    destruct ev as [| | | | |ok| |]; try (assert (put_in_chan acts = []) as ->;
      [unfold rd_step in E; repeat case_match; simplify_eq/=; try done;
       unfold put_in_chan; by induction (mirror_banking_batch _) | simpl; lia]).
    unfold send_possible in Hp. unfold rd_step in E.
    destruct (loop_returned (pl_forward st)).
    + destruct ok; [done|]. repeat case_match; simplify_eq/=. lia.
    + apply andb_prop in Hp as [-> Hp]. apply Z.ltb_lt in Hp.
      repeat case_match; simplify_eq/=. lia.
  - exists []. unfold pl_step in Hs. simpl. split; [by repeat case_match; simplify_eq/=|].
    rewrite app_nil_r. repeat case_match; simplify_eq/=; split; try done; lia.
  - exists []. unfold pl_step in Hs. simpl. split; [by repeat case_match; simplify_eq/=|].
    rewrite app_nil_r. repeat case_match; simplify_eq/=; done.
Qed.

Lemma rd_exec_app delay (st : rd_state P) evs1 evs2 st1 st2 acts1 acts2 :
  rd_exec delay st evs1 = Some (st1, acts1) -> rd_exec delay st1 evs2 = Some (st2, acts2) ->
  rd_exec delay st (evs1 ++ evs2) = Some (st2, acts1 ++ acts2).
Proof.
  revert st acts1; induction evs1 as [|ev evs1 IH]; intros st acts1 H1 H2; simpl in *.
  { by injection H1 as <- <-. }
  destruct (rd_step delay st ev) as [[st' a]|]; [|done].
  destruct (rd_exec delay st' evs1) as [[st'' a']|] eqn:E; [|done]. injection H1 as <- <-.
  rewrite (IH st' a' E H2). by rewrite <- app_assoc.
Qed.

(** The delay thread of a run, and the conservation of batches by the channel. *)
Lemma pl_exec_delay st evs st' taken :
  pl_exec st evs = Some (st', taken) ->
  exists acts,
    rd_exec PACKET_DELAY (pl_delay st) (delay_events evs) = Some (pl_delay st', acts) /\
    pl_chan st ++ put_in_chan acts = taken ++ pl_chan st' /\
    (Z.of_nat (length (pl_chan st)) <= TPU_QUEUE_CAPACITY ->
     Z.of_nat (length (pl_chan st')) <= TPU_QUEUE_CAPACITY).
Proof.
  revert st taken; induction evs as [|ev evs IH]; intros st taken He; simpl in He.
  { injection He as <- <-. exists []. simpl. by rewrite app_nil_r. }
  destruct (pl_step st ev) as [[st1 t1]|] eqn:E1; [|done].
  destruct (pl_exec st1 evs) as [[st2 t2]|] eqn:E2; [|done]. injection He as <- <-.
  destruct (pl_step_delay _ _ _ _ E1) as (a1 & H1 & C1 & B1).
  destruct (IH _ _ E2) as (a2 & H2 & C2 & B2).
  exists (a1 ++ a2). split_and!.
  - unfold delay_events. change (ev :: evs) with ([ev] ++ evs). rewrite bind_app. by eapply rd_exec_app.
  - by rewrite put_in_chan_app, app_assoc, C1, <- app_assoc, C2, app_assoc.
  - auto.
Qed.

(** A stopped thread stays stopped and sends nothing. *)
Lemma rd_stopped_sends delay (st st' : rd_state P) evs acts :
  rd_pc_ st = RdStopped -> rd_exec delay st evs = Some (st', acts) ->
  rd_sends_of acts = [] /\ rd_pc_ st' = RdStopped.
Proof.
  revert st acts; induction evs as [|ev evs IH]; intros st acts Hp He; simpl in He.
  { by injection He as <- <-. }
  destruct (rd_step delay st ev) as [[st1 a1]|] eqn:E; [|done].
  destruct (rd_exec delay st1 evs) as [[st2 a2]|] eqn:E2; [|done]. injection He as <- <-.
  unfold rd_step in E. rewrite Hp in E. destruct ev as [| [|[]] | | | | | |]; try done.
  injection E as <- <-. by eapply (IH _ a2); [|exact E2].
Qed.

Lemma rd_step_sends delay (st st1 : rd_state P) ev a1 :
  rd_step delay st ev = Some (st1, a1) ->
  (fun s => s.2.1) <$> rd_sends_of a1 = put_in_chan a1 \/
  exists now b, a1 = [TxSend now b false] /\ rd_pc_ st1 = RdStopped.
Proof.
  unfold rd_step. intros E.
  destruct ev as [ex now|[b|[]] now|clk|now| |ok| |sig now]; destruct (rd_pc_ st) eqn:Hp;
    repeat case_match; simplify_eq/=; try (by left).
  - left. unfold rd_sends_of, put_in_chan. by induction (mirror_banking_batch b).
  - right. eauto.
Qed.

(** All sends of the thread succeed, except possibly the last one, after which it stops. *)
Lemma rd_sends_ok delay (st st' : rd_state P) evs acts :
  rd_exec delay st evs = Some (st', acts) ->
  exists lost, (fun s => s.2.1) <$> rd_sends_of acts = put_in_chan acts ++ lost /\
    (thread_gone st' = false -> lost = []).
Proof.
  revert st acts; induction evs as [|ev evs IH]; intros st acts He.
  { injection He as <- <-. by exists []. }
  simpl in He. destruct (rd_step delay st ev) as [[st1 a1]|] eqn:E; [|done].
  destruct (rd_exec delay st1 evs) as [[st2 a2]|] eqn:E2; [|done]. injection He as <- <-.
  destruct (IH _ _ E2) as (lost & Hl & Hg).
  unfold rd_sends_of. rewrite bind_app. fold (rd_sends_of a1). fold (rd_sends_of a2).
  rewrite fmap_app, put_in_chan_app.
  destruct (rd_step_sends _ _ _ _ _ E) as [Heq|(now & b & -> & Hp)].
  { exists lost. by rewrite Heq, Hl, app_assoc. }
  destruct (rd_stopped_sends _ _ _ _ _ Hp E2) as [Hs Hst]. rewrite Hs in Hl |- *.
  exists [b]. split.
  - symmetry in Hl. apply app_eq_nil in Hl as [-> _]. done.
  - unfold thread_gone. by rewrite Hst.
Qed.

End pipeline.

Arguments pl_state W S P : clear implicits.
Arguments pl_event W P : clear implicits.

(** The filter sets at the moments of the releases are well formed. *)
Lemma rd_released_run_wf {P} `{!SolanaPacket P} delay (st : rd_state P) evs st' acts :
  rd_inv st -> rd_clock_mono (rd_clock st) evs -> rd_exec delay st evs = Some (st', acts) ->
  Forall (fun s => FilterSet_wf s.2.1) (rd_released_run delay st evs).
Proof.
  revert st acts; induction evs as [|ev evs IH]; intros st acts Hi Hm He; [constructor|].
  simpl in He. destruct (rd_step delay st ev) as [[st1 a1]|] eqn:E; [|done].
  destruct (rd_exec delay st1 evs) as [[st2 a2]|] eqn:E2; [|done]. injection He as <- <-.
  assert (rd_trans delay st ev st1 /\ rd_clock_mono (rd_clock st1) evs) as [Ht Hm'].
  { unfold rd_trans, rd_clock_ok. simpl in Hm. split; [split; [|by eexists]|].
    - destruct (rd_reading ev); naive_solver.
    - unfold rd_step in E. destruct ev as [ex now|[b|[]] now|clk|now| |ok| |sig now]; destruct (rd_pc_ st);
        repeat case_match; simplify_eq/=; naive_solver. }
  cbn [rd_released_run]. rewrite E. apply Forall_app. split.
  - unfold rd_released. rewrite E. destruct ev, (rd_pc_ st1); try constructor; [apply Hi | constructor].
  - eapply IH; [by eapply rd_trans_inv | done | done].
Qed.

(** The releases of the pipeline are those of its delay thread. *)
Lemma pl_releases_delay `{!AddrText} `{!HashIter} {W S}
    `{!Mpsc W S (result RelayerPacketsResponse Status)} {P} `{!SolanaPacket P}
    err (st : pl_state W S P) evs st' taken :
  pl_exec err st evs = Some (st', taken) ->
  pl_releases err st evs =
    ((fun s => (s.1, s.2.1)) <$> rd_released_run PACKET_DELAY (pl_delay st) (delay_events evs)).
Proof.
  revert st taken; induction evs as [|ev evs IH]; intros st taken He; [done|].
  cbn [pl_exec] in He. destruct (pl_step err st ev) as [[st1 t1]|] eqn:E1; [|done].
  destruct (pl_exec err st1 evs) as [[st2 t2]|] eqn:E2; [|done]. injection He as <- <-.
  cbn [pl_releases]. rewrite E1, (IH _ _ E2). destruct ev as [ev|ts|ev].
  - unfold delay_events. csimpl. fold (delay_events (W := W) (P := P) evs). unfold pl_step in E1.
    destruct (match ev with EvSend ok => _ | _ => true end); [|done].
    destruct (rd_step PACKET_DELAY (pl_delay st) ev) as [[rd acts]|] eqn:E; [|done].
    injection E1 as <- <-. unfold rd_released. rewrite E, fmap_app. f_equal.
    unfold rd_step in E. destruct ev as [ex now|[b|[]] now|clk|now| |ok| |sig now]; try done;
      destruct (rd_pc_ (pl_delay st)); repeat case_match; by simplify_eq/=.
  - assert (pl_delay st1 = pl_delay st) as -> by (unfold pl_step in E1; by repeat case_match; simplify_eq/=).
    done.
  - assert (pl_delay st1 = pl_delay st) as -> by (unfold pl_step in E1; by repeat case_match; simplify_eq/=).
    done.
Qed.

Lemma Forall2_take_zip {A B C} (R : A -> B -> Prop) (g : B -> C) (f : A -> B -> C) (l : list A) (k : list B) n :
  Forall2 R l k -> (forall a b, R a b -> g b = f a b) ->
  take n (g <$> k) = zip_with f (take n l) (take n k).
Proof.
  intros H Hg. revert n; induction H as [|a b l k HR H IH]; intros [|n]; simpl; try done.
  rewrite (Hg a b HR). f_equal. apply IH.
Qed.

(** What the validator is offered of a filtered batch. *)
Lemma offered_of_filtered `{!AddrText} {P} `{SolanaPacketLaws P} fs (b : BankingPacketBatch P) :
  FilterSet_wf fs ->
  concat (pb_packets <$> fill_batches (proto_packets (discard_filtered fs b)) [] []) =
  List.filter (fun pp => negb (blocked_data (fs_map fs) (pp_data pp))) (proto_packets b).
Proof.
  intros Hwf. destruct (fill_batches_spec (proto_packets (discard_filtered fs b)) [] [])
    as (new & -> & Hc & _); [unfold VALIDATOR_PACKET_BATCH_SIZE; simpl; lia|].
  by rewrite app_nil_l, Hc, app_nil_l, discard_filtered_map, proto_packets_discard.
Qed.

Lemma bind_zip_with {A B C D} (f : A -> B -> C) (g : C -> list D) (h : A * B -> list D) l k :
  Forall (fun b => forall a, g (f a b) = h (a, b)) k -> zip_with f l k ≫= g = zip l k ≫= h.
Proof.
  intros Hk. revert l. induction Hk as [|b k Hb Hk IH]; intros [|a l]; try done.
  csimpl. rewrite Hb. f_equal. apply IH.
Qed.

(** ** Theorem *)

(** C1. From the QUIC servers to the validator.  Whatever the scheduling of the delay thread,
    the event loop, the subscribe calls and the mirror that inserts signatures: the batches
    the event loop takes are, one for one and in the order of arrival, the first batches that
    were received, each filtered by the delay thread with the filter set as it was when it
    left the line, at least 100 ms after its arrival; what they offer to the validator is, in
    order, exactly the convertible packets of those batches that were not marked and whose
    first signature was not in that filter set.  The channel in between never holds more than
    100,000 batches, and while the delay thread runs, every batch received has been taken, is
    in the channel, is being sent, or is still being held. *)
Theorem pipeline_end_to_end `{!AddrText} `{!HashIter} {W S}
    `{!Mpsc W S (result RelayerPacketsResponse Status)} {P} `{SolanaPacketLaws P}
    (err : string) fs t0 (w : W) evs (st : pl_state W S P) taken :
  FilterSet_wf fs -> rd_clock_mono t0 (delay_events evs) ->
  pl_exec err (pl_init fs t0 w) evs = Some (st, taken) ->
  let n := length taken in
  let received := take n (rd_received (delay_events evs)) in
  let released := take n (pl_releases err (pl_init fs t0 w) evs) in
  Forall2 (fun r f => r.1 + PACKET_DELAY <= f.1) received released /\
  taken = zip_with (fun r f => discard_filtered f.2 r.2) received released /\
  (b ← taken; concat (pb_packets <$> fill_batches (proto_packets b) [] [])) =
  (rf ← zip received released;
   List.filter (fun pp => negb (blocked_data (fs_map rf.2.2) (pp_data pp))) (proto_packets rf.1.2)) /\
  Z.of_nat (length (pl_chan st)) <= TPU_QUEUE_CAPACITY /\
  (thread_gone (pl_delay st) = false ->
   length (rd_received (delay_events evs)) =
     (n + length (pl_chan st) + length (rd_in_flight (pl_delay st)) + length (rd_queue (pl_delay st)))%nat).
Proof.
  intros Hwf Hm He n received released.
  destruct (pl_exec_delay err _ _ _ _ He) as (acts & Hrd & Hc & Hb). simpl in Hc.
  destruct (rd_sends_ok _ _ _ _ _ Hrd) as (lost & Hs & Hgone).
  pose proof (rd_released_run_sends _ _ _ _ _ Hrd) as Hsent.
  pose proof (rd_released_run_wf _ _ _ _ _ (conj Hwf I : rd_inv (rd_init fs t0)) Hm Hrd) as Hfw.
  destruct (dm_run_fifo (M := relayer_delay_machine PACKET_DELAY) (rd_init fs t0) (delay_events evs)
    (rd_received (delay_events evs)) (rd_released_run PACKET_DELAY (rd_init fs t0) (delay_events evs)) (pl_delay st))
    as (out & Hout & Hf2); [split; done | done | by eapply rd_exec_run |].
  unfold released. rewrite (pl_releases_delay _ _ _ _ _ He). clear released.
  change (pl_delay (pl_init fs t0 w)) with (rd_init (P := P) fs t0) in *.
  set (sent := rd_released_run PACKET_DELAY (rd_init fs t0) (delay_events evs)) in *.
  assert ((fun s => s.2.2) <$> sent = taken ++ pl_chan st ++ lost ++ (snd <$> rd_in_flight (pl_delay st))) as Hall.
  { apply (f_equal (fmap snd)) in Hsent. simpl in Hsent. rewrite fmap_app, <- !list_fmap_compose in Hsent.
    rewrite !app_assoc, <- Hc, <- Hs. exact Hsent. }
  pose proof (f_equal length Hall) as Hlen. rewrite length_fmap, !length_app, length_fmap in Hlen.
  pose proof (Forall2_length _ _ _ Hf2) as Hlo.
  assert (received = take n out) as ->.
  { unfold received. rewrite Hout. apply take_app_le. unfold n. lia. }
  rewrite <- fmap_take. set (released := (fun s => (s.1, s.2.1)) <$> take n sent).
  assert (taken = zip_with (fun r f => discard_filtered f.2 r.2) (take n out) released) as Htk.
  { unfold released. rewrite zip_with_fmap_r, <- (Forall2_take_zip _ (fun s => s.2.2) _ out sent n Hf2).
    - rewrite Hall. unfold n. by rewrite take_app_length.
    - intros r s [_ Hsd]. apply Hsd. }
  split_and!; [| done | | |].
  - apply Forall2_fmap_r. eapply Forall2_impl; [by apply Forall2_take|]. intros r s [Hr _]. exact Hr.
  - rewrite Htk at 1. apply bind_zip_with. unfold released. apply Forall_fmap, Forall_take.
    eapply Forall_impl; [exact Hfw|]. intros s Hswf r. by apply offered_of_filtered.
  - apply Hb. vm_compute. discriminate.
  - intros Hg. rewrite Hgone in Hlen by done. rewrite Hout, length_app, length_fmap. simpl in *. unfold n. lia.
Qed.

(** ** Witness: the validator subscribes, two transactions arrive, the first is withheld *)

#[local] Existing Instance toy_addr_text.

Definition toy_pl_events : list (pl_event (list toy_chan) SimplePacket) :=
  PlForward (FwSubscribe (Some toy_key)) ::
  (PlDelay <$> (toy_events ++
    [EvFilter; EvSend true; EvDrained; EvExit false (ms 121); EvRecv (Err Timeout) (ms 160);
     EvSweep (fun _ => ms 160); EvNow (ms 160); EvFilter; EvSend true])) ++
  [PlForward (FwExit false); PlRecv toy_ts; PlForward FwDropConnections; PlForward (FwExit false);
   PlRecv toy_ts].

Abbreviation toy_pl_run := (pl_exec "gone" (pl_init FilterSet_default 0 ([] : list toy_chan)) toy_pl_events).

(** The signature inserted at 12 ms was in the set when the first batch left the line at 120 ms,
    so the validator was offered the second transaction only. *)
Lemma pipeline_end_to_end_witness :
  exists st taken,
    toy_pl_run = Some (st, taken) /\
    Forall2 (fun r f => r.1 + PACKET_DELAY <= f.1)
      (take (length taken) (rd_received (delay_events toy_pl_events)))
      (take (length taken) (pl_releases "gone" (pl_init FilterSet_default 0 ([] : list toy_chan)) toy_pl_events)) /\
    length (rd_received (delay_events toy_pl_events)) =
      (length taken + length (pl_chan st) + length (rd_in_flight (pl_delay st)) +
       length (rd_queue (pl_delay st)))%nat /\
    pp_data <$> (b ← taken; concat (pb_packets <$> fill_batches (proto_packets b) [] [])) =
      [sp_bytes (toy_packet Byte.x08)].
Proof.
  assert (option_map (fun r => thread_gone (pl_delay r.1)) toy_pl_run = Some false) as Hg
    by (vm_compute; reflexivity).
  assert (option_map (fun r => pp_data <$>
    (b ← r.2; concat (pb_packets <$> fill_batches (proto_packets b) [] []))) toy_pl_run =
    Some [sp_bytes (toy_packet Byte.x08)]) as Hd by (vm_compute; reflexivity).
  destruct toy_pl_run as [[st taken]|] eqn:He; [|discriminate Hg]. injection Hg as Hg. injection Hd as Hd.
  exists st, taken. split; [reflexivity|].
  destruct (pipeline_end_to_end "gone" FilterSet_default 0 ([] : list toy_chan) toy_pl_events
    st taken) as (Hrel & _ & _ & _ & Hcons).
  - reflexivity.
  - repeat split; vm_compute; discriminate.
  - exact He.
  - split; [exact Hrel|]. split; [exact (Hcons Hg) | exact Hd].
Defined.
